(** * Telegram MarkdownV2 escaping ([utils/escape.py])

    A shallow embedding of the text transcoder of the bot: the regex-driven
    pass pipeline [escape], the selective span transform [replace_all] with
    its scanner [find_all_index], the header formatter [escapeshape], the
    backtick parity fixer [fix_uneven_backticks] and the view-count
    formatter [beautify_views].

    Python strings are modelled as lists of Unicode code points, the [re]
    module as a backtracking matcher that enumerates the ways a pattern can
    match in the order the engine tries them, and exceptions as an explicit
    result type. *)

From Stdlib Require Import String Ascii.
From Stdlib Require Import List NArith Arith Bool Lia.
Import ListNotations.

(* ================================================================== *)
(** ** Strings *)

Definition char := N.
Definition str := list char.

(** An ASCII literal as a Python string. *)
Definition lit (x : string) : str := map N_of_ascii (list_ascii_of_string x).

Definition NL : char := 10%N.          (* '\n' *)
Definition BSL : char := 92%N.         (* '\\' *)
Definition BQ : char := 96%N.          (* '`' *)
Definition AT : char := 64%N.          (* '@' *)
Definition CARET : char := 94%N.       (* '^' *)
Definition DOT : char := 46%N.         (* '.' *)
Definition BULLET : char := 8226%N.    (* U+2022 *)
Definition HEADING : char := 9614%N.   (* U+258E *)

(** [text[j:k]] for non-negative [j], [k]. *)
Definition slice (text : str) (j k : nat) : str := firstn (k - j) (skipn j text).

(** [str.isspace] on one code point; the same table serves [\s], [strip]
    and [split] (CPython's [_PyUnicode_IsWhitespace]). *)
Definition isspace (c : char) : bool :=
  ((9 <=? c) && (c <=? 13) || (28 <=? c) && (c <=? 32) || (c =? 133) || (c =? 160)
   || (c =? 5760) || (8192 <=? c) && (c <=? 8202) || (c =? 8232) || (c =? 8233)
   || (c =? 8239) || (c =? 8287) || (c =? 12288))%N.

(** First code point of every run of ten decimal digits (category Nd). *)
Definition decimal_zeros : list N :=
  [48; 1632; 1776; 1984; 2406; 2534; 2662; 2790; 2918; 3046; 3174; 3302; 3430;
   3558; 3664; 3792; 3872; 4160; 4240; 6112; 6160; 6470; 6608; 6784; 6800;
   6992; 7088; 7232; 7248; 42528; 43216; 43264; 43472; 43504; 43600; 44016;
   65296; 66720; 68912; 69734; 69872; 69942; 70096; 70384; 70736; 70864;
   71248; 71360; 71472; 71904; 72016; 72784; 73040; 73120; 73552; 92768;
   92864; 93008; 120782; 120792; 120802; 120812; 120822; 123200; 123632;
   124144; 125264; 130032]%N.

(** [\d] on one code point. *)
Definition isdigit (c : char) : bool :=
  existsb (fun z => (z <=? c) && (c <? z + 10))%N decimal_zeros.

Fixpoint lstrip (s : str) : str :=
  match s with
  | c :: s' => if isspace c then lstrip s' else s
  | [] => []
  end.

(** [s.strip()] *)
Definition strip (s : str) : str := rev (lstrip (rev (lstrip s))).

Fixpoint startswith (s p : str) {struct p} : bool :=
  match p with
  | [] => true
  | x :: p' =>
      match s with
      | y :: s' => N.eqb x y && startswith s' p'
      | [] => false
      end
  end.

(** [s.split(sep)] for a one-character separator, as the list of fields with
    the field being read kept apart. *)
Fixpoint split_on (sep : char) (cur : str) (s : str) : list str :=
  match s with
  | [] => [rev cur]
  | c :: s' => if N.eqb c sep then rev cur :: split_on sep [] s'
               else split_on sep (c :: cur) s'
  end.

Definition split_lines (s : str) : list str := split_on NL [] s.

(** [s.split()]: the maximal runs of non-whitespace. *)
Fixpoint split_ws (cur : str) (s : str) : list str :=
  match s with
  | [] => match cur with [] => [] | _ => [rev cur] end
  | c :: s' =>
      if isspace c then
        match cur with [] => split_ws [] s' | _ => rev cur :: split_ws [] s' end
      else split_ws (c :: cur) s'
  end.

(** [sep.join(parts)] *)
Fixpoint join (sep : str) (parts : list str) : str :=
  match parts with
  | [] => []
  | [p] => p
  | p :: ps => p ++ sep ++ join sep ps
  end.

(** [s.count(c)] for a one-character needle. *)
Definition count (c : char) (s : str) : nat :=
  length (filter (N.eqb c) s).

(* ================================================================== *)
(** ** Exceptions *)

Inductive exn := IndexError | ReError.

Inductive result (A : Type) : Type :=
| Ok (a : A)
| Raise (e : exn).
Arguments Ok {A} a.
Arguments Raise {A} e.

Definition bind {A B} (m : result A) (f : A -> result B) : result B :=
  match m with
  | Ok a => f a
  | Raise e => Raise e
  end.

Notation "x <- m ;; k" := (bind m (fun x => k))
  (at level 61, m at next level, right associativity).

Fixpoint mapM {A B} (f : A -> result B) (l : list A) : result (list B) :=
  match l with
  | [] => Ok []
  | a :: l' => b <- f a ;; bs <- mapM f l' ;; Ok (b :: bs)
  end.

(** [l[i]] *)
Definition getitem {A} (l : list A) (i : nat) : result A :=
  match nth_error l i with
  | Some a => Ok a
  | None => Raise IndexError
  end.

(** [range(start, stop, step)] for a positive step. *)
Fixpoint range_from (start step n : nat) : list nat :=
  match n with
  | 0 => []
  | S n' => start :: range_from (start + step) step n'
  end.

Definition range (start stop step : nat) : list nat :=
  range_from start step ((stop - start + (step - 1)) / step).

(* ================================================================== *)
(** ** Regular expressions

    The patterns of the module use literals, character classes, [^] under
    [re.MULTILINE], counted, greedy and lazy repetition of one character or
    class, concatenation, alternation and capturing groups.  [replace_all]
    and [find_all_index] take a pattern from their caller: for them the type
    also has the lookahead [(?=...)], inside which a group can capture text
    that the match does not consume. *)

Inductive regex :=
| Chr (c : char)
| Cls (p : char -> bool)
| Bol
| Rep (p : char -> bool) (lo : nat) (hi : option nat) (lazy : bool)
| Cat (r1 r2 : regex)
| Alt (r1 r2 : regex)
| Grp (g : nat) (r : regex)
| Ahead (r : regex).

(** Where the matcher stands: the character before it, its index, and the
    text still ahead. *)
Record cursor := Cursor { prev : option char; pos : nat; rest : str }.

Definition span := (nat * nat)%type.
Definition caps := list (nat * span).

Fixpoint lookup (g : nat) (cs : caps) : option span :=
  match cs with
  | [] => None
  | (g', sp) :: cs' => if g =? g' then Some sp else lookup g cs'
  end.

Definition at_bol (cur : cursor) : bool :=
  match prev cur with
  | None => true
  | Some c => N.eqb c NL
  end.

Definition step1 (p : char -> bool) (cur : cursor) : list cursor :=
  match rest cur with
  | c :: s' => if p c then [Cursor (Some c) (S (pos cur)) s'] else []
  | [] => []
  end.

Definition room (hi : option nat) : bool :=
  match hi with
  | Some 0 => false
  | _ => true
  end.

(** The cursors a repetition can stop at, in the order the engine tries
    them: longest first when greedy, shortest first when lazy. *)
Fixpoint rep (p : char -> bool) (lo : nat) (hi : option nat) (lazy : bool)
             (pv : option char) (i : nat) (s : str) : list cursor :=
  let stop := match lo with 0 => [Cursor pv i s] | S _ => [] end in
  let more :=
    match s with
    | c :: s' =>
        if p c && room hi
        then rep p (Nat.pred lo) (option_map Nat.pred hi) lazy (Some c) (S i) s'
        else []
    | [] => []
    end in
  if lazy then stop ++ more else more ++ stop.

(** All the ways [r] matches at a cursor, in backtracking order, each with
    the groups it set. *)
Fixpoint run (r : regex) (cur : cursor) (cs : caps) : list (cursor * caps) :=
  match r with
  | Chr c => map (fun c' => (c', cs)) (step1 (N.eqb c) cur)
  | Cls p => map (fun c' => (c', cs)) (step1 p cur)
  | Bol => if at_bol cur then [(cur, cs)] else []
  | Rep p lo hi lazy =>
      map (fun c' => (c', cs)) (rep p lo hi lazy (prev cur) (pos cur) (rest cur))
  | Cat r1 r2 => flat_map (fun x => run r2 (fst x) (snd x)) (run r1 cur cs)
  | Alt r1 r2 => run r1 cur cs ++ run r2 cur cs
  | Grp g r1 =>
      map (fun x => (fst x, (g, (pos cur, pos (fst x))) :: snd x)) (run r1 cur cs)
  | Ahead r1 =>
      match run r1 cur cs with
      | x :: _ => [(cur, snd x)]
      | [] => []
      end
  end.

(** A match object: its span and the groups that took part. *)
Record rmatch := Match { m_start : nat; m_end : nat; m_caps : caps }.

Definition match_at (r : regex) (cur : cursor) : option rmatch :=
  match run r cur [] with
  | (c', cs) :: _ => Some (Match (pos cur) (pos c') cs)
  | [] => None
  end.

(** The first way [r] matches at a cursor that consumes something: what the
    engine looks for right after an empty match at the same place. *)
Definition match_beyond (r : regex) (cur : cursor) : option rmatch :=
  match filter (fun x => negb (pos (fst x) =? pos cur)) (run r cur []) with
  | (c', cs) :: _ => Some (Match (pos cur) (pos c') cs)
  | [] => None
  end.

(** [re.finditer]: leftmost matches, left to right, without overlap.  [skip]
    counts the characters of the last match still to step over.  After an
    empty match the engine first looks for a match that is not empty at the
    same place, then goes on from the next character. *)
Fixpoint finditer_from (r : regex) (pv : option char) (i : nat) (s : str)
                       (skip : nat) : list rmatch :=
  match skip with
  | S k =>
      match s with
      | c :: s' => finditer_from r (Some c) (S i) s' k
      | [] => []
      end
  | 0 =>
      match match_at r (Cursor pv i s) with
      | Some m =>
          if m_end m =? i then
            m :: match s with
                 | c :: s' =>
                     match match_beyond r (Cursor pv i s) with
                     | Some m' => m' :: finditer_from r (Some c) (S i) s' (m_end m' - i - 1)
                     | None => finditer_from r (Some c) (S i) s' 0
                     end
                 | [] => []
                 end
          else
            m :: match s with
                 | c :: s' => finditer_from r (Some c) (S i) s' (m_end m - i - 1)
                 | [] => []
                 end
      | None =>
          match s with
          | c :: s' => finditer_from r (Some c) (S i) s' 0
          | [] => []
          end
      end
  end.

Definition finditer (r : regex) (text : str) : list rmatch :=
  finditer_from r None 0 text 0.

(** Number of groups of a pattern. *)
Fixpoint ngroups (r : regex) : nat :=
  match r with
  | Cat r1 r2 | Alt r1 r2 => Nat.max (ngroups r1) (ngroups r2)
  | Grp g r1 => Nat.max g (ngroups r1)
  | Ahead r1 => ngroups r1
  | _ => 0
  end.

(** [match.span(g)]: [None] when the group took no part, [IndexError] when
    the pattern has no such group. *)
Definition group_span (r : regex) (m : rmatch) (g : nat) : result (option span) :=
  if g <=? ngroups r then Ok (lookup g (m_caps m)) else Raise IndexError.

(** Replacement templates: literal text and group references. *)
Inductive titem := TLit (s : str) | TRef (g : nat).
Definition template := list titem.

Definition is_ascii_letter (c : char) : bool :=
  ((65 <=? c) && (c <=? 90) || (97 <=? c) && (c <=? 122))%N.

(** The escapes a template knows: a, b, f, n, r, t, v. *)
Definition template_escape (c : char) : option char :=
  (if c =? 97 then Some 7 else if c =? 98 then Some 8 else if c =? 102 then Some 12
   else if c =? 110 then Some 10 else if c =? 114 then Some 13
   else if c =? 116 then Some 9 else if c =? 118 then Some 11 else None)%N.

(** Put a literal character in front of a parsed template, joining it to the
    literal that follows. *)
Definition lit_cons (s : str) (t : template) : template :=
  match t with
  | TLit s' :: t' => TLit (s ++ s') :: t'
  | _ => TLit s :: t
  end.

(** The template of [re.sub] read as the [re] module reads it: a backslash
    and a digit from 1 to 9 is a group reference, two backslashes are one, a
    backslash and a letter is a known escape or an error, and a backslash
    before anything else stays with its character.  The forms the module
    never writes (a reference of several digits, [\0], [\g<name>]) and a
    backslash at the end are rejected. *)
Fixpoint parse_template (s : str) : result template :=
  match s with
  | [] => Ok []
  | c :: s' =>
      if N.eqb c BSL then
        match s' with
        | [] => Raise ReError
        | e :: s'' =>
            rest <- parse_template s'' ;;
            if (49 <=? e)%N && (e <=? 57)%N then
              match s'' with
              | d :: _ =>
                  if (48 <=? d)%N && (d <=? 57)%N then Raise ReError
                  else Ok (TRef (N.to_nat (e - 48)) :: rest)
              | [] => Ok (TRef (N.to_nat (e - 48)) :: rest)
              end
            else if N.eqb e 48 then Raise ReError
            else if N.eqb e BSL then Ok (lit_cons [BSL] rest)
            else if is_ascii_letter e then
              match template_escape e with
              | Some x => Ok (lit_cons [x] rest)
              | None => Raise ReError
              end
            else Ok (lit_cons [BSL; e] rest)
        end
      else
        rest <- parse_template s' ;;
        Ok (lit_cons [c] rest)
  end.

Definition valid_item (r : regex) (it : titem) : bool :=
  match it with
  | TLit _ => true
  | TRef g => g <=? ngroups r
  end.

Definition expand (text : str) (m : rmatch) (t : template) : str :=
  flat_map (fun it =>
              match it with
              | TLit s => s
              | TRef g => match lookup g (m_caps m) with
                          | Some (a, b) => slice text a b
                          | None => []
                          end
              end) t.

Fixpoint sub_loop (text : str) (t : template) (i : nat) (ms : list rmatch) : str :=
  match ms with
  | [] => slice text i (length text)
  | m :: ms' => slice text i (m_start m) ++ expand text m t ++ sub_loop text t (m_end m) ms'
  end.

(** [re.sub(pattern, template, text)]: the template is read first, and a
    reference to a group the pattern lacks is an error. *)
Definition re_sub (r : regex) (template : str) (text : str) : result str :=
  t <- parse_template template ;;
  if forallb (valid_item r) t
  then Ok (sub_loop text t 0 (finditer r text))
  else Raise ReError.

(* ================================================================== *)
(** ** Pattern and template notation *)

Definition C (a : ascii) : regex := Chr (N_of_ascii a).
Definition T (x : string) : titem := TLit (lit x).

Declare Scope re_scope.
Delimit Scope re_scope with re.
Bind Scope re_scope with regex.
Infix ">>" := Cat (at level 45, right associativity) : re_scope.
Infix "<|>" := Alt (at level 55, right associativity) : re_scope.

Definition eqc (a : ascii) : char -> bool := N.eqb (N_of_ascii a).
Definition dot : char -> bool := fun c => negb (N.eqb c NL).               (* . *)
Definition any_char : char -> bool :=                                      (* [\D\d\s] *)
  fun c => negb (isdigit c) || isdigit c || isspace c.

Definition plus (p : char -> bool) := Rep p 1 None false.        (* p+ *)
Definition star (p : char -> bool) := Rep p 0 None false.        (* p* *)
Definition opt (p : char -> bool) := Rep p 0 (Some 1) false.     (* p? *)
Definition lazy_plus (p : char -> bool) := Rep p 1 None true.    (* p+? *)
Definition lazy_star (p : char -> bool) := Rep p 0 None true.    (* p*? *)
Definition times (p : char -> bool) (lo hi : nat) := Rep p lo (Some hi) false.  (* p{lo,hi} *)

(* ================================================================== *)
(** ** [find_all_index] and [replace_all] *)

Fixpoint index_list_of (pattern : regex) (ms : list rmatch) (index_list : list nat)
  : result (list nat) :=
  match ms with
  | [] => Ok index_list
  | m :: ms' =>
      g1 <- group_span pattern m 1 ;;
      match g1 with
      | Some (start, end_) => index_list_of pattern ms' (index_list ++ [start; end_])
      | None => index_list_of pattern ms' index_list
      end
  end.

Definition find_all_index (text : str) (pattern : regex) : result (list nat) :=
  index_list <- index_list_of pattern (finditer pattern text) [0] ;;
  Ok (index_list ++ [length text]).

Definition replace_all (text : str) (pattern : regex) (function : str -> str)
  : result str :=
  poslist <- find_all_index text pattern ;;
  matched_parts <-
    mapM (fun i =>
            start <- getitem poslist i ;;
            end_ <- getitem poslist (i + 1) ;;
            Ok (function (slice text start end_)))
         (range 1 (length poslist - 1) 2) ;;
  preserved <-
    mapM (fun i =>
            if i + 1 <? length poslist then
              j <- getitem poslist i ;;
              k <- getitem poslist (i + 1) ;;
              Ok [slice text j k]
            else Ok [])
         (range 0 (length poslist) 2) ;;
  let preserved_parts := concat preserved in
  let matched_parts' :=
    if length matched_parts <? length preserved_parts
    then matched_parts ++ [[]] else matched_parts in
  let preserved_parts' :=
    if length matched_parts <? length preserved_parts then preserved_parts
    else if length preserved_parts <? length matched_parts
         then preserved_parts ++ [[]] else preserved_parts in
  Ok (concat (flat_map (fun ot => [fst ot; snd ot])
                       (combine preserved_parts' matched_parts'))).

(* ================================================================== *)
(** ** The transform functions *)

Definition escapeshape (text : str) : str :=
  match strip text with
  | [] => []
  | _ :: _ =>
      match split_ws [] text with
      | w :: words' =>
          if startswith w (lit "#")
          then [HEADING] ++ lit "*" ++ join (lit " ") words' ++ lit "*" ++ [NL; NL]
          else text
      | [] => text
      end
  end.

Definition escape_special_char (text : str) : str := BSL :: text.
Definition escape_minus (text : str) : str := BSL :: text.
Definition escape_temp_minus (text : str) : str := lit "@+>@".
Definition escape_backquote (text : str) : str := lit "\`\`".
Definition escape_backquote_in_code (text : str) : str := lit "@->@".

(* ================================================================== *)
(** ** [fix_uneven_backticks] *)

Definition p_escaped_backtick : regex := (C "\" >> C "`")%re.               (* "\\`" *)
Definition p_backtick_fix : regex := (C "\" >> C "`" <|> Grp 1 (C "`"))%re. (* "\\`|(`)" *)

Fixpoint fix_lines (lines : list str) (in_code_block : bool) : result (list str) :=
  match lines with
  | [] => Ok []
  | line :: lines' =>
      if startswith (strip line) (lit "```") then
        out <- fix_lines lines' (negb in_code_block) ;;
        Ok (line :: out)
      else if negb in_code_block then
        clean_line <- re_sub p_escaped_backtick [] line ;;
        if negb (count BQ clean_line mod 2 =? 0) then
          line' <- replace_all line p_backtick_fix (fun x => BSL :: x) ;;
          out <- fix_lines lines' in_code_block ;;
          Ok (line' :: out)
        else
          out <- fix_lines lines' in_code_block ;;
          Ok (line :: out)
      else
        out <- fix_lines lines' in_code_block ;;
        Ok (line :: out)
  end.

Definition fix_uneven_backticks (text : str) : result str :=
  lines <- fix_lines (split_lines text) false ;;
  Ok (join [NL] lines).

(* ================================================================== *)
(** ** The patterns of [escape], each with its source text *)

Local Open Scope re_scope.

Definition AT3 : regex := times (eqc "@") 3 3.                                (* "\@{3}" *)
Definition fence_arm : regex :=                                              (* "```[\D\d\s]+?```" *)
  C "`" >> C "`" >> C "`" >> lazy_plus any_char >> C "`" >> C "`" >> C "`".
Definition inline_arm : regex :=                                             (* "`[\D\d\s]*?`" *)
  C "`" >> lazy_star any_char >> C "`".
Definition dash_item_arm : regex :=                                          (* "\n[\s]*-\s" *)
  Chr NL >> star isspace >> C "-" >> Cls isspace.

Definition p_esc_lbracket : regex := C "\" >> C "[".                         (* "\\\[" *)
Definition p_esc_rbracket : regex := C "\" >> C "]".                         (* "\\\]" *)
Definition p_esc_lparen : regex := C "\" >> C "(".                           (* "\\\(" *)
Definition p_esc_rparen : regex := C "\" >> C ")".                           (* "\\\)" *)
Definition p_two_backslashes : regex := C "\" >> C "\".                      (* "\\\\" *)
Definition p_bold : regex :=                                                 (* "\*{2}(.*?)\*{2}" *)
  times (eqc "*") 2 2 >> Grp 1 (lazy_star dot) >> times (eqc "*") 2 2.
Definition p_star_item : regex :=                                            (* "\n{1,2}\*\s" *)
  times (N.eqb NL) 1 2 >> C "*" >> Cls isspace.
Definition p_bold_saved : regex :=                                           (* "\@{3}(.*?)\@{3}" *)
  AT3 >> Grp 1 (lazy_star dot) >> AT3.
Definition p_link : regex :=                                                 (* "\!?\[(.*?)\]\((.*?)\)" *)
  opt (eqc "!") >> C "[" >> Grp 1 (lazy_star dot) >> C "]" >> C "("
  >> Grp 2 (lazy_star dot) >> C ")".
Definition s_lbracket : regex := C "@" >> C "-" >> C ">" >> C "@".           (* "\@\-\>\@" *)
Definition s_rbracket : regex := C "@" >> C "<" >> C "-" >> C "@".           (* "\@\<\-\@" *)
Definition s_lparen : regex := C "@" >> C "-" >> C "-" >> C ">" >> C "@".    (* "\@\-\-\>\@" *)
Definition s_rparen : regex := C "@" >> C "<" >> C "-" >> C "-" >> C "@".    (* "\@\<\-\-\@" *)
Definition p_link_saved : regex :=                              (* "\@{3}(.*?)\@{3}\^{3}(.*?)\^{3}" *)
  AT3 >> Grp 1 (lazy_star dot) >> AT3 >> times (eqc "^") 3 3
  >> Grp 2 (lazy_star dot) >> times (eqc "^") 3 3.
Definition p_header : regex :=                                  (* "(^#+\s.+?\n+)|```[\D\d\s]+?```" *)
  Grp 1 (Bol >> plus (eqc "#") >> Cls isspace >> lazy_plus dot >> plus (N.eqb NL))
  <|> fence_arm.
Definition p_plus : regex :=                   (* "(\+)|\n[\s]*-\s|```[\D\d\s]+?```|`[\D\d\s]*?`" *)
  Grp 1 (C "+") <|> dash_item_arm <|> fence_arm <|> inline_arm.
Definition p_numbered : regex :=                                             (* "\n{1,2}(\s*\d{1,2}\.\s)" *)
  times (N.eqb NL) 1 2
  >> Grp 1 (star isspace >> times isdigit 1 2 >> C "." >> Cls isspace).
Definition p_minus_outside : regex := fence_arm <|> Grp 1 (C "-").           (* "```[\D\d\s]+?```|(-)" *)
Definition s_minus : regex := C "@" >> C "+" >> C ">" >> C "@".              (* "\@\+\>\@" *)
Definition p_dash_item : regex :=                                            (* "\n{1,2}(\s*)-\s" *)
  times (N.eqb NL) 1 2 >> Grp 1 (star isspace) >> C "-" >> Cls isspace.
Definition s_fenced_minus : regex := C "@" >> C "<" >> C "+" >> C "@".       (* "\@\<\+\@" *)
Definition p_minus : regex :=                   (* "(-)|\n[\s]*-\s|```[\D\d\s]+?```|`[\D\d\s]*?`" *)
  Grp 1 (C "-") <|> dash_item_arm <|> fence_arm <|> inline_arm.
Definition p_fence : regex :=                                                (* "```([\D\d\s]+?)```" *)
  C "`" >> C "`" >> C "`" >> Grp 1 (lazy_plus any_char) >> C "`" >> C "`" >> C "`".
Definition p_backtick_outside : regex :=                                     (* "\@\@\@[\s\d\D]+?\@\@\@|(`)" *)
  (C "@" >> C "@" >> C "@" >> lazy_plus any_char >> C "@" >> C "@" >> C "@")
  <|> Grp 1 (C "`").
Definition s_backtick : regex := C "@" >> C "<" >> C "@".                    (* "\@\<\@" *)
Definition p_two_backticks : regex := Grp 1 (C "`" >> C "`").                (* "(``)" *)
Definition p_fence_saved : regex :=                                          (* "\@{3}([\D\d\s]+?)\@{3}" *)
  AT3 >> Grp 1 (lazy_plus any_char) >> AT3.

Local Close Scope re_scope.

(* ================================================================== *)
(** ** [escape] *)

Definition escape (text : str) (flag : bool) : result str :=
  (* Save already escaped brackets and parentheses *)
  text <- re_sub p_esc_lbracket (lit "@->@") text ;;
  text <- re_sub p_esc_rbracket (lit "@<-@") text ;;
  text <- re_sub p_esc_lparen (lit "@-->@") text ;;
  text <- re_sub p_esc_rparen (lit "@<--@") text ;;
  (* Handle backslashes special case *)
  text <- (if flag then re_sub p_two_backslashes (lit "@@@") text else Ok text) ;;
  (* Save escaped backticks *)
  text <- re_sub p_escaped_backtick (lit "@<@") text ;;
  (* Double all backslashes *)
  text <- re_sub (C "\") (lit "\\\\") text ;;
  (* Restore special backslashes if needed *)
  text <- (if flag then re_sub AT3 (lit "\\\\") text else Ok text) ;;
  (* Escape underscores *)
  text <- re_sub (C "_") (lit "\_") text ;;
  (* Handle bold text (save for later restoration) *)
  text <- re_sub p_bold (lit "@@@\1@@@") text ;;
  (* Convert bullet lists *)
  text <- re_sub p_star_item ([NL; NL; BULLET] ++ lit " ") text ;;
  (* Escape asterisks *)
  text <- re_sub (C "*") (lit "\*") text ;;
  (* Restore bold text *)
  text <- re_sub p_bold_saved (lit "*\1*") text ;;
  (* Handle links (save for later restoration) *)
  text <- re_sub p_link (lit "@@@\1@@@^^^\2^^^") text ;;
  (* Escape brackets and parentheses *)
  text <- re_sub (C "[") (lit "\[") text ;;
  text <- re_sub (C "]") (lit "\]") text ;;
  text <- re_sub (C "(") (lit "\(") text ;;
  text <- re_sub (C ")") (lit "\)") text ;;
  (* Restore saved brackets and parentheses *)
  text <- re_sub s_lbracket (lit "\[") text ;;
  text <- re_sub s_rbracket (lit "\]") text ;;
  text <- re_sub s_lparen (lit "\(") text ;;
  text <- re_sub s_rparen (lit "\)") text ;;
  (* Restore links *)
  text <- re_sub p_link_saved (lit "[\1](\2)") text ;;
  (* Escape other special characters *)
  text <- re_sub (C "~") (lit "\~") text ;;
  text <- re_sub (C ">") (lit "\>") text ;;
  (* Format headers *)
  text <- replace_all text p_header escapeshape ;;
  (* Escape hash marks *)
  text <- re_sub (C "#") (lit "\#") text ;;
  (* Handle plus and list items *)
  text <- replace_all text p_plus escape_special_char ;;
  (* Format numbered lists *)
  text <- re_sub p_numbered ([NL; NL] ++ lit "\1") text ;;
  (* Handle minus signs: first preserve those in code blocks *)
  text <- replace_all text p_minus_outside escape_temp_minus ;;
  text <- re_sub (C "-") (lit "@<+@") text ;;
  text <- re_sub s_minus (lit "-") text ;;
  (* Convert dash lists to bullet points *)
  text <- re_sub p_dash_item ([NL; NL] ++ lit "\1" ++ [BULLET] ++ lit " ") text ;;
  (* Escape remaining minus signs *)
  text <- re_sub s_fenced_minus (lit "\-") text ;;
  text <- replace_all text p_minus escape_minus ;;
  (* Save code blocks for later restoration *)
  text <- re_sub p_fence (lit "@@@\1@@@") text ;;
  (* Handle backticks in code blocks *)
  text <- replace_all text p_backtick_outside escape_backquote_in_code ;;
  (* Escape remaining backticks *)
  text <- re_sub (C "`") (lit "\`") text ;;
  text <- re_sub s_backtick (lit "\`") text ;;
  text <- re_sub s_lbracket (lit "`") text ;;
  (* Handle double backticks *)
  text <- replace_all text p_two_backticks escape_backquote ;;
  (* Restore code blocks *)
  text <- re_sub p_fence_saved (lit "```\1```") text ;;
  (* Escape remaining special characters *)
  text <- re_sub (C "=") (lit "\=") text ;;
  text <- re_sub (C "|") (lit "\|") text ;;
  text <- re_sub (C "{") (lit "\{") text ;;
  text <- re_sub (C "}") (lit "\}") text ;;
  text <- re_sub (C ".") (lit "\.") text ;;
  text <- re_sub (C "!") (lit "\!") text ;;
  (* Fix lines with uneven backtick counts *)
  fix_uneven_backticks text.

(* ================================================================== *)
(** ** The selective span transform, as the specification words it

    The Transform regions are the spans of group 1 over the matches, in
    order; the Preserve regions are what lies before, between and after
    them.  [weave] walks both in order. *)

Fixpoint targets_of (ms : list rmatch) : list span :=
  match ms with
  | [] => []
  | m :: ms' =>
      match lookup 1 (m_caps m) with
      | Some sp => sp :: targets_of ms'
      | None => targets_of ms'
      end
  end.

Definition targets (pattern : regex) (text : str) : list span :=
  targets_of (finditer pattern text).

Fixpoint weave (text : str) (f : str -> str) (i : nat) (sp : list span) : str :=
  match sp with
  | [] => slice text i (length text)
  | (a, b) :: sp' => slice text i a ++ f (slice text a b) ++ weave text f b sp'
  end.

(** Regions in order, without overlap, inside [i, L]. *)
Fixpoint ordered (i L : nat) (sp : list span) : Prop :=
  match sp with
  | [] => i <= L
  | (a, b) :: sp' => i <= a /\ a <= b /\ ordered b L sp'
  end.

(** The Preserve regions around a list of Transform regions. *)
Fixpoint gaps (i L : nat) (sp : list span) : list span :=
  match sp with
  | [] => [(i, L)]
  | (a, b) :: sp' => (i, a) :: gaps b L sp'
  end.

Definition flat (sp : list span) : list nat :=
  flat_map (fun ab => [fst ab; snd ab]) sp.

(* ================================================================== *)
(** ** The passes without their error plumbing *)

(** What [re.sub] returns once its template is accepted. *)
Definition sub (r : regex) (t : template) (text : str) : str :=
  sub_loop text t 0 (finditer r text).

(** What [replace_all] returns once the pattern has a first group. *)
Definition span_transform (text : str) (r : regex) (f : str -> str) : str :=
  weave text f 0 (targets r text).

(** The line test of [fix_uneven_backticks]: an odd count of backticks once
    the escaped ones are removed. *)
Definition uneven (line : str) : bool :=
  negb (count BQ (sub p_escaped_backtick [] line) mod 2 =? 0).

Definition is_fence_line (line : str) : bool := startswith (strip line) (lit "```").

Definition fix_line (line : str) : str :=
  span_transform line p_backtick_fix (fun x => BSL :: x).

Fixpoint fixed_lines (lines : list str) (in_code_block : bool) : list str :=
  match lines with
  | [] => []
  | line :: lines' =>
      if is_fence_line line then line :: fixed_lines lines' (negb in_code_block)
      else if negb in_code_block && uneven line
           then fix_line line :: fixed_lines lines' in_code_block
           else line :: fixed_lines lines' in_code_block
  end.

(* ================================================================== *)
(** ** Static facts about a pattern *)

(** Can the pattern match without consuming a character? *)
Fixpoint nullable (r : regex) : bool :=
  match r with
  | Chr _ | Cls _ => false
  | Bol => true
  | Rep _ lo _ _ => lo =? 0
  | Cat r1 r2 => nullable r1 && nullable r2
  | Alt r1 r2 => nullable r1 || nullable r2
  | Grp _ r1 => nullable r1
  | Ahead _ => true
  end.

(** The characters a non-empty match can start with. *)
Fixpoint first (r : regex) (c : char) : bool :=
  match r with
  | Chr c' => N.eqb c' c
  | Cls p => p c
  | Bol => false
  | Rep p _ _ _ => p c
  | Cat r1 r2 => first r1 c || nullable r1 && first r2 c
  | Alt r1 r2 => first r1 c || first r2 c
  | Grp _ r1 => first r1 c
  | Ahead _ => false
  end.

(** Does every match of the pattern consume the literal character [x]? *)
Fixpoint needs (r : regex) (x : char) : bool :=
  match r with
  | Chr c => N.eqb c x
  | Cls _ | Bol | Rep _ _ _ _ | Ahead _ => false
  | Cat r1 r2 => needs r1 x || needs r2 x
  | Alt r1 r2 => needs r1 x && needs r2 x
  | Grp _ r1 => needs r1 x
  end.

(** Does group [g], wherever the pattern has it, consume the literal [x]? *)
Fixpoint gneeds (g : nat) (r : regex) (x : char) : bool :=
  match r with
  | Chr _ | Cls _ | Bol | Rep _ _ _ _ => true
  | Cat r1 r2 | Alt r1 r2 => gneeds g r1 x && gneeds g r2 x
  | Grp g' r1 => (if g' =? g then needs r1 x else true) && gneeds g r1 x
  | Ahead r1 => gneeds g r1 x
  end.

(** The characters a participation of group [g] can start with. *)
Fixpoint gfirst (g : nat) (r : regex) (c : char) : bool :=
  match r with
  | Chr _ | Cls _ | Bol | Rep _ _ _ _ => false
  | Cat r1 r2 | Alt r1 r2 => gfirst g r1 c || gfirst g r2 c
  | Grp g' r1 => (if g' =? g then first r1 c else false) || gfirst g r1 c
  | Ahead r1 => gfirst g r1 c
  end.

(** Is group [g], wherever the pattern has it, unable to match the empty
    string? *)
Fixpoint gnonnull (g : nat) (r : regex) : bool :=
  match r with
  | Chr _ | Cls _ | Bol | Rep _ _ _ _ => true
  | Cat r1 r2 | Alt r1 r2 => gnonnull g r1 && gnonnull g r2
  | Grp g' r1 => (if g' =? g then negb (nullable r1) else true) && gnonnull g r1
  | Ahead r1 => gnonnull g r1
  end.

(** Is the pattern free of lookahead?  Then a group captures only what the
    match consumes. *)
Fixpoint lookfree (r : regex) : bool :=
  match r with
  | Chr _ | Cls _ | Bol | Rep _ _ _ _ => true
  | Cat r1 r2 | Alt r1 r2 => lookfree r1 && lookfree r2
  | Grp _ r1 => lookfree r1
  | Ahead _ => false
  end.

(** A literal of one or more characters as a pattern. *)
Fixpoint chars (c : char) (cs : str) : regex :=
  match cs with
  | [] => Chr c
  | d :: cs' => Cat (Chr c) (chars d cs')
  end.

(** The character before the cursor once [u] has been read. *)
Definition prev_after (pv : option char) (u : str) : option char :=
  fold_left (fun _ c => Some c) u pv.

(** A pattern that matches exactly the literal [D], in one way. *)
Definition is_literal (r : regex) (D : str) : Prop :=
  forall pv i s cs,
    run r (Cursor pv i s) cs
    = if startswith s D
      then [(Cursor (prev_after pv D) (i + length D) (skipn (length D) s), cs)]
      else [].

(** An opening literal, a lazy non-empty interior in group 1, a closing
    literal. *)
Definition delimited (o c : regex) : regex :=
  Cat o (Cat (Grp 1 (lazy_plus any_char)) c).

(* ================================================================== *)
(** ** The scans read from a position

    [sub] and [span_transform] on the text [pre ++ s], from the point where
    [pre] has been read and [s] is still ahead. *)

Definition sub_rel (r : regex) (t : template) (pv : option char) (pre s : str) : str :=
  sub_loop (pre ++ s) t (length pre) (finditer_from r pv (length pre) s 0).

Definition weave_rel (r : regex) (f : str -> str) (pv : option char) (pre s : str) : str :=
  weave (pre ++ s) f (length pre) (targets_of (finditer_from r pv (length pre) s 0)).

(** Matches in order, without overlap, from [i] on. *)
Fixpoint ordered_ms (i : nat) (ms : list rmatch) : Prop :=
  match ms with
  | [] => True
  | m :: ms' => i <= m_start m /\ m_start m <= m_end m /\ ordered_ms (m_end m) ms'
  end.

(* ================================================================== *)
(** ** The pipeline of [escape] without its error plumbing, by stage *)

(** Protection of escaped input, backslashes, emphasis, links, brackets,
    tilde and greater-than. *)
Definition stage_inline (flag : bool) (text : str) : str :=
  let text := sub p_esc_lbracket [T "@->@"] text in
  let text := sub p_esc_rbracket [T "@<-@"] text in
  let text := sub p_esc_lparen [T "@-->@"] text in
  let text := sub p_esc_rparen [T "@<--@"] text in
  let text := if flag then sub p_two_backslashes [T "@@@"] text else text in
  let text := sub p_escaped_backtick [T "@<@"] text in
  let text := sub (C "\") [T "\\"] text in
  let text := if flag then sub AT3 [T "\\"] text else text in
  let text := sub (C "_") [T "\_"] text in
  let text := sub p_bold [T "@@@"; TRef 1; T "@@@"] text in
  let text := sub p_star_item [TLit ([NL; NL; BULLET] ++ lit " ")] text in
  let text := sub (C "*") [T "\*"] text in
  let text := sub p_bold_saved [T "*"; TRef 1; T "*"] text in
  let text := sub p_link [T "@@@"; TRef 1; T "@@@^^^"; TRef 2; T "^^^"] text in
  let text := sub (C "[") [T "\["] text in
  let text := sub (C "]") [T "\]"] text in
  let text := sub (C "(") [T "\("] text in
  let text := sub (C ")") [T "\)"] text in
  let text := sub s_lbracket [T "\["] text in
  let text := sub s_rbracket [T "\]"] text in
  let text := sub s_lparen [T "\("] text in
  let text := sub s_rparen [T "\)"] text in
  let text := sub p_link_saved [T "["; TRef 1; T "]("; TRef 2; T ")"] text in
  let text := sub (C "~") [T "\~"] text in
  sub (C ">") [T "\>"] text.

(** Headers, hashes, plus signs, numbered lists, minus signs and dash lists. *)
Definition stage_blocks (text : str) : str :=
  let text := span_transform text p_header escapeshape in
  let text := sub (C "#") [T "\#"] text in
  let text := span_transform text p_plus escape_special_char in
  let text := sub p_numbered [TLit [NL; NL]; TRef 1] text in
  let text := span_transform text p_minus_outside escape_temp_minus in
  let text := sub (C "-") [T "@<+@"] text in
  let text := sub s_minus [T "-"] text in
  let text := sub p_dash_item [TLit [NL; NL]; TRef 1; TLit ([BULLET] ++ lit " ")] text in
  let text := sub s_fenced_minus [T "\-"] text in
  span_transform text p_minus escape_minus.

(** Code blocks and backticks. *)
Definition stage_code (text : str) : str :=
  let text := sub p_fence [T "@@@"; TRef 1; T "@@@"] text in
  let text := span_transform text p_backtick_outside escape_backquote_in_code in
  let text := sub (C "`") [T "\`"] text in
  let text := sub s_backtick [T "\`"] text in
  let text := sub s_lbracket [T "`"] text in
  let text := span_transform text p_two_backticks escape_backquote in
  sub p_fence_saved [T "```"; TRef 1; T "```"] text.

(** The final punctuation. *)
Definition stage_punctuation (text : str) : str :=
  let text := sub (C "=") [T "\="] text in
  let text := sub (C "|") [T "\|"] text in
  let text := sub (C "{") [T "\{"] text in
  let text := sub (C "}") [T "\}"] text in
  let text := sub (C ".") [T "\."] text in
  sub (C "!") [T "\!"] text.

Definition stage_parity (text : str) : str :=
  join [NL] (fixed_lines (split_lines text) false).

Definition escape_stages (text : str) (flag : bool) : str :=
  stage_parity (stage_punctuation (stage_code (stage_blocks (stage_inline flag text)))).

(* ================================================================== *)
(** ** Vocabulary of the testable properties *)

(** Does [hay] contain [needle]? *)
Fixpoint contains (needle hay : str) : bool :=
  match hay with
  | [] => startswith [] needle
  | _ :: hay' => startswith hay needle || contains needle hay'
  end.

(** No character of [s] is one of [X]. *)
Definition avoids (X s : str) : Prop :=
  Forall (fun c => existsb (N.eqb c) X = false) s.

(** The characters some pass of the pipeline reacts to, and the alphabet of
    its markers. *)
Definition reserved : str := lit "\_*[]()~><#+-=|{}.!@^`" ++ [NL].

(** The same without the newline. *)
Definition reserved_marks : str := lit "\_*[]()~><#+-=|{}.!@^`".

(** The digits 0 to 9. *)
Definition ascii_digit (c : char) : bool := ((48 <=? c) && (c <=? 57))%N.

(** The marker sequences the pipeline introduces. *)
Definition sentinels : list str :=
  map lit ["@@@"; "@->@"; "@<-@"; "@-->@"; "@<--@"; "@<@"; "@+>@"; "@<+@"; "^^^"]%string.

Definition leaks (out : str) : bool := existsb (fun s => contains s out) sentinels.

(** The interiors of the fenced blocks of a text, as the pipeline finds them
    (the group of its fence pattern). *)
Definition fence_interiors (text : str) : list str :=
  map (fun m => match lookup 1 (m_caps m) with
                | Some (a, b) => slice text a b
                | None => []
                end)
      (finditer p_fence text).

(* ================================================================== *)
(** ** Vocabulary of the parity fixer *)

(** A line with its already-escaped backticks (backslash, backtick) removed,
    reading left to right. *)
Fixpoint remove_escaped (s : str) : str :=
  match s with
  | [] => []
  | c :: s' =>
      match s' with
      | d :: s'' =>
          if N.eqb c BSL && N.eqb d BQ then remove_escaped s''
          else c :: remove_escaped s'
      | [] => [c]
      end
  end.

(** The raw backticks of a line: those left once the escaped ones are gone. *)
Definition unescaped_backticks (line : str) : nat := count BQ (remove_escaped line).

(** A line with a backslash put before each raw backtick. *)
Fixpoint escape_backticks (s : str) : str :=
  match s with
  | [] => []
  | c :: s' =>
      match s' with
      | d :: s'' =>
          if N.eqb c BSL && N.eqb d BQ then c :: d :: escape_backticks s''
          else if N.eqb c BQ then BSL :: c :: escape_backticks s'
               else c :: escape_backticks s'
      | [] => if N.eqb c BQ then [BSL; c] else [c]
      end
  end.

(** Is every backtick of the line right after a backslash? *)
Fixpoint escaped_from (pv : option char) (s : str) : bool :=
  match s with
  | [] => true
  | c :: s' =>
      (if N.eqb c BQ
       then match pv with Some p => N.eqb p BSL | None => false end
       else true)
      && escaped_from (Some c) s'
  end.


(** The "inside fence" state of the scanner when it reaches line [i]. *)
Fixpoint fence_state (lines : list str) (i : nat) : bool :=
  match i, lines with
  | S i', l :: ls => xorb (is_fence_line l) (fence_state ls i')
  | _, _ => false
  end.

(** A list of indices that never decreases. *)
Fixpoint ascending (l : list nat) : Prop :=
  match l with
  | a :: l' => match l' with b :: _ => a <= b | [] => True end /\ ascending l'
  | [] => True
  end.

(** Is every character of [s] that is one of [X] right after a backslash?
    [pv] is the character before [s]. *)
Fixpoint escaped_in (X : str) (pv : option char) (s : str) : bool :=
  match s with
  | [] => true
  | c :: s' =>
      (if existsb (N.eqb c) X
       then match pv with Some p => N.eqb p BSL | None => false end
       else true)
      && escaped_in X (Some c) s'
  end.

(** A text with a backslash put before every character that is one of [X]. *)
Definition backslash_escape (X : str) (text : str) : str :=
  flat_map (fun c => if existsb (N.eqb c) X then [BSL; c] else [c]) text.

(** The link pattern after its optional [!]. *)
Definition link_body : regex :=
  (C "[" >> Grp 1 (lazy_star dot) >> C "]" >> C "(" >> Grp 2 (lazy_star dot) >> C ")")%re.

(** A list written with one marker character: each item on its own line,
    after the marker and a space. *)
Definition marked_list (marker : char) (items : list str) : str :=
  flat_map (fun item => [NL; marker] ++ lit " " ++ item) items.

(** The same items as the pipeline writes them: a blank line, a bullet and
    a space before each. *)
Definition bullet_list (items : list str) : str :=
  flat_map (fun item => [NL; NL; BULLET] ++ lit " " ++ item) items.

(** The header pattern inside its group: a line that starts with hashes and
    a whitespace, up to and with the newlines that end it. *)
Definition header_line : regex :=
  (Bol >> plus (eqc "#") >> Cls isspace >> lazy_plus dot >> plus (N.eqb NL))%re.

(** A text with every backslash doubled. *)
Definition double_backslashes (text : str) : str :=
  flat_map (fun c => if N.eqb BSL c then [BSL; BSL] else [c]) text.

(* ------------------------------------------------------------------ *)
(** Texts written token by token: every character of a source text stands
    for itself or for the string a table gives it. *)

Fixpoint str_eqb (a b : str) : bool :=
  match a, b with
  | [], [] => true
  | x :: a', y :: b' => N.eqb x y && str_eqb a' b'
  | _, _ => false
  end.

Fixpoint assoc (c : char) (table : list (char * str)) : option str :=
  match table with
  | [] => None
  | (k, m) :: table' => if N.eqb c k then Some m else assoc c table'
  end.

Definition render (table : list (char * str)) (c : char) : str :=
  match assoc c table with
  | Some m => m
  | None => [c]
  end.

(** The characters a table can write: its own, and the plain ones. *)
Definition writable (table : list (char * str)) (c : char) : Prop :=
  match assoc c table with
  | Some _ => True
  | None => existsb (N.eqb c) reserved_marks = false
  end.

(** Is the literal [D] a prefix of [u] ([Some true]), does it differ from
    [u] somewhere ([Some false]), or does [u] end first ([None])? *)
Fixpoint prefix_status (D u : str) : option bool :=
  match D with
  | [] => Some true
  | d :: D' =>
      match u with
      | [] => None
      | c :: u' => if N.eqb d c then prefix_status D' u' else Some false
      end
  end.

Fixpoint nonempty_tails (m : str) : list str :=
  match m with
  | [] => []
  | _ :: m' => m :: nonempty_tails m'
  end.

(** [D] cannot start at [u], the end of a token, whatever is written after
    it: it differs from [u], or from [u] and the next token or plain
    character. *)
Definition cannot_start (D : str) (table : list (char * str)) (u : str) : bool :=
  match prefix_status D u with
  | Some true => false
  | Some false => true
  | None =>
      match skipn (length u) D with
      | d :: D' =>
          existsb (N.eqb d) reserved_marks
          && forallb (fun km => match prefix_status (d :: D') (snd km) with
                                | Some false => true
                                | _ => false
                                end) table
      | [] => false
      end
  end.

Definition clean (D : str) (table : list (char * str)) (m : str) : bool :=
  forallb (cannot_start D table) (nonempty_tails m).

Definition starts_reserved (D : str) : bool :=
  match D with
  | d :: _ => existsb (N.eqb d) reserved_marks
  | [] => false
  end.

(** No token of the table lets [D] start in it. *)
Definition all_clean (D : str) (table : list (char * str)) : bool :=
  starts_reserved D && forallb (fun km => clean D table (snd km)) table.

(** Every token of the table is [D] or lets [D] start nowhere in it. *)
Definition clean_or_whole (D : str) (table : list (char * str)) : bool :=
  starts_reserved D
  && forallb (fun km => str_eqb (snd km) D || clean D table (snd km)) table.

Definition replaced (D t : str) (table : list (char * str)) : list (char * str) :=
  map (fun km => (fst km, if str_eqb (snd km) D then t else snd km)) table.

(** A pattern that can only match where the text starts with [D]. *)
Definition anchored (r : regex) (D : str) : Prop :=
  forall pv i (s : str), startswith s D = false -> match_at r (Cursor pv i s) = None.

(** The table that writes every character of [X] after a backslash. *)
Definition escape_table (X : str) : list (char * str) :=
  map (fun k => (k, [BSL; k])) X.

(* ================================================================== *)
(** ** [beautify_views]

    The view-count formatter, on a string argument.  Python integers are
    modelled as [Z]; a float is the pair [(m, e)] of its value [m * 2 ^ e]. *)

From Stdlib Require Import ZArith.

Inductive views_exn := ValueError | OverflowError.

Inductive outcome (A : Type) : Type :=
| Returns (a : A)
| Raises (e : views_exn).
Arguments Returns {A} a.
Arguments Raises {A} e.

(** The digits that are not decimal digits (superscripts, circled digits and
    the like), as ranges of code points: [str.isdigit] accepts them, [int]
    does not. *)
Definition other_digits : list (N * N) :=
  [(178, 179); (185, 185); (4969, 4977); (6618, 6618); (8304, 8304); (8308, 8313);
   (8320, 8329); (9312, 9320); (9332, 9340); (9352, 9360); (9450, 9450);
   (9461, 9469); (9471, 9471); (10102, 10110); (10112, 10120); (10122, 10130);
   (68160, 68163); (69216, 69224); (69714, 69722); (127232, 127242)]%N.

(** [str.isdigit] on one code point. *)
Definition str_isdigit (c : char) : bool :=
  isdigit c || existsb (fun r => (fst r <=? c) && (c <=? snd r))%N other_digits.

(** The value of a decimal digit of any script. *)
Definition digit_value (c : char) : option Z :=
  match find (fun z => (z <=? c) && (c <? z + 10))%N decimal_zeros with
  | Some z => Some (Z.of_N (c - z))
  | None => None
  end.

Fixpoint int_digits (acc : Z) (s : str) : option Z :=
  match s with
  | [] => Some acc
  | c :: s' =>
      match digit_value c with
      | Some d => int_digits (10 * acc + d) s'
      | None => None
      end
  end.

(** [int(s)] for a string [s] of characters that [str.isdigit] accepts:
    the number the decimal digits spell.  A digit that is not decimal, an
    empty string and a string of more than 4300 digits (the interpreter's
    limit on conversions) raise [ValueError]. *)
Definition int (s : str) : outcome Z :=
  match s with
  | [] => Raises ValueError
  | _ :: _ =>
      if 4300 <? length s then Raises ValueError
      else match int_digits 0 s with
           | Some n => Returns n
           | None => Raises ValueError
           end
  end.

(** The decimal digits of a non-negative integer, most significant first. *)
Fixpoint digits_of (fuel : nat) (n : Z) (acc : str) : str :=
  match fuel with
  | 0 => acc
  | S fuel' =>
      let acc' := Z.to_N (48 + n mod 10) :: acc in
      if (n <? 10)%Z then acc' else digits_of fuel' (n / 10) acc'
  end.

(** [str(n)] for an integer. *)
Definition str_of_int (n : Z) : str :=
  if (n <? 0)%Z then lit "-" ++ digits_of (S (Z.to_nat (Z.log2 (- n)))) (- n) []
  else digits_of (S (Z.to_nat (Z.log2 n))) n [].

(** [n / d] rounded to the nearest integer, ties to the even one. *)
Definition round_half_even (n d : Z) : Z :=
  let q := (n / d)%Z in
  match (2 * (n mod d) ?= d)%Z with
  | Lt => q
  | Gt => (q + 1)%Z
  | Eq => if Z.even q then q else (q + 1)%Z
  end.

(** [a / (b * 2 ^ e)] as a fraction of integers. *)
Definition scaled (a b e : Z) : Z * Z :=
  if (0 <=? e)%Z then (a, b * 2 ^ e)%Z else (a * 2 ^ (- e), b)%Z.

(** [a / b] for positive integers: the double nearest to the quotient, ties
    to even, with a significand of 53 bits; [OverflowError] when it is out
    of the range of a double. *)
Definition true_divide (a b : Z) : outcome (Z * Z) :=
  let e0 := (Z.log2 a - Z.log2 b - 53)%Z in
  let e1 := if (2 ^ 53 <=? fst (scaled a b e0) / snd (scaled a b e0))%Z
            then (e0 + 1)%Z else e0 in
  let e := Z.max e1 (-1074) in
  let m := round_half_even (fst (scaled a b e)) (snd (scaled a b e)) in
  if (0 <=? e)%Z && (2 ^ 1024 <=? m * 2 ^ e)%Z then Raises OverflowError
  else Returns (m, e).

(** The tenths shown for the double [m * 2 ^ e]: its exact value times ten,
    rounded to the nearest integer, ties to even. *)
Definition tenths (x : Z * Z) : Z :=
  let (m, e) := x in
  if (0 <=? e)%Z then (10 * m * 2 ^ e)%Z else round_half_even (10 * m) (2 ^ (- e)).

(** [f"{x:.1f}"] for a non-negative double. *)
Definition format_1f (x : Z * Z) : str :=
  str_of_int (tenths x / 10) ++ lit "." ++ str_of_int (tenths x mod 10).

Definition shown (views unit : Z) (suffix : str) : outcome str :=
  match true_divide views unit with
  | Returns x => Returns (format_1f x ++ suffix)
  | Raises e => Raises e
  end.

Definition beautify_views (views : str) : outcome str :=
  match views with
  | [] => Returns (lit "0")
  | _ :: _ =>
      (* Extract digits from the input *)
      match filter str_isdigit views with
      | [] => Returns (lit "0")
      | d :: ds =>
          match int (d :: ds) with
          | Raises e => Raises e
          | Returns views =>
              if (views <? 1000)%Z then Returns (str_of_int views)
              else if (views <? 1000000)%Z then shown views 1000 (lit " <b>k</b>")
              else if (views <? 1000000000)%Z then shown views 1000000 (lit " <b>m</b>")
              else shown views 1000000000 (lit " <b>b</b>")
          end
      end
  end.

(** The unit a count is shown in, and its mark. *)
Definition view_unit (views : Z) : Z :=
  if (views <? 1000000)%Z then 1000%Z
  else if (views <? 1000000000)%Z then 1000000%Z else 1000000000%Z.

Definition view_mark (views : Z) : str :=
  if (views <? 1000000)%Z then lit " <b>k</b>"
  else if (views <? 1000000000)%Z then lit " <b>m</b>" else lit " <b>b</b>".

(* ------------------------------------------------------------------ *)
(** Numbered lists *)

(** A numbered item as it is written: the newlines before it, its number,
    the whitespace after the period, and its text. *)
Record numbered := Numbered {
  n_newlines : nat;
  n_digits : str;
  n_space : char;
  n_text : str
}.

Definition numbered_item (it : numbered) : str :=
  repeat NL (n_newlines it) ++ n_digits it ++ [DOT] ++ [n_space it] ++ n_text it.

(** The item after [escape]: two newlines before it, and its periods
    escaped. *)
Definition spaced_item (it : numbered) : str :=
  [NL; NL] ++ n_digits it ++ [BSL; DOT] ++ [n_space it]
  ++ backslash_escape [DOT] (n_text it).

(** The reserved characters other than the period. *)
Definition marks_but_period : str := lit "\_*[]()~><#+-=|{}!@^`".

(** One or two newlines, a number of one or two digits, a whitespace that
    is no newline, and a text of one line with no reserved character other
    than the period. *)
Definition well_numbered (it : numbered) : Prop :=
  (n_newlines it = 1 \/ n_newlines it = 2)
  /\ Forall (fun c => ascii_digit c = true) (n_digits it)
  /\ (length (n_digits it) = 1 \/ length (n_digits it) = 2)
  /\ isspace (n_space it) = true /\ n_space it <> NL
  /\ avoids (marks_but_period ++ [NL]) (n_text it).

(* ================================================================== *)
(** ** Slices *)

Lemma slice_all (text : str) : slice text 0 (length text) = text.
Proof.
  unfold slice. rewrite Nat.sub_0_r. simpl. apply firstn_all.
Qed.

Lemma slice_empty (text : str) (j k : nat) : k <= j -> slice text j k = [].
Proof.
  intros H. unfold slice. replace (k - j) with 0 by lia. reflexivity.
Qed.

Lemma slice_skipn (text : str) (i j : nat) :
  i <= j -> slice text i j ++ skipn j text = skipn i text.
Proof.
  intros H. unfold slice.
  replace (skipn j text) with (skipn (j - i) (skipn i text)).
  - apply firstn_skipn.
  - rewrite skipn_skipn. f_equal. lia.
Qed.

Lemma slice_to_end (text : str) (i : nat) : slice text i (length text) = skipn i text.
Proof.
  unfold slice. apply firstn_all2. rewrite length_skipn. lia.
Qed.

Lemma slice_shift (pre s : str) (a b : nat) :
  slice (pre ++ s) (length pre + a) (length pre + b) = slice s a b.
Proof.
  unfold slice. rewrite skipn_app.
  replace (length pre + a - length pre) with a by lia.
  rewrite (skipn_all2 pre) by lia. simpl.
  f_equal. lia.
Qed.

Lemma slice_prefix (u s : str) : slice (u ++ s) 0 (length u) = u.
Proof.
  unfold slice. rewrite Nat.sub_0_r. simpl.
  rewrite firstn_app, Nat.sub_diag, firstn_all. simpl. apply app_nil_r.
Qed.

(* ================================================================== *)
(** ** What a match consumes

    Every way a pattern matches consumes a prefix of the text ahead and moves
    the cursor by its length; the groups it sets begin at the cursor or
    later, and without lookahead they lie inside what it consumed. *)

Definition consumes (cur c' : cursor) (u : str) : Prop :=
  rest cur = u ++ rest c' /\ pos c' = pos cur + length u.

Definition caps_within (cs cs' : caps) (lo hi : nat) : Prop :=
  forall g a b, In (g, (a, b)) cs' -> In (g, (a, b)) cs \/ (lo <= a /\ a <= b /\ b <= hi).

Lemma rep_consumes p lazy s :
  forall lo hi pv i c',
    In c' (rep p lo hi lazy pv i s) ->
    exists u, s = u ++ rest c' /\ pos c' = i + length u /\ lo <= length u
              /\ Forall (fun c => p c = true) u.
Proof.
  induction s as [|c s IH]; intros lo hi pv i c' Hin.
  - simpl in Hin.
    assert (H : In c' (match lo with 0 => [Cursor pv i []] | S _ => [] end)).
    { destruct lazy; rewrite ?app_nil_r in Hin; auto. }
    destruct lo; simpl in H; [destruct H as [<-|[]]|destruct H].
    exists []. simpl. repeat split; auto; lia.
  - simpl in Hin.
    assert (H : In c' (match lo with 0 => [Cursor pv i (c :: s)] | S _ => [] end)
                \/ In c' (if p c && room hi
                          then rep p (Nat.pred lo) (option_map Nat.pred hi) lazy
                                   (Some c) (S i) s
                          else [])).
    { destruct lazy; apply in_app_or in Hin; tauto. }
    destruct H as [H|H].
    + destruct lo; simpl in H; [destruct H as [<-|[]]|destruct H].
      exists []. simpl. repeat split; auto; lia.
    + destruct (p c) eqn:Hp; simpl in H; [|destruct H].
      destruct (room hi); [|destruct H].
      apply IH in H. destruct H as (u & Hs & Hpos & Hlo & Hall).
      exists (c :: u). simpl. repeat split.
      * now f_equal.
      * lia.
      * lia.
      * constructor; auto.
Qed.

Lemma step1_consumes p cur c' :
  In c' (step1 p cur) ->
  exists c, p c = true /\ consumes cur c' [c] /\ prev c' = Some c.
Proof.
  unfold step1, consumes. destruct (rest cur) as [|c s] eqn:E; [intros []|].
  destruct (p c) eqn:Hp; [|intros []].
  intros [<-|[]]. exists c. simpl. repeat split; auto; lia.
Qed.

Definition caps_after (cs cs' : caps) (lo : nat) : Prop :=
  forall g a b, In (g, (a, b)) cs' -> In (g, (a, b)) cs \/ (lo <= a /\ a <= b).

Lemma run_consumes r :
  forall cur cs c' cs',
    In (c', cs') (run r cur cs) ->
    exists u, consumes cur c' u /\ caps_after cs cs' (pos cur).
Proof.
  induction r as [c|p| |p lo hi lazy|r1 IH1 r2 IH2|r1 IH1 r2 IH2|g r1 IH1|r1 IH1];
    intros cur cs c' cs' Hin; simpl in Hin.
  - apply in_map_iff in Hin. destruct Hin as (x & Heq & Hin). inversion Heq; subst.
    apply step1_consumes in Hin. destruct Hin as (d & _ & Hc & _).
    exists [d]. split; auto. intros g a b H. now left.
  - apply in_map_iff in Hin. destruct Hin as (x & Heq & Hin). inversion Heq; subst.
    apply step1_consumes in Hin. destruct Hin as (d & _ & Hc & _).
    exists [d]. split; auto. intros g a b H. now left.
  - destruct (at_bol cur); [|destruct Hin].
    destruct Hin as [Heq|[]]. inversion Heq; subst.
    exists []. split; [split; simpl; auto; lia|]. intros g a b H. now left.
  - apply in_map_iff in Hin. destruct Hin as (x & Heq & Hin). inversion Heq; subst.
    apply rep_consumes in Hin. destruct Hin as (u & Hs & Hpos & _ & _).
    exists u. split; [split; auto|]. intros g a b H. now left.
  - apply in_flat_map in Hin. destruct Hin as ([c1 cs1] & H1 & H2). simpl in H2.
    apply IH1 in H1. apply IH2 in H2.
    destruct H1 as (u1 & [Hr1 Hp1] & Hc1). destruct H2 as (u2 & [Hr2 Hp2] & Hc2).
    exists (u1 ++ u2). split.
    + split; [rewrite Hr1, Hr2; now rewrite app_assoc|rewrite length_app; lia].
    + intros g a b H. apply Hc2 in H. destruct H as [H|H].
      * apply Hc1 in H. destruct H as [H|H]; [now left|right; lia].
      * right; lia.
  - apply in_app_or in Hin. destruct Hin as [H|H]; eauto.
  - apply in_map_iff in Hin. destruct Hin as ([c1 cs1] & Heq & Hin).
    simpl in Heq. inversion Heq; subst.
    apply IH1 in Hin. destruct Hin as (u & [Hr Hp] & Hc).
    exists u. split; [split; auto|].
    intros g' a b [H|H].
    + inversion H; subst. right. lia.
    + apply Hc in H. destruct H; [now left|right; lia].
  - destruct (run r1 cur cs) as [|[c1 cs1] l] eqn:E; [destruct Hin|].
    destruct Hin as [Heq|[]]. inversion Heq; subst.
    assert (H1 : In (c1, cs') (run r1 c' cs)) by (rewrite E; now left).
    apply IH1 in H1. destruct H1 as (u & _ & Hc).
    exists []. split; [split; simpl; auto; lia|exact Hc].
Qed.

(** Without lookahead, a group captures inside what the match consumes. *)
Lemma run_caps_within r :
  lookfree r = true ->
  forall cur cs c' cs',
    In (c', cs') (run r cur cs) -> caps_within cs cs' (pos cur) (pos c').
Proof.
  induction r as [c|p| |p lo hi lazy|r1 IH1 r2 IH2|r1 IH1 r2 IH2|g r1 IH1|r1 IH1];
    intros Hl cur cs c' cs' Hin; simpl in Hin, Hl; try discriminate.
  - apply in_map_iff in Hin. destruct Hin as (x & Heq & Hin). inversion Heq; subst.
    intros g a b H. now left.
  - apply in_map_iff in Hin. destruct Hin as (x & Heq & Hin). inversion Heq; subst.
    intros g a b H. now left.
  - destruct (at_bol cur); [|destruct Hin].
    destruct Hin as [Heq|[]]. inversion Heq; subst. intros g a b H. now left.
  - apply in_map_iff in Hin. destruct Hin as (x & Heq & Hin). inversion Heq; subst.
    intros g a b H. now left.
  - apply andb_true_iff in Hl. destruct Hl as [Hl1 Hl2].
    apply in_flat_map in Hin. destruct Hin as ([c1 cs1] & H1 & H2). simpl in H2.
    pose proof (run_consumes _ _ _ _ _ H1) as (u1 & [_ Hp1] & _).
    pose proof (run_consumes _ _ _ _ _ H2) as (u2 & [_ Hp2] & _).
    pose proof (IH1 Hl1 _ _ _ _ H1) as Hc1. pose proof (IH2 Hl2 _ _ _ _ H2) as Hc2.
    simpl in *.
    intros g a b H. apply Hc2 in H. destruct H as [H|H].
    + apply Hc1 in H. destruct H as [H|H]; [now left|right; lia].
    + right; lia.
  - apply andb_true_iff in Hl. destruct Hl as [Hl1 Hl2].
    apply in_app_or in Hin. destruct Hin as [H|H]; eauto.
  - apply in_map_iff in Hin. destruct Hin as ([c1 cs1] & Heq & Hin).
    simpl in Heq. inversion Heq; subst.
    pose proof (run_consumes _ _ _ _ _ Hin) as (u & [_ Hp] & _).
    pose proof (IH1 Hl _ _ _ _ Hin) as Hc.
    intros g' a b [H|H].
    + inversion H; subst. right. lia.
    + apply Hc in H. destruct H; [now left|right; lia].
Qed.

Lemma lookup_In g cs sp : lookup g cs = Some sp -> In (g, sp) cs.
Proof.
  induction cs as [|[g' sp'] cs IH]; simpl; [discriminate|].
  destruct (Nat.eqb_spec g g'); intros H.
  - inversion H; subst. now left.
  - right. auto.
Qed.

Lemma match_at_bounds r pv i s m :
  match_at r (Cursor pv i s) = Some m ->
  m_start m = i /\ i <= m_end m /\ m_end m <= i + length s
  /\ forall g a b, lookup g (m_caps m) = Some (a, b) -> i <= a /\ a <= b.
Proof.
  unfold match_at. destruct (run r (Cursor pv i s) []) as [|[c' cs'] l] eqn:E; [discriminate|].
  intros H. inversion H; subst; clear H. simpl.
  assert (Hin : In (c', cs') (run r (Cursor pv i s) [])) by (rewrite E; now left).
  apply run_consumes in Hin. destruct Hin as (u & [Hr Hp] & Hc). simpl in *.
  repeat split; try lia.
  - rewrite Hr, length_app. lia.
  - apply lookup_In, Hc in H. destruct H as [[]|H]; lia.
  - apply lookup_In, Hc in H. destruct H as [[]|H]; lia.
Qed.

(** The match found after an empty one is one of the ways the pattern
    matches, and it is not empty. *)
Lemma match_beyond_In r cur m :
  match_beyond r cur = Some m ->
  exists c', In (c', m_caps m) (run r cur []) /\ m_start m = pos cur
             /\ m_end m = pos c' /\ pos c' <> pos cur.
Proof.
  unfold match_beyond.
  destruct (filter _ (run r cur [])) as [|[c' cs'] l] eqn:E; [discriminate|].
  intros H. inversion H; subst; clear H. simpl.
  assert (Hin : In (c', cs') (filter (fun x => negb (pos (fst x) =? pos cur)) (run r cur [])))
    by (rewrite E; now left).
  apply filter_In in Hin. destruct Hin as [Hin Hp]. simpl in Hp.
  exists c'. repeat split; auto.
  apply negb_true_iff, Nat.eqb_neq in Hp. exact Hp.
Qed.

Lemma match_beyond_bounds r pv i s m :
  match_beyond r (Cursor pv i s) = Some m ->
  m_start m = i /\ i < m_end m /\ m_end m <= i + length s
  /\ forall g a b, lookup g (m_caps m) = Some (a, b) -> i <= a /\ a <= b.
Proof.
  intros H. apply match_beyond_In in H.
  destruct H as (c' & Hin & Hs & He & Hne). simpl in *.
  apply run_consumes in Hin. destruct Hin as (u & [Hr Hp] & Hc). simpl in *.
  repeat split; try lia.
  - rewrite Hr, length_app. lia.
  - apply lookup_In, Hc in H. destruct H as [[]|H]; lia.
  - apply lookup_In, Hc in H. destruct H as [[]|H]; lia.
Qed.

(* ================================================================== *)
(** ** [finditer] yields matches in order *)

Lemma ordered_weaken i j L sp : i <= j -> ordered j L sp -> ordered i L sp.
Proof.
  destruct sp as [|[a b] sp]; simpl; intros; [lia|].
  repeat split; try tauto; lia.
Qed.

(** One match of the scan: a way the pattern matches at a cursor. *)
Definition matched (r : regex) (pv : option char) (i : nat) (s : str) (m : rmatch) : Prop :=
  exists c', In (c', m_caps m) (run r (Cursor pv i s) [])
             /\ m_start m = i /\ m_end m = pos c'.

Lemma match_at_matched r pv i s m :
  match_at r (Cursor pv i s) = Some m -> matched r pv i s m.
Proof.
  unfold match_at. destruct (run r (Cursor pv i s) []) as [|[c' cs'] l] eqn:E; [discriminate|].
  intros H. inversion H; subst; clear H. exists c'. simpl. rewrite E.
  repeat split. now left.
Qed.

Lemma match_beyond_matched r pv i s m :
  match_beyond r (Cursor pv i s) = Some m -> matched r pv i s m.
Proof.
  intros H. apply match_beyond_In in H. destruct H as (c' & Hin & Hs & He & _).
  exists c'. auto.
Qed.

Lemma matched_bounds r pv i s m :
  matched r pv i s m ->
  m_start m = i /\ i <= m_end m /\ m_end m <= i + length s
  /\ (forall g a b, lookup g (m_caps m) = Some (a, b) -> i <= a /\ a <= b)
  /\ (lookfree r = true ->
      forall g a b, lookup g (m_caps m) = Some (a, b) -> b <= m_end m).
Proof.
  intros (c' & Hin & Hs & He).
  pose proof (run_consumes _ _ _ _ _ Hin) as (u & [Hr Hp] & Hc). simpl in *.
  repeat split; try lia.
  - rewrite Hr, length_app. lia.
  - apply lookup_In, Hc in H. destruct H as [[]|H]; lia.
  - apply lookup_In, Hc in H. destruct H as [[]|H]; lia.
  - intros Hl g a b H. apply (run_caps_within r Hl) in Hin.
    apply lookup_In, Hin in H. simpl in H. destruct H as [[]|H]; lia.
Qed.

(** What holds of a scan: a property of the matches still to come from a
    position on, kept by every match the scan finds. *)
Lemma finditer_from_scan r (Q : str -> Prop) (P : nat -> nat -> list rmatch -> Prop) :
  (forall c s, Q (c :: s) -> Q s) ->
  (forall j L, j <= L -> P j L []) ->
  (forall i j L ms, i <= j -> P j L ms -> P i L ms) ->
  (forall pv i s m ms, Q s -> matched r pv i s m ->
                       P (m_end m) (i + length s) ms -> P i (i + length s) (m :: ms)) ->
  forall s pv i skip,
    Q s -> skip <= length s ->
    P (i + skip) (i + length s) (finditer_from r pv i s skip).
Proof.
  intros Qtl Pnil Pweak Pcons.
  induction s as [|c s IH]; intros pv i skip HQ Hskip.
  - assert (skip = 0) by (simpl in Hskip; lia). subst. cbn [finditer_from].
    rewrite Nat.add_0_r.
    destruct (match_at r (Cursor pv i [])) as [m|] eqn:E; [|apply Pnil; simpl; lia].
    apply match_at_matched in E.
    pose proof (matched_bounds _ _ _ _ _ E) as (_ & _ & Hhi & _).
    assert (G : P i (i + length (@nil char)) [m]).
    { apply (Pcons pv i [] m [] HQ E). apply Pnil. exact Hhi. }
    now destruct (m_end m =? i).
  - assert (Step : forall k, k <= length s ->
                             P (S i + k) (i + length (c :: s))
                               (finditer_from r (Some c) (S i) s k)).
    { intros k Hk. replace (i + length (c :: s)) with (S i + length s) by (simpl; lia).
      apply IH; eauto. }
    destruct skip as [|k]; cbn [finditer_from].
    + rewrite Nat.add_0_r.
      destruct (match_at r (Cursor pv i (c :: s))) as [m|] eqn:E.
      * apply match_at_matched in E.
        pose proof (matched_bounds _ _ _ _ _ E) as (_ & Hlo & Hhi & _).
        destruct (Nat.eqb_spec (m_end m) i) as [He|He].
        -- apply (Pcons pv i (c :: s) m _ HQ E). rewrite He.
           destruct (match_beyond r (Cursor pv i (c :: s))) as [m'|] eqn:E'.
           ++ pose proof (match_beyond_bounds _ _ _ _ _ E') as (_ & Hlo' & Hhi' & _).
              apply match_beyond_matched in E'.
              apply (Pcons pv i (c :: s) m' _ HQ E').
              replace (m_end m') with (S i + (m_end m' - i - 1)) at 1 by lia.
              apply Step. simpl in Hhi'. lia.
           ++ apply (Pweak i (S i + 0)); [lia|]. apply Step. lia.
        -- apply (Pcons pv i (c :: s) m _ HQ E).
           replace (m_end m) with (S i + (m_end m - i - 1)) at 1 by lia.
           apply Step. simpl in Hhi. lia.
      * apply (Pweak i (S i + 0)); [lia|]. apply Step. lia.
    + replace (i + S k) with (S i + k) by lia. apply Step. simpl in Hskip. lia.
Qed.

Lemma finditer_from_overskip r s :
  forall pv i skip, length s < skip -> finditer_from r pv i s skip = [].
Proof.
  induction s as [|c s IH]; intros pv i skip Hs; (destruct skip; [simpl in Hs; lia|]).
  - reflexivity.
  - cbn [finditer_from]. apply IH. simpl in Hs. lia.
Qed.

Lemma ordered_target i L m ms :
  (forall a b, lookup 1 (m_caps m) = Some (a, b) -> i <= a /\ a <= b /\ b <= m_end m) ->
  i <= m_end m ->
  ordered (m_end m) L (targets_of ms) -> ordered i L (targets_of (m :: ms)).
Proof.
  intros Hc Hi Ho. cbn [targets_of].
  destruct (lookup 1 (m_caps m)) as [[a b]|].
  - destruct (Hc a b eq_refl) as (H1 & H2 & H3). cbn [ordered].
    repeat split; auto. eapply ordered_weaken; [|exact Ho]. exact H3.
  - eapply ordered_weaken; [|exact Ho]. exact Hi.
Qed.

(** Without lookahead the captured regions come in order and do not
    overlap. *)
Lemma finditer_ordered r s :
  lookfree r = true ->
  forall pv i skip,
    skip <= length s ->
    ordered (i + skip) (i + length s) (targets_of (finditer_from r pv i s skip)).
Proof.
  intros Hl pv i skip Hskip.
  apply (finditer_from_scan r (fun _ => True)
           (fun j L ms => ordered j L (targets_of ms))); [auto| | | |exact I|exact Hskip].
  - intros j L Hj. exact Hj.
  - intros i0 j L ms Hij Ho. eapply ordered_weaken; eauto.
  - intros pv0 i0 s0 m ms _ Hm Ho.
    pose proof (matched_bounds _ _ _ _ _ Hm) as (_ & Hlo & _ & Hc & Hw).
    apply ordered_target; auto.
    intros a b H. destruct (Hc 1 a b H). specialize (Hw Hl 1 a b H). lia.
Qed.

Lemma targets_ordered r text :
  lookfree r = true -> ordered 0 (length text) (targets r text).
Proof.
  intros Hl. unfold targets, finditer.
  apply (finditer_ordered r text Hl None 0 0). lia.
Qed.

(** With or without lookahead, no captured region begins before the place
    the scan has reached. *)
Definition begins_from (j L : nat) (sp : list span) : Prop :=
  match sp with
  | [] => j <= L
  | (a, _) :: _ => j <= a
  end.

Lemma finditer_begins r s :
  forall pv i skip,
    skip <= length s ->
    begins_from (i + skip) (i + length s) (targets_of (finditer_from r pv i s skip)).
Proof.
  intros pv i skip Hskip.
  apply (finditer_from_scan r (fun _ => True)
           (fun j L ms => j <= L /\ begins_from j L (targets_of ms)));
    [auto| | | |exact I|exact Hskip].
  - intros j L Hj. split; [exact Hj|exact Hj].
  - intros i0 j L ms Hij [HjL Hb]. split; [lia|].
    destruct (targets_of ms) as [|[a b] sp]; simpl in *; lia.
  - intros pv0 i0 s0 m ms _ Hm [HL Hb].
    pose proof (matched_bounds _ _ _ _ _ Hm) as (_ & Hlo & Hhi & Hc & _).
    split; [lia|]. cbn [targets_of].
    destruct (lookup 1 (m_caps m)) as [[a b]|] eqn:E.
    + destruct (Hc 1 a b E). simpl. lia.
    + destruct (targets_of ms) as [|[a b] sp]; simpl in *; lia.
Qed.

Lemma weave_id text :
  forall sp i, ordered i (length text) sp -> weave text (fun x => x) i sp = skipn i text.
Proof.
  induction sp as [|[a b] sp IH]; intros i H; simpl in *.
  - apply slice_to_end.
  - destruct H as (Hia & Hab & H). rewrite (IH _ H).
    rewrite (slice_skipn text a b Hab). apply slice_skipn. exact Hia.
Qed.

(* ================================================================== *)
(** ** [find_all_index] and [replace_all] against the regions *)

Lemma index_list_of_flat r :
  1 <= ngroups r ->
  forall ms acc, index_list_of r ms acc = Ok (acc ++ flat (targets_of ms)).
Proof.
  intros Hg. induction ms as [|m ms IH]; intros acc; simpl.
  - now rewrite app_nil_r.
  - unfold group_span. destruct (Nat.leb_spec 1 (ngroups r)); [|lia]. simpl.
    destruct (lookup 1 (m_caps m)) as [[a b]|]; simpl.
    + rewrite IH. now rewrite <- app_assoc.
    + apply IH.
Qed.

Lemma find_all_index_flat text r :
  1 <= ngroups r ->
  find_all_index text r = Ok (0 :: flat (targets r text) ++ [length text]).
Proof.
  intros Hg. unfold find_all_index, targets.
  rewrite (index_list_of_flat r Hg). reflexivity.
Qed.

Lemma gaps_flat L : forall sp i, i :: flat sp ++ [L] = flat (gaps i L sp).
Proof.
  induction sp as [|[a b] sp IH]; intros i; simpl; [reflexivity|].
  now rewrite IH.
Qed.

Lemma length_gaps L : forall sp i, length (gaps i L sp) = S (length sp).
Proof.
  induction sp as [|[a b] sp IH]; intros i; simpl; auto.
Qed.

Lemma length_flat sp : length (flat sp) = 2 * length sp.
Proof.
  induction sp as [|[a b] sp IH]; simpl; lia.
Qed.

Lemma bind_Ok {A B} (a : A) (f : A -> result B) : bind (Ok a) f = f a.
Proof. reflexivity. Qed.

Lemma getitem_app_r {A} (pre l : list A) k :
  getitem (pre ++ l) (length pre + k) = getitem l k.
Proof.
  unfold getitem. rewrite nth_error_app2 by lia.
  now replace (length pre + k - length pre) with k by lia.
Qed.

Lemma mapM_pairs {B} (g : nat -> nat -> B) suf :
  forall pairs pre,
    mapM (fun i =>
            a <- getitem (pre ++ flat pairs ++ suf) i ;;
            b <- getitem (pre ++ flat pairs ++ suf) (i + 1) ;;
            Ok (g a b))
         (range_from (length pre) 2 (length pairs))
    = Ok (map (fun ab => g (fst ab) (snd ab)) pairs).
Proof.
  induction pairs as [|[a b] pairs IH]; intros pre; simpl; [reflexivity|].
  replace (length pre) with (length pre + 0) at 1 by lia.
  rewrite getitem_app_r. simpl.
  rewrite getitem_app_r. simpl.
  specialize (IH (pre ++ [a; b])).
  rewrite length_app in IH. simpl in IH.
  rewrite <- app_assoc in IH. simpl in IH. rewrite IH. reflexivity.
Qed.

Lemma mapM_ext_in {A B} (f g : A -> result B) l :
  (forall x, In x l -> f x = g x) -> mapM f l = mapM g l.
Proof.
  induction l as [|a l IH]; intros H; simpl; [reflexivity|].
  rewrite (H a) by now left. rewrite IH; auto.
  intros x Hx. apply H. now right.
Qed.

Lemma mapM_map {A B C} (f : A -> result B) (h : B -> C) l bs :
  mapM f l = Ok bs ->
  mapM (fun x => b <- f x ;; Ok (h b)) l = Ok (map h bs).
Proof.
  revert bs. induction l as [|a l IH]; intros bs; simpl.
  - intros H. inversion H. reflexivity.
  - destruct (f a) as [b|]; simpl; [|discriminate].
    destruct (mapM f l) as [bs'|]; simpl; [|discriminate].
    intros H. inversion H; subst. rewrite (IH bs') by reflexivity. reflexivity.
Qed.

Lemma range_from_bound step : forall n start x,
  In x (range_from start step n) -> x + step <= start + n * step.
Proof.
  induction n as [|n IH]; intros start x; simpl; [intros []|].
  intros [<-|H]; [lia|]. apply IH in H. lia.
Qed.

Lemma div2_odd k : (2 * k + 1) / 2 = k.
Proof.
  symmetry. apply (Nat.div_unique (2 * k + 1) 2 k 1); lia.
Qed.

Lemma div2_even k : (2 * k + 2 + 1) / 2 = S k.
Proof.
  symmetry. apply (Nat.div_unique (2 * k + 2 + 1) 2 (S k) 1); lia.
Qed.

Lemma interleave_weave text f L :
  L = length text ->
  forall sp i,
    concat (flat_map (fun ot : str * str => [fst ot; snd ot])
              (combine (map (fun ab => slice text (fst ab) (snd ab)) (gaps i L sp))
                       (map (fun ab => f (slice text (fst ab) (snd ab))) sp ++ [[]])))
    = weave text f i sp.
Proof.
  intros ->. induction sp as [|[a b] sp IH]; intros i; simpl.
  - now rewrite !app_nil_r.
  - rewrite IH. reflexivity.
Qed.

(** [replace_all] is the walk over the regions: it raises nothing when the
    pattern has a first group. *)
Lemma replace_all_weave text r f :
  1 <= ngroups r ->
  replace_all text r f = Ok (weave text f 0 (targets r text)).
Proof.
  intros Hg. unfold replace_all.
  rewrite (find_all_index_flat text r Hg), bind_Ok.
  set (sp := targets r text). set (L := length text).
  assert (Hlen : length (0 :: flat sp ++ [L]) = 2 * length sp + 2).
  { simpl. rewrite length_app, length_flat. simpl. lia. }
  rewrite Hlen.
  (* matched parts *)
  replace (range 1 (2 * length sp + 2 - 1) 2) with (range_from (length [0]) 2 (length sp)).
  2:{ unfold range. simpl length.
      replace (2 * length sp + 2 - 1 - 1 + (2 - 1)) with (2 * length sp + 1) by lia.
      now rewrite div2_odd. }
  change (0 :: flat sp ++ [L]) with ([0] ++ flat sp ++ [L]).
  rewrite (mapM_pairs (fun a b => f (slice text a b)) [L] sp [0]), bind_Ok.
  (* preserved parts *)
  change ([0] ++ flat sp ++ [L]) with (0 :: flat sp ++ [L]).
  rewrite gaps_flat.
  replace (range 0 (2 * length sp + 2) 2) with (range_from 0 2 (S (length sp))).
  2:{ unfold range.
      replace (2 * length sp + 2 - 0 + (2 - 1)) with (2 * length sp + 2 + 1) by lia.
      now rewrite div2_even. }
  rewrite (mapM_ext_in _
             (fun i => ab <- (a <- getitem ([] ++ flat (gaps 0 L sp) ++ []) i ;;
                              b <- getitem ([] ++ flat (gaps 0 L sp) ++ []) (i + 1) ;;
                              Ok (a, b)) ;;
                       Ok [slice text (fst ab) (snd ab)])).
  2:{ intros x Hx. apply range_from_bound in Hx.
      destruct (Nat.ltb_spec (x + 1) (2 * length sp + 2)); [|lia].
      simpl. rewrite app_nil_r.
      destruct (getitem (flat (gaps 0 L sp)) x); simpl; [|reflexivity].
      destruct (getitem (flat (gaps 0 L sp)) (x + 1)); reflexivity. }
  pose proof (mapM_pairs (fun a b => (a, b)) [] (gaps 0 L sp) []) as Hp.
  simpl length in Hp. rewrite length_gaps in Hp.
  rewrite (mapM_map _ (fun ab : nat * nat => [slice text (fst ab) (snd ab)]) _ _ Hp).
  rewrite bind_Ok. cbv zeta.
  rewrite map_map. cbn [fst snd].
  assert (Hc : concat (map (fun x : nat * nat => [slice text (fst x) (snd x)]) (gaps 0 L sp))
               = map (fun ab => slice text (fst ab) (snd ab)) (gaps 0 L sp)).
  { clear. generalize 0. induction sp as [|[a b] sp IH]; intros i; simpl; [reflexivity|].
    now rewrite IH. }
  rewrite Hc. rewrite !length_map, length_gaps.
  change (@length span) with (@length (nat * nat)).
  assert (Hlt : (@length (nat * nat) sp <? S (@length (nat * nat) sp)) = true)
    by (apply Nat.ltb_lt; lia).
  rewrite Hlt.
  f_equal. apply interleave_weave. reflexivity.
Qed.

(* ================================================================== *)
(** ** No pass raises *)

Lemma re_sub_ok r template t text :
  parse_template template = Ok t -> forallb (valid_item r) t = true ->
  re_sub r template text = Ok (sub r t text).
Proof.
  intros Hp H. unfold re_sub. rewrite Hp. cbn [bind]. now rewrite H.
Qed.

Lemma replace_all_ok text r f :
  1 <= ngroups r -> replace_all text r f = Ok (span_transform text r f).
Proof.
  apply replace_all_weave.
Qed.

Lemma fix_lines_ok lines :
  forall b, fix_lines lines b = Ok (fixed_lines lines b).
Proof.
  induction lines as [|line lines IH]; intros b; cbn [fix_lines fixed_lines]; [reflexivity|].
  unfold is_fence_line.
  destruct (startswith (strip line) (lit "```")).
  - now rewrite IH.
  - destruct b; cbn [negb andb].
    + now rewrite IH.
    + rewrite (re_sub_ok p_escaped_backtick [] [] line eq_refl eq_refl). rewrite bind_Ok.
      fold (uneven line). destruct (uneven line).
      * rewrite replace_all_ok by (simpl; lia). rewrite bind_Ok, IH. reflexivity.
      * now rewrite IH.
Qed.

Lemma fix_uneven_backticks_ok text :
  fix_uneven_backticks text = Ok (join [NL] (fixed_lines (split_lines text) false)).
Proof.
  unfold fix_uneven_backticks. now rewrite fix_lines_ok.
Qed.

Ltac pass_ok :=
  match goal with
  | |- context [bind (re_sub ?r ?t ?x) _] =>
      let p := eval vm_compute in (parse_template t) in
      match p with
      | Ok ?items => rewrite (re_sub_ok r t items x eq_refl eq_refl); rewrite bind_Ok
      end
  | |- context [bind (replace_all ?x ?r ?f) _] =>
      rewrite (replace_all_ok x r f) by (cbv; lia); rewrite bind_Ok
  | |- context [bind (Ok ?x) _] => rewrite bind_Ok
  end.

(** C5. For every input string and every flag value, [escape] returns a
    string: no list index, group lookup or template of the pipeline raises,
    whatever the markup (unterminated fence, stray backtick, unmatched
    bracket). *)
Theorem escape_never_raises :
  forall (text : str) (flag : bool), exists out : str, escape text flag = Ok out.
Proof.
  intros text flag. unfold escape.
  destruct flag; repeat pass_ok; rewrite fix_uneven_backticks_ok; eexists; reflexivity.
Qed.

(* ================================================================== *)
(** ** Where a pattern cannot match *)

Lemma consumes_nil cur c' u : consumes cur c' u -> pos c' = pos cur -> rest c' = rest cur.
Proof.
  intros [Hr Hp] H. assert (length u = 0) by lia.
  destruct u; [now rewrite Hr|discriminate].
Qed.

Lemma rep_first p lazy s lo hi pv i c' :
  In c' (rep p lo hi lazy pv i s) ->
  (pos c' = i /\ lo = 0) \/ (exists c s', s = c :: s' /\ p c = true).
Proof.
  destruct s as [|c s]; simpl; intros Hin.
  - left. destruct lo; simpl in Hin.
    + destruct lazy; simpl in Hin; destruct Hin as [<-|[]]; auto.
    + destruct lazy; simpl in Hin; destruct Hin.
  - destruct (p c) eqn:Hp; [right; eauto|]. simpl in Hin.
    left. destruct lo; simpl in Hin.
    + destruct lazy; simpl in Hin; destruct Hin as [<-|[]]; auto.
    + destruct lazy; simpl in Hin; destruct Hin.
Qed.

Lemma run_first r :
  forall cur cs c' cs',
    In (c', cs') (run r cur cs) ->
    (pos c' = pos cur /\ nullable r = true)
    \/ (exists c s', rest cur = c :: s' /\ first r c = true).
Proof.
  induction r as [c|p| |p lo hi lazy|r1 IH1 r2 IH2|r1 IH1 r2 IH2|g r1 IH1|r1 IH1];
    intros cur cs c' cs' Hin; simpl in Hin |- *.
  8:{ destruct (run r1 cur cs) as [|[c1 cs1] l]; [destruct Hin|].
      destruct Hin as [Heq|[]]. inversion Heq; subst. now left. }
  - apply in_map_iff in Hin. destruct Hin as (x & Heq & Hin). inversion Heq; subst.
    apply step1_consumes in Hin. destruct Hin as (d & Hd & [Hr _] & _).
    right. exists d, (rest c'). split; auto.
  - apply in_map_iff in Hin. destruct Hin as (x & Heq & Hin). inversion Heq; subst.
    apply step1_consumes in Hin. destruct Hin as (d & Hd & [Hr _] & _).
    right. exists d, (rest c'). split; auto.
  - destruct (at_bol cur); [|destruct Hin].
    destruct Hin as [Heq|[]]. inversion Heq; subst. now left.
  - apply in_map_iff in Hin. destruct Hin as (x & Heq & Hin). inversion Heq; subst.
    apply rep_first in Hin. destruct Hin as [[Hp Hlo]|(c & s' & Hs & Hp)].
    + left. subst. auto.
    + right. eauto.
  - apply in_flat_map in Hin. destruct Hin as ([c1 cs1] & H1 & H2). simpl in H2.
    pose proof (run_consumes _ _ _ _ _ H1) as (u1 & Hc1 & _).
    apply IH1 in H1. apply IH2 in H2.
    destruct H1 as [[Hp1 Hn1]|(c & s' & Hs & Hf)].
    + pose proof (consumes_nil _ _ _ Hc1 Hp1) as Hrest.
      destruct H2 as [[Hp2 Hn2]|(c & s' & Hs & Hf)].
      * left. rewrite Hn1, Hn2. split; [lia|reflexivity].
      * right. exists c, s'. rewrite <- Hrest, Hn1, Hf. split; auto.
        now rewrite orb_true_r.
    + right. exists c, s'. rewrite Hf. auto.
  - apply in_app_or in Hin. destruct Hin as [H|H].
    + apply IH1 in H. destruct H as [[Hp Hn]|(c & s' & Hs & Hf)].
      * left. now rewrite Hn.
      * right. exists c, s'. now rewrite Hf.
    + apply IH2 in H. destruct H as [[Hp Hn]|(c & s' & Hs & Hf)].
      * left. rewrite Hn. split; auto. apply orb_true_r.
      * right. exists c, s'. rewrite Hf. split; auto. apply orb_true_r.
  - apply in_map_iff in Hin. destruct Hin as ([c1 cs1] & Heq & Hin).
    simpl in Heq. inversion Heq; subst. eauto.
Qed.

(** A pattern that cannot match the empty string moves the cursor. *)
Lemma run_null r :
  forall cur cs c' cs',
    In (c', cs') (run r cur cs) -> pos c' = pos cur -> nullable r = true.
Proof.
  induction r as [c|p| |p lo hi lazy|r1 IH1 r2 IH2|r1 IH1 r2 IH2|g r1 IH1|r1 IH1];
    intros cur cs c' cs' Hin Hpos; simpl in Hin |- *; auto.
  - apply in_map_iff in Hin. destruct Hin as (x & Heq & Hin). inversion Heq; subst.
    apply step1_consumes in Hin. destruct Hin as (d & _ & [_ Hp] & _). simpl in Hp. lia.
  - apply in_map_iff in Hin. destruct Hin as (x & Heq & Hin). inversion Heq; subst.
    apply step1_consumes in Hin. destruct Hin as (d & _ & [_ Hp] & _). simpl in Hp. lia.
  - apply in_map_iff in Hin. destruct Hin as (x & Heq & Hin). inversion Heq; subst.
    apply rep_consumes in Hin. destruct Hin as (u & _ & Hp & Hlo & _).
    apply Nat.eqb_eq. lia.
  - apply in_flat_map in Hin. destruct Hin as ([c1 cs1] & H1 & H2). simpl in H2.
    pose proof (run_consumes _ _ _ _ _ H1) as (u1 & [_ Hp1] & _).
    pose proof (run_consumes _ _ _ _ _ H2) as (u2 & [_ Hp2] & _).
    rewrite (IH1 _ _ _ _ H1) by lia. rewrite (IH2 _ _ _ _ H2) by lia. reflexivity.
  - apply in_app_or in Hin. destruct Hin as [H|H].
    + now rewrite (IH1 _ _ _ _ H).
    + rewrite (IH2 _ _ _ _ H) by auto. apply orb_true_r.
  - apply in_map_iff in Hin. destruct Hin as ([c1 cs1] & Heq & Hin).
    simpl in Heq. inversion Heq; subst. eauto.
Qed.

Lemma run_advances r cur cs c' cs' :
  nullable r = false -> In (c', cs') (run r cur cs) -> pos cur < pos c'.
Proof.
  intros Hn Hin.
  pose proof (run_consumes _ _ _ _ _ Hin) as (u & [Hr Hp] & _).
  destruct (Nat.eq_dec (pos c') (pos cur)) as [E|E]; [|lia].
  apply (run_null _ _ _ _ _ Hin) in E. congruence.
Qed.

Lemma match_at_nonempty r pv i s m :
  nullable r = false -> match_at r (Cursor pv i s) = Some m -> m_start m < m_end m.
Proof.
  intros Hn. unfold match_at.
  destruct (run r (Cursor pv i s) []) as [|[c' cs'] l] eqn:E; [discriminate|].
  intros H. inversion H; subst; clear H. simpl.
  apply (run_advances r (Cursor pv i s) [] c' cs' Hn). rewrite E. now left.
Qed.

(** Every pattern of the module consumes at least one character. *)
Lemma module_patterns_match_no_empty_string :
  forallb (fun r => negb (nullable r))
    [p_escaped_backtick; p_backtick_fix; p_esc_lbracket; p_esc_rbracket; p_esc_lparen;
     p_esc_rparen; p_two_backslashes; C "\"; AT3; C "_"; p_bold; p_star_item; C "*";
     p_bold_saved; p_link; C "["; C "]"; C "("; C ")"; s_lbracket; s_rbracket; s_lparen;
     s_rparen; p_link_saved; C "~"; C ">"; p_header; C "#"; p_plus; p_numbered;
     p_minus_outside; C "-"; s_minus; p_dash_item; s_fenced_minus; p_minus; p_fence;
     p_backtick_outside; C "`"; s_backtick; p_two_backticks; p_fence_saved; C "=";
     C "|"; C "{"; C "}"; C "."; C "!"]
  = true.
Proof. reflexivity. Qed.

Lemma run_needs r x :
  forall cur cs c' cs',
    In (c', cs') (run r cur cs) -> needs r x = true ->
    exists u, consumes cur c' u /\ In x u.
Proof.
  induction r as [c|p| |p lo hi lazy|r1 IH1 r2 IH2|r1 IH1 r2 IH2|g r1 IH1|r1 IH1];
    intros cur cs c' cs' Hin Hn; simpl in Hin, Hn; try discriminate.
  - apply in_map_iff in Hin. destruct Hin as (y & Heq & Hin). inversion Heq; subst.
    apply step1_consumes in Hin. destruct Hin as (d & Hd & Hc & _).
    apply N.eqb_eq in Hd, Hn. subst. exists [x]. split; auto. now left.
  - apply in_flat_map in Hin. destruct Hin as ([c1 cs1] & H1 & H2). simpl in H2.
    pose proof (run_consumes _ _ _ _ _ H1) as (u1 & [Hr1 Hp1] & _).
    pose proof (run_consumes _ _ _ _ _ H2) as (u2 & [Hr2 Hp2] & _).
    apply orb_true_iff in Hn. destruct Hn as [Hn|Hn].
    + destruct (IH1 _ _ _ _ H1 Hn) as (v & [Hv Hpv] & Hx).
      assert (v = u1).
      { rewrite Hv in Hr1. apply app_inv_tail in Hr1. auto. }
      subst v. exists (u1 ++ u2). split.
      * split; [rewrite Hr1, Hr2; now rewrite app_assoc|rewrite length_app; lia].
      * apply in_or_app. now left.
    + destruct (IH2 _ _ _ _ H2 Hn) as (v & [Hv Hpv] & Hx).
      assert (v = u2).
      { rewrite Hv in Hr2. apply app_inv_tail in Hr2. auto. }
      subst v. exists (u1 ++ u2). split.
      * split; [rewrite Hr1, Hr2; now rewrite app_assoc|rewrite length_app; lia].
      * apply in_or_app. now right.
  - apply andb_true_iff in Hn. destruct Hn as [Hn1 Hn2].
    apply in_app_or in Hin. destruct Hin as [H|H]; eauto.
  - apply in_map_iff in Hin. destruct Hin as ([c1 cs1] & Heq & Hin).
    simpl in Heq. inversion Heq; subst. eauto.
Qed.

Lemma match_at_none_first r pv i s :
  nullable r = false ->
  match s with c :: _ => first r c = false | [] => True end ->
  match_at r (Cursor pv i s) = None.
Proof.
  intros Hn Hs. unfold match_at.
  destruct (run r (Cursor pv i s) []) as [|[c' cs'] l] eqn:E; [reflexivity|].
  assert (Hin : In (c', cs') (run r (Cursor pv i s) [])) by (rewrite E; now left).
  apply run_first in Hin. destruct Hin as [[_ H]|(c & s' & Hr & Hf)]; [congruence|].
  simpl in Hr. subst s. congruence.
Qed.

Lemma match_at_none_needs r x pv i s :
  needs r x = true -> ~ In x s -> match_at r (Cursor pv i s) = None.
Proof.
  intros Hn Hs. unfold match_at.
  destruct (run r (Cursor pv i s) []) as [|[c' cs'] l] eqn:E; [reflexivity|].
  assert (Hin : In (c', cs') (run r (Cursor pv i s) [])) by (rewrite E; now left).
  destruct (run_needs _ _ _ _ _ _ Hin Hn) as (u & [Hr _] & Hx).
  simpl in Hr. exfalso. apply Hs. rewrite Hr. apply in_or_app. now left.
Qed.

Lemma finditer_nil_gen r (Q : str -> Prop) :
  (forall c s, Q (c :: s) -> Q s) ->
  (forall s pv i, Q s -> match_at r (Cursor pv i s) = None) ->
  forall s pv i skip, Q s -> finditer_from r pv i s skip = [].
Proof.
  intros Htl Hnone. induction s as [|c s IH]; intros pv i skip HQ.
  - destruct skip; simpl; [|reflexivity]. now rewrite Hnone.
  - destruct skip; simpl.
    + rewrite Hnone by assumption. apply IH. eauto.
    + apply IH. eauto.
Qed.

Lemma finditer_nil_first r s :
  nullable r = false -> Forall (fun c => first r c = false) s -> finditer r s = [].
Proof.
  intros Hn H. unfold finditer.
  apply (finditer_nil_gen r (Forall (fun c => first r c = false))); auto.
  - intros c s' Hc. now inversion Hc.
  - intros s' pv i Hs'. apply match_at_none_first; auto.
    destruct s'; auto. now inversion Hs'.
Qed.

Lemma finditer_nil_needs r x s :
  needs r x = true -> ~ In x s -> finditer r s = [].
Proof.
  intros Hn H. unfold finditer.
  apply (finditer_nil_gen r (fun s => ~ In x s)); auto.
  - intros c s' Hc Hin. apply Hc. now right.
  - intros s' pv i Hs'. now apply (match_at_none_needs r x).
Qed.

Lemma sub_no_match r t text : finditer r text = [] -> sub r t text = text.
Proof.
  intros H. unfold sub. rewrite H. simpl. apply slice_all.
Qed.

Lemma span_transform_no_target text r f :
  targets r text = [] -> span_transform text r f = text.
Proof.
  intros H. unfold span_transform. rewrite H. simpl. apply slice_all.
Qed.

(** A group that needs a character the text lacks takes part in no match. *)
Lemma run_gneeds g x r :
  forall cur cs c' cs',
    In (c', cs') (run r cur cs) -> gneeds g r x = true -> ~ In x (rest cur) ->
    lookup g cs' = lookup g cs.
Proof.
  induction r as [c|p| |p lo hi lazy|r1 IH1 r2 IH2|r1 IH1 r2 IH2|g' r1 IH1|r1 IH1];
    intros cur cs c' cs' Hin Hn Hx; simpl in Hin, Hn.
  8:{ destruct (run r1 cur cs) as [|[c1 cs1] l] eqn:E; [destruct Hin|].
      destruct Hin as [Heq|[]]. inversion Heq; subst.
      apply (IH1 c' cs c1 cs'); auto. rewrite E. now left. }
  - apply in_map_iff in Hin. destruct Hin as (y & Heq & _). now inversion Heq.
  - apply in_map_iff in Hin. destruct Hin as (y & Heq & _). now inversion Heq.
  - destruct (at_bol cur); [|destruct Hin]. destruct Hin as [Heq|[]]. now inversion Heq.
  - apply in_map_iff in Hin. destruct Hin as (y & Heq & _). now inversion Heq.
  - apply andb_true_iff in Hn. destruct Hn as [Hn1 Hn2].
    apply in_flat_map in Hin. destruct Hin as ([c1 cs1] & H1 & H2). simpl in H2.
    pose proof (run_consumes _ _ _ _ _ H1) as (u1 & [Hr1 _] & _).
    rewrite (IH2 _ _ _ _ H2 Hn2).
    + now apply (IH1 _ _ _ _ H1).
    + intros Hin. apply Hx. rewrite Hr1. apply in_or_app. now right.
  - apply andb_true_iff in Hn. destruct Hn as [Hn1 Hn2].
    apply in_app_or in Hin. destruct Hin as [H|H]; eauto.
  - apply andb_true_iff in Hn. destruct Hn as [Hn1 Hn2].
    apply in_map_iff in Hin. destruct Hin as ([c1 cs1] & Heq & Hin).
    simpl in Heq. inversion Heq; subst. simpl.
    destruct (Nat.eqb_spec g g') as [->|Hne].
    + rewrite Nat.eqb_refl in Hn1.
      destruct (run_needs _ _ _ _ _ _ Hin Hn1) as (u & [Hr _] & Hu).
      exfalso. apply Hx. rewrite Hr. apply in_or_app. now left.
    + now apply (IH1 _ _ _ _ Hin).
Qed.

Lemma targets_of_nil_gneeds r x :
  gneeds 1 r x = true ->
  forall s pv i skip, ~ In x s -> targets_of (finditer_from r pv i s skip) = [].
Proof.
  intros Hn s pv i skip Hx.
  destruct (Nat.le_gt_cases skip (length s)) as [Hs|Hs].
  - apply (finditer_from_scan r (fun s => ~ In x s) (fun _ _ ms => targets_of ms = []));
      auto.
    + intros c s0 Hc Hin. apply Hc. now right.
    + intros pv0 i0 s0 m ms HQ (c' & Hin & _) Hms. cbn [targets_of].
      rewrite (run_gneeds 1 x _ _ _ _ _ Hin Hn HQ). exact Hms.
  - now rewrite finditer_from_overskip.
Qed.

Lemma targets_nil_gneeds r x text :
  gneeds 1 r x = true -> ~ In x text -> targets r text = [].
Proof.
  intros Hn Hx. unfold targets, finditer. now apply (targets_of_nil_gneeds r x).
Qed.

(* ================================================================== *)
(** ** Reading a scan one step at a time *)

Lemma firstn_add {A} (a b : nat) (l : list A) :
  firstn (a + b) l = firstn a l ++ firstn b (skipn a l).
Proof.
  revert l. induction a as [|a IH]; intros l; simpl; [reflexivity|].
  destruct l; simpl; [now rewrite firstn_nil|]. now rewrite IH.
Qed.

Lemma slice_app text i j k :
  i <= j -> j <= k -> slice text i j ++ slice text j k = slice text i k.
Proof.
  intros Hij Hjk. unfold slice.
  replace (k - i) with ((j - i) + (k - j)) by lia.
  rewrite firstn_add, skipn_skipn.
  now replace (j - i + i) with j by lia.
Qed.

Lemma slice_one pre c s : slice (pre ++ c :: s) (length pre) (S (length pre)) = [c].
Proof.
  unfold slice. replace (S (length pre) - length pre) with 1 by lia.
  rewrite skipn_app, Nat.sub_diag, skipn_all. reflexivity.
Qed.

Lemma slice_mid pre u s : slice (pre ++ u ++ s) (length pre) (length pre + length u) = u.
Proof.
  unfold slice. replace (length pre + length u - length pre) with (length u) by lia.
  rewrite skipn_app, Nat.sub_diag, skipn_all. simpl.
  rewrite firstn_app, Nat.sub_diag, firstn_all. simpl. apply app_nil_r.
Qed.

Lemma ordered_ms_weaken i j ms : i <= j -> ordered_ms j ms -> ordered_ms i ms.
Proof.
  destruct ms as [|m ms]; simpl; intros; [auto|].
  repeat split; try tauto; lia.
Qed.

Lemma finditer_ordered_ms r s :
  forall pv i skip,
    skip <= length s ->
    ordered_ms (i + skip) (finditer_from r pv i s skip)
    /\ Forall (fun m => m_end m <= i + length s) (finditer_from r pv i s skip).
Proof.
  intros pv i skip Hskip.
  apply (finditer_from_scan r (fun _ => True)
           (fun j L ms => ordered_ms j ms /\ Forall (fun m => m_end m <= L) ms));
    [auto| | | |exact I|exact Hskip].
  - intros j L _. split; [exact I|constructor].
  - intros i0 j L ms Hij [Ho Hf]. split; [|exact Hf].
    eapply ordered_ms_weaken; eauto.
  - intros pv0 i0 s0 m ms _ Hm [Ho Hf].
    pose proof (matched_bounds _ _ _ _ _ Hm) as (Hs & Hlo & Hhi & _).
    split; [|constructor; auto].
    cbn [ordered_ms]. repeat split; auto; lia.
Qed.

Lemma sub_loop_shift text t i j ms :
  i <= j -> j <= length text -> ordered_ms j ms ->
  sub_loop text t i ms = slice text i j ++ sub_loop text t j ms.
Proof.
  intros Hij HjL Hms. destruct ms as [|m ms]; simpl in *.
  - now rewrite slice_app.
  - destruct Hms as (H1 & H2 & H3).
    rewrite <- (slice_app text i j (m_start m)) by lia. now rewrite <- app_assoc.
Qed.

Lemma weave_shift_begins text f i j sp :
  i <= j -> begins_from j (length text) sp ->
  weave text f i sp = slice text i j ++ weave text f j sp.
Proof.
  intros Hij Hsp. destruct sp as [|[a b] sp]; simpl in *.
  - now rewrite slice_app.
  - rewrite <- (slice_app text i j a) by lia. now rewrite <- app_assoc.
Qed.

Lemma finditer_skip r s :
  forall u pv i,
    finditer_from r pv i (u ++ s) (length u)
    = finditer_from r (prev_after pv u) (i + length u) s 0.
Proof.
  induction u as [|c u IH]; intros pv i; simpl.
  - now rewrite Nat.add_0_r.
  - rewrite IH. unfold prev_after. simpl. f_equal. lia.
Qed.

Lemma sub_rel_start r t text : sub r t text = sub_rel r t None [] text.
Proof. reflexivity. Qed.

Lemma weave_rel_start text r f : span_transform text r f = weave_rel r f None [] text.
Proof. reflexivity. Qed.

Lemma sub_rel_nil r t pv pre :
  match_at r (Cursor pv (length pre) []) = None -> sub_rel r t pv pre [] = [].
Proof.
  intros H. unfold sub_rel. simpl. rewrite H. simpl.
  apply slice_empty. rewrite app_nil_r. lia.
Qed.

Lemma sub_rel_skip r t pv pre c s :
  match_at r (Cursor pv (length pre) (c :: s)) = None ->
  sub_rel r t pv pre (c :: s) = c :: sub_rel r t (Some c) (pre ++ [c]) s.
Proof.
  intros H. unfold sub_rel. simpl finditer_from. rewrite H.
  destruct (finditer_ordered_ms r s (Some c) (S (length pre)) 0) as [Ho _]; [lia|].
  rewrite Nat.add_0_r in Ho.
  rewrite (sub_loop_shift _ t (length pre) (S (length pre))); auto.
  - rewrite slice_one. simpl. rewrite <- app_assoc. simpl.
    rewrite length_app. simpl. now rewrite Nat.add_1_r.
  - rewrite length_app. simpl. lia.
Qed.

Lemma sub_rel_match r t pv pre u s m :
  match_at r (Cursor pv (length pre) (u ++ s)) = Some m ->
  m_end m = length pre + length u -> u <> [] ->
  sub_rel r t pv pre (u ++ s)
  = expand (pre ++ u ++ s) m t ++ sub_rel r t (prev_after pv u) (pre ++ u) s.
Proof.
  intros H He Hu. unfold sub_rel.
  destruct u as [|c u]; [congruence|]. clear Hu.
  simpl app. simpl finditer_from. change (c :: u ++ s) with ((c :: u) ++ s) in H.
  simpl app in H. rewrite H.
  assert (Ne : (m_end m =? length pre) = false)
    by (apply Nat.eqb_neq; cbn [length] in He; lia).
  rewrite Ne. simpl sub_loop.
  pose proof (match_at_bounds _ _ _ _ _ H) as (Hs & _).
  rewrite Hs, slice_empty by lia. simpl app.
  f_equal. simpl in He.
  replace (m_end m - length pre - 1) with (length u) by lia.
  rewrite finditer_skip.
  rewrite He. rewrite <- app_assoc. simpl app.
  rewrite length_app. simpl length.
  replace (S (length pre) + length u) with (length pre + S (length u)) by lia.
  reflexivity.
Qed.

Lemma weave_rel_nil r f pv pre :
  match_at r (Cursor pv (length pre) []) = None -> weave_rel r f pv pre [] = [].
Proof.
  intros H. unfold weave_rel. simpl. rewrite H. simpl.
  apply slice_empty. rewrite app_nil_r. lia.
Qed.

Lemma weave_rel_skip r f pv pre c s :
  match_at r (Cursor pv (length pre) (c :: s)) = None ->
  weave_rel r f pv pre (c :: s) = c :: weave_rel r f (Some c) (pre ++ [c]) s.
Proof.
  intros H. unfold weave_rel. simpl finditer_from. rewrite H.
  pose proof (finditer_begins r s (Some c) (S (length pre)) 0) as Ho.
  rewrite Nat.add_0_r in Ho. specialize (Ho (Nat.le_0_l _)).
  rewrite (weave_shift_begins _ f (length pre) (S (length pre))).
  - rewrite slice_one. simpl. rewrite <- app_assoc. simpl.
    rewrite length_app. simpl. now rewrite Nat.add_1_r.
  - lia.
  - rewrite length_app. simpl.
    replace (length pre + S (length s)) with (S (length pre) + length s) by lia. exact Ho.
Qed.

Lemma weave_rel_opaque r f pv pre u s m :
  match_at r (Cursor pv (length pre) (u ++ s)) = Some m ->
  m_end m = length pre + length u -> u <> [] ->
  lookup 1 (m_caps m) = None ->
  weave_rel r f pv pre (u ++ s) = u ++ weave_rel r f (prev_after pv u) (pre ++ u) s.
Proof.
  intros H He Hu Hg. unfold weave_rel.
  destruct u as [|c u]; [congruence|]. clear Hu.
  simpl app. simpl finditer_from. change (c :: u ++ s) with ((c :: u) ++ s) in H.
  simpl app in H. rewrite H.
  assert (Ne : (m_end m =? length pre) = false)
    by (apply Nat.eqb_neq; cbn [length] in He; lia).
  rewrite Ne. simpl targets_of. rewrite Hg.
  simpl in He.
  replace (m_end m - length pre - 1) with (length u) by lia.
  rewrite finditer_skip.
  pose proof (finditer_begins r s (prev_after (Some c) u) (S (length pre) + length u) 0) as Ho.
  rewrite Nat.add_0_r in Ho. specialize (Ho (Nat.le_0_l _)).
  rewrite (weave_shift_begins _ f (length pre) (S (length pre) + length u)).
  - change (pre ++ c :: u ++ s) with (pre ++ (c :: u) ++ s).
    replace (S (length pre) + length u) with (length pre + length (c :: u)) by (simpl; lia).
    rewrite slice_mid. rewrite <- app_assoc.
    rewrite (app_assoc pre (c :: u) s), length_app. reflexivity.
  - lia.
  - rewrite !length_app. simpl length. rewrite length_app.
    replace (length pre + S (length u + length s))
      with (S (length pre) + length u + length s) by lia.
    exact Ho.
Qed.

Lemma weave_rel_target r f pv pre u s m :
  match_at r (Cursor pv (length pre) (u ++ s)) = Some m ->
  m_end m = length pre + length u -> u <> [] ->
  lookup 1 (m_caps m) = Some (length pre, length pre + length u) ->
  weave_rel r f pv pre (u ++ s) = f u ++ weave_rel r f (prev_after pv u) (pre ++ u) s.
Proof.
  intros H He Hu Hg. unfold weave_rel.
  destruct u as [|c u]; [congruence|]. clear Hu.
  simpl app. simpl finditer_from. change (c :: u ++ s) with ((c :: u) ++ s) in H.
  simpl app in H. rewrite H.
  assert (Ne : (m_end m =? length pre) = false)
    by (apply Nat.eqb_neq; cbn [length] in He; lia).
  rewrite Ne. simpl targets_of. rewrite Hg.
  simpl in He.
  replace (m_end m - length pre - 1) with (length u) by lia.
  rewrite finditer_skip. simpl weave.
  rewrite slice_empty by lia. simpl app.
  change (pre ++ c :: u ++ s) with (pre ++ (c :: u) ++ s).
  rewrite slice_mid. f_equal.
  rewrite (app_assoc pre (c :: u) s), length_app.
  simpl length.
  replace (S (length pre) + length u) with (length pre + S (length u)) by lia.
  replace (S (length pre + length u)) with (length pre + S (length u)) by lia.
  reflexivity.
Qed.

(* ================================================================== *)
(** ** [escape] is its stages *)

Lemma escape_eq text flag : escape text flag = Ok (escape_stages text flag).
Proof.
  unfold escape.
  destruct flag; repeat pass_ok; rewrite fix_uneven_backticks_ok;
    cbv beta iota zeta delta [escape_stages stage_parity stage_punctuation stage_code
                              stage_blocks stage_inline];
    reflexivity.
Qed.

(* ================================================================== *)
(** ** Passes that leave a text alone *)

Lemma sub_id_needs r t x text :
  needs r x = true -> ~ In x text -> sub r t text = text.
Proof.
  intros Hn Hx. apply sub_no_match. now apply (finditer_nil_needs r x).
Qed.

Lemma sub_id_first r t text :
  nullable r = false -> Forall (fun c => first r c = false) text -> sub r t text = text.
Proof.
  intros Hn Hx. apply sub_no_match. now apply finditer_nil_first.
Qed.

Lemma span_transform_id_gneeds r f x text :
  gneeds 1 r x = true -> ~ In x text -> span_transform text r f = text.
Proof.
  intros Hn Hx. apply span_transform_no_target. now apply (targets_nil_gneeds r x).
Qed.

Lemma match_at_chr c pv i x s :
  match_at (Chr c) (Cursor pv i (x :: s))
  = if N.eqb c x then Some (Match i (S i) []) else None.
Proof.
  unfold match_at, run, step1. cbn [rest pos]. destruct (N.eqb c x); reflexivity.
Qed.

(** Substituting a literal for one character is a character-wise map. *)
Lemma sub_rel_chr c t :
  forall s pv pre,
    sub_rel (Chr c) [TLit t] pv pre s = flat_map (fun x => if N.eqb c x then t else [x]) s.
Proof.
  induction s as [|x s IH]; intros pv pre.
  - apply sub_rel_nil. reflexivity.
  - cbn [flat_map]. destruct (N.eqb c x) eqn:E.
    + etransitivity.
      * apply (sub_rel_match (Chr c) [TLit t] pv pre [x] s
                 (Match (length pre) (S (length pre)) [])).
        -- cbn [app]. now rewrite match_at_chr, E.
        -- simpl. lia.
        -- discriminate.
      * cbn [expand flat_map]. rewrite app_nil_r. f_equal. apply IH.
    + etransitivity.
      * apply sub_rel_skip. now rewrite match_at_chr, E.
      * cbn [app]. f_equal. apply IH.
Qed.

Lemma sub_chr c t s :
  sub (Chr c) [TLit t] s = flat_map (fun x => if N.eqb c x then t else [x]) s.
Proof.
  rewrite sub_rel_start. apply sub_rel_chr.
Qed.

(* ================================================================== *)
(** ** The scenarios and edge cases *)

(** C7. Scenario A: [escape] on "Intro\n- item1\n- item2" returns
    "Intro\n\n(bullet) item1\n\n(bullet) item2": each newline-prefixed
    dash-space marker becomes two newlines, the bullet and a space, and
    nothing else changes. *)
Theorem scenario_A_dash_list :
  escape (lit "Intro" ++ [NL] ++ lit "- item1" ++ [NL] ++ lit "- item2") false
  = Ok (lit "Intro" ++ [NL; NL; BULLET] ++ lit " item1"
        ++ [NL; NL; BULLET] ++ lit " item2").
Proof.
  vm_compute. reflexivity.
Qed.

(** C6, as the code has it. Scenario B: [escape] on
    "[OpenAI](https://openai.com)." keeps the link syntax unescaped and
    escapes every period, the one inside the URL included. *)
Theorem scenario_B_link :
  escape (lit "[OpenAI](https://openai.com).") false
  = Ok (lit "[OpenAI](https://openai\.com)\.").
Proof.
  vm_compute. reflexivity.
Qed.

(** C6, as stated, fails: the output is not the one with the period of the
    URL left alone. *)
Lemma scenario_B_url_period_is_escaped :
  escape (lit "[OpenAI](https://openai.com).") false
  <> Ok (lit "[OpenAI](https://openai.com)\.").
Proof.
  vm_compute. discriminate.
Qed.

(** C10. [escape] on the empty string returns the empty string, whatever
    the flag. *)
Theorem escape_empty :
  forall flag : bool, escape [] flag = Ok [].
Proof.
  intros [|]; vm_compute; reflexivity.
Qed.

(** Scenario C: a heading line becomes the heading glyph and the title in
    bold, followed by two newlines. *)
Example scenario_C_heading :
  escape (lit "# Title" ++ [NL] ++ lit "body") false
  = Ok ([HEADING] ++ lit "*Title*" ++ [NL; NL] ++ lit "body").
Proof.
  vm_compute. reflexivity.
Qed.

(** Scenario D: the one backtick of a line is escaped. *)
Example scenario_D_backtick :
  escape (lit "What`s up") false = Ok (lit "What\`s up").
Proof.
  vm_compute. reflexivity.
Qed.

(** C1, as stated, fails: the period inside a fenced block is escaped by the
    final punctuation pass, so the interior of the block changes. *)
Lemma fence_interior_is_escaped :
  escape (lit "```a.b```") false = Ok (lit "```a\.b```")
  /\ fence_interiors (lit "```a.b```") = [lit "a.b"]
  /\ fence_interiors (lit "```a\.b```") = [lit "a\.b"]
  /\ lit "a\.b" <> lit "a.b".
Proof.
  repeat split; try (vm_compute; reflexivity). vm_compute. discriminate.
Qed.

(** C2. The code breaks the claim on an input with no marker character at
    all.  A link is saved as [@@@label@@@^^^target^^^] and restored later;
    with the label [->] the saved form holds [@->@], the marker of an
    escaped bracket, which is rewritten in between, so the link is not
    found again and its markers reach the output.  A link with another
    label goes through the same passes and comes back. *)
Lemma link_marker_leaks :
  escape (lit "[->](u)") false = Ok (lit "@@\[@@^^^u^^^")
  /\ leaks (lit "[->](u)") = false
  /\ leaks (lit "@@\[@@^^^u^^^") = true
  /\ escape (lit "[a](u)") false = Ok (lit "[a](u)")
  /\ leaks (lit "[a](u)") = false.
Proof.
  repeat split; vm_compute; reflexivity.
Qed.

(** C8, as stated, fails: a numbered line after two newlines keeps its two
    newlines; no third one is inserted. *)
Lemma numbered_after_two_newlines :
  escape (lit "a" ++ [NL; NL] ++ lit "1. x") false = Ok (lit "a" ++ [NL; NL] ++ lit "1\. x")
  /\ escape (lit "a" ++ [NL; NL] ++ lit "1. x") false
     <> Ok (lit "a" ++ [NL; NL; NL] ++ lit "1\. x").
Proof.
  split; vm_compute; [reflexivity|discriminate].
Qed.

(* ================================================================== *)
(** ** The selective span transform *)

(** C3, as stated, fails for a target arm whose group stands inside a
    lookahead: with the pattern [b|(?=(aa))a] the group captures two
    characters where the match consumes one, the captured regions 0-2 and
    1-3 overlap, and [replace_all] with the identity transform returns
    [aaaa] for [aaa]. *)
Lemma lookahead_group_is_duplicated :
  let pattern := Alt (C "b") (Cat (Ahead (Grp 1 (Cat (C "a") (C "a")))) (C "a")) in
  find_all_index (lit "aaa") pattern = Ok [0; 0; 2; 1; 3; 3]
  /\ replace_all (lit "aaa") pattern (fun x => x) = Ok (lit "aaaa")
  /\ replace_all (lit "aaa") pattern (fun x => x) <> Ok (lit "aaa").
Proof.
  cbv zeta. repeat split; try (vm_compute; reflexivity). vm_compute. discriminate.
Qed.

(** C3, as the code has it. For every text, every transform [f] and every
    pattern with a first group and without lookahead (the two-armed
    patterns of the module among them; a pattern that can match the empty
    string too): the Transform regions lie in order and without overlap
    inside the text, [replace_all] returns the in-order concatenation of the
    Preserve regions' original text with [f] applied to each Transform
    region, and with the identity transform it returns the text itself:
    nothing is altered, dropped or duplicated. *)
Theorem replace_all_preserves_and_covers :
  forall (text : str) (pattern : regex) (f : str -> str),
    1 <= ngroups pattern -> lookfree pattern = true ->
    ordered 0 (length text) (targets pattern text)
    /\ replace_all text pattern f = Ok (weave text f 0 (targets pattern text))
    /\ replace_all text pattern (fun x => x) = Ok text.
Proof.
  intros text pattern f Hg Hl. split; [|split].
  - now apply targets_ordered.
  - now apply replace_all_weave.
  - rewrite replace_all_weave by assumption.
    rewrite weave_id by now apply targets_ordered. reflexivity.
Qed.

Lemma replace_all_preserves_and_covers_witness :
  (1 <= ngroups p_minus_outside /\ lookfree p_minus_outside = true)
  /\ ordered 0 (length (lit "a-b```-```")) (targets p_minus_outside (lit "a-b```-```"))
  /\ replace_all (lit "a-b```-```") p_minus_outside escape_temp_minus
     = Ok (weave (lit "a-b```-```") escape_temp_minus 0
             (targets p_minus_outside (lit "a-b```-```")))
  /\ replace_all (lit "a-b```-```") p_minus_outside (fun x => x) = Ok (lit "a-b```-```").
Proof.
  split.
  - split; [vm_compute; lia|reflexivity].
  - apply (replace_all_preserves_and_covers (lit "a-b```-```") p_minus_outside
             escape_temp_minus); [vm_compute; lia|reflexivity].
Defined.

(** A pattern that can match the empty string, [x|(a*?)]: after each empty
    match the scan looks for a match that is not empty at the same place,
    so every position gives an empty region and every [a] a region of its
    own. *)
Example scan_after_empty_match :
  let pattern := Alt (C "x") (Grp 1 (lazy_star (eqc "a"))) in
  find_all_index (lit "aa") pattern = Ok [0; 0; 0; 0; 1; 1; 1; 1; 2; 2; 2; 2]
  /\ replace_all (lit "aa") pattern (fun x => BSL :: x) = Ok (lit "\\a\\a\").
Proof. cbv zeta. split; vm_compute; reflexivity. Qed.

(* ================================================================== *)
(** ** The parity fixer, line by line *)

Lemma str_ind2 (P : str -> Prop) :
  P [] -> (forall c, P [c]) -> (forall c d s, P s -> P (d :: s) -> P (c :: d :: s)) ->
  forall s, P s.
Proof.
  intros H0 H1 H2 s.
  assert (H : P s /\ forall c, P (c :: s)).
  { induction s as [|d s [IHa IHb]]; split; auto. }
  apply H.
Qed.

(* ================================================================== *)
(** ** Matching literals, alternatives and groups *)

Lemma startswith_app s p : startswith s p = true -> s = p ++ skipn (length p) s.
Proof.
  revert s. induction p as [|x p IH]; intros s H; [reflexivity|].
  destruct s as [|y s]; [discriminate|]. simpl in H.
  apply andb_true_iff in H. destruct H as [H1 H2]. apply N.eqb_eq in H1. subst.
  simpl. f_equal. now apply IH.
Qed.

Lemma startswith_refl_app p s : startswith (p ++ s) p = true.
Proof.
  induction p as [|x p IH]; simpl; [now destruct s|]. now rewrite N.eqb_refl.
Qed.

Lemma run_chr_cons c pv i x s cs :
  run (Chr c) (Cursor pv i (x :: s)) cs
  = if N.eqb c x then [(Cursor (Some x) (S i) s, cs)] else [].
Proof.
  unfold run, step1. cbn [rest pos]. destruct (N.eqb c x); reflexivity.
Qed.

Lemma run_chr_nil c pv i cs : run (Chr c) (Cursor pv i []) cs = [].
Proof. reflexivity. Qed.

Lemma run_cat r1 r2 cur cs :
  run (Cat r1 r2) cur cs = flat_map (fun x => run r2 (fst x) (snd x)) (run r1 cur cs).
Proof. reflexivity. Qed.

Lemma run_chars cs0 : forall c l pv i s,
  run (chars c l) (Cursor pv i s) cs0
  = if startswith s (c :: l)
    then [(Cursor (prev_after pv (c :: l)) (i + S (length l)) (skipn (S (length l)) s), cs0)]
    else [].
Proof.
  intros c l. revert c. induction l as [|d l IH]; intros c pv i s.
  - cbn [chars]. destruct s as [|x s]; [reflexivity|].
    rewrite run_chr_cons. cbn [startswith].
    destruct (N.eqb_spec c x) as [->|]; cbn [andb]; [|reflexivity].
    cbn. now rewrite Nat.add_1_r.
  - cbn [chars]. rewrite run_cat. destruct s as [|x s]; [reflexivity|].
    rewrite run_chr_cons. change (startswith (x :: s) (c :: d :: l))
      with (N.eqb c x && startswith s (d :: l)).
    destruct (N.eqb_spec c x) as [->|]; cbn [flat_map andb fst snd]; [|reflexivity].
    rewrite IH. rewrite app_nil_r.
    destruct (startswith s (d :: l)); [|reflexivity].
    cbn [length skipn]. unfold prev_after. cbn [fold_left].
    replace (S i + S (length l)) with (i + S (S (length l))) by lia. reflexivity.
Qed.

Lemma match_at_chars c l pv i s :
  match_at (chars c l) (Cursor pv i s)
  = if startswith s (c :: l) then Some (Match i (i + S (length l)) []) else None.
Proof.
  unfold match_at. rewrite run_chars. destruct (startswith s (c :: l)); reflexivity.
Qed.

Lemma match_at_alt r1 r2 cur :
  match_at (Alt r1 r2) cur
  = match match_at r1 cur with Some m => Some m | None => match_at r2 cur end.
Proof.
  unfold match_at. cbn [run]. destruct (run r1 cur []) as [|[c' cs'] l]; reflexivity.
Qed.

Lemma match_at_grp g r cur :
  match_at (Grp g r) cur
  = match match_at r cur with
    | Some m => Some (Match (m_start m) (m_end m) ((g, (m_start m, m_end m)) :: m_caps m))
    | None => None
    end.
Proof.
  unfold match_at. cbn [run]. destruct (run r cur []) as [|[c' cs'] l]; reflexivity.
Qed.

(* ================================================================== *)
(** ** The two scans of the parity fixer *)

Lemma p_escaped_backtick_chars : p_escaped_backtick = chars BSL [BQ].
Proof. reflexivity. Qed.

Lemma p_backtick_fix_alt : p_backtick_fix = Alt (chars BSL [BQ]) (Grp 1 (Chr BQ)).
Proof. reflexivity. Qed.

Lemma startswith_pair x y s : startswith s [x; y]
  = match s with c :: d :: _ => N.eqb c x && N.eqb d y | _ => false end.
Proof.
  destruct s as [|c [|d s]]; cbn.
  - reflexivity.
  - apply andb_false_r.
  - now rewrite andb_true_r, (N.eqb_sym x c), (N.eqb_sym y d).
Qed.

Lemma sub_rel_remove_escaped :
  forall s pv pre, sub_rel p_escaped_backtick [] pv pre s = remove_escaped s.
Proof.
  rewrite p_escaped_backtick_chars.
  induction s as [| c | c d s IH1 IH2] using str_ind2; intros pv pre.
  - apply sub_rel_nil. now rewrite match_at_chars.
  - etransitivity.
    + apply sub_rel_skip. now rewrite match_at_chars, startswith_pair.
    + cbn [remove_escaped]. f_equal. apply sub_rel_nil. now rewrite match_at_chars.
  - cbn [remove_escaped]. destruct (N.eqb c BSL && N.eqb d BQ) eqn:E.
    + etransitivity.
      * apply (sub_rel_match _ [] pv pre [c; d] s (Match (length pre) (length pre + 2) [])).
        -- cbn [app]. now rewrite match_at_chars, startswith_pair, E.
        -- reflexivity.
        -- discriminate.
      * cbn [expand flat_map app]. apply IH1.
    + etransitivity.
      * apply sub_rel_skip. now rewrite match_at_chars, startswith_pair, E.
      * f_equal. apply IH2.
Qed.

Lemma sub_remove_escaped line : sub p_escaped_backtick [] line = remove_escaped line.
Proof.
  rewrite sub_rel_start. apply sub_rel_remove_escaped.
Qed.

Lemma odd_mod2 n : negb (n mod 2 =? 0) = Nat.odd n.
Proof.
  rewrite <- Nat.bit0_odd, Nat.bit0_eqb.
  pose proof (Nat.mod_upper_bound n 2).
  destruct (n mod 2) as [|[|k]]; simpl; auto. lia.
Qed.

Lemma uneven_odd line : uneven line = Nat.odd (unescaped_backticks line).
Proof.
  unfold uneven, unescaped_backticks. rewrite sub_remove_escaped. apply odd_mod2.
Qed.

Lemma match_at_backtick_fix pv i s :
  match_at p_backtick_fix (Cursor pv i s)
  = if startswith s [BSL; BQ] then Some (Match i (i + 2) [])
    else match s with
         | c :: _ => if N.eqb BQ c then Some (Match i (S i) [(1, (i, S i))]) else None
         | [] => None
         end.
Proof.
  rewrite p_backtick_fix_alt, match_at_alt, match_at_chars.
  destruct (startswith s [BSL; BQ]); [reflexivity|].
  rewrite match_at_grp. destruct s as [|c s]; [reflexivity|].
  rewrite match_at_chr. destruct (N.eqb BQ c); reflexivity.
Qed.

Lemma weave_rel_escape_backticks :
  forall s pv pre,
    weave_rel p_backtick_fix (fun x => BSL :: x) pv pre s = escape_backticks s.
Proof.
  induction s as [| c | c d s IH1 IH2] using str_ind2; intros pv pre.
  - apply weave_rel_nil. now rewrite match_at_backtick_fix.
  - cbn [escape_backticks]. destruct (N.eqb c BQ) eqn:E.
    + etransitivity.
      * apply (weave_rel_target _ _ pv pre [c] []
                 (Match (length pre) (S (length pre)) [(1, (length pre, S (length pre)))])).
        -- cbn [app]. rewrite match_at_backtick_fix, startswith_pair.
           now rewrite N.eqb_sym, E.
        -- simpl. lia.
        -- discriminate.
        -- simpl. now rewrite Nat.add_1_r.
      * cbn [app]. do 2 f_equal. apply weave_rel_nil. now rewrite match_at_backtick_fix.
    + etransitivity.
      * apply weave_rel_skip. rewrite match_at_backtick_fix, startswith_pair.
        now rewrite N.eqb_sym, E.
      * f_equal. apply weave_rel_nil. now rewrite match_at_backtick_fix.
  - cbn [escape_backticks]. destruct (N.eqb c BSL && N.eqb d BQ) eqn:E.
    + etransitivity.
      * apply (weave_rel_opaque _ _ pv pre [c; d] s (Match (length pre) (length pre + 2) [])).
        -- cbn [app]. now rewrite match_at_backtick_fix, startswith_pair, E.
        -- reflexivity.
        -- discriminate.
        -- reflexivity.
      * cbn [app]. do 2 f_equal. apply IH1.
    + destruct (N.eqb c BQ) eqn:Ec.
      * etransitivity.
        -- apply (weave_rel_target _ _ pv pre [c] (d :: s)
                   (Match (length pre) (S (length pre)) [(1, (length pre, S (length pre)))])).
           ++ cbn [app]. rewrite match_at_backtick_fix, startswith_pair, E.
              now rewrite N.eqb_sym, Ec.
           ++ simpl. lia.
           ++ discriminate.
           ++ simpl. now rewrite Nat.add_1_r.
        -- cbn [app]. do 2 f_equal. apply IH2.
      * etransitivity.
        -- apply weave_rel_skip. rewrite match_at_backtick_fix, startswith_pair, E.
           now rewrite N.eqb_sym, Ec.
        -- f_equal. apply IH2.
Qed.

Lemma fix_line_escape_backticks line : fix_line line = escape_backticks line.
Proof.
  unfold fix_line. rewrite weave_rel_start. apply weave_rel_escape_backticks.
Qed.

(* ================================================================== *)
(** ** What the repaired line looks like *)

Lemma escaped_from_escape_backticks :
  forall s pv, escaped_from pv (escape_backticks s) = true.
Proof.
  induction s as [| c | c d s IH1 IH2] using str_ind2; intros pv.
  - reflexivity.
  - cbn [escape_backticks]. destruct (N.eqb c BQ) eqn:E; cbn [escaped_from].
    + apply N.eqb_eq in E. subst. reflexivity.
    + now rewrite E.
  - cbn [escape_backticks]. destruct (N.eqb c BSL && N.eqb d BQ) eqn:E.
    + apply andb_true_iff in E. destruct E as [Ec Ed].
      apply N.eqb_eq in Ec, Ed. subst. cbn [escaped_from].
      change (N.eqb BSL BQ) with false. change (N.eqb BQ BQ) with true.
      change (N.eqb BSL BSL) with true. cbn [andb]. apply IH1.
    + destruct (N.eqb c BQ) eqn:Ec.
      * apply N.eqb_eq in Ec. subst. cbn [escaped_from].
        change (N.eqb BSL BQ) with false. change (N.eqb BQ BQ) with true.
        change (N.eqb BSL BSL) with true. cbn [andb]. apply IH2.
      * cbn [escaped_from]. rewrite Ec. cbn [andb]. apply IH2.
Qed.

Lemma escaped_from_weaken s p :
  escaped_from (Some p) s = true -> N.eqb p BSL = false -> escaped_from None s = true.
Proof.
  destruct s as [|c s]; [reflexivity|]. cbn [escaped_from].
  destruct (N.eqb c BQ); [|auto]. intros H Hp. rewrite Hp in H. discriminate.
Qed.

Lemma escaped_no_raw :
  forall s, escaped_from None s = true -> count BQ (remove_escaped s) = 0.
Proof.
  unfold count.
  induction s as [| c | c d s IH1 IH2] using str_ind2; intros H.
  - reflexivity.
  - cbn [escaped_from] in H. cbn [remove_escaped filter].
    rewrite N.eqb_sym. destruct (N.eqb c BQ); [discriminate|reflexivity].
  - cbn [escaped_from] in H. cbn [remove_escaped].
    destruct (N.eqb c BQ) eqn:Ec; [discriminate|]. cbn [andb] in H.
    destruct (N.eqb d BQ) eqn:Ed.
    + apply andb_true_iff in H. destruct H as [Hc Hs]. rewrite Hc. cbn [andb].
      apply IH1. apply (escaped_from_weaken s d Hs).
      apply N.eqb_eq in Ed. subst. reflexivity.
    + rewrite andb_false_r. cbn [filter]. rewrite (N.eqb_sym BQ c), Ec.
      apply IH2. cbn [escaped_from]. now rewrite Ed.
Qed.

Lemma unescaped_backticks_fixed line : unescaped_backticks (escape_backticks line) = 0.
Proof.
  apply escaped_no_raw, escaped_from_escape_backticks.
Qed.

Lemma lstrip_suffix s : exists ws, s = ws ++ lstrip s.
Proof.
  induction s as [|c s [ws IH]]; [now exists []|]. simpl.
  destruct (isspace c); [|now exists []].
  exists (c :: ws). simpl. now f_equal.
Qed.

Lemma strip_prefix s : exists ws, lstrip s = strip s ++ ws.
Proof.
  unfold strip. destruct (lstrip_suffix (rev (lstrip s))) as [ws H].
  exists (rev ws). rewrite <- rev_app_distr, <- H. now rewrite rev_involutive.
Qed.

Lemma startswith_app_l a b p : startswith a p = true -> startswith (a ++ b) p = true.
Proof.
  revert a. induction p as [|x p IH]; intros a; [reflexivity|].
  destruct a as [|y a]; simpl; [discriminate|].
  intros H. apply andb_true_iff in H. destruct H as [H1 H2].
  rewrite H1. simpl. auto.
Qed.

Lemma lstrip_escaped_no_backtick s :
  forall pv, escaped_from pv s = true ->
             match pv with Some p => N.eqb p BSL = false | None => True end ->
             startswith (lstrip s) [BQ] = false.
Proof.
  induction s as [|c s IH]; intros pv H Hpv; [reflexivity|].
  cbn [escaped_from] in H. apply andb_true_iff in H. destruct H as [Hc Hs].
  cbn [lstrip]. destruct (isspace c) eqn:Esp.
  - apply (IH (Some c)); auto.
    destruct (N.eqb_spec c BSL); [subst; discriminate|reflexivity].
  - cbn [startswith]. rewrite N.eqb_sym. destruct (N.eqb c BQ); [|reflexivity].
    destruct pv as [p|]; [|discriminate]. congruence.
Qed.

Lemma escaped_not_fence_line s : escaped_from None s = true -> is_fence_line s = false.
Proof.
  intros H. unfold is_fence_line.
  destruct (startswith (strip s) (lit "```")) eqn:E; [|reflexivity].
  destruct (strip_prefix s) as [ws Hws].
  apply (startswith_app_l _ ws _) in E. rewrite <- Hws in E.
  pose proof (lstrip_escaped_no_backtick s None H I) as Hn.
  destruct (lstrip s) as [|c l]; [discriminate|].
  change (lit "```") with [BQ; BQ; BQ] in E. cbn [startswith] in E, Hn.
  rewrite andb_true_r in Hn. rewrite Hn in E. discriminate.
Qed.

Lemma escape_backticks_no_newline (s : str) : ~ In NL s -> ~ In NL (escape_backticks s).
Proof.
  induction s as [| c | c d s IH1 IH2] using str_ind2; intros H.
  - auto.
  - cbn [escape_backticks]. destruct (N.eqb c BQ); simpl in *; intuition discriminate.
  - cbn [escape_backticks].
    assert (Hs : ~ In NL s) by (intros X; apply H; simpl; auto).
    assert (Hd : ~ In NL (d :: s)) by (intros X; apply H; simpl; auto).
    assert (Hc : NL <> c) by (intros X; apply H; simpl; auto).
    assert (Hd' : NL <> d) by (intros X; apply H; simpl; auto).
    destruct (N.eqb c BSL && N.eqb d BQ).
    + intros [X|[X|X]]; auto. now apply IH1.
    + destruct (N.eqb c BQ).
      * intros [X|[X|X]]; auto; [discriminate|]. now apply IH2.
      * intros [X|X]; auto. now apply IH2.
Qed.

(* ================================================================== *)
(** ** Lines: splitting and joining *)

Lemma split_on_no_sep sep (l : str) :
  forall acc, ~ In sep l -> split_on sep acc l = [rev acc ++ l].
Proof.
  induction l as [|c l IH]; intros acc H; simpl.
  - now rewrite app_nil_r.
  - destruct (N.eqb_spec c sep) as [->|Hc]; [exfalso; apply H; now left|].
    rewrite IH by (intros X; apply H; now right).
    simpl. now rewrite <- app_assoc.
Qed.

Lemma split_on_app sep (l rest : str) :
  forall acc, ~ In sep l ->
    split_on sep acc (l ++ sep :: rest) = (rev acc ++ l) :: split_on sep [] rest.
Proof.
  induction l as [|c l IH]; intros acc H; simpl.
  - rewrite N.eqb_refl. now rewrite app_nil_r.
  - destruct (N.eqb_spec c sep) as [->|Hc]; [exfalso; apply H; now left|].
    rewrite IH by (intros X; apply H; now right).
    simpl. now rewrite <- app_assoc.
Qed.

Lemma split_join (ls : list str) :
  ls <> [] -> Forall (fun l => ~ In NL l) ls -> split_lines (join [NL] ls) = ls.
Proof.
  unfold split_lines. induction ls as [|l ls IH]; intros Hne H; [congruence|].
  inversion H as [|? ? Hl Hls]; subst.
  destruct ls as [|l2 ls].
  - simpl. now rewrite split_on_no_sep.
  - change (join [NL] (l :: l2 :: ls)) with (l ++ NL :: join [NL] (l2 :: ls)).
    rewrite split_on_app by assumption. simpl rev. simpl app at 1.
    f_equal. apply IH; [discriminate|assumption].
Qed.

Lemma split_on_no_newline (s : str) :
  forall acc, ~ In NL acc -> Forall (fun l => ~ In NL l) (split_on NL acc s).
Proof.
  induction s as [|c s IH]; intros acc H; simpl.
  - constructor; [|constructor]. now rewrite <- in_rev.
  - destruct (N.eqb_spec c NL) as [->|Hc].
    + constructor; [now rewrite <- in_rev|]. apply IH. auto.
    + apply IH. intros [X|X]; auto.
Qed.

Lemma split_lines_no_newline text : Forall (fun l => ~ In NL l) (split_lines text).
Proof.
  apply split_on_no_newline. auto.
Qed.

Lemma split_on_nonempty sep (s : str) : forall acc, split_on sep acc s <> [].
Proof.
  induction s as [|c s IH]; intros acc; simpl; [discriminate|].
  destruct (N.eqb c sep); [discriminate|apply IH].
Qed.

(* ================================================================== *)
(** ** The repaired lines, by index *)

Lemma length_fixed_lines lines : forall b, length (fixed_lines lines b) = length lines.
Proof.
  induction lines as [|l ls IH]; intros b; simpl; [reflexivity|].
  destruct (is_fence_line l); simpl; [now rewrite IH|].
  destruct (negb b && uneven l); simpl; now rewrite IH.
Qed.

Lemma fixed_lines_nonempty lines b : lines <> [] -> fixed_lines lines b <> [].
Proof.
  intros H E. apply (f_equal (@length str)) in E.
  rewrite length_fixed_lines in E. destruct lines; [congruence|discriminate].
Qed.

Lemma fixed_lines_nth lines :
  forall b i line,
    nth_error lines i = Some line ->
    nth_error (fixed_lines lines b) i
    = Some (if is_fence_line line then line
            else if negb (xorb b (fence_state lines i)) && uneven line
                 then fix_line line else line).
Proof.
  induction lines as [|l ls IH]; intros b i line H; [destruct i; discriminate|].
  destruct i as [|i].
  - simpl in H. inversion H; subst. cbn [fixed_lines fence_state].
    rewrite xorb_false_r.
    destruct (is_fence_line line); [reflexivity|].
    destruct (negb b && uneven line); reflexivity.
  - simpl in H. cbn [fixed_lines fence_state].
    destruct (is_fence_line l) eqn:El.
    + cbn [nth_error]. rewrite (IH _ _ _ H).
      replace (xorb (negb b) (fence_state ls i)) with (xorb b (xorb true (fence_state ls i)))
        by (destruct b, (fence_state ls i); reflexivity).
      reflexivity.
    + rewrite xorb_false_l.
      destruct (negb b && uneven l); cbn [nth_error]; apply (IH _ _ _ H).
Qed.

Lemma fixed_lines_no_newline lines :
  forall b, Forall (fun l => ~ In NL l) lines ->
            Forall (fun l => ~ In NL l) (fixed_lines lines b).
Proof.
  induction lines as [|l ls IH]; intros b H; simpl; [constructor|].
  inversion H as [|? ? Hl Hls]; subst.
  destruct (is_fence_line l); [constructor; auto|].
  destruct (negb b && uneven l); constructor; auto.
  rewrite fix_line_escape_backticks. now apply escape_backticks_no_newline.
Qed.

Lemma fix_line_not_fence line : is_fence_line (fix_line line) = false.
Proof.
  rewrite fix_line_escape_backticks.
  apply escaped_not_fence_line, escaped_from_escape_backticks.
Qed.



Lemma lines_of_stage_parity text :
  split_lines (stage_parity text) = fixed_lines (split_lines text) false.
Proof.
  unfold stage_parity. apply split_join.
  - apply fixed_lines_nonempty. apply split_on_nonempty.
  - apply fixed_lines_no_newline, split_lines_no_newline.
Qed.

Lemma fixed_line_cases text i line :
  nth_error (split_lines text) i = Some line ->
  nth_error (split_lines (stage_parity text)) i
  = Some (if is_fence_line line then line
          else if negb (fence_state (split_lines text) i) && Nat.odd (unescaped_backticks line)
               then escape_backticks line else line).
Proof.
  intros H. rewrite lines_of_stage_parity, (fixed_lines_nth _ false i line H).
  rewrite xorb_false_l, uneven_odd, fix_line_escape_backticks. reflexivity.
Qed.



(* ================================================================== *)
(** ** The parity fixer *)



(** C9. [fix_uneven_backticks] returns as many lines as it is given, and
    returns unchanged every fence-delimiter line, every line inside a fence,
    and every line outside a fence whose count of unescaped backticks is
    even. *)
Theorem parity_fixer_line_frame :
  forall text : str, exists out : str,
    fix_uneven_backticks text = Ok out
    /\ length (split_lines out) = length (split_lines text)
    /\ forall i line,
        nth_error (split_lines text) i = Some line ->
        is_fence_line line = true
        \/ fence_state (split_lines text) i = true
        \/ Nat.even (unescaped_backticks line) = true ->
        nth_error (split_lines out) i = Some line.
Proof.
  intros text. exists (stage_parity text). split; [apply fix_uneven_backticks_ok|]. split.
  - rewrite lines_of_stage_parity. apply length_fixed_lines.
  - intros i line H Hc. rewrite (fixed_line_cases text i line H).
    destruct (is_fence_line line); [reflexivity|].
    destruct Hc as [Hc|[Hc|Hc]]; [discriminate| |].
    + now rewrite Hc.
    + rewrite <- Nat.negb_odd in Hc. apply negb_true_iff in Hc. rewrite Hc.
      now rewrite andb_false_r.
Qed.

Lemma parity_fixer_line_frame_witness :
  exists out : str,
    fix_uneven_backticks (lit "```" ++ [NL] ++ lit "a`b" ++ [NL] ++ lit "```"
                          ++ [NL] ++ lit "`c`") = Ok out
    /\ length (split_lines out) = 4
    /\ nth_error (split_lines out) 0 = Some (lit "```")
    /\ nth_error (split_lines out) 1 = Some (lit "a`b")
    /\ nth_error (split_lines out) 3 = Some (lit "`c`").
Proof.
  destruct (parity_fixer_line_frame
              (lit "```" ++ [NL] ++ lit "a`b" ++ [NL] ++ lit "```" ++ [NL] ++ lit "`c`"))
    as (out & Hout & Hlen & H).
  exists out. split; [exact Hout|]. split; [exact Hlen|].
  split; [|split].
  - apply H; [reflexivity|]. left. reflexivity.
  - apply H; [reflexivity|]. right. left. reflexivity.
  - apply H; [reflexivity|]. right. right. reflexivity.
Defined.

(* ================================================================== *)
(** ** Texts that avoid characters *)

Lemma avoids_notin X s x : avoids X s -> existsb (N.eqb x) X = true -> ~ In x s.
Proof.
  intros H Hx Hin. unfold avoids in H. rewrite Forall_forall in H.
  rewrite (H x Hin) in Hx. discriminate.
Qed.

Lemma notin_mem (x : char) (s : str) : existsb (N.eqb x) s = false -> ~ In x s.
Proof.
  intros H Hin. assert (E : existsb (N.eqb x) s = true).
  { apply existsb_exists. exists x. split; auto. apply N.eqb_refl. }
  congruence.
Qed.

Lemma notin_app (x : char) (a b : str) : ~ In x a -> ~ In x b -> ~ In x (a ++ b).
Proof.
  intros Ha Hb H. apply in_app_or in H. tauto.
Qed.

Lemma avoids_app X a b : avoids X (a ++ b) <-> avoids X a /\ avoids X b.
Proof.
  unfold avoids. apply Forall_app.
Qed.

Lemma avoids_weaken X X' s :
  forallb (fun x => existsb (N.eqb x) X) X' = true -> avoids X s -> avoids X' s.
Proof.
  intros Hsub H. unfold avoids in *. eapply Forall_impl; [|exact H].
  intros c Hc. simpl in Hc.
  destruct (existsb (N.eqb c) X') eqn:E; [|reflexivity].
  apply existsb_exists in E. destruct E as (x & Hx & Hcx). apply N.eqb_eq in Hcx. subst x.
  rewrite forallb_forall in Hsub. rewrite (Hsub c Hx) in Hc. discriminate.
Qed.

Lemma avoids_of_notin (X s : str) : (forall x, In x X -> ~ In x s) -> avoids X s.
Proof.
  intros H. unfold avoids. apply Forall_forall. intros c Hc.
  destruct (existsb (N.eqb c) X) eqn:E; [|reflexivity].
  apply existsb_exists in E. destruct E as (x & Hx & Hcx). apply N.eqb_eq in Hcx. subst x.
  exfalso. exact (H c Hx Hc).
Qed.

Lemma first_only r x (s : str) :
  (forall c, first r c = true -> c = x) -> ~ In x s ->
  Forall (fun c => first r c = false) s.
Proof.
  intros Hf Hx. apply Forall_forall. intros c Hc.
  destruct (first r c) eqn:E; [|reflexivity].
  apply Hf in E. subst. contradiction.
Qed.

Lemma sub_id_first_only r t x text :
  nullable r = false -> (forall c, first r c = true -> c = x) -> ~ In x text ->
  sub r t text = text.
Proof.
  intros Hn Hf Hx. apply sub_id_first; auto. now apply (first_only r x).
Qed.

(* ================================================================== *)
(** ** What a pass can put into a text *)

Lemma In_slice (text : str) j k c : In c (slice text j k) -> In c text.
Proof.
  unfold slice. intros H.
  rewrite <- (firstn_skipn j text). apply in_or_app. right.
  rewrite <- (firstn_skipn (k - j) (skipn j text)). apply in_or_app. now left.
Qed.

Lemma Forall_slice (P : char -> Prop) text j k : Forall P text -> Forall P (slice text j k).
Proof.
  intros H. apply Forall_forall. intros c Hc.
  rewrite Forall_forall in H. apply H. now apply In_slice in Hc.
Qed.

Lemma Forall_expand (P : char -> Prop) text m t :
  Forall P text ->
  Forall (fun it => match it with TLit s => Forall P s | TRef _ => True end) t ->
  Forall P (expand text m t).
Proof.
  intros Ht. unfold expand. induction 1 as [|it t Hit _ IH]; simpl; [constructor|].
  apply Forall_app. split; [|exact IH].
  destruct it as [s|g]; [exact Hit|].
  destruct (lookup g (m_caps m)) as [[a b]|]; [|constructor].
  now apply Forall_slice.
Qed.

Lemma Forall_sub (P : char -> Prop) r t text :
  Forall P text ->
  Forall (fun it => match it with TLit s => Forall P s | TRef _ => True end) t ->
  Forall P (sub r t text).
Proof.
  intros Ht Hl. unfold sub. generalize 0 (finditer r text).
  intros i ms. revert i. induction ms as [|m ms IH]; intros i; simpl.
  - now apply Forall_slice.
  - apply Forall_app. split; [now apply Forall_slice|].
    apply Forall_app. split; [now apply Forall_expand|apply IH].
Qed.

Lemma Forall_span_transform (P : char -> Prop) text r f :
  Forall P text -> (forall x, Forall P x -> Forall P (f x)) ->
  Forall P (span_transform text r f).
Proof.
  intros Ht Hf. unfold span_transform. generalize 0 (targets r text).
  intros i sp. revert i. induction sp as [|[a b] sp IH]; intros i; simpl.
  - now apply Forall_slice.
  - apply Forall_app. split; [now apply Forall_slice|].
    apply Forall_app. split; [|apply IH].
    apply Hf. now apply Forall_slice.
Qed.

(** A group whose first character the text lacks takes part in no match. *)
Lemma run_gfirst g r :
  forall cur cs c' cs',
    In (c', cs') (run r cur cs) -> gnonnull g r = true ->
    Forall (fun c => gfirst g r c = false) (rest cur) ->
    lookup g cs' = lookup g cs.
Proof.
  induction r as [c|p| |p lo hi lazy|r1 IH1 r2 IH2|r1 IH1 r2 IH2|g' r1 IH1|r1 IH1];
    intros cur cs c' cs' Hin Hn Hx; simpl in Hin, Hn.
  8:{ destruct (run r1 cur cs) as [|[c1 cs1] l] eqn:E; [destruct Hin|].
      destruct Hin as [Heq|[]]. inversion Heq; subst.
      apply (IH1 c' cs c1 cs'); auto. rewrite E. now left. }
  - apply in_map_iff in Hin. destruct Hin as (y & Heq & _). now inversion Heq.
  - apply in_map_iff in Hin. destruct Hin as (y & Heq & _). now inversion Heq.
  - destruct (at_bol cur); [|destruct Hin]. destruct Hin as [Heq|[]]. now inversion Heq.
  - apply in_map_iff in Hin. destruct Hin as (y & Heq & _). now inversion Heq.
  - apply andb_true_iff in Hn. destruct Hn as [Hn1 Hn2].
    apply in_flat_map in Hin. destruct Hin as ([c1 cs1] & H1 & H2). simpl in H2.
    pose proof (run_consumes _ _ _ _ _ H1) as (u1 & [Hr1 _] & _).
    assert (Hx1 : Forall (fun c => gfirst g r1 c = false) (rest cur)).
    { eapply Forall_impl; [|exact Hx]. simpl. intros a Ha.
      apply orb_false_iff in Ha. tauto. }
    assert (Hx2 : Forall (fun c => gfirst g r2 c = false) (rest c1)).
    { rewrite Hr1 in Hx. apply Forall_app in Hx. destruct Hx as [_ Hx].
      eapply Forall_impl; [|exact Hx]. simpl. intros a Ha.
      apply orb_false_iff in Ha. tauto. }
    rewrite (IH2 _ _ _ _ H2 Hn2 Hx2). now apply (IH1 _ _ _ _ H1).
  - apply andb_true_iff in Hn. destruct Hn as [Hn1 Hn2].
    apply in_app_or in Hin. destruct Hin as [H|H].
    + apply (IH1 _ _ _ _ H Hn1).
      eapply Forall_impl; [|exact Hx]. simpl. intros a Ha.
      apply orb_false_iff in Ha. tauto.
    + apply (IH2 _ _ _ _ H Hn2).
      eapply Forall_impl; [|exact Hx]. simpl. intros a Ha.
      apply orb_false_iff in Ha. tauto.
  - apply andb_true_iff in Hn. destruct Hn as [Hn1 Hn2].
    apply in_map_iff in Hin. destruct Hin as ([c1 cs1] & Heq & Hin).
    simpl in Heq. inversion Heq; subst. simpl.
    assert (Hx1 : Forall (fun c => gfirst g r1 c = false) (rest cur)).
    { eapply Forall_impl; [|exact Hx]. simpl. intros a Ha.
      apply orb_false_iff in Ha. tauto. }
    destruct (Nat.eqb_spec g g') as [->|Hne].
    + rewrite Nat.eqb_refl in Hn1. apply negb_true_iff in Hn1.
      exfalso. destruct (run_first _ _ _ _ _ Hin) as [[_ Hnull]|(c & s' & Hs & Hf)].
      * congruence.
      * rewrite Hs in Hx. inversion Hx as [|? ? Hc _]; subst. simpl in Hc.
        rewrite Nat.eqb_refl, Hf in Hc. discriminate.
    + now apply (IH1 _ _ _ _ Hin).
Qed.

Lemma targets_of_nil_gfirst r :
  gnonnull 1 r = true ->
  forall s pv i skip,
    Forall (fun c => gfirst 1 r c = false) s ->
    targets_of (finditer_from r pv i s skip) = [].
Proof.
  intros Hn s pv i skip Hx.
  destruct (Nat.le_gt_cases skip (length s)) as [Hs|Hs];
    [|now rewrite finditer_from_overskip].
  apply (finditer_from_scan r (Forall (fun c => gfirst 1 r c = false))
           (fun _ _ ms => targets_of ms = [])); auto.
  - intros c s0 Hc. now inversion Hc.
  - intros pv0 i0 s0 m ms HQ (c' & Hin & _) Hms. cbn [targets_of].
    rewrite (run_gfirst 1 _ _ _ _ _ Hin Hn HQ). exact Hms.
Qed.

Lemma span_transform_id_gfirst r f x text :
  gnonnull 1 r = true -> (forall c, gfirst 1 r c = true -> c = x) -> ~ In x text ->
  span_transform text r f = text.
Proof.
  intros Hn Hf Hx. apply span_transform_no_target. unfold targets, finditer.
  apply targets_of_nil_gfirst; auto.
  apply Forall_forall. intros c Hc.
  destruct (gfirst 1 r c) eqn:E; [|reflexivity].
  apply Hf in E. subst. contradiction.
Qed.

(* ================================================================== *)
(** ** Stages that leave a text alone *)

Ltac first_is :=
  let c := fresh "c" in
  let H := fresh "H" in
  intros c H;
  cbv [p_bold p_bold_saved p_link_saved p_fence_saved AT3 p_fence fence_arm p_numbered
       times eqc C] in H;
  cbn [first nullable Nat.eqb andb] in H;
  repeat rewrite orb_false_r in H;
  apply N.eqb_eq in H; symmetry; exact H.

Lemma first_p_bold : forall c, first p_bold c = true -> c = N_of_ascii "*".
Proof. first_is. Qed.

Lemma first_AT3 : forall c, first AT3 c = true -> c = AT.
Proof. first_is. Qed.

Lemma first_p_bold_saved : forall c, first p_bold_saved c = true -> c = AT.
Proof. first_is. Qed.

Lemma first_p_link_saved : forall c, first p_link_saved c = true -> c = AT.
Proof. first_is. Qed.

Lemma first_p_fence_saved : forall c, first p_fence_saved c = true -> c = AT.
Proof. first_is. Qed.

Lemma first_p_fence : forall c, first p_fence c = true -> c = BQ.
Proof. first_is. Qed.

Lemma first_p_numbered : forall c, first p_numbered c = true -> c = NL.
Proof. first_is. Qed.

Lemma gfirst_p_header : forall c, gfirst 1 p_header c = true -> c = N_of_ascii "#".
Proof.
  intros c H. cbv [p_header fence_arm plus lazy_plus eqc C] in H.
  cbn [gfirst first nullable Nat.eqb andb orb] in H.
  repeat rewrite orb_false_r in H.
  apply N.eqb_eq in H. now symmetry.
Qed.

Ltac by_needs H text x :=
  match goal with
  | |- context [sub ?r ?t text] =>
      rewrite (sub_id_needs r t x text eq_refl (avoids_notin _ text x H eq_refl))
  end.

Ltac by_first H text F x :=
  match goal with
  | |- context [sub ?r ?t text] =>
      rewrite (sub_id_first_only r t x text eq_refl F (avoids_notin _ text x H eq_refl))
  end.

Ltac by_gneeds H text x :=
  match goal with
  | |- context [span_transform text ?r ?f] =>
      rewrite (span_transform_id_gneeds r f x text eq_refl (avoids_notin _ text x H eq_refl))
  end.

Lemma stage_inline_id flag text :
  avoids (lit "\@_*[]()~>") text -> stage_inline flag text = text.
Proof.
  intros H. unfold stage_inline. cbv zeta.
  do 4 by_needs H text (N_of_ascii "\").
  assert (E5 : sub p_two_backslashes [T "@@@"] text = text).
  { by_needs H text (N_of_ascii "\"). reflexivity. }
  replace (if flag then sub p_two_backslashes [T "@@@"] text else text) with text
    by (destruct flag; [now rewrite E5|reflexivity]).
  do 2 by_needs H text (N_of_ascii "\").
  assert (E8 : sub AT3 [T "\\"] text = text).
  { by_first H text first_AT3 AT. reflexivity. }
  replace (if flag then sub AT3 [T "\\"] text else text) with text
    by (destruct flag; [now rewrite E8|reflexivity]).
  by_needs H text (N_of_ascii "_").
  by_first H text first_p_bold (N_of_ascii "*").
  do 2 by_needs H text (N_of_ascii "*").
  by_first H text first_p_bold_saved AT.
  do 2 by_needs H text (N_of_ascii "[").
  by_needs H text (N_of_ascii "]").
  by_needs H text (N_of_ascii "(").
  by_needs H text (N_of_ascii ")").
  do 4 by_needs H text AT.
  by_first H text first_p_link_saved AT.
  by_needs H text (N_of_ascii "~").
  by_needs H text (N_of_ascii ">").
  reflexivity.
Qed.

(** Without [#], [+], [-] and [@], the block stage is its numbered-list pass. *)
Lemma stage_blocks_numbered text :
  avoids (lit "#+-@") text ->
  stage_blocks text = sub p_numbered [TLit [NL; NL]; TRef 1] text.
Proof.
  intros H. unfold stage_blocks. cbv zeta.
  rewrite (span_transform_id_gfirst p_header escapeshape (N_of_ascii "#") text eq_refl
             gfirst_p_header (avoids_notin _ text (N_of_ascii "#") H eq_refl)).
  by_needs H text (N_of_ascii "#").
  by_gneeds H text (N_of_ascii "+").
  set (t1 := sub p_numbered _ text).
  assert (H1 : avoids (lit "#+-@") t1).
  { apply Forall_sub; [exact H|]. repeat constructor. }
  by_gneeds H1 t1 (N_of_ascii "-").
  by_needs H1 t1 (N_of_ascii "-").
  by_needs H1 t1 AT.
  by_needs H1 t1 (N_of_ascii "-").
  by_needs H1 t1 AT.
  by_gneeds H1 t1 (N_of_ascii "-").
  reflexivity.
Qed.

Lemma stage_blocks_id text :
  avoids (lit "#+-@.") text -> stage_blocks text = text.
Proof.
  intros H. rewrite stage_blocks_numbered.
  - by_needs H text (N_of_ascii "."). reflexivity.
  - revert H. apply avoids_weaken. reflexivity.
Qed.

Lemma stage_code_id text :
  avoids (lit "`@") text -> stage_code text = text.
Proof.
  intros H. unfold stage_code. cbv zeta.
  by_needs H text BQ.
  by_gneeds H text BQ.
  by_needs H text BQ.
  do 2 by_needs H text AT.
  by_gneeds H text BQ.
  by_first H text first_p_fence_saved AT.
  reflexivity.
Qed.

Lemma stage_punctuation_id text :
  avoids (lit "=|{}.!") text -> stage_punctuation text = text.
Proof.
  intros H. unfold stage_punctuation. cbv zeta.
  by_needs H text (N_of_ascii "=").
  by_needs H text (N_of_ascii "|").
  by_needs H text (N_of_ascii "{").
  by_needs H text (N_of_ascii "}").
  by_needs H text (N_of_ascii ".").
  by_needs H text (N_of_ascii "!").
  reflexivity.
Qed.

(* ================================================================== *)
(** ** The parity fixer on a text without backticks *)

Lemma join_split_on (s : str) :
  forall acc, join [NL] (split_on NL acc s) = rev acc ++ s.
Proof.
  induction s as [|c s IH]; intros acc; simpl.
  - now rewrite app_nil_r.
  - destruct (N.eqb_spec c NL) as [->|Hc].
    + specialize (IH []). simpl in IH.
      destruct (split_on NL [] s) as [|l ls] eqn:E.
      * exfalso. now apply (split_on_nonempty NL s []).
      * change (join [NL] (rev acc :: l :: ls))
          with (rev acc ++ [NL] ++ join [NL] (l :: ls)).
        rewrite IH. reflexivity.
    + rewrite IH. simpl. now rewrite <- app_assoc.
Qed.

Lemma join_split_lines text : join [NL] (split_lines text) = text.
Proof.
  apply (join_split_on text []).
Qed.

Lemma split_on_Forall (P : char -> Prop) sep (s : str) :
  forall acc, Forall P acc -> Forall P s -> Forall (Forall P) (split_on sep acc s).
Proof.
  induction s as [|c s IH]; intros acc Ha Hs; simpl.
  - constructor; [|constructor]. now apply Forall_rev.
  - inversion Hs; subst. destruct (N.eqb c sep).
    + constructor; [now apply Forall_rev|]. apply IH; auto.
    + apply IH; auto.
Qed.

Lemma In_remove_escaped c :
  forall s, In c (remove_escaped s) -> In c s.
Proof.
  induction s as [| a | a d s IH1 IH2] using str_ind2; intros H; auto.
  cbn [remove_escaped] in H. destruct (N.eqb a BSL && N.eqb d BQ).
  - right. right. auto.
  - destruct H as [H|H]; [now left|right; auto].
Qed.

Lemma count_notin (x : char) (s : str) : ~ In x s -> count x s = 0.
Proof.
  unfold count. induction s as [|c s IH]; intros H; [reflexivity|].
  simpl. destruct (N.eqb_spec x c) as [->|Hc]; [exfalso; apply H; now left|].
  apply IH. intros X. apply H. now right.
Qed.

Lemma uneven_no_backtick line : ~ In BQ line -> uneven line = false.
Proof.
  intros H. rewrite uneven_odd. unfold unescaped_backticks.
  rewrite count_notin; [reflexivity|].
  intros X. apply H. now apply In_remove_escaped.
Qed.

Lemma fixed_lines_no_backtick lines :
  forall b, Forall (fun l => ~ In BQ l) lines -> fixed_lines lines b = lines.
Proof.
  induction lines as [|l ls IH]; intros b H; [reflexivity|].
  inversion H as [|? ? Hl Hls]; subst. cbn [fixed_lines].
  rewrite (uneven_no_backtick l Hl), andb_false_r.
  destruct (is_fence_line l); now rewrite IH.
Qed.

Lemma stage_parity_id text : ~ In BQ text -> stage_parity text = text.
Proof.
  intros H. unfold stage_parity. rewrite fixed_lines_no_backtick.
  - apply join_split_lines.
  - assert (HP : Forall (fun c => c <> BQ) text).
    { apply Forall_forall. intros c Hc E. subst. contradiction. }
    pose proof (split_on_Forall (fun c => c <> BQ) NL text [] (Forall_nil _) HP) as HF.
    eapply Forall_impl; [|exact HF]. simpl. intros l Hl X.
    rewrite Forall_forall in Hl. now apply (Hl BQ X).
Qed.

(* ================================================================== *)
(** ** Skipping what cannot start a match *)

Lemma sub_rel_skip_all r t :
  nullable r = false ->
  forall u pv pre s,
    Forall (fun c => first r c = false) u ->
    sub_rel r t pv pre (u ++ s) = u ++ sub_rel r t (prev_after pv u) (pre ++ u) s.
Proof.
  intros Hn. induction u as [|c u IH]; intros pv pre s H.
  - simpl. now rewrite app_nil_r.
  - inversion H as [|? ? Hc Hu]; subst.
    simpl app. rewrite sub_rel_skip.
    + rewrite (IH _ _ _ Hu). rewrite <- app_assoc. reflexivity.
    + now apply match_at_none_first.
Qed.

Lemma sub_rel_tail r t pv pre u :
  nullable r = false -> Forall (fun c => first r c = false) u ->
  sub_rel r t pv pre u = u.
Proof.
  intros Hn H. rewrite <- (app_nil_r u) at 1.
  rewrite (sub_rel_skip_all r t Hn u pv pre [] H).
  rewrite sub_rel_nil; [apply app_nil_r|].
  now apply match_at_none_first.
Qed.

(* ================================================================== *)
(** ** ASCII digits *)

Lemma ascii_digit_range c : ascii_digit c = true -> (48 <= c <= 57)%N.
Proof.
  unfold ascii_digit. intros H. apply andb_true_iff in H. destruct H as [H1 H2].
  apply N.leb_le in H1, H2. lia.
Qed.

Lemma ascii_digit_isdigit c : ascii_digit c = true -> isdigit c = true.
Proof.
  intros H. apply ascii_digit_range in H. unfold isdigit, decimal_zeros.
  cbn [existsb]. apply orb_true_iff. left.
  apply andb_true_iff. split; [apply N.leb_le|apply N.ltb_lt]; lia.
Qed.

Lemma ascii_digit_not_space c : ascii_digit c = true -> isspace c = false.
Proof.
  intros H. apply ascii_digit_range in H. unfold isspace.
  repeat match goal with
         | |- context [(?a <=? ?b)%N] =>
             first [ replace (a <=? b)%N with false by (symmetry; apply N.leb_gt; lia)
                   | replace (a <=? b)%N with true by (symmetry; apply N.leb_le; lia) ]
         | |- context [(?a =? ?b)%N] =>
             replace (a =? b)%N with false by (symmetry; apply N.eqb_neq; lia)
         end.
  reflexivity.
Qed.

Lemma ascii_digit_neq c x :
  ascii_digit c = true -> ((x <? 48) || (57 <? x))%N = true -> N.eqb x c = false.
Proof.
  intros H Hx. apply ascii_digit_range in H. apply N.eqb_neq. intros ->.
  apply orb_true_iff in Hx. destruct Hx as [Hx|Hx]; apply N.ltb_lt in Hx; lia.
Qed.

Lemma ascii_digit_avoids X d :
  forallb (fun x => (x <? 48) || (57 <? x))%N X = true ->
  Forall (fun c => ascii_digit c = true) d -> avoids X d.
Proof.
  intros HX Hd. unfold avoids. eapply Forall_impl; [|exact Hd]. simpl.
  intros c Hc. destruct (existsb (N.eqb c) X) eqn:E; [|reflexivity].
  apply existsb_exists in E. destruct E as (x & Hx & Hcx). apply N.eqb_eq in Hcx. subst x.
  rewrite forallb_forall in HX. specialize (HX c Hx).
  pose proof (ascii_digit_neq c c Hc HX) as Hn.
  rewrite N.eqb_refl in Hn. discriminate.
Qed.

(* ================================================================== *)
(** ** The numbered-list pass on a numbered line *)

Ltac eval_run :=
  repeat (cbn [run rep step1 map flat_map app fst snd rest pos prev room option_map
                Nat.pred andb orb];
          repeat match goal with
                 | H : _ = true |- _ => rewrite H
                 | H : _ = false |- _ => rewrite H
                 end).

Lemma numbered_match pv i k d sp post :
  k = 1 \/ k = 2 ->
  Forall (fun c => ascii_digit c = true) d ->
  length d = 1 \/ length d = 2 ->
  isspace sp = true ->
  match_at p_numbered (Cursor pv i (repeat NL k ++ d ++ DOT :: sp :: post))
  = Some (Match i (k + length d + 2 + i) [(1, (k + i, k + length d + 2 + i))]).
Proof.
  intros Hk Hd Hlen Hsp.
  assert (H5 : N.eqb NL NL = true) by reflexivity.
  assert (H6 : isdigit DOT = false) by reflexivity.
  assert (H7 : N.eqb (N_of_ascii ".") DOT = true) by reflexivity.
  destruct d as [|d1 [|d2 [|d3 d]]]; simpl in Hlen; try lia.
  - inversion Hd as [|? ? Hd1 _]; subst.
    pose proof (ascii_digit_isdigit d1 Hd1) as H1.
    pose proof (ascii_digit_not_space d1 Hd1) as H2.
    pose proof (ascii_digit_neq d1 NL Hd1 eq_refl) as H3.
    destruct Hk as [-> | ->]; unfold match_at, p_numbered, times, star, C;
      cbn [repeat length app Nat.add]; eval_run; reflexivity.
  - inversion Hd as [|? ? Hd1 Hd']; subst. inversion Hd' as [|? ? Hd2 _]; subst.
    pose proof (ascii_digit_isdigit d1 Hd1) as H1.
    pose proof (ascii_digit_not_space d1 Hd1) as H2.
    pose proof (ascii_digit_neq d1 NL Hd1 eq_refl) as H3.
    pose proof (ascii_digit_isdigit d2 Hd2) as H8.
    destruct Hk as [-> | ->]; unfold match_at, p_numbered, times, star, C;
      cbn [repeat length app Nat.add]; eval_run; reflexivity.
Qed.

Lemma sub_numbered pre post d sp k :
  ~ In NL pre -> ~ In NL post ->
  k = 1 \/ k = 2 ->
  Forall (fun c => ascii_digit c = true) d ->
  length d = 1 \/ length d = 2 ->
  isspace sp = true ->
  sub p_numbered [TLit [NL; NL]; TRef 1] (pre ++ repeat NL k ++ d ++ DOT :: sp :: post)
  = pre ++ [NL; NL] ++ d ++ DOT :: sp :: post.
Proof.
  intros Hpre Hpost Hk Hd Hlen Hsp.
  rewrite sub_rel_start.
  assert (Fpre : Forall (fun c => first p_numbered c = false) pre)
    by (apply (first_only p_numbered NL); [exact first_p_numbered|exact Hpre]).
  assert (Fpost : Forall (fun c => first p_numbered c = false) post)
    by (apply (first_only p_numbered NL); [exact first_p_numbered|exact Hpost]).
  rewrite (sub_rel_skip_all p_numbered _ eq_refl pre None [] _ Fpre).
  f_equal. cbn [app].
  set (u := repeat NL k ++ d ++ [DOT; sp]).
  replace (repeat NL k ++ d ++ DOT :: sp :: post) with (u ++ post)
    by (unfold u; now rewrite <- !app_assoc).
  assert (Hu : length u = k + length d + 2).
  { unfold u. rewrite !length_app, repeat_length. simpl. lia. }
  rewrite (sub_rel_match p_numbered _ _ pre u post
             (Match (length pre) (k + length d + 2 + length pre)
                    [(1, (k + length pre, k + length d + 2 + length pre))])).
  - rewrite (sub_rel_tail p_numbered _ _ _ post eq_refl Fpost).
    cbn [expand flat_map lookup Nat.eqb m_caps].
    replace (k + length pre) with (length pre + k) by lia.
    replace (k + length d + 2 + length pre) with (length pre + (k + length d + 2)) by lia.
    rewrite slice_shift.
    assert (Hs : slice (u ++ post) k (k + length d + 2) = d ++ [DOT; sp]).
    { unfold u. rewrite <- app_assoc.
      generalize (repeat_length NL k). generalize (repeat NL k). intros nls Hn.
      rewrite <- Hn.
      replace (length nls + length d + 2) with (length nls + length (d ++ [DOT; sp]))
        by (rewrite length_app; simpl; lia).
      apply slice_mid. }
    rewrite Hs. rewrite app_nil_r, <- !app_assoc. reflexivity.
  - unfold u. rewrite <- !app_assoc. cbn [app]. now apply numbered_match.
  - cbn [m_end]. lia.
  - unfold u. destruct Hk as [-> | ->]; discriminate.
Qed.

Lemma flat_map_id_notin (c : char) (t s : str) :
  ~ In c s -> flat_map (fun x => if N.eqb c x then t else [x]) s = s.
Proof.
  induction s as [|x s IH]; intros H; [reflexivity|].
  simpl. destruct (N.eqb_spec c x) as [->|Hx]; [exfalso; apply H; now left|].
  simpl. f_equal. apply IH. intros X. apply H. now right.
Qed.

Ltac avoid_piece :=
  first [ eapply avoids_weaken; [|eassumption]; reflexivity
        | apply ascii_digit_avoids; [reflexivity|assumption]
        | repeat constructor ].

Ltac solve_avoids := repeat (apply avoids_app; split); avoid_piece.

(* ================================================================== *)
(** ** Delimited regions: fences and their saved form *)

Lemma any_char_all c : any_char c = true.
Proof.
  unfold any_char. destruct (isdigit c); reflexivity.
Qed.

Lemma rep_zero_hi p lazy pv i s : rep p 0 (Some 0) lazy pv i s = [Cursor pv i s].
Proof.
  destruct s as [|c s]; cbn [rep room]; rewrite ?andb_false_r; destruct lazy; reflexivity.
Qed.

Lemma flat_map_map {A B X} (f : B -> list X) (g : A -> B) (l : list A) :
  flat_map f (map g l) = flat_map (fun x => f (g x)) l.
Proof.
  induction l as [|a l IH]; simpl; [reflexivity|]. now rewrite IH.
Qed.

Lemma flat_map_lazy_rep {X} (p : char -> bool) (k : cursor -> list X) rest :
  forall u pv i lo,
    Forall (fun c => p c = true) u ->
    (forall u1 c u2, u = u1 ++ c :: u2 -> lo <= length u1 ->
        k (Cursor (prev_after pv u1) (i + length u1) (c :: u2 ++ rest)) = []) ->
    lo <= length u ->
    exists tail,
      flat_map k (rep p lo None true pv i (u ++ rest))
      = k (Cursor (prev_after pv u) (i + length u) rest) ++ tail.
Proof.
  induction u as [|c u IH]; intros pv i lo Hp Hk Hlo.
  - simpl in Hlo. assert (lo = 0) by lia. subst lo.
    cbn [app length prev_after fold_left]. rewrite Nat.add_0_r.
    destruct rest as [|x rest]; cbn [rep]; cbn [app flat_map]; eauto.
  - inversion Hp as [|? ? Hc Hu]; subst.
    cbn [app rep room]. rewrite Hc. cbn [andb option_map].
    rewrite flat_map_app.
    assert (Hstop : flat_map k (match lo with 0 => [Cursor pv i (c :: u ++ rest)] | S _ => [] end)
                    = []).
    { destruct lo; [|reflexivity]. cbn [flat_map]. rewrite app_nil_r.
      specialize (Hk [] c u eq_refl (Nat.le_0_l _)).
      cbn [prev_after fold_left length] in Hk. now rewrite Nat.add_0_r in Hk. }
    rewrite Hstop. cbn [app].
    destruct (IH (Some c) (S i) (Nat.pred lo) Hu) as [tail Ht].
    + intros u1 c' u2 E Hl. subst u.
      specialize (Hk (c :: u1) c' u2 eq_refl).
      cbn [length] in Hk.
      replace (S i + length u1) with (i + S (length u1)) by lia.
      apply Hk. lia.
    + simpl in Hlo. lia.
    + exists tail. rewrite Ht. cbn [length].
      replace (S i + length u) with (i + S (length u)) by lia. reflexivity.
Qed.

Lemma run_grp g r cur cs :
  run (Grp g r) cur cs
  = map (fun x => (fst x, (g, (pos cur, pos (fst x))) :: snd x)) (run r cur cs).
Proof. reflexivity. Qed.

Lemma run_rep p lo hi lazy cur cs :
  run (Rep p lo hi lazy) cur cs
  = map (fun c' => (c', cs)) (rep p lo hi lazy (prev cur) (pos cur) (rest cur)).
Proof. reflexivity. Qed.

Lemma is_literal_chars c l : is_literal (chars c l) (c :: l).
Proof.
  intros pv i s cs. apply run_chars.
Qed.

Lemma is_literal_AT3 : is_literal AT3 [AT; AT; AT].
Proof.
  intros pv i s cs. unfold AT3, times, eqc. rewrite run_rep. cbn [prev pos rest].
  change (N_of_ascii "@") with AT.
  destruct s as [|a s]; [reflexivity|].
  cbn [rep room startswith]. destruct (N.eqb_spec AT a) as [<-|]; [|reflexivity].
  cbn [andb option_map Nat.pred app].
  destruct s as [|b s]; [reflexivity|].
  cbn [rep room startswith]. destruct (N.eqb_spec AT b) as [<-|]; [|reflexivity].
  cbn [andb option_map Nat.pred app].
  destruct s as [|c s]; [reflexivity|].
  cbn [rep room startswith]. destruct (N.eqb_spec AT c) as [<-|]; [|reflexivity].
  cbn [andb option_map Nat.pred app]. rewrite rep_zero_hi.
  cbn [map app length skipn prev_after fold_left].
  now replace (i + 3) with (S (S (S i))) by lia.
Qed.

Lemma match_delimited o c D x D' :
  is_literal o D -> is_literal c D -> D = x :: D' ->
  forall pv i w post,
    w <> [] -> ~ In x w ->
    match_at (delimited o c) (Cursor pv i (D ++ w ++ D ++ post))
    = Some (Match i (i + length D + length w + length D)
                  [(1, (i + length D, i + length D + length w))]).
Proof.
  intros Ho Hc HD pv i w post Hw Hx.
  unfold match_at, delimited, lazy_plus.
  rewrite run_cat, Ho, startswith_refl_app. cbn [flat_map fst snd].
  rewrite app_nil_r.
  rewrite run_cat, run_grp, run_rep, !flat_map_map. cbn [fst snd prev pos rest].
  replace (skipn (length D) (D ++ w ++ D ++ post)) with (w ++ D ++ post)
    by (rewrite skipn_app, Nat.sub_diag, skipn_all; reflexivity).
  match goal with
  | |- context [flat_map ?k (rep any_char 1 None true ?pv' ?i' (w ++ ?rest'))] =>
      destruct (flat_map_lazy_rep any_char k rest' w pv' i' 1) as [tail Ht]
  end.
  - apply Forall_forall. intros a _. apply any_char_all.
  - intros u1 a u2 E _. cbn [pos]. rewrite Hc.
    subst D. cbn [startswith].
    assert (Ha : x <> a).
    { intros ->. apply Hx. rewrite E. apply in_or_app. right. now left. }
    apply N.eqb_neq in Ha. now rewrite Ha.
  - destruct w; [congruence|simpl; lia].
  - rewrite Ht. cbn [pos]. rewrite Hc, startswith_refl_app. cbn [app].
    reflexivity.
Qed.

Lemma flat_map_assoc {A B X} (f : B -> list X) (g : A -> list B) (l : list A) :
  flat_map f (flat_map g l) = flat_map (fun x => flat_map f (g x)) l.
Proof.
  induction l as [|a l IH]; simpl; [reflexivity|].
  now rewrite flat_map_app, IH.
Qed.

Lemma run_cat_assoc a b c cur cs :
  run (Cat (Cat a b) c) cur cs = run (Cat a (Cat b c)) cur cs.
Proof.
  rewrite !run_cat. rewrite flat_map_assoc. apply flat_map_ext.
  intros x. now rewrite run_cat.
Qed.

Lemma run_cat_ext a b b' cur cs :
  (forall cur' cs', run b cur' cs' = run b' cur' cs') ->
  run (Cat a b) cur cs = run (Cat a b') cur cs.
Proof.
  intros H. rewrite !run_cat. apply flat_map_ext. intros x. apply H.
Qed.

Lemma match_at_p_fence cur :
  match_at p_fence cur = match_at (delimited (chars BQ [BQ; BQ]) (chars BQ [BQ; BQ])) cur.
Proof.
  unfold match_at. 
  change p_fence with (Cat (Chr BQ) (Cat (Chr BQ) (Cat (Chr BQ)
                         (Cat (Grp 1 (lazy_plus any_char)) (chars BQ [BQ; BQ]))))).
  unfold delimited. cbn [chars].
  rewrite run_cat_assoc.
  rewrite (run_cat_ext (Chr BQ) _ _ cur [] (fun cur' cs' => run_cat_assoc _ _ _ cur' cs')).
  reflexivity.
Qed.

Lemma match_at_p_fence_saved cur :
  match_at p_fence_saved cur = match_at (delimited AT3 AT3) cur.
Proof. reflexivity. Qed.

(** Substituting over one delimited region in a text that has the
    delimiter's first character nowhere else. *)
Lemma sub_delimited r o c D x D' t1 t2 pre w post :
  (forall cur, match_at r cur = match_at (delimited o c) cur) ->
  is_literal o D -> is_literal c D -> D = x :: D' ->
  nullable r = false -> (forall a, first r a = true -> a = x) ->
  ~ In x pre -> w <> [] -> ~ In x w -> ~ In x post ->
  sub r [TLit t1; TRef 1; TLit t2] (pre ++ D ++ w ++ D ++ post)
  = pre ++ t1 ++ w ++ t2 ++ post.
Proof.
  intros Hr Ho Hc HD Hn Hf Hpre Hw Hxw Hpost.
  assert (Fpre : Forall (fun a => first r a = false) pre) by now apply (first_only r x).
  assert (Fpost : Forall (fun a => first r a = false) post) by now apply (first_only r x).
  rewrite sub_rel_start.
  rewrite (sub_rel_skip_all r _ Hn pre None [] _ Fpre).
  f_equal. cbn [app].
  set (u := D ++ w ++ D).
  replace (D ++ w ++ D ++ post) with (u ++ post) by (unfold u; now rewrite <- !app_assoc).
  assert (Hu : length u = length D + length w + length D).
  { unfold u. rewrite !length_app. lia. }
  rewrite (sub_rel_match r _ _ pre u post
             (Match (length pre) (length pre + length D + length w + length D)
                    [(1, (length pre + length D, length pre + length D + length w))])).
  - rewrite (sub_rel_tail r _ _ _ post Hn Fpost).
    cbn [expand flat_map lookup Nat.eqb m_caps].
    replace (length pre + length D + length w) with (length pre + (length D + length w)) by lia.
    rewrite slice_shift.
    assert (Hs : slice (u ++ post) (length D) (length D + length w) = w).
    { unfold u. rewrite <- !app_assoc. apply slice_mid. }
    rewrite Hs. rewrite app_nil_r, <- !app_assoc. reflexivity.
  - rewrite Hr. unfold u. rewrite <- !app_assoc.
    now apply (match_delimited o c D x D').
  - cbn [m_end]. lia.
  - unfold u. subst D. discriminate.
Qed.

Lemma sub_p_fence pre w post :
  ~ In BQ pre -> w <> [] -> ~ In BQ w -> ~ In BQ post ->
  sub p_fence [T "@@@"; TRef 1; T "@@@"] (pre ++ lit "```" ++ w ++ lit "```" ++ post)
  = pre ++ lit "@@@" ++ w ++ lit "@@@" ++ post.
Proof.
  intros.
  apply (sub_delimited p_fence (chars BQ [BQ; BQ]) (chars BQ [BQ; BQ])
           [BQ; BQ; BQ] BQ [BQ; BQ] _ _ pre w post
           match_at_p_fence (is_literal_chars BQ [BQ; BQ]) (is_literal_chars BQ [BQ; BQ])
           eq_refl eq_refl first_p_fence); assumption.
Qed.

Lemma sub_p_fence_saved pre w post :
  ~ In AT pre -> w <> [] -> ~ In AT w -> ~ In AT post ->
  sub p_fence_saved [T "```"; TRef 1; T "```"] (pre ++ lit "@@@" ++ w ++ lit "@@@" ++ post)
  = pre ++ lit "```" ++ w ++ lit "```" ++ post.
Proof.
  intros.
  apply (sub_delimited p_fence_saved AT3 AT3 [AT; AT; AT] AT [AT; AT] _ _ pre w post
           match_at_p_fence_saved is_literal_AT3 is_literal_AT3
           eq_refl eq_refl first_p_fence_saved); assumption.
Qed.

Lemma remove_escaped_no_backslash :
  forall s : str, ~ In BSL s -> remove_escaped s = s.
Proof.
  induction s as [| a | a d s IH1 IH2] using str_ind2; intros H; auto.
  cbn [remove_escaped].
  destruct (N.eqb_spec a BSL) as [->|Ha]; [exfalso; apply H; now left|].
  cbn [andb]. f_equal. apply IH2. intros X. apply H. now right.
Qed.

Lemma count_app (x : char) (a b : str) : count x (a ++ b) = count x a + count x b.
Proof.
  unfold count. now rewrite filter_app, length_app.
Qed.

Lemma finditer_skip_all r :
  nullable r = false ->
  forall u pv i s,
    Forall (fun c => first r c = false) u ->
    finditer_from r pv i (u ++ s) 0 = finditer_from r (prev_after pv u) (i + length u) s 0.
Proof.
  intros Hn. induction u as [|c u IH]; intros pv i s H.
  - simpl. now rewrite Nat.add_0_r.
  - inversion H as [|? ? Hc Hu]; subst. cbn [app finditer_from].
    rewrite match_at_none_first by (auto).
    rewrite (IH _ _ _ Hu). cbn [length prev_after fold_left].
    now replace (S i + length u) with (i + S (length u)) by lia.
Qed.

Lemma finditer_match r pv i u s m :
  match_at r (Cursor pv i (u ++ s)) = Some m ->
  m_end m = i + length u -> u <> [] ->
  finditer_from r pv i (u ++ s) 0
  = m :: finditer_from r (prev_after pv u) (i + length u) s 0.
Proof.
  intros H He Hu. destruct u as [|c u]; [congruence|].
  cbn [app] in *. cbn [finditer_from]. rewrite H.
  cbn [length] in He.
  assert (Ne : (m_end m =? i) = false) by (apply Nat.eqb_neq; lia).
  rewrite Ne. f_equal.
  replace (m_end m - i - 1) with (length u) by lia.
  rewrite finditer_skip. cbn [length prev_after fold_left].
  now replace (S i + length u) with (i + S (length u)) by lia.
Qed.

Lemma fence_interiors_one pre w post :
  ~ In BQ pre -> w <> [] -> ~ In BQ w -> ~ In BQ post ->
  fence_interiors (pre ++ lit "```" ++ w ++ lit "```" ++ post) = [w].
Proof.
  intros Hpre Hw Hxw Hpost.
  assert (Fpre : Forall (fun a => first p_fence a = false) pre)
    by (apply (first_only p_fence BQ); [exact first_p_fence|assumption]).
  assert (Fpost : Forall (fun a => first p_fence a = false) post)
    by (apply (first_only p_fence BQ); [exact first_p_fence|assumption]).
  unfold fence_interiors, finditer.
  rewrite (finditer_skip_all p_fence eq_refl pre None 0 _ Fpre). cbn [Nat.add].
  change (lit "```") with [BQ; BQ; BQ].
  set (u := [BQ; BQ; BQ] ++ w ++ [BQ; BQ; BQ]).
  replace ([BQ; BQ; BQ] ++ w ++ [BQ; BQ; BQ] ++ post) with (u ++ post)
    by (unfold u; now rewrite <- !app_assoc).
  assert (Hu : length u = 3 + length w + 3).
  { unfold u. rewrite !length_app. simpl. lia. }
  rewrite (finditer_match p_fence _ _ u post
             (Match (length pre) (length pre + 3 + length w + 3)
                    [(1, (length pre + 3, length pre + 3 + length w))])).
  - rewrite (finditer_nil_gen p_fence (Forall (fun c => first p_fence c = false))).
    + cbn [map m_caps lookup Nat.eqb]. f_equal.
      replace (length pre + 3 + length w) with (length pre + (3 + length w)) by lia.
      rewrite slice_shift. unfold u. rewrite <- !app_assoc.
      apply (slice_mid [BQ; BQ; BQ] w ([BQ; BQ; BQ] ++ post)).
    + intros c s Hc. now inversion Hc.
    + intros s pv i Hs. apply match_at_none_first; [reflexivity|].
      destruct s; auto. now inversion Hs.
    + exact Fpost.
  - rewrite match_at_p_fence. unfold u. rewrite <- !app_assoc.
    apply (match_delimited _ _ [BQ; BQ; BQ] BQ [BQ; BQ]
             (is_literal_chars BQ [BQ; BQ]) (is_literal_chars BQ [BQ; BQ]) eq_refl
             (prev_after None pre) (length pre) w post Hw Hxw).
  - cbn [m_end]. lia.
  - unfold u. discriminate.
Qed.

(* ================================================================== *)
(** ** Lines of a concatenation *)

Lemma split_on_app_gen sep (a b : str) :
  forall acc,
    split_on sep acc (a ++ b)
    = removelast (split_on sep acc a)
      ++ split_on sep (rev (last (split_on sep acc a) [])) b.
Proof.
  induction a as [|c a IH]; intros acc; cbn [app split_on].
  - cbn [removelast last app]. now rewrite rev_involutive.
  - destruct (N.eqb c sep).
    + rewrite IH.
      pose proof (split_on_nonempty sep a []) as Hne.
      destruct (split_on sep [] a) as [|x xs] eqn:E; [congruence|].
      reflexivity.
    + apply IH.
Qed.

Lemma split_on_plain_prefix sep (m b : str) :
  forall acc, ~ In sep m -> split_on sep acc (m ++ b) = split_on sep (rev m ++ acc) b.
Proof.
  induction m as [|c m IH]; intros acc H; [reflexivity|].
  cbn [app split_on].
  destruct (N.eqb_spec c sep) as [->|Hc]; [exfalso; apply H; now left|].
  rewrite IH by (intros X; apply H; now right).
  cbn [rev]. now rewrite <- app_assoc.
Qed.

Lemma split_on_acc sep (b : str) :
  forall acc,
    split_on sep acc b
    = (rev acc ++ hd [] (split_on sep [] b)) :: tl (split_on sep [] b).
Proof.
  induction b as [|c b IH]; intros acc; cbn [split_on].
  - cbn [hd tl rev]. now rewrite app_nil_r.
  - destruct (N.eqb c sep).
    + cbn [hd tl rev]. now rewrite app_nil_r.
    + rewrite IH. rewrite (IH [c]). cbn [hd tl rev app].
      now rewrite <- app_assoc.
Qed.

(** The lines of [a ++ m ++ b] when [m] has no newline: the last line of
    [a], [m] and the first line of [b] make one line. *)
Lemma split_lines_around (a m b : str) :
  ~ In NL m ->
  split_lines (a ++ m ++ b)
  = removelast (split_lines a)
    ++ (last (split_lines a) [] ++ m ++ hd [] (split_lines b)) :: tl (split_lines b).
Proof.
  intros Hm. unfold split_lines.
  rewrite split_on_app_gen. f_equal.
  rewrite split_on_plain_prefix by assumption.
  rewrite split_on_acc. rewrite rev_app_distr, !rev_involutive.
  now rewrite <- app_assoc.
Qed.

Lemma split_lines_at_newline (a b : str) :
  split_lines (a ++ NL :: b) = split_lines a ++ split_lines b.
Proof.
  unfold split_lines. rewrite split_on_app_gen.
  cbn [split_on]. rewrite N.eqb_refl, rev_involutive.
  pose proof (split_on_nonempty NL a []) as Hne.
  rewrite (app_removelast_last [] Hne) at 3.
  now rewrite <- app_assoc.
Qed.

Lemma in_split_first (x : char) (l : str) :
  In x l -> exists l1 l2, l = l1 ++ x :: l2 /\ ~ In x l1.
Proof.
  induction l as [|c l IH]; intros H; [destruct H|].
  destruct (N.eq_dec c x) as [->|Hc].
  - exists [], l. split; auto.
  - destruct H as [H|H]; [congruence|].
    destruct (IH H) as (l1 & l2 & E & Hn). exists (c :: l1), l2. split.
    + simpl. now f_equal.
    + intros [X|X]; auto.
Qed.

Lemma Forall_removelast {A} (P : A -> Prop) (l : list A) :
  Forall P l -> Forall P (removelast l).
Proof.
  induction 1 as [|x l Hx Hl IH]; [constructor|].
  destruct l; [constructor|]. cbn [removelast]. constructor; auto.
Qed.

Lemma Forall_tl {A} (P : A -> Prop) (l : list A) : Forall P l -> Forall P (tl l).
Proof.
  intros H. destruct H; [constructor|assumption].
Qed.

Lemma Forall_last {A} (P : A -> Prop) (l : list A) d : P d -> Forall P l -> P (last l d).
Proof.
  intros Hd. induction 1 as [|x l Hx Hl IH]; [exact Hd|].
  destruct l; [exact Hx|exact IH].
Qed.

Lemma Forall_hd {A} (P : A -> Prop) (l : list A) d : P d -> Forall P l -> P (hd d l).
Proof.
  intros Hd H. destruct H; assumption.
Qed.

Lemma split_lines_avoid x (s : str) :
  ~ In x s -> Forall (fun l => ~ In x l) (split_lines s).
Proof.
  intros H.
  assert (HP : Forall (fun c => c <> x) s).
  { apply Forall_forall. intros c Hc E. subst. contradiction. }
  pose proof (split_on_Forall (fun c => c <> x) NL s [] (Forall_nil _) HP) as HF.
  eapply Forall_impl; [|exact HF]. simpl. intros l Hl X.
  rewrite Forall_forall in Hl. now apply (Hl x X).
Qed.

(* ================================================================== *)
(** ** Fence lines *)

Lemma In_lstrip c (s : str) : In c (lstrip s) -> In c s.
Proof.
  destruct (lstrip_suffix s) as [ws E]. intros H. rewrite E. apply in_or_app. now right.
Qed.

Lemma In_strip c (s : str) : In c (strip s) -> In c s.
Proof.
  intros H. apply In_lstrip. destruct (strip_prefix s) as [ws E]. rewrite E.
  apply in_or_app. now left.
Qed.

Lemma not_fence_line_no_backtick line : ~ In BQ line -> is_fence_line line = false.
Proof.
  intros H. unfold is_fence_line.
  destruct (startswith (strip line) (lit "```")) eqn:E; [|reflexivity].
  apply startswith_app in E. exfalso. apply H. apply In_strip.
  rewrite E. now left.
Qed.

Lemma lstrip_spaces (ind s : str) :
  forallb isspace ind = true -> lstrip (ind ++ s) = lstrip s.
Proof.
  induction ind as [|c ind IH]; intros H; [reflexivity|].
  cbn [forallb] in H. apply andb_true_iff in H. destruct H as [Hc Hi].
  cbn [app lstrip]. rewrite Hc. auto.
Qed.

Lemma lstrip_keeps_suffix (a : str) c b :
  isspace c = false -> exists z, lstrip (a ++ c :: b) = z ++ c :: b.
Proof.
  intros Hc. induction a as [|x a [z IH]].
  - exists []. cbn [app lstrip]. now rewrite Hc.
  - cbn [app lstrip]. destruct (isspace x).
    + exists z. exact IH.
    + exists (x :: a). reflexivity.
Qed.

Lemma fence_line_of_indent (ind x : str) :
  forallb isspace ind = true -> is_fence_line (ind ++ lit "```" ++ x) = true.
Proof.
  intros H. unfold is_fence_line, strip. rewrite lstrip_spaces by assumption.
  change (lit "```") with [BQ; BQ; BQ]. cbn [app lstrip].
  change (isspace BQ) with false. cbv iota.
  change (BQ :: BQ :: BQ :: x) with ([BQ; BQ] ++ BQ :: x).
  rewrite rev_app_distr. cbn [rev app]. rewrite <- !app_assoc. cbn [app].
  destruct (lstrip_keeps_suffix (rev x) BQ [BQ; BQ] eq_refl) as [z E].
  rewrite E, rev_app_distr. reflexivity.
Qed.
(* ================================================================== *)
(** ** The parity fixer around one fenced block *)

Lemma fixed_lines_plain_prefix (A B : list str) :
  forall b, Forall (fun l => ~ In BQ l) A ->
            fixed_lines (A ++ B) b = A ++ fixed_lines B b.
Proof.
  induction A as [|l A IH]; intros b H; [reflexivity|].
  inversion H as [|? ? Hl HA]; subst. cbn [app fixed_lines].
  rewrite (not_fence_line_no_backtick l Hl), (uneven_no_backtick l Hl), andb_false_r.
  now rewrite IH.
Qed.

(** One line with backticks among lines without: it is kept when it is read
    inside a code block, when it is a fence line, or when its count is even. *)
Lemma fixed_lines_one (A B : list str) l b :
  Forall (fun l => ~ In BQ l) A -> Forall (fun l => ~ In BQ l) B ->
  b = true \/ is_fence_line l = true \/ uneven l = false ->
  fixed_lines (A ++ l :: B) b = A ++ l :: B.
Proof.
  intros HA HB H. rewrite fixed_lines_plain_prefix by assumption. f_equal.
  cbn [fixed_lines].
  destruct (is_fence_line l) eqn:Ef.
  - now rewrite fixed_lines_no_backtick.
  - destruct H as [->|[H|H]]; [| discriminate |].
    + cbn [negb andb]. now rewrite fixed_lines_no_backtick.
    + rewrite H, andb_false_r. now rewrite fixed_lines_no_backtick.
Qed.

(** A block over several lines: its opening line is a fence line, so every
    line up to the one with the closing fence is read inside the block. *)
Lemma fixed_lines_block (A M B : list str) l1 l2 :
  Forall (fun l => ~ In BQ l) A -> Forall (fun l => ~ In BQ l) M ->
  Forall (fun l => ~ In BQ l) B ->
  is_fence_line l1 = true ->
  fixed_lines (A ++ l1 :: M ++ l2 :: B) false = A ++ l1 :: M ++ l2 :: B.
Proof.
  intros HA HM HB H1. rewrite fixed_lines_plain_prefix by assumption. f_equal.
  cbn [fixed_lines]. rewrite H1. f_equal. cbn [negb].
  apply fixed_lines_one; auto.
Qed.

Lemma stage_parity_one_block (pre w post : str) :
  ~ In BQ pre -> ~ In BQ w -> ~ In BQ post ->
  ~ In BSL pre -> ~ In BSL w -> ~ In BSL post ->
  (In NL w -> forallb isspace (last (split_lines pre) []) = true) ->
  stage_parity (pre ++ lit "```" ++ w ++ lit "```" ++ post)
  = pre ++ lit "```" ++ w ++ lit "```" ++ post.
Proof.
  intros Qpre Qw Qpost Bpre Bw Bpost Hind.
  set (text0 := pre ++ lit "```" ++ w ++ lit "```" ++ post).
  unfold stage_parity.
  rewrite <- (join_split_lines text0) at 2. f_equal.
  assert (PA : Forall (fun l => ~ In BQ l) (removelast (split_lines pre)))
    by now apply Forall_removelast, split_lines_avoid.
  assert (QB : Forall (fun l => ~ In BQ l) (tl (split_lines post)))
    by now apply Forall_tl, split_lines_avoid.
  destruct (in_dec N.eq_dec NL w) as [Hnl|Hnl].
  - destruct (in_split_first NL w Hnl) as (w1 & w2 & Ew & Hw1).
    assert (Qw2 : ~ In BQ w2).
    { intros X. apply Qw. rewrite Ew. apply in_or_app. right. now right. }
    assert (E : text0 = (pre ++ (lit "```" ++ w1) ++ []) ++ NL :: (w2 ++ lit "```" ++ post)).
    { unfold text0. rewrite Ew, app_nil_r, <- !app_assoc. reflexivity. }
    rewrite E, split_lines_at_newline.
    rewrite (split_lines_around pre (lit "```" ++ w1) []).
    2:{ intros [X|[X|[X|X]]]; try discriminate X. contradiction. }
    rewrite (split_lines_around w2 (lit "```") post).
    2:{ intros [X|[X|[X|X]]]; try discriminate X. contradiction. }
    cbn [split_lines split_on rev hd tl].
    rewrite <- app_assoc. cbn [app].
    apply fixed_lines_block; auto.
    + now apply Forall_removelast, split_lines_avoid.
    + rewrite <- app_assoc. apply fence_line_of_indent. auto.
  - assert (E : text0 = pre ++ (lit "```" ++ w ++ lit "```") ++ post).
    { unfold text0. rewrite <- !app_assoc. reflexivity. }
    rewrite E, split_lines_around.
    2:{ intros X. apply in_app_or in X. destruct X as [X|X].
        - destruct X as [X|[X|[X|X]]]; try discriminate X. contradiction.
        - apply in_app_or in X. destruct X as [X|X]; [contradiction|].
          destruct X as [X|[X|[X|X]]]; try discriminate X. contradiction. }
    apply fixed_lines_one; auto.
    right. right.
    set (pl := last (split_lines pre) []).
    set (qh := hd [] (split_lines post)).
    assert (Qpl : ~ In BQ pl)
      by (apply (Forall_last (fun l => ~ In BQ l)); [auto|now apply split_lines_avoid]).
    assert (Qqh : ~ In BQ qh)
      by (apply (Forall_hd (fun l => ~ In BQ l)); [auto|now apply split_lines_avoid]).
    assert (Bpl : ~ In BSL pl)
      by (apply (Forall_last (fun l => ~ In BSL l)); [auto|now apply split_lines_avoid]).
    assert (Bqh : ~ In BSL qh)
      by (apply (Forall_hd (fun l => ~ In BSL l)); [auto|now apply split_lines_avoid]).
    rewrite uneven_odd. unfold unescaped_backticks.
    rewrite remove_escaped_no_backslash.
    + rewrite !count_app.
      rewrite (count_notin BQ pl Qpl), (count_notin BQ w Qw), (count_notin BQ qh Qqh).
      reflexivity.
    + intros X. repeat (apply in_app_or in X; destruct X as [X|X]); try contradiction;
        try (destruct X as [X|[X|[X|X]]]; try discriminate X; contradiction).
Qed.

(* ================================================================== *)
(** ** A fenced block of plain text *)

(** C1, as the code has it. The pipeline escapes inside fenced blocks as it
    does outside them, so a block is returned byte-identical only when its
    interior has nothing to escape. For an input made of plain text, one
    fenced block with a non-empty plain interior, and plain text again
    (plain: no reserved character; newlines are allowed), where a block that
    spans several lines opens on a line that has only whitespace before the
    fence, [escape] returns the input unchanged, and the interior of its
    block is the same in the output as in the input. *)
Theorem fence_of_plain_text_is_kept :
  forall (pre w post : str) (flag : bool),
    avoids reserved_marks pre -> avoids reserved_marks w -> avoids reserved_marks post ->
    w <> [] ->
    (In NL w -> forallb isspace (last (split_lines pre) []) = true) ->
    escape (pre ++ lit "```" ++ w ++ lit "```" ++ post) flag
    = Ok (pre ++ lit "```" ++ w ++ lit "```" ++ post)
    /\ fence_interiors (pre ++ lit "```" ++ w ++ lit "```" ++ post) = [w].
Proof.
  intros pre w post flag Hpre Hw Hpost Hne Hind.
  assert (Qpre : ~ In BQ pre)
    by (apply (avoids_notin reserved_marks); [assumption|reflexivity]).
  assert (Qw : ~ In BQ w)
    by (apply (avoids_notin reserved_marks); [assumption|reflexivity]).
  assert (Qpost : ~ In BQ post)
    by (apply (avoids_notin reserved_marks); [assumption|reflexivity]).
  split; [|now apply fence_interiors_one].
  rewrite escape_eq. f_equal. unfold escape_stages.
  set (text0 := pre ++ lit "```" ++ w ++ lit "```" ++ post).
  set (text1 := pre ++ lit "@@@" ++ w ++ lit "@@@" ++ post).
  assert (A0 : avoids (lit "\_*[]()~><#+-=|{}.!@^") text0).
  { unfold text0. solve_avoids. }
  assert (A1 : avoids (lit "\_*[]()~><#+-=|{}.!^`") text1).
  { unfold text1. solve_avoids. }
  rewrite stage_inline_id by (revert A0; apply avoids_weaken; reflexivity).
  rewrite stage_blocks_id by (revert A0; apply avoids_weaken; reflexivity).
  assert (E : stage_code text0 = text0).
  { unfold stage_code. cbv zeta.
    replace (sub p_fence [T "@@@"; TRef 1; T "@@@"] text0) with text1
      by (symmetry; now apply sub_p_fence).
    by_gneeds A1 text1 BQ.
    by_needs A1 text1 BQ.
    by_needs A1 text1 (N_of_ascii "<").
    by_needs A1 text1 (N_of_ascii "-").
    by_gneeds A1 text1 BQ.
    apply sub_p_fence_saved; auto;
      (apply (avoids_notin reserved_marks); [assumption|reflexivity]). }
  rewrite E.
  rewrite stage_punctuation_id by (revert A0; apply avoids_weaken; reflexivity).
  apply stage_parity_one_block; auto;
    (apply (avoids_notin reserved_marks); [assumption|reflexivity]).
Qed.

Lemma fence_of_plain_text_is_kept_witness :
  (avoids reserved_marks ([NL] ++ lit "  ")
   /\ avoids reserved_marks (lit "py" ++ [NL] ++ lit "print hello" ++ [NL])
   /\ avoids reserved_marks (lit " ok")
   /\ lit "py" ++ [NL] ++ lit "print hello" ++ [NL] <> []
   /\ forallb isspace (last (split_lines ([NL] ++ lit "  ")) []) = true)
  /\ escape (([NL] ++ lit "  ") ++ lit "```"
             ++ (lit "py" ++ [NL] ++ lit "print hello" ++ [NL]) ++ lit "```" ++ lit " ok")
            false
     = Ok (([NL] ++ lit "  ") ++ lit "```"
           ++ (lit "py" ++ [NL] ++ lit "print hello" ++ [NL]) ++ lit "```" ++ lit " ok")
  /\ fence_interiors (([NL] ++ lit "  ") ++ lit "```"
                      ++ (lit "py" ++ [NL] ++ lit "print hello" ++ [NL])
                      ++ lit "```" ++ lit " ok")
     = [lit "py" ++ [NL] ++ lit "print hello" ++ [NL]].
Proof.
  split; [repeat split; try discriminate; repeat constructor|].
  apply (fence_of_plain_text_is_kept ([NL] ++ lit "  ")
           (lit "py" ++ [NL] ++ lit "print hello" ++ [NL]) (lit " ok") false).
  - repeat constructor.
  - repeat constructor.
  - repeat constructor.
  - discriminate.
  - intros _. reflexivity.
Defined.

(* ================================================================== *)
(** ** The minus markers: put in, taken out *)

Lemma first_fence_arm : forall c, first fence_arm c = true -> c = BQ.
Proof. first_is. Qed.

Lemma match_at_minus_outside pv i c s :
  c <> BQ ->
  match_at p_minus_outside (Cursor pv i (c :: s))
  = if N.eqb (N_of_ascii "-") c then Some (Match i (S i) [(1, (i, S i))]) else None.
Proof.
  intros Hc. unfold p_minus_outside. rewrite match_at_alt.
  rewrite match_at_none_first.
  - unfold C. rewrite match_at_grp, match_at_chr.
    destruct (N.eqb (N_of_ascii "-") c); reflexivity.
  - reflexivity.
  - destruct (first fence_arm c) eqn:E; [|reflexivity].
    apply first_fence_arm in E. contradiction.
Qed.

Lemma weave_rel_minus_outside f :
  forall (s : str) pv pre,
    ~ In BQ s ->
    weave_rel p_minus_outside f pv pre s
    = flat_map (fun c => if N.eqb (N_of_ascii "-") c then f [c] else [c]) s.
Proof.
  induction s as [|c s IH]; intros pv pre H.
  - apply weave_rel_nil. unfold p_minus_outside. rewrite match_at_alt.
    rewrite match_at_none_first by (reflexivity || exact I). reflexivity.
  - assert (Hc : c <> BQ) by (intros ->; apply H; now left).
    assert (Hs : ~ In BQ s) by (intros X; apply H; now right).
    cbn [flat_map]. destruct (N.eqb (N_of_ascii "-") c) eqn:E.
    + etransitivity.
      * apply (weave_rel_target _ _ pv pre [c] s
                 (Match (length pre) (S (length pre)) [(1, (length pre, S (length pre)))])).
        -- cbn [app]. now rewrite match_at_minus_outside, E.
        -- simpl. lia.
        -- discriminate.
        -- simpl. now rewrite Nat.add_1_r.
      * f_equal. now apply IH.
    + etransitivity.
      * apply weave_rel_skip. now rewrite match_at_minus_outside, E.
      * cbn [app]. f_equal. now apply IH.
Qed.

Lemma sub_rel_minus_restore :
  forall (s : str) pv pre,
    ~ In AT s ->
    sub_rel s_minus [T "-"] pv pre
      (flat_map (fun c => if N.eqb (N_of_ascii "-") c then lit "@+>@" else [c]) s)
    = s.
Proof.
  change s_minus with (chars AT (lit "+>@")).
  induction s as [|c s IH]; intros pv pre H.
  - apply sub_rel_nil. now rewrite match_at_chars.
  - assert (Hc : c <> AT) by (intros ->; apply H; now left).
    assert (Hs : ~ In AT s) by (intros X; apply H; now right).
    cbn [flat_map]. destruct (N.eqb_spec (N_of_ascii "-") c) as [E|E].
    + subst c. etransitivity.
      * apply (sub_rel_match _ _ pv pre (lit "@+>@") _
                 (Match (length pre) (length pre + 4) [])).
        -- rewrite match_at_chars.
           change (AT :: lit "+>@") with (lit "@+>@").
           now rewrite startswith_refl_app.
        -- reflexivity.
        -- discriminate.
      * unfold T. cbn [expand flat_map app]. change (lit "-") with [N_of_ascii "-"].
        cbn [app]. f_equal. now apply IH.
    + etransitivity.
      * apply sub_rel_skip. rewrite match_at_chars. cbn [app startswith].
        apply N.eqb_neq in Hc. rewrite N.eqb_sym, Hc. reflexivity.
      * cbn [app]. f_equal. now apply IH.
Qed.

(** The three minus passes put a marker for every minus and take it out
    again: together they leave a text without [@] and backticks alone. *)
Lemma minus_markers_round_trip text :
  ~ In AT text -> ~ In BQ text ->
  sub s_minus [T "-"]
    (sub (C "-") [T "@<+@"]
       (span_transform text p_minus_outside escape_temp_minus))
  = text.
Proof.
  intros Hat Hbq.
  rewrite weave_rel_start, weave_rel_minus_outside by assumption.
  unfold escape_temp_minus.
  set (marked := flat_map (fun c => if N.eqb (N_of_ascii "-") c then lit "@+>@" else [c]) text).
  assert (Hm : ~ In (N_of_ascii "-") marked).
  { unfold marked. intros X. apply in_flat_map in X. destruct X as (c & _ & Hc).
    destruct (N.eqb_spec (N_of_ascii "-") c) as [E|E].
    - revert Hc. apply notin_mem. reflexivity.
    - destruct Hc as [Hc|[]]. congruence. }
  rewrite (sub_id_needs (C "-") _ (N_of_ascii "-") marked eq_refl Hm).
  rewrite sub_rel_start. now apply sub_rel_minus_restore.
Qed.

(* ================================================================== *)
(** ** What the stages can put into a text *)

Lemma split_ws_Forall (P : char -> Prop) (s : str) :
  forall acc, Forall P acc -> Forall P s -> Forall (Forall P) (split_ws acc s).
Proof.
  induction s as [|c s IH]; intros acc Ha Hs; cbn [split_ws].
  - destruct acc; [constructor|]. constructor; [now apply Forall_rev|constructor].
  - inversion Hs; subst. destruct (isspace c).
    + destruct acc; [now apply IH|].
      constructor; [now apply Forall_rev|]. now apply IH.
    + apply IH; auto.
Qed.

Lemma join_Forall (P : char -> Prop) sep parts :
  Forall P sep -> Forall (Forall P) parts -> Forall P (join sep parts).
Proof.
  intros Hsep. induction 1 as [|p ps Hp Hps IH]; [constructor|].
  destruct ps as [|q ps]; [exact Hp|].
  change (join sep (p :: q :: ps)) with (p ++ sep ++ join sep (q :: ps)).
  apply Forall_app. split; [exact Hp|]. apply Forall_app. split; [exact Hsep|exact IH].
Qed.

Lemma escapeshape_Forall (P : char -> Prop) x :
  P HEADING -> P (N_of_ascii "*") -> P (N_of_ascii " ") -> P NL ->
  Forall P x -> Forall P (escapeshape x).
Proof.
  intros H1 H2 H3 H4 Hx. unfold escapeshape.
  destruct (strip x); [constructor|].
  pose proof (split_ws_Forall P x [] (Forall_nil _) Hx) as Hw.
  destruct (split_ws [] x) as [|w words]; [exact Hx|].
  destruct (startswith w (lit "#")); [|exact Hx].
  inversion Hw; subst.
  repeat (apply Forall_app; split); try (repeat constructor; assumption).
  apply join_Forall; [repeat constructor; assumption|assumption].
Qed.

Lemma avoids_sub X r t text :
  avoids X text ->
  Forall (fun it => match it with TLit s => avoids X s | TRef _ => True end) t ->
  avoids X (sub r t text).
Proof.
  apply Forall_sub.
Qed.

Lemma stage_inline_frame flag text :
  avoids (lit "@^\*[`") text -> avoids (lit "@^`") (stage_inline flag text).
Proof.
  intros H. unfold stage_inline. cbv zeta.
  do 4 by_needs H text (N_of_ascii "\").
  assert (E5 : sub p_two_backslashes [T "@@@"] text = text).
  { by_needs H text (N_of_ascii "\"). reflexivity. }
  replace (if flag then sub p_two_backslashes [T "@@@"] text else text) with text
    by (destruct flag; [now rewrite E5|reflexivity]).
  do 2 by_needs H text (N_of_ascii "\").
  assert (E8 : sub AT3 [T "\\"] text = text).
  { by_first H text first_AT3 AT. reflexivity. }
  replace (if flag then sub AT3 [T "\\"] text else text) with text
    by (destruct flag; [now rewrite E8|reflexivity]).
  set (t9 := sub (C "_") [T "\_"] text).
  assert (A9 : avoids (lit "@^*[`") t9).
  { apply avoids_sub; [revert H; apply avoids_weaken; reflexivity|repeat constructor]. }
  by_first A9 t9 first_p_bold (N_of_ascii "*").
  do 2 by_needs A9 t9 (N_of_ascii "*").
  by_first A9 t9 first_p_bold_saved AT.
  do 2 by_needs A9 t9 (N_of_ascii "[").
  set (t18 := sub (C ")") _ (sub (C "(") _ (sub (C "]") _ t9))).
  assert (A18 : avoids (lit "@^*[`") t18).
  { unfold t18. do 3 (apply avoids_sub; [|repeat constructor]). exact A9. }
  do 4 by_needs A18 t18 AT.
  by_first A18 t18 first_p_link_saved AT.
  do 2 (apply avoids_sub; [|repeat constructor]).
  revert A18. apply avoids_weaken. reflexivity.
Qed.

Lemma stage_blocks_frame text :
  avoids (lit "@^`") text -> avoids (lit "@^`") (stage_blocks text).
Proof.
  intros H. unfold stage_blocks. cbv zeta.
  set (b4 := sub p_numbered _ (span_transform (sub (C "#") _
               (span_transform text p_header escapeshape)) p_plus escape_special_char)).
  assert (A4 : avoids (lit "@^`") b4).
  { unfold b4. apply avoids_sub; [|repeat constructor].
    apply Forall_span_transform; [|intros x Hx; constructor; [reflexivity|exact Hx]].
    apply avoids_sub; [|repeat constructor].
    apply Forall_span_transform; [exact H|].
    intros x Hx. apply escapeshape_Forall; auto. }
  rewrite minus_markers_round_trip
    by (apply (avoids_notin _ _ _ A4); reflexivity).
  set (b5 := sub p_dash_item _ b4).
  assert (A5 : avoids (lit "@^`") b5).
  { unfold b5. apply avoids_sub; [exact A4|repeat constructor]. }
  by_needs A5 b5 AT.
  apply Forall_span_transform; [exact A5|].
  intros x Hx. constructor; [reflexivity|exact Hx].
Qed.

Lemma stage_punctuation_frame text :
  avoids (lit "@^`") text -> avoids (lit "@^`") (stage_punctuation text).
Proof.
  intros H. unfold stage_punctuation. cbv zeta.
  do 6 (apply avoids_sub; [|repeat constructor]). exact H.
Qed.

Lemma contains_head c s (hay : str) : contains (c :: s) hay = true -> In c hay.
Proof.
  induction hay as [|h hay IH]; cbn [contains startswith]; [discriminate|].
  intros H. apply orb_true_iff in H. destruct H as [H|H].
  - apply andb_true_iff in H. destruct H as [H _]. apply N.eqb_eq in H. now left.
  - right. auto.
Qed.

Lemma no_marker_character_no_leak out : avoids (lit "@^") out -> leaks out = false.
Proof.
  intros H. destruct (leaks out) eqn:E; [|reflexivity]. exfalso.
  unfold leaks in E. apply existsb_exists in E. destruct E as (s & Hs & Hc).
  assert (Hat : ~ In AT out) by (apply (avoids_notin _ _ _ H); reflexivity).
  assert (Hca : ~ In CARET out) by (apply (avoids_notin _ _ _ H); reflexivity).
  vm_compute in Hs.
  repeat (destruct Hs as [Hs|Hs]; [subst s; apply contains_head in Hc; contradiction|]).
  exact Hs.
Qed.

(* ================================================================== *)
(** ** Zero leak *)

(** X23. No marker in the output of a text without markup.  For every
    input, and either flag, that has no [@] and no [^] (the alphabet of the
    markers) and none of the characters that open a protected construct
    other than the minus sign (backslash, asterisk, opening bracket,
    backtick): the output has no [@] and no [^], hence none of the marker
    sequences.  The minus markers are put in and taken out again on the
    way. *)
Theorem zero_leak_without_marker_characters :
  forall (text : str) (flag : bool),
    avoids (lit "@^\*[`") text ->
    exists out : str,
      escape text flag = Ok out /\ avoids (lit "@^") out /\ leaks out = false.
Proof.
  intros text flag H. rewrite escape_eq. eexists. split; [reflexivity|].
  assert (A : avoids (lit "@^`") (escape_stages text flag)).
  { unfold escape_stages.
    pose proof (stage_blocks_frame _ (stage_inline_frame flag text H)) as A2.
    rewrite stage_code_id by (revert A2; apply avoids_weaken; reflexivity).
    pose proof (stage_punctuation_frame _ A2) as A4.
    rewrite stage_parity_id by (apply (avoids_notin _ _ _ A4); reflexivity).
    exact A4. }
  assert (A' : avoids (lit "@^") (escape_stages text flag))
    by (revert A; apply avoids_weaken; reflexivity).
  split; [exact A'|]. now apply no_marker_character_no_leak.
Qed.

Lemma zero_leak_without_marker_characters_witness :
  avoids (lit "@^\*[`") (lit "a - b_c (d) #1 + 2 > 3.")
  /\ exists out : str,
      escape (lit "a - b_c (d) #1 + 2 > 3.") false = Ok out
      /\ avoids (lit "@^") out /\ leaks out = false.
Proof.
  split; [repeat constructor|].
  apply (zero_leak_without_marker_characters (lit "a - b_c (d) #1 + 2 > 3.") false).
  repeat constructor.
Defined.

(* ================================================================== *)
(** ** Plain text and the flag *)

(** X1. A text with none of the reserved characters (newlines are allowed)
    is returned unchanged by [escape], whatever the flag. *)
Theorem escape_plain_text_unchanged :
  forall (text : str) (flag : bool),
    avoids reserved_marks text -> escape text flag = Ok text.
Proof.
  intros text flag H. rewrite escape_eq. f_equal. unfold escape_stages.
  rewrite stage_inline_id by (revert H; apply avoids_weaken; reflexivity).
  rewrite stage_blocks_id by (revert H; apply avoids_weaken; reflexivity).
  rewrite stage_code_id by (revert H; apply avoids_weaken; reflexivity).
  rewrite stage_punctuation_id by (revert H; apply avoids_weaken; reflexivity).
  apply stage_parity_id. apply (avoids_notin _ _ BQ H). reflexivity.
Qed.

Lemma escape_plain_text_unchanged_witness :
  avoids reserved_marks (lit "Hello world 42" ++ [NL] ++ lit "bye")
  /\ escape (lit "Hello world 42" ++ [NL] ++ lit "bye") true
     = Ok (lit "Hello world 42" ++ [NL] ++ lit "bye").
Proof.
  split; [repeat constructor|].
  apply (escape_plain_text_unchanged (lit "Hello world 42" ++ [NL] ++ lit "bye") true).
  repeat constructor.
Defined.

(** The first passes of [escape], up to the two that the flag switches on,
    do nothing on a text without backslash and without [@]. *)
Lemma stage_inline_flag text :
  ~ In BSL text -> ~ In AT text -> stage_inline true text = stage_inline false text.
Proof.
  intros HB HA. unfold stage_inline. cbv zeta. 
  assert (A : avoids [BSL; AT] text).
  { apply avoids_of_notin. intros x [<-|[<-|[]]]; assumption. }
  do 4 by_needs A text BSL.
  by_needs A text BSL.
  do 2 by_needs A text BSL.
  by_first A text first_AT3 AT.
  reflexivity.
Qed.

(** X2. The flag only matters for a text that has a backslash or an [@]:
    without them [escape] returns the same with the flag set and unset. *)
Theorem escape_flag_irrelevant :
  forall text : str,
    ~ In BSL text -> ~ In AT text -> escape text true = escape text false.
Proof.
  intros text HB HA. rewrite !escape_eq. unfold escape_stages.
  now rewrite stage_inline_flag.
Qed.

Lemma escape_flag_irrelevant_witness :
  (~ In BSL (lit "**a** [b](c.d) - e") /\ ~ In AT (lit "**a** [b](c.d) - e"))
  /\ escape (lit "**a** [b](c.d) - e") true = escape (lit "**a** [b](c.d) - e") false.
Proof.
  assert (HB : ~ In BSL (lit "**a** [b](c.d) - e")) by (apply notin_mem; reflexivity).
  assert (HA : ~ In AT (lit "**a** [b](c.d) - e")) by (apply notin_mem; reflexivity).
  split; [split; assumption|].
  apply (escape_flag_irrelevant (lit "**a** [b](c.d) - e") HB HA).
Defined.

(* ================================================================== *)
(** ** The parity fixer applied twice *)

Lemma uneven_fix_line line : uneven (fix_line line) = false.
Proof.
  rewrite uneven_odd, fix_line_escape_backticks, unescaped_backticks_fixed. reflexivity.
Qed.

Lemma fixed_lines_twice lines :
  forall b, fixed_lines (fixed_lines lines b) b = fixed_lines lines b.
Proof.
  induction lines as [|l ls IH]; intros b; [reflexivity|].
  cbn [fixed_lines].
  destruct (is_fence_line l) eqn:Ef.
  - cbn [fixed_lines]. rewrite Ef. now rewrite IH.
  - destruct (negb b && uneven l) eqn:Eu.
    + cbn [fixed_lines].
      rewrite fix_line_not_fence, uneven_fix_line, andb_false_r. now rewrite IH.
    + cbn [fixed_lines]. rewrite Ef, Eu. now rewrite IH.
Qed.

Lemma stage_parity_twice text : stage_parity (stage_parity text) = stage_parity text.
Proof.
  unfold stage_parity at 1. rewrite lines_of_stage_parity, fixed_lines_twice.
  reflexivity.
Qed.

Lemma fix_uneven_backticks_stage text :
  fix_uneven_backticks text = Ok (stage_parity text).
Proof. apply fix_uneven_backticks_ok. Qed.

(** X3. [fix_uneven_backticks] is idempotent: it returns its own output
    unchanged.  The output of [escape], whose last pass it is, is such a
    fixed point. *)
Theorem parity_fixer_idempotent :
  (forall text : str, exists out : str,
      fix_uneven_backticks text = Ok out /\ fix_uneven_backticks out = Ok out)
  /\ (forall (text : str) (flag : bool), exists out : str,
         escape text flag = Ok out /\ fix_uneven_backticks out = Ok out).
Proof.
  split.
  - intros text. exists (stage_parity text). split.
    + apply fix_uneven_backticks_stage.
    + rewrite fix_uneven_backticks_stage. now rewrite stage_parity_twice.
  - intros text flag. exists (escape_stages text flag). split.
    + apply escape_eq.
    + rewrite fix_uneven_backticks_stage. unfold escape_stages.
      now rewrite stage_parity_twice.
Qed.

(* ================================================================== *)
(** ** The index list of [find_all_index] *)

Lemma ascending_flat L :
  forall sp i, ordered i L sp -> ascending (i :: flat sp ++ [L]).
Proof.
  induction sp as [|[a b] sp IH]; intros i H.
  - simpl in *. auto.
  - destruct H as (H1 & H2 & H3). specialize (IH b H3).
    change (flat ((a, b) :: sp)) with (a :: b :: flat sp).
    cbn [app]. cbn [ascending]. cbn [ascending] in IH. auto.
Qed.

Lemma last_flat_end (L : nat) (l : list nat) d : last (l ++ [L]) d = L.
Proof. apply last_last. Qed.

(** X4. For a pattern that has a first group, [find_all_index] raises
    nothing and returns a list that starts with 0, ends with the length of
    the text and holds an even number of indices; when the pattern has no
    lookahead the list never decreases, and its consecutive pairs are
    alternately a region to keep and a region to transform.  (A group
    inside a lookahead can capture beyond its match, and the list can then
    go down.) *)
Theorem find_all_index_shape :
  forall (text : str) (pattern : regex),
    1 <= ngroups pattern ->
    exists index_list : list nat,
      find_all_index text pattern = Ok index_list
      /\ hd 0 index_list = 0
      /\ last index_list 0 = length text
      /\ Nat.even (length index_list) = true
      /\ (lookfree pattern = true -> ascending index_list).
Proof.
  intros text r Hg.
  exists (0 :: flat (targets r text) ++ [length text]).
  split; [now apply find_all_index_flat|].
  split; [reflexivity|].
  split; [|split].
  - change (0 :: flat (targets r text) ++ [length text])
      with ([0] ++ flat (targets r text) ++ [length text]).
    rewrite app_assoc. apply last_last.
  - assert (E : length (0 :: flat (targets r text) ++ [length text])
                = S (S (2 * length (targets r text)))).
    { cbn [length]. rewrite length_app, length_flat. cbn [length]. lia. }
    rewrite E, Nat.even_succ_succ, Nat.even_mul. reflexivity.
  - intros Hl. now apply ascending_flat, targets_ordered.
Qed.

Lemma find_all_index_shape_witness :
  1 <= ngroups p_minus
  /\ exists index_list : list nat,
      find_all_index (lit "a-b `-` c-d") p_minus = Ok index_list
      /\ hd 0 index_list = 0
      /\ last index_list 0 = length (lit "a-b `-` c-d")
      /\ Nat.even (length index_list) = true
      /\ (lookfree p_minus = true -> ascending index_list).
Proof.
  split; [cbn; lia|].
  apply (find_all_index_shape (lit "a-b `-` c-d") p_minus). cbn. lia.
Defined.

(* ================================================================== *)
(** ** A pattern without a group *)

Lemma index_list_of_no_group r :
  ngroups r = 0 ->
  forall m ms acc, index_list_of r (m :: ms) acc = Raise IndexError.
Proof.
  intros Hg m ms acc. cbn [index_list_of]. unfold group_span. rewrite Hg. reflexivity.
Qed.

(** X5. [find_all_index] reads group 1 of every match, so with a pattern
    that has no group it raises [IndexError] as soon as the pattern matches
    somewhere in the text, and so does [replace_all]; when the pattern
    matches nowhere they return the two ends of the text and the text
    itself. *)
Theorem replace_all_without_group :
  forall (text : str) (pattern : regex) (f : str -> str),
    ngroups pattern = 0 ->
    match finditer pattern text with
    | [] => find_all_index text pattern = Ok [0; length text]
            /\ replace_all text pattern f = Ok text
    | _ :: _ => find_all_index text pattern = Raise IndexError
                /\ replace_all text pattern f = Raise IndexError
    end.
Proof.
  intros text r f Hg. unfold replace_all, find_all_index.
  destruct (finditer r text) as [|m ms] eqn:E.
  - cbn [index_list_of]. rewrite !bind_Ok. split; [reflexivity|].
    cbn [app length Nat.sub].
    change (range 1 1 2) with (@nil nat). change (range 0 2 2) with [0].
    cbn [mapM]. rewrite ?bind_Ok.
    cbn [Nat.add Nat.ltb Nat.leb getitem nth_error]. rewrite ?bind_Ok.
    cbn [concat app length Nat.ltb Nat.leb combine flat_map fst snd].
    rewrite ?app_nil_r. now rewrite slice_all.
  - rewrite index_list_of_no_group by assumption. split; reflexivity.
Qed.

Lemma replace_all_without_group_witness :
  ngroups (C "a") = 0
  /\ find_all_index (lit "bab") (C "a") = Raise IndexError
  /\ replace_all (lit "bab") (C "a") (fun x => x) = Raise IndexError.
Proof.
  split; [reflexivity|].
  exact (replace_all_without_group (lit "bab") (C "a") (fun x => x) eq_refl).
Defined.

(* ================================================================== *)
(** ** The header formatter applied twice *)

Lemma strip_nonempty c (s : str) : isspace c = false -> strip (c :: s) <> [].
Proof.
  intros Hc. unfold strip. cbn [lstrip]. rewrite Hc. cbn [rev].
  destruct (lstrip_keeps_suffix (rev s) c [] Hc) as [z E]. rewrite E.
  rewrite rev_app_distr. discriminate.
Qed.

Lemma split_ws_first (s : str) :
  forall acc, acc <> [] -> exists w ws, split_ws acc s = (rev acc ++ w) :: ws.
Proof.
  induction s as [|c s IH]; intros acc Ha.
  - destruct acc as [|a acc]; [congruence|]. exists [], []. cbn [split_ws].
    now rewrite app_nil_r.
  - cbn [split_ws]. destruct (isspace c).
    + destruct acc as [|a acc]; [congruence|]. exists [], (split_ws [] s).
      now rewrite app_nil_r.
    + destruct (IH (c :: acc)) as (w & ws & E); [discriminate|].
      exists (c :: w), ws. rewrite E. cbn [rev]. now rewrite <- app_assoc.
Qed.

(** X6. [escapeshape] is idempotent: a formatted header, an empty result
    and a text it left alone are all returned unchanged when it is applied
    again. *)
Theorem escapeshape_idempotent :
  forall text : str, escapeshape (escapeshape text) = escapeshape text.
Proof.
  intros text.
  destruct (strip text) as [|c0 st] eqn:Es.
  { assert (E : escapeshape text = []) by (unfold escapeshape; now rewrite Es).
    rewrite E. reflexivity. }
  destruct (split_ws [] text) as [|w ws] eqn:Ew.
  { assert (E : escapeshape text = text) by (unfold escapeshape; now rewrite Es, Ew).
    now rewrite !E. }
  destruct (startswith w (lit "#")) eqn:Eh.
  - set (body := lit "*" ++ join (lit " ") ws ++ lit "*" ++ [NL; NL]).
    assert (E : escapeshape text = HEADING :: body)
      by (unfold escapeshape; now rewrite Es, Ew, Eh).
    rewrite E. unfold escapeshape.
    destruct (strip (HEADING :: body)) as [|c1 st1] eqn:Es1.
    + exfalso. now apply (strip_nonempty HEADING body).
    + cbn [split_ws]. change (isspace HEADING) with false. cbv iota.
      destruct (split_ws_first body [HEADING]) as (w' & ws' & E'); [discriminate|].
      rewrite E'. reflexivity.
  - assert (E : escapeshape text = text)
      by (unfold escapeshape; now rewrite Es, Ew, Eh).
    now rewrite !E.
Qed.

(* ================================================================== *)
(** ** The final punctuation is always escaped *)

Lemma escaped_in_pass X x :
  existsb (N.eqb BSL) X = false -> N.eqb BSL x = false ->
  forall s pv,
    escaped_in X pv s = true ->
    escaped_in (X ++ [x]) pv (flat_map (fun c => if N.eqb x c then [BSL; x] else [c]) s)
    = true.
Proof.
  intros HX Hx. induction s as [|c s IH]; intros pv H; [reflexivity|].
  cbn [escaped_in] in H. apply andb_true_iff in H. destruct H as [Hc Hs].
  cbn [flat_map]. destruct (N.eqb_spec x c) as [->|Hxc].
  - cbn [app escaped_in]. rewrite !existsb_app. cbn [existsb].
    rewrite HX, Hx, N.eqb_refl. cbn [orb andb]. rewrite orb_true_r.
    now apply IH.
  - cbn [app escaped_in]. rewrite existsb_app. cbn [existsb].
    apply N.eqb_neq in Hxc. rewrite N.eqb_sym in Hxc. rewrite Hxc, !orb_false_r, Hc.
    now apply IH.
Qed.

Lemma escaped_in_nil pv s : escaped_in [] pv s = true.
Proof.
  revert pv. induction s as [|c s IH]; intros pv; [reflexivity|]. cbn. apply IH.
Qed.

Lemma stage_punctuation_escaped text :
  escaped_in (lit "=|{}.!") None (stage_punctuation text) = true.
Proof.
  unfold stage_punctuation. cbv zeta. unfold C, T. rewrite !sub_chr.
  apply (escaped_in_pass (lit "=|{}.") (N_of_ascii "!") eq_refl eq_refl).
  apply (escaped_in_pass (lit "=|{}") (N_of_ascii ".") eq_refl eq_refl).
  apply (escaped_in_pass (lit "=|{") (N_of_ascii "}") eq_refl eq_refl).
  apply (escaped_in_pass (lit "=|") (N_of_ascii "{") eq_refl eq_refl).
  apply (escaped_in_pass (lit "=") (N_of_ascii "|") eq_refl eq_refl).
  apply (escaped_in_pass [] (N_of_ascii "=") eq_refl eq_refl).
  apply escaped_in_nil.
Qed.

Lemma escaped_in_start X p s :
  N.eqb p BSL = false -> escaped_in X (Some p) s = escaped_in X None s.
Proof.
  intros Hp. destruct s as [|c s]; [reflexivity|]. cbn [escaped_in]. now rewrite Hp.
Qed.

Lemma escaped_in_app X (a b : str) :
  forall pv, escaped_in X pv (a ++ b) = escaped_in X pv a && escaped_in X (prev_after pv a) b.
Proof.
  induction a as [|c a IH]; intros pv; [reflexivity|].
  cbn [app escaped_in]. rewrite IH. cbn [prev_after fold_left].
  now rewrite andb_assoc.
Qed.

Lemma prev_after_snoc pv (a : str) c : prev_after pv (a ++ [c]) = Some c.
Proof.
  unfold prev_after. now rewrite fold_left_app.
Qed.

Lemma escaped_in_join X (ls : list str) :
  existsb (N.eqb NL) X = false ->
  escaped_in X None (join [NL] ls) = forallb (escaped_in X None) ls.
Proof.
  intros HN. induction ls as [|l ls IH]; [reflexivity|].
  destruct ls as [|l2 ls].
  - cbn [join forallb]. now rewrite andb_true_r.
  - change (join [NL] (l :: l2 :: ls)) with (l ++ [NL] ++ join [NL] (l2 :: ls)).
    rewrite app_assoc, escaped_in_app, prev_after_snoc.
    rewrite (escaped_in_start X NL) by reflexivity.
    rewrite IH. rewrite escaped_in_app. cbn [escaped_in]. rewrite HN.
    cbn [forallb]. now rewrite !andb_true_r.
Qed.

Lemma escaped_in_escape_backticks X :
  existsb (N.eqb BSL) X = false -> existsb (N.eqb BQ) X = false ->
  forall (s : str) pv,
    escaped_in X pv s = true -> escaped_in X pv (escape_backticks s) = true.
Proof.
  intros HB HQ.
  induction s as [| a | a d s IH1 IH2] using str_ind2; intros pv H; [reflexivity| |].
  - cbn [escape_backticks]. destruct (N.eqb_spec a BQ) as [->|Ha]; [|exact H].
    cbn [escaped_in]. now rewrite HB, HQ.
  - cbn [escaped_in] in H. apply andb_true_iff in H. destruct H as [Ha H].
    cbn [escape_backticks].
    destruct (N.eqb a BSL && N.eqb d BQ) eqn:E.
    + apply andb_true_iff in H. destruct H as [Hd H].
      cbn [escaped_in]. rewrite Ha, Hd. cbn [andb]. now apply IH1.
    + destruct (N.eqb_spec a BQ) as [->|Hq].
      * cbn [escaped_in]. rewrite HB, HQ. cbn [andb]. apply IH2.
        exact H.
      * cbn [escaped_in]. rewrite Ha. cbn [andb]. apply IH2. exact H.
Qed.

Lemma forallb_fixed_lines (P : str -> bool) lines :
  (forall l, P l = true -> P (fix_line l) = true) ->
  forall b, forallb P lines = true -> forallb P (fixed_lines lines b) = true.
Proof.
  intros HP. induction lines as [|l ls IH]; intros b H; [reflexivity|].
  cbn [forallb] in H. apply andb_true_iff in H. destruct H as [Hl Hls].
  cbn [fixed_lines].
  destruct (is_fence_line l); [|destruct (negb b && uneven l)];
    cbn [forallb]; rewrite ?Hl, ?HP by assumption; cbn [andb]; now apply IH.
Qed.

Lemma stage_parity_escaped X text :
  existsb (N.eqb BSL) X = false -> existsb (N.eqb BQ) X = false ->
  existsb (N.eqb NL) X = false ->
  escaped_in X None text = true -> escaped_in X None (stage_parity text) = true.
Proof.
  intros HB HQ HN H. unfold stage_parity. rewrite escaped_in_join by assumption.
  apply forallb_fixed_lines.
  - intros l Hl. rewrite fix_line_escape_backticks.
    now apply escaped_in_escape_backticks.
  - rewrite <- escaped_in_join by assumption. now rewrite join_split_lines.
Qed.

(** X7. In every output of [escape], each of the characters [= | { } . !]
    stands right after a backslash: the final passes escape all of them, in
    plain text, in links and inside code alike, and the parity fixer that
    runs after them takes none of these backslashes away. *)
Theorem final_punctuation_always_escaped :
  forall (text : str) (flag : bool), exists out : str,
    escape text flag = Ok out /\ escaped_in (lit "=|{}.!") None out = true.
Proof.
  intros text flag. exists (escape_stages text flag). split; [apply escape_eq|].
  unfold escape_stages.
  apply stage_parity_escaped; try reflexivity.
  apply stage_punctuation_escaped.
Qed.

(* ================================================================== *)
(** ** Texts of one line without markup *)

(** The pass that puts a backslash before every [x]. *)
Lemma sub_escape_char (x : ascii) (s : str) :
  sub (C x) [TLit [BSL; N_of_ascii x]] s = backslash_escape [N_of_ascii x] s.
Proof.
  unfold C. rewrite sub_chr. unfold backslash_escape. apply flat_map_ext. intros c.
  cbn [existsb]. rewrite orb_false_r, (N.eqb_sym c).
  destruct (N.eqb_spec (N_of_ascii x) c) as [->|]; reflexivity.
Qed.

Lemma backslash_escape_app_sets X Y (s : str) :
  existsb (N.eqb BSL) Y = false ->
  forallb (fun y => negb (existsb (N.eqb y) X)) Y = true ->
  backslash_escape Y (backslash_escape X s) = backslash_escape (X ++ Y) s.
Proof.
  intros HB HY. unfold backslash_escape. induction s as [|c s IH]; [reflexivity|].
  cbn [flat_map]. rewrite flat_map_app. f_equal; [|exact IH].
  rewrite existsb_app.
  destruct (existsb (N.eqb c) X) eqn:Ec.
  - cbn [orb flat_map app]. rewrite app_nil_r.
    rewrite HB.
    assert (E2 : existsb (N.eqb c) Y = false).
    { destruct (existsb (N.eqb c) Y) eqn:E; [|reflexivity].
      apply existsb_exists in E. destruct E as (y & Hy & Hcy).
      apply N.eqb_eq in Hcy. subst y.
      rewrite forallb_forall in HY. specialize (HY c Hy). rewrite Ec in HY. discriminate. }
    now rewrite E2.
  - cbn [orb flat_map app]. rewrite app_nil_r. reflexivity.
Qed.

Lemma avoids_backslash_escape X Y (s : str) :
  existsb (N.eqb BSL) X = false -> avoids X s -> avoids X (backslash_escape Y s).
Proof.
  intros HB H. unfold backslash_escape, avoids. apply Forall_flat_map.
  eapply Forall_impl; [|exact H]. intros c Hc. cbv beta in *.
  destruct (existsb (N.eqb c) Y); repeat constructor; assumption.
Qed.

Lemma flat_map_nil_all {A B} (f : A -> list B) (l : list A) :
  (forall a, In a l -> f a = []) -> flat_map f l = [].
Proof.
  induction l as [|a l IH]; intros H; [reflexivity|].
  cbn [flat_map]. rewrite (H a) by now left. apply IH. intros b Hb. apply H. now right.
Qed.

(** A pattern whose tail cannot match without [x] cannot match without it. *)
Lemma run_cat_nil r1 r2 x :
  (forall cur cs, ~ In x (rest cur) -> run r2 cur cs = []) ->
  forall cur cs, ~ In x (rest cur) -> run (Cat r1 r2) cur cs = [].
Proof.
  intros H2 cur cs Hx. rewrite run_cat. apply flat_map_nil_all.
  intros [mid cs1] Hin. cbn [fst snd]. apply H2.
  destruct (run_consumes r1 cur cs mid cs1 Hin) as (u & [Hu _] & _).
  intros X. apply Hx. rewrite Hu. apply in_or_app. now right.
Qed.

Lemma run_rep_nil p lo hi lazy x :
  1 <= lo -> (forall c, p c = true -> c = x) ->
  forall cur cs, ~ In x (rest cur) -> run (Rep p lo hi lazy) cur cs = [].
Proof.
  intros Hlo Hp cur cs Hx. rewrite run_rep.
  destruct (rep p lo hi lazy (prev cur) (pos cur) (rest cur)) as [|c' l] eqn:E;
    [reflexivity|].
  exfalso.
  destruct (rep_consumes p lazy (rest cur) lo hi (prev cur) (pos cur) c') as (u & Hu & _ & Hl & Hall).
  { rewrite E. now left. }
  destruct u as [|a u]; [simpl in Hl; lia|].
  inversion Hall as [|? ? Ha _]; subst. apply Hp in Ha. subst a.
  apply Hx. rewrite Hu. now left.
Qed.

(** The header pattern needs a newline after the header, and a fence needs
    backticks: without both, the header pass finds nothing. *)
Lemma match_at_p_header_none pv i (s : str) :
  ~ In NL s -> ~ In BQ s -> match_at p_header (Cursor pv i s) = None.
Proof.
  intros HN HQ. unfold p_header. rewrite match_at_alt, match_at_grp.
  assert (E : match_at (Bol >> plus (eqc "#") >> Cls isspace >> lazy_plus dot
                        >> plus (N.eqb NL))%re (Cursor pv i s) = None).
  { unfold match_at.
    rewrite (run_cat_nil _ _ NL); [reflexivity| |exact HN].
    apply run_cat_nil, run_cat_nil, run_cat_nil.
    apply run_rep_nil; [lia|]. intros c Hc. apply N.eqb_eq in Hc. now symmetry. }
  rewrite E. apply (match_at_none_needs fence_arm BQ); [reflexivity|assumption].
Qed.

Lemma span_transform_p_header_id (text : str) f :
  ~ In NL text -> ~ In BQ text -> span_transform text p_header f = text.
Proof.
  intros HN HQ. apply span_transform_no_target. unfold targets, finditer.
  rewrite (finditer_nil_gen p_header (fun s => ~ In NL s /\ ~ In BQ s)); [reflexivity| | |].
  - intros c s [H1 H2]. split; intros X; [apply H1|apply H2]; now right.
  - intros s pv i [H1 H2]. now apply match_at_p_header_none.
  - now split.
Qed.

(** A transform pass whose pattern, on a text of characters that are all
    [safe], finds exactly the occurrences of one character. *)
Lemma weave_rel_one_char r x f (safe : char -> Prop) :
  (forall pv i, match_at r (Cursor pv i []) = None) ->
  (forall pv i c s, safe c ->
      match_at r (Cursor pv i (c :: s))
      = if N.eqb x c then Some (Match i (S i) [(1, (i, S i))]) else None) ->
  forall (s : str) pv pre,
    Forall safe s ->
    weave_rel r f pv pre s = flat_map (fun c => if N.eqb x c then f [c] else [c]) s.
Proof.
  intros Hnil Hm. induction s as [|c s IH]; intros pv pre Hs.
  - apply weave_rel_nil, Hnil.
  - inversion Hs as [|? ? Hc Hs']; subst.
    cbn [flat_map]. destruct (N.eqb x c) eqn:E.
    + etransitivity.
      * apply (weave_rel_target _ _ pv pre [c] s
                 (Match (length pre) (S (length pre)) [(1, (length pre, S (length pre)))])).
        -- cbn [app]. now rewrite Hm, E.
        -- simpl. lia.
        -- discriminate.
        -- simpl. now rewrite Nat.add_1_r.
      * f_equal. now apply IH.
    + etransitivity.
      * apply weave_rel_skip. now rewrite Hm, E.
      * cbn [app]. f_equal. now apply IH.
Qed.

Lemma Forall_two_notin (x y : char) (s : str) :
  ~ In x s -> ~ In y s -> Forall (fun c => c <> x /\ c <> y) s.
Proof.
  intros Hx Hy. apply Forall_forall. intros c Hc. split; intros ->; contradiction.
Qed.

Lemma match_at_one_char_arms x pv i c s :
  c <> NL /\ c <> BQ ->
  match_at (Alt (Grp 1 (Chr x)) (Alt dash_item_arm (Alt fence_arm inline_arm)))
           (Cursor pv i (c :: s))
  = if N.eqb x c then Some (Match i (S i) [(1, (i, S i))]) else None.
Proof.
  intros [H1 H2]. rewrite match_at_alt, match_at_grp, match_at_chr.
  destruct (N.eqb x c); [reflexivity|].
  apply match_at_none_first; [reflexivity|].
  cbv [dash_item_arm fence_arm inline_arm C star lazy_plus lazy_star].
  cbn [first nullable Nat.eqb andb orb].
  apply N.eqb_neq in H1, H2. rewrite (N.eqb_sym NL), H1.
  change (N_of_ascii "`") with BQ. rewrite (N.eqb_sym BQ), H2. reflexivity.
Qed.

Lemma match_at_one_char_arms_nil x pv i :
  match_at (Alt (Grp 1 (Chr x)) (Alt dash_item_arm (Alt fence_arm inline_arm)))
           (Cursor pv i [])
  = None.
Proof. reflexivity. Qed.

Lemma span_transform_one_char (x : ascii) (text : str) :
  ~ In NL text -> ~ In BQ text ->
  span_transform text
    (Alt (Grp 1 (C x)) (Alt dash_item_arm (Alt fence_arm inline_arm)))
    (fun t => BSL :: t)
  = backslash_escape [N_of_ascii x] text.
Proof.
  intros HN HQ. rewrite weave_rel_start. unfold C.
  rewrite (weave_rel_one_char _ (N_of_ascii x) _ (fun c => c <> NL /\ c <> BQ)
             (match_at_one_char_arms_nil (N_of_ascii x))
             (match_at_one_char_arms (N_of_ascii x)))
    by now apply Forall_two_notin.
  unfold backslash_escape. apply flat_map_ext. intros c.
  cbn [existsb]. rewrite orb_false_r, (N.eqb_sym c). reflexivity.
Qed.

Lemma first_p_dash_item : forall c, first p_dash_item c = true -> c = NL.
Proof.
  intros c H. cbv [p_dash_item times] in H. cbn [first nullable Nat.eqb andb] in H.
  rewrite orb_false_r in H. apply N.eqb_eq in H. now symmetry.
Qed.

Ltac esc_pass x t :=
  change (sub (C x) _ t) with (sub (C x) [TLit [BSL; N_of_ascii x]] t);
  rewrite (sub_escape_char x t).

Lemma stage_inline_flat flag (text : str) :
  avoids (lit "\@*[") text ->
  stage_inline flag text = backslash_escape (lit "_]()~>") text.
Proof.
  intros H. unfold stage_inline. cbv zeta.
  do 4 by_needs H text (N_of_ascii "\").
  assert (E5 : sub p_two_backslashes [T "@@@"] text = text).
  { by_needs H text (N_of_ascii "\"). reflexivity. }
  replace (if flag then sub p_two_backslashes [T "@@@"] text else text) with text
    by (destruct flag; [now rewrite E5|reflexivity]).
  do 2 by_needs H text (N_of_ascii "\").
  assert (E8 : sub AT3 [T "\\"] text = text).
  { by_first H text first_AT3 AT. reflexivity. }
  replace (if flag then sub AT3 [T "\\"] text else text) with text
    by (destruct flag; [now rewrite E8|reflexivity]).
  esc_pass "_"%char text.
  set (t1 := backslash_escape _ text).
  assert (H1 : avoids (lit "@*[") t1).
  { apply avoids_backslash_escape; [reflexivity|].
    revert H. apply avoids_weaken. reflexivity. }
  by_first H1 t1 first_p_bold (N_of_ascii "*").
  do 2 by_needs H1 t1 (N_of_ascii "*").
  by_first H1 t1 first_p_bold_saved AT.
  do 2 by_needs H1 t1 (N_of_ascii "[").
  esc_pass "]"%char t1.
  esc_pass "("%char (backslash_escape [N_of_ascii "]"] t1).
  esc_pass ")"%char (backslash_escape [N_of_ascii "("] (backslash_escape [N_of_ascii "]"] t1)).
  set (t4 := backslash_escape _ (backslash_escape _ (backslash_escape _ t1))).
  assert (H4 : avoids (lit "@*[") t4).
  { unfold t4. do 3 (apply avoids_backslash_escape; [reflexivity|]). exact H1. }
  do 4 by_needs H4 t4 AT.
  by_first H4 t4 first_p_link_saved AT.
  esc_pass "~"%char t4.
  esc_pass ">"%char (backslash_escape [N_of_ascii "~"] t4).
  unfold t4, t1.
  rewrite !backslash_escape_app_sets by reflexivity. reflexivity.
Qed.

Lemma stage_blocks_flat (text : str) :
  avoids (lit "@`" ++ [NL]) text ->
  stage_blocks text = backslash_escape (lit "#+-") text.
Proof.
  intros H. unfold stage_blocks. cbv zeta.
  assert (notNL : forall t : str, avoids (lit "@`" ++ [NL]) t -> ~ In NL t)
    by (intros t Ht; apply (avoids_notin _ _ NL Ht); reflexivity).
  assert (notBQ : forall t : str, avoids (lit "@`" ++ [NL]) t -> ~ In BQ t)
    by (intros t Ht; apply (avoids_notin _ _ BQ Ht); reflexivity).
  assert (notAT : forall t : str, avoids (lit "@`" ++ [NL]) t -> ~ In AT t)
    by (intros t Ht; apply (avoids_notin _ _ AT Ht); reflexivity).
  rewrite span_transform_p_header_id by auto.
  esc_pass "#"%char text.
  set (t1 := backslash_escape _ text).
  assert (H1 : avoids (lit "@`" ++ [NL]) t1)
    by (apply avoids_backslash_escape; [reflexivity|exact H]).
  change (span_transform t1 p_plus escape_special_char)
    with (span_transform t1
            (Alt (Grp 1 (C "+")) (Alt dash_item_arm (Alt fence_arm inline_arm)))
            (fun t => BSL :: t)).
  rewrite span_transform_one_char by auto.
  set (t2 := backslash_escape _ t1).
  assert (H2 : avoids (lit "@`" ++ [NL]) t2)
    by (apply avoids_backslash_escape; [reflexivity|exact H1]).
  rewrite (sub_id_first_only p_numbered _ NL t2 eq_refl first_p_numbered (notNL _ H2)).
  rewrite minus_markers_round_trip by auto.
  rewrite (sub_id_first_only p_dash_item _ NL t2 eq_refl first_p_dash_item (notNL _ H2)).
  by_needs H2 t2 AT.
  change (span_transform t2 p_minus escape_minus)
    with (span_transform t2
            (Alt (Grp 1 (C "-")) (Alt dash_item_arm (Alt fence_arm inline_arm)))
            (fun t => BSL :: t)).
  rewrite span_transform_one_char by auto.
  unfold t2, t1.
  rewrite !backslash_escape_app_sets by reflexivity. reflexivity.
Qed.

Lemma stage_punctuation_flat (text : str) :
  stage_punctuation text = backslash_escape (lit "=|{}.!") text.
Proof.
  unfold stage_punctuation. cbv zeta.
  esc_pass "="%char text.
  set (t1 := backslash_escape _ text).
  esc_pass "|"%char t1.
  set (t2 := backslash_escape _ t1).
  esc_pass "{"%char t2.
  set (t3 := backslash_escape _ t2).
  esc_pass "}"%char t3.
  set (t4 := backslash_escape _ t3).
  esc_pass "."%char t4.
  set (t5 := backslash_escape _ t4).
  esc_pass "!"%char t5.
  unfold t5, t4, t3, t2, t1.
  rewrite !backslash_escape_app_sets by reflexivity. reflexivity.
Qed.

(** X8. On a text of one line without markup (no backslash, [@], asterisk,
    opening bracket, backtick or newline), [escape] puts a backslash before
    every [_ ] ( ) ~ > # + - = | { } . !] and changes nothing else.  So a
    [#] header on a last line that has no newline after it is escaped, not
    formatted, and a minus that starts no list item is escaped like the
    rest. *)
Theorem escape_one_line :
  forall (text : str) (flag : bool),
    avoids (lit "\@*[`" ++ [NL]) text ->
    escape text flag = Ok (backslash_escape (lit "_]()~>#+-=|{}.!") text).
Proof.
  intros text flag H. rewrite escape_eq. f_equal. unfold escape_stages.
  rewrite stage_inline_flat by (revert H; apply avoids_weaken; reflexivity).
  set (t1 := backslash_escape _ text).
  assert (H1 : avoids (lit "@`" ++ [NL]) t1).
  { apply avoids_backslash_escape; [reflexivity|].
    revert H. apply avoids_weaken. reflexivity. }
  rewrite stage_blocks_flat by exact H1.
  set (t2 := backslash_escape _ t1).
  assert (H2 : avoids (lit "@`" ++ [NL]) t2)
    by (apply avoids_backslash_escape; [reflexivity|exact H1]).
  rewrite stage_code_id by (revert H2; apply avoids_weaken; reflexivity).
  rewrite stage_punctuation_flat.
  rewrite stage_parity_id.
  - unfold t2, t1. rewrite !backslash_escape_app_sets by reflexivity. reflexivity.
  - apply (avoids_notin (lit "@`" ++ [NL])); [|reflexivity].
    apply avoids_backslash_escape; [reflexivity|exact H2].
Qed.

Lemma escape_one_line_witness :
  avoids (lit "\@*[`" ++ [NL]) (lit "# a_b (c) - d + 1.5 = x!")
  /\ escape (lit "# a_b (c) - d + 1.5 = x!") false
     = Ok (lit "\# a\_b \(c\) \- d \+ 1\.5 \= x\!").
Proof.
  split; [repeat constructor|].
  apply (escape_one_line (lit "# a_b (c) - d + 1.5 = x!") false).
  repeat constructor.
Defined.

(* ================================================================== *)
(** ** Texts whose only markup is single backticks *)

Lemma contains_tail needle c (hay : str) :
  contains needle (c :: hay) = false -> contains needle hay = false.
Proof.
  cbn [contains]. intros H. apply orb_false_iff in H. tauto.
Qed.

Lemma contains_here needle (hay : str) :
  needle <> [] -> contains needle hay = false -> startswith hay needle = false.
Proof.
  intros Hn H. destruct hay as [|c hay].
  - destruct needle; [congruence|reflexivity].
  - cbn [contains] in H. apply orb_false_iff in H. tauto.
Qed.

(** A pattern that starts with two literal characters matches only where the
    text has them. *)
Lemma match_at_two_chars a b r pv i (s : str) :
  startswith s [a; b] = false ->
  match_at (Cat (Chr a) (Cat (Chr b) r)) (Cursor pv i s) = None.
Proof.
  intros H. unfold match_at. rewrite run_cat.
  destruct s as [|c s]; [reflexivity|]. rewrite run_chr_cons.
  cbn [startswith] in H.
  destruct (N.eqb a c); [|reflexivity].
  cbn [flat_map fst snd]. rewrite app_nil_r, run_cat.
  destruct s as [|d s]; [reflexivity|]. rewrite run_chr_cons.
  cbn [andb] in H. destruct (N.eqb b d); [|reflexivity].
  cbn [andb] in H. discriminate.
Qed.

Lemma sub_p_fence_id (text : str) t :
  contains [BQ; BQ] text = false -> sub p_fence t text = text.
Proof.
  intros H. apply sub_no_match. unfold finditer.
  apply (finditer_nil_gen p_fence (fun s => contains [BQ; BQ] s = false)).
  - intros c s. apply contains_tail.
  - intros s pv i Hs. apply match_at_two_chars.
    apply contains_here; [discriminate|assumption].
  - assumption.
Qed.

Lemma span_transform_two_backticks_id (text : str) f :
  contains [BQ; BQ] text = false -> span_transform text p_two_backticks f = text.
Proof.
  intros H. apply span_transform_no_target. unfold targets, finditer.
  rewrite (finditer_nil_gen p_two_backticks (fun s => contains [BQ; BQ] s = false));
    [reflexivity| | |assumption].
  - intros c s. apply contains_tail.
  - intros s pv i Hs. unfold p_two_backticks, C. rewrite match_at_grp.
    change (Cat (Chr (N_of_ascii "`")) (Chr (N_of_ascii "`"))) with (chars BQ [BQ]).
    rewrite match_at_chars.
    rewrite (contains_here [BQ; BQ] s) by (discriminate || assumption). reflexivity.
Qed.

Lemma match_at_backtick_outside pv i c s :
  c <> AT ->
  match_at p_backtick_outside (Cursor pv i (c :: s))
  = if N.eqb BQ c then Some (Match i (S i) [(1, (i, S i))]) else None.
Proof.
  intros Hc. unfold p_backtick_outside. rewrite match_at_alt.
  rewrite match_at_none_first.
  - unfold C. rewrite match_at_grp, match_at_chr. change (N_of_ascii "`") with BQ.
    destruct (N.eqb BQ c); reflexivity.
  - reflexivity.
  - cbv [C]. cbn [first nullable andb orb]. rewrite orb_false_r.
    change (N_of_ascii "@") with AT. apply N.eqb_neq. congruence.
Qed.

(** Taking the markers of one character out again. *)
Lemma sub_rel_marker_restore (x : char) (m : str) :
  forall (s : str) pv pre,
    ~ In AT s ->
    sub_rel (chars AT m) [TLit [x]] pv pre
      (flat_map (fun c => if N.eqb x c then AT :: m else [c]) s)
    = s.
Proof.
  induction s as [|c s IH]; intros pv pre H.
  - apply sub_rel_nil. now rewrite match_at_chars.
  - assert (Hc : c <> AT) by (intros ->; apply H; now left).
    assert (Hs : ~ In AT s) by (intros X; apply H; now right).
    cbn [flat_map]. destruct (N.eqb_spec x c) as [E|E].
    + subst c. etransitivity.
      * apply (sub_rel_match _ _ pv pre (AT :: m) _
                 (Match (length pre) (length pre + S (length m)) [])).
        -- rewrite match_at_chars. now rewrite startswith_refl_app.
        -- reflexivity.
        -- discriminate.
      * cbn [expand flat_map app]. f_equal. now apply IH.
    + etransitivity.
      * apply sub_rel_skip. rewrite match_at_chars. cbn [app startswith].
        apply N.eqb_neq in Hc. rewrite N.eqb_sym, Hc. reflexivity.
      * cbn [app]. f_equal. now apply IH.
Qed.

(** The backtick passes put a marker for every backtick outside the saved
    blocks and take it out again. *)
Lemma backtick_markers_round_trip (text : str) :
  ~ In AT text -> ~ In (N_of_ascii "<") text ->
  sub s_lbracket [T "`"]
    (sub s_backtick [T "\`"]
       (sub (C "`") [T "\`"]
          (span_transform text p_backtick_outside escape_backquote_in_code)))
  = text.
Proof.
  intros Hat Hlt.
  rewrite weave_rel_start.
  rewrite (weave_rel_one_char p_backtick_outside BQ _ (fun c => c <> AT)
             (fun pv i => eq_refl) match_at_backtick_outside)
    by (apply Forall_forall; intros c Hc ->; contradiction).
  unfold escape_backquote_in_code.
  set (marked := flat_map (fun c => if N.eqb BQ c then lit "@->@" else [c]) text).
  assert (Hm : forall x, ~ In x text -> existsb (N.eqb x) (lit "@->@") = false ->
                         ~ In x marked).
  { intros x Hx Hx' X. unfold marked in X. apply in_flat_map in X.
    destruct X as (c & Hin & Hc).
    destruct (N.eqb BQ c).
    - revert Hc. now apply notin_mem.
    - destruct Hc as [Hc|[]]. subst. contradiction. }
  assert (Hq : ~ In BQ marked).
  { intros X. unfold marked in X. apply in_flat_map in X.
    destruct X as (c & Hin & Hc).
    destruct (N.eqb_spec BQ c) as [E|E].
    - revert Hc. apply notin_mem. reflexivity.
    - destruct Hc as [Hc|[]]. congruence. }
  rewrite (sub_id_needs (C "`") _ BQ marked eq_refl Hq).
  rewrite (sub_id_needs s_backtick _ (N_of_ascii "<") marked eq_refl
             (Hm _ Hlt eq_refl)).
  rewrite sub_rel_start.
  change s_lbracket with (chars AT (lit "->@")).
  change (T "`") with (TLit [BQ]).
  now apply (sub_rel_marker_restore BQ (lit "->@")).
Qed.

Lemma stage_code_backticks (text : str) :
  ~ In AT text -> ~ In (N_of_ascii "<") text -> contains [BQ; BQ] text = false ->
  stage_code text = text.
Proof.
  intros Hat Hlt Hbb. unfold stage_code. cbv zeta.
  rewrite sub_p_fence_id by assumption.
  rewrite backtick_markers_round_trip by assumption.
  rewrite span_transform_two_backticks_id by assumption.
  apply (sub_id_first_only p_fence_saved _ AT text eq_refl first_p_fence_saved Hat).
Qed.

(** X9. On a text whose only markup is backticks, none of them doubled
    (no other reserved character, no [<]; newlines are allowed), [escape]
    does what [fix_uneven_backticks] alone does: a line with an even number
    of backticks, such as one with inline code spans, is returned as it is,
    and on a line with an odd number every backtick is escaped. *)
Theorem escape_backticks_only :
  forall (text : str) (flag : bool),
    avoids (lit "\_*[]()~><#+-=|{}.!@") text ->
    contains [BQ; BQ] text = false ->
    escape text flag = fix_uneven_backticks text.
Proof.
  intros text flag H Hbb. rewrite escape_eq, fix_uneven_backticks_stage. f_equal.
  unfold escape_stages.
  rewrite stage_inline_id by (revert H; apply avoids_weaken; reflexivity).
  rewrite stage_blocks_id by (revert H; apply avoids_weaken; reflexivity).
  rewrite stage_code_backticks;
    [|apply (avoids_notin _ _ _ H); reflexivity
     |apply (avoids_notin _ _ _ H); reflexivity|assumption].
  rewrite stage_punctuation_id by (revert H; apply avoids_weaken; reflexivity).
  reflexivity.
Qed.

Lemma escape_backticks_only_witness :
  (avoids (lit "\_*[]()~><#+-=|{}.!@") (lit "run `ls` now" ++ [NL] ++ lit "it`s")
   /\ contains [BQ; BQ] (lit "run `ls` now" ++ [NL] ++ lit "it`s") = false)
  /\ escape (lit "run `ls` now" ++ [NL] ++ lit "it`s") false
     = fix_uneven_backticks (lit "run `ls` now" ++ [NL] ++ lit "it`s")
  /\ fix_uneven_backticks (lit "run `ls` now" ++ [NL] ++ lit "it`s")
     = Ok (lit "run `ls` now" ++ [NL] ++ lit "it\`s").
Proof.
  split; [split; [repeat constructor|reflexivity]|].
  split; [|reflexivity].
  apply (escape_backticks_only (lit "run `ls` now" ++ [NL] ++ lit "it`s") false).
  - repeat constructor.
  - reflexivity.
Defined.

(* ================================================================== *)
(** ** Matching a delimited construct *)

Lemma prev_after_app pv (a b : str) :
  prev_after (prev_after pv a) b = prev_after pv (a ++ b).
Proof.
  unfold prev_after. now rewrite fold_left_app.
Qed.

Lemma is_literal_times x :
  forall n, is_literal (Rep (N.eqb x) n (Some n) false) (repeat x n).
Proof.
  induction n as [|n IH]; intros pv i s cs.
  - rewrite run_rep. cbn [prev pos rest]. rewrite rep_zero_hi.
    cbn [repeat startswith map length skipn prev_after fold_left].
    now rewrite Nat.add_0_r.
  - rewrite run_rep. cbn [prev pos rest repeat]. destruct s as [|c s]; [reflexivity|].
    cbn [rep room startswith]. destruct (N.eqb_spec x c) as [<-|]; cbn [andb]; [|reflexivity].
    cbn [Nat.pred option_map]. rewrite app_nil_r.
    specialize (IH (Some x) (S i) s cs). rewrite run_rep in IH. cbn [prev pos rest] in IH.
    etransitivity; [exact IH|]. destruct (startswith s (repeat x n)); [|reflexivity].
    unfold prev_after. cbn [length skipn fold_left].
    now rewrite Nat.add_succ_r.
Qed.

Lemma is_literal_chr x : is_literal (Chr x) [x].
Proof. exact (is_literal_chars x []). Qed.

Lemma is_literal_cat a b A B :
  is_literal a A -> is_literal b B -> is_literal (Cat a b) (A ++ B).
Proof.
  intros Ha Hb pv i s cs. rewrite run_cat, Ha.
  destruct (startswith s A) eqn:EA.
  - cbn [flat_map fst snd]. rewrite app_nil_r, Hb.
    apply startswith_app in EA.
    destruct (startswith (skipn (length A) s) B) eqn:EB.
    + apply startswith_app in EB.
      assert (Es : startswith s (A ++ B) = true).
      { rewrite EA, EB, app_assoc. apply startswith_refl_app. }
      rewrite Es, prev_after_app, length_app, skipn_skipn, Nat.add_assoc.
      now rewrite (Nat.add_comm (length B)).
    + destruct (startswith s (A ++ B)) eqn:Es; [|reflexivity].
      apply startswith_app in Es. exfalso.
      rewrite Es in EB at 1. rewrite <- app_assoc in EB.
      rewrite skipn_app, skipn_all, Nat.sub_diag in EB. cbn [skipn app] in EB.
      now rewrite startswith_refl_app in EB.
  - destruct (startswith s (A ++ B)) eqn:Es; [|reflexivity].
    apply startswith_app in Es. rewrite Es, <- app_assoc in EA.
    now rewrite startswith_refl_app in EA.
Qed.

(** Reading a literal, then the rest of the pattern. *)
Lemma run_literal_cat o D Y pv i (s : str) cs :
  is_literal o D ->
  run (Cat o Y) (Cursor pv i (D ++ s)) cs
  = run Y (Cursor (prev_after pv D) (i + length D) s) cs.
Proof.
  intros Ho. rewrite run_cat, Ho, startswith_refl_app. cbn [flat_map fst snd].
  rewrite app_nil_r. f_equal. f_equal.
  now rewrite skipn_app, Nat.sub_diag, skipn_all.
Qed.

Lemma run_literal_end o D pv i (s : str) cs :
  is_literal o D ->
  run o (Cursor pv i (D ++ s)) cs = [(Cursor (prev_after pv D) (i + length D) s, cs)].
Proof.
  intros Ho. rewrite Ho, startswith_refl_app. f_equal. f_equal. f_equal.
  now rewrite skipn_app, Nat.sub_diag, skipn_all.
Qed.

(** A pattern that starts with a literal fails where the text starts with
    another character. *)
Lemma run_literal_miss o y D Y pv i c (s : str) cs :
  is_literal o (y :: D) -> c <> y -> run (Cat o Y) (Cursor pv i (c :: s)) cs = [].
Proof.
  intros Ho Hc. rewrite run_cat, Ho. cbn [startswith].
  apply N.eqb_neq in Hc. now rewrite N.eqb_sym, Hc.
Qed.

Lemma run_literal_miss_end o y D pv i c (s : str) cs :
  is_literal o (y :: D) -> c <> y -> run o (Cursor pv i (c :: s)) cs = [].
Proof.
  intros Ho Hc. rewrite Ho. cbn [startswith].
  apply N.eqb_neq in Hc. now rewrite N.eqb_sym, Hc.
Qed.

(** A lazy group stops at the first place where the rest of the pattern
    matches: with the rest failing on every character of [w] but [y], and
    [w] without [y], the first way through reads exactly [w]. *)
Lemma run_lazy_group g p lo K y (w after : str) pv i cs :
  Forall (fun c => p c = true) w -> lo <= length w -> ~ In y w ->
  (forall pv' i' c s cs', c <> y -> run K (Cursor pv' i' (c :: s)) cs' = []) ->
  exists tail,
    run (Cat (Grp g (Rep p lo None true)) K) (Cursor pv i (w ++ after)) cs
    = run K (Cursor (prev_after pv w) (i + length w) after) ((g, (i, i + length w)) :: cs)
      ++ tail.
Proof.
  intros Hp Hlo Hy HK.
  rewrite run_cat, run_grp, run_rep, !flat_map_map. cbn [fst snd prev pos rest].
  match goal with
  | |- context [flat_map ?k (rep p lo None true pv i (w ++ after))] =>
      destruct (flat_map_lazy_rep p k after w pv i lo Hp) as [tail Ht]
  end.
  - intros u1 a u2 E _. cbn [pos]. apply HK.
    intros ->. apply Hy. rewrite E. apply in_or_app. right. now left.
  - exact Hlo.
  - exists tail. rewrite Ht. reflexivity.
Qed.

(** One match between two stretches of text that cannot start one. *)
Lemma sub_one_match r t (pre u post : str) m :
  nullable r = false ->
  Forall (fun c => first r c = false) pre -> Forall (fun c => first r c = false) post ->
  u <> [] ->
  match_at r (Cursor (prev_after None pre) (length pre) (u ++ post)) = Some m ->
  m_end m = length pre + length u ->
  sub r t (pre ++ u ++ post) = pre ++ expand (pre ++ u ++ post) m t ++ post.
Proof.
  intros Hn Fpre Fpost Hu Hm He.
  rewrite sub_rel_start.
  rewrite (sub_rel_skip_all r _ Hn pre None [] _ Fpre). f_equal. cbn [app].
  rewrite (sub_rel_match r _ _ pre u post m Hm He Hu).
  now rewrite (sub_rel_tail r _ _ _ post Hn Fpost).
Qed.

Lemma slice_at (pre u s : str) a b :
  slice (pre ++ u ++ s) (length pre + a) (length pre + b) = slice (u ++ s) a b.
Proof. apply slice_shift. Qed.

(* ================================================================== *)
(** ** Bold text *)

Lemma p_bold_literal : is_literal (times (eqc "*") 2 2) (lit "**").
Proof. exact (is_literal_times (N_of_ascii "*") 2). Qed.

Lemma match_at_p_bold pv i (w post : str) :
  Forall (fun c => dot c = true) w -> ~ In (N_of_ascii "*") w ->
  match_at p_bold (Cursor pv i (lit "**" ++ w ++ lit "**" ++ post))
  = Some (Match i (i + 2 + length w + 2) [(1, (i + 2, i + 2 + length w))]).
Proof.
  intros Hd Hw. unfold match_at, p_bold.
  rewrite (run_literal_cat _ (lit "**") _ pv i _ [] p_bold_literal).
  destruct (run_lazy_group 1 dot 0 (times (eqc "*") 2 2) (N_of_ascii "*") w
              (lit "**" ++ post) (prev_after pv (lit "**")) (i + length (lit "**")) []
              Hd (Nat.le_0_l _) Hw) as [tail Ht].
  - intros pv' i' c s cs' Hc.
    now apply (run_literal_miss_end _ (N_of_ascii "*") [N_of_ascii "*"]); [exact p_bold_literal|].
  - unfold lazy_star. rewrite Ht.
    rewrite (run_literal_end _ (lit "**") _ _ post _ p_bold_literal).
    cbn [app pos length]. reflexivity.
Qed.

Lemma sub_p_bold (pre w post : str) :
  ~ In (N_of_ascii "*") pre -> ~ In (N_of_ascii "*") w -> ~ In (N_of_ascii "*") post ->
  ~ In NL w ->
  sub p_bold [T "@@@"; TRef 1; T "@@@"] (pre ++ lit "**" ++ w ++ lit "**" ++ post)
  = pre ++ lit "@@@" ++ w ++ lit "@@@" ++ post.
Proof.
  intros Hpre Hw Hpost Hnl.
  assert (Hd : Forall (fun c => dot c = true) w).
  { apply Forall_forall. intros c Hc. unfold dot. apply negb_true_iff, N.eqb_neq.
    intros ->. contradiction. }
  replace (pre ++ lit "**" ++ w ++ lit "**" ++ post)
    with (pre ++ (lit "**" ++ w ++ lit "**") ++ post)
    by (now rewrite <- !app_assoc).
  rewrite (sub_one_match p_bold _ pre (lit "**" ++ w ++ lit "**") post
             (Match (length pre) (length pre + 2 + length w + 2)
                    [(1, (length pre + 2, length pre + 2 + length w))])).
  - f_equal. unfold T. cbn [expand flat_map lookup Nat.eqb m_caps].
    replace (length pre + 2 + length w) with (length pre + (2 + length w)) by lia.
    rewrite slice_shift.
    assert (Hs : slice ((lit "**" ++ w ++ lit "**") ++ post) 2 (2 + length w) = w).
    { rewrite <- !app_assoc. apply (slice_mid (lit "**") w (lit "**" ++ post)). }
    rewrite Hs. now rewrite app_nil_r, <- !app_assoc.
  - reflexivity.
  - now apply (first_only p_bold (N_of_ascii "*") pre first_p_bold).
  - now apply (first_only p_bold (N_of_ascii "*") post first_p_bold).
  - discriminate.
  - rewrite <- !app_assoc. now apply match_at_p_bold.
  - cbn [m_end]. rewrite !length_app. simpl. lia.
Qed.

Lemma match_at_p_bold_saved pv i (w post : str) :
  Forall (fun c => dot c = true) w -> ~ In AT w ->
  match_at p_bold_saved (Cursor pv i (lit "@@@" ++ w ++ lit "@@@" ++ post))
  = Some (Match i (i + 3 + length w + 3) [(1, (i + 3, i + 3 + length w))]).
Proof.
  intros Hd Hw. unfold match_at, p_bold_saved.
  rewrite (run_literal_cat _ (lit "@@@") _ pv i _ [] is_literal_AT3).
  destruct (run_lazy_group 1 dot 0 AT3 AT w
              (lit "@@@" ++ post) (prev_after pv (lit "@@@")) (i + length (lit "@@@")) []
              Hd (Nat.le_0_l _) Hw) as [tail Ht].
  - intros pv' i' c s cs' Hc.
    now apply (run_literal_miss_end _ AT [AT; AT]); [exact is_literal_AT3|].
  - unfold lazy_star. rewrite Ht.
    rewrite (run_literal_end _ (lit "@@@") _ _ post _ is_literal_AT3).
    cbn [app pos length]. reflexivity.
Qed.

Lemma sub_p_bold_saved (pre w post : str) :
  ~ In AT pre -> ~ In AT w -> ~ In AT post -> ~ In NL w ->
  sub p_bold_saved [T "*"; TRef 1; T "*"] (pre ++ lit "@@@" ++ w ++ lit "@@@" ++ post)
  = pre ++ lit "*" ++ w ++ lit "*" ++ post.
Proof.
  intros Hpre Hw Hpost Hnl.
  assert (Hd : Forall (fun c => dot c = true) w).
  { apply Forall_forall. intros c Hc. unfold dot. apply negb_true_iff, N.eqb_neq.
    intros ->. contradiction. }
  replace (pre ++ lit "@@@" ++ w ++ lit "@@@" ++ post)
    with (pre ++ (lit "@@@" ++ w ++ lit "@@@") ++ post)
    by (now rewrite <- !app_assoc).
  rewrite (sub_one_match p_bold_saved _ pre (lit "@@@" ++ w ++ lit "@@@") post
             (Match (length pre) (length pre + 3 + length w + 3)
                    [(1, (length pre + 3, length pre + 3 + length w))])).
  - f_equal. unfold T. cbn [expand flat_map lookup Nat.eqb m_caps].
    replace (length pre + 3 + length w) with (length pre + (3 + length w)) by lia.
    rewrite slice_shift.
    assert (Hs : slice ((lit "@@@" ++ w ++ lit "@@@") ++ post) 3 (3 + length w) = w).
    { rewrite <- !app_assoc. apply (slice_mid (lit "@@@") w (lit "@@@" ++ post)). }
    rewrite Hs. now rewrite app_nil_r, <- !app_assoc.
  - reflexivity.
  - now apply (first_only p_bold_saved AT pre first_p_bold_saved).
  - now apply (first_only p_bold_saved AT post first_p_bold_saved).
  - discriminate.
  - rewrite <- !app_assoc. now apply match_at_p_bold_saved.
  - cbn [m_end]. rewrite !length_app. simpl. lia.
Qed.

(** X10. Bold text: for plain text around it and a plain interior without
    newline (plain: no reserved character; the text around may have
    newlines, the interior may be empty), [escape] turns the Markdown
    [**w**] into the Telegram [*w*] and changes nothing else. *)
Theorem escape_bold :
  forall (pre w post : str) (flag : bool),
    avoids reserved_marks pre -> avoids reserved w -> avoids reserved_marks post ->
    escape (pre ++ lit "**" ++ w ++ lit "**" ++ post) flag
    = Ok (pre ++ lit "*" ++ w ++ lit "*" ++ post).
Proof.
  intros pre w post flag Hpre Hw Hpost.
  assert (Hw' : avoids reserved_marks w) by (revert Hw; apply avoids_weaken; reflexivity).
  assert (notin : forall x, existsb (N.eqb x) reserved_marks = true ->
                            ~ In x pre /\ ~ In x w /\ ~ In x post).
  { intros x Hx. repeat split; eapply avoids_notin; eauto. }
  assert (Wnl : ~ In NL w) by (apply (avoids_notin _ _ NL Hw); reflexivity).
  rewrite escape_eq. f_equal. unfold escape_stages.
  set (text0 := pre ++ lit "**" ++ w ++ lit "**" ++ post).
  set (text1 := pre ++ lit "@@@" ++ w ++ lit "@@@" ++ post).
  set (text2 := pre ++ lit "*" ++ w ++ lit "*" ++ post).
  assert (A0 : avoids (lit "\_[]()~><#+-=|{}.!@^`") text0).
  { unfold text0. solve_avoids. }
  assert (A1 : avoids (lit "\_*[]()~><#+-=|{}.!^`") text1).
  { unfold text1. solve_avoids. }
  assert (A2 : avoids (lit "\_[]()~><#+-=|{}.!@^`") text2).
  { unfold text2. solve_avoids. }
  assert (E : stage_inline flag text0 = text2).
  { unfold stage_inline. cbv zeta.
    do 4 by_needs A0 text0 (N_of_ascii "\").
    assert (E5 : sub p_two_backslashes [T "@@@"] text0 = text0).
    { by_needs A0 text0 (N_of_ascii "\"). reflexivity. }
    replace (if flag then sub p_two_backslashes [T "@@@"] text0 else text0) with text0
      by (destruct flag; [now rewrite E5|reflexivity]).
    do 2 by_needs A0 text0 (N_of_ascii "\").
    assert (E8 : sub AT3 [T "\\"] text0 = text0).
    { by_first A0 text0 first_AT3 AT. reflexivity. }
    replace (if flag then sub AT3 [T "\\"] text0 else text0) with text0
      by (destruct flag; [now rewrite E8|reflexivity]).
    by_needs A0 text0 (N_of_ascii "_").
    replace (sub p_bold [T "@@@"; TRef 1; T "@@@"] text0) with text1
      by (symmetry; apply sub_p_bold; try assumption; apply notin; reflexivity).
    do 2 by_needs A1 text1 (N_of_ascii "*").
    replace (sub p_bold_saved [T "*"; TRef 1; T "*"] text1) with text2
      by (symmetry; apply sub_p_bold_saved; try assumption; apply notin; reflexivity).
    do 2 by_needs A2 text2 (N_of_ascii "[").
    by_needs A2 text2 (N_of_ascii "]").
    by_needs A2 text2 (N_of_ascii "(").
    by_needs A2 text2 (N_of_ascii ")").
    do 4 by_needs A2 text2 AT.
    by_first A2 text2 first_p_link_saved AT.
    by_needs A2 text2 (N_of_ascii "~").
    by_needs A2 text2 (N_of_ascii ">").
    reflexivity. }
  rewrite E.
  rewrite stage_blocks_id by (revert A2; apply avoids_weaken; reflexivity).
  rewrite stage_code_id by (revert A2; apply avoids_weaken; reflexivity).
  rewrite stage_punctuation_id by (revert A2; apply avoids_weaken; reflexivity).
  apply stage_parity_id. apply (avoids_notin _ _ BQ A2). reflexivity.
Qed.

Lemma escape_bold_witness :
  (avoids reserved_marks (lit "a" ++ [NL] ++ lit "very ") /\ avoids reserved (lit "bold text")
   /\ avoids reserved_marks (lit " here"))
  /\ escape ((lit "a" ++ [NL] ++ lit "very ") ++ lit "**" ++ lit "bold text" ++ lit "**"
             ++ lit " here") false
     = Ok ((lit "a" ++ [NL] ++ lit "very ") ++ lit "*" ++ lit "bold text" ++ lit "*"
           ++ lit " here").
Proof.
  split; [repeat split; repeat constructor|].
  apply (escape_bold (lit "a" ++ [NL] ++ lit "very ") (lit "bold text") (lit " here") false);
    repeat constructor.
Defined.

(* ================================================================== *)
(** ** Links *)

Lemma dot_of_no_newline (w : str) : ~ In NL w -> Forall (fun c => dot c = true) w.
Proof.
  intros H. apply Forall_forall. intros c Hc. unfold dot.
  apply negb_true_iff, N.eqb_neq. intros ->. contradiction.
Qed.

(** The link pattern after its optional [!]: the first way through reads a
    label without [\]] and a target without [)]. *)
Lemma run_link_body pv j (l u post : str) cs :
  ~ In NL l -> ~ In (N_of_ascii "]") l -> ~ In NL u -> ~ In (N_of_ascii ")") u ->
  exists tail,
    run link_body (Cursor pv j (lit "[" ++ l ++ lit "](" ++ u ++ lit ")" ++ post)) cs
    = (Cursor (Some (N_of_ascii ")")) (j + 1 + length l + 2 + length u + 1) post,
       (2, (j + 1 + length l + 2, j + 1 + length l + 2 + length u))
         :: (1, (j + 1, j + 1 + length l)) :: cs) :: tail.
Proof.
  intros Hl1 Hl2 Hu1 Hu2. unfold link_body, C.
  rewrite (run_literal_cat _ (lit "[") _ pv j _ cs (is_literal_chr _)).
  destruct (run_lazy_group 1 dot 0
              (Chr (N_of_ascii "]") >> Chr (N_of_ascii "(")
               >> Grp 2 (lazy_star dot) >> Chr (N_of_ascii ")"))%re
              (N_of_ascii "]") l (lit "](" ++ u ++ lit ")" ++ post)
              (prev_after pv (lit "[")) (j + length (lit "[")) cs
              (dot_of_no_newline l Hl1) (Nat.le_0_l _) Hl2) as [tail1 Ht1].
  { intros pv' i' c s cs' Hc.
    now apply (run_literal_miss _ (N_of_ascii "]") []); [apply is_literal_chr|]. }
  unfold lazy_star at 1. rewrite Ht1.
  change (lit "](" ++ u ++ lit ")" ++ post)
    with (lit "]" ++ lit "(" ++ u ++ lit ")" ++ post).
  rewrite (run_literal_cat _ (lit "]") _ _ _ _ _ (is_literal_chr _)).
  rewrite (run_literal_cat _ (lit "(") _ _ _ _ _ (is_literal_chr _)).
  match goal with
  | |- context [run _ (Cursor ?pv2 ?i2 (u ++ lit ")" ++ post)) ?cs2] =>
      destruct (run_lazy_group 2 dot 0 (Chr (N_of_ascii ")")) (N_of_ascii ")") u
                  (lit ")" ++ post) pv2 i2 cs2
                  (dot_of_no_newline u Hu1) (Nat.le_0_l _) Hu2) as [tail2 Ht2]
  end.
  { intros pv' i' c s cs' Hc.
    now apply (run_literal_miss_end _ (N_of_ascii ")") []); [apply is_literal_chr|]. }
  unfold lazy_star. rewrite Ht2.
  rewrite (run_literal_end _ (lit ")") _ _ post _ (is_literal_chr _)).
  change (length (lit "[")) with 1. change (length (lit "]")) with 1.
  change (length (lit "(")) with 1. change (length (lit ")")) with 1.
  unfold prev_after.
  change (fold_left (fun (_ : option char) (c : char) => Some c) (lit ")") ?x)
    with (Some (N_of_ascii ")")).
  replace (j + 1 + length l + 1 + 1) with (j + 1 + length l + 2) by lia.
  cbn [app]. eexists. reflexivity.
Qed.

Lemma run_opt_absent x c (s : str) pv i cs :
  c <> x ->
  run (opt (N.eqb x)) (Cursor pv i (c :: s)) cs = [(Cursor pv i (c :: s), cs)].
Proof.
  intros Hc. unfold opt. rewrite run_rep. cbn [prev pos rest rep room].
  apply N.eqb_neq in Hc. rewrite N.eqb_sym in Hc. rewrite Hc. reflexivity.
Qed.

Lemma run_opt_present x (s : str) pv i cs :
  run (opt (N.eqb x)) (Cursor pv i (x :: s)) cs
  = [(Cursor (Some x) (S i) s, cs); (Cursor pv i (x :: s), cs)].
Proof.
  unfold opt. rewrite run_rep. cbn [prev pos rest rep room].
  rewrite N.eqb_refl. cbn [andb option_map Nat.pred]. now rewrite rep_zero_hi.
Qed.

Lemma match_at_p_link (bang : bool) pv i (l u post : str) :
  ~ In NL l -> ~ In (N_of_ascii "]") l -> ~ In NL u -> ~ In (N_of_ascii ")") u ->
  match_at p_link
    (Cursor pv i ((if bang then lit "!" else []) ++ lit "[" ++ l ++ lit "](" ++ u
                  ++ lit ")" ++ post))
  = Some (Match i (i + (if bang then 1 else 0) + 1 + length l + 2 + length u + 1)
            [(2, (i + (if bang then 1 else 0) + 1 + length l + 2,
                  i + (if bang then 1 else 0) + 1 + length l + 2 + length u));
             (1, (i + (if bang then 1 else 0) + 1,
                  i + (if bang then 1 else 0) + 1 + length l))]).
Proof.
  intros Hl1 Hl2 Hu1 Hu2. unfold match_at.
  change p_link with (Cat (opt (eqc "!")) link_body). rewrite run_cat.
  set (body := lit "[" ++ l ++ lit "](" ++ u ++ lit ")" ++ post).
  destruct bang.
  - change (lit "!" ++ body) with (N_of_ascii "!" :: body).
    unfold eqc. rewrite run_opt_present. cbn [flat_map fst snd].
    destruct (run_link_body (Some (N_of_ascii "!")) (S i) l u post [] Hl1 Hl2 Hu1 Hu2)
      as [tail Ht].
    fold body in Ht. rewrite Ht. cbn [app pos].
    replace (i + 1) with (S i) by lia. reflexivity.
  - cbn [app].
    assert (Eb : body = N_of_ascii "[" :: l ++ lit "](" ++ u ++ lit ")" ++ post)
      by reflexivity.
    unfold eqc. rewrite Eb at 1. rewrite run_opt_absent by discriminate.
    rewrite <- Eb. cbn [flat_map fst snd]. rewrite app_nil_r.
    destruct (run_link_body pv i l u post [] Hl1 Hl2 Hu1 Hu2) as [tail Ht].
    fold body in Ht. rewrite Ht. cbn [pos].
    rewrite Nat.add_0_r. reflexivity.
Qed.

Lemma first_p_link c : first p_link c = true -> c = N_of_ascii "!" \/ c = N_of_ascii "[".
Proof.
  intros H. cbv [p_link opt eqc C lazy_star] in H.
  cbn [first nullable Nat.eqb andb orb] in H.
  repeat rewrite orb_false_r in H.
  apply orb_true_iff in H. destruct H as [H|H]; apply N.eqb_eq in H; auto.
Qed.

Lemma first_p_link_none (s : str) :
  ~ In (N_of_ascii "!") s -> ~ In (N_of_ascii "[") s ->
  Forall (fun c => first p_link c = false) s.
Proof.
  intros H1 H2. apply Forall_forall. intros c Hc.
  destruct (first p_link c) eqn:E; [|reflexivity].
  apply first_p_link in E. destruct E as [-> | ->]; contradiction.
Qed.

Lemma slice_inner (a w b : str) j k :
  j = length a -> k = length a + length w -> slice (a ++ w ++ b) j k = w.
Proof.
  intros -> ->. apply slice_mid.
Qed.

Lemma sub_p_link (bang : bool) (pre l u post : str) :
  ~ In (N_of_ascii "!") pre -> ~ In (N_of_ascii "[") pre ->
  ~ In (N_of_ascii "!") post -> ~ In (N_of_ascii "[") post ->
  ~ In NL l -> ~ In (N_of_ascii "]") l -> ~ In NL u -> ~ In (N_of_ascii ")") u ->
  sub p_link [T "@@@"; TRef 1; T "@@@^^^"; TRef 2; T "^^^"]
      (pre ++ (if bang then lit "!" else []) ++ lit "[" ++ l ++ lit "](" ++ u
       ++ lit ")" ++ post)
  = pre ++ lit "@@@" ++ l ++ lit "@@@^^^" ++ u ++ lit "^^^" ++ post.
Proof.
  intros Hp1 Hp2 Hq1 Hq2 Hl1 Hl2 Hu1 Hu2.
  set (bs := if bang then lit "!" else []).
  set (b := if bang then 1 else 0).
  assert (Hb : length bs = b) by (unfold bs, b; now destruct bang).
  set (U := bs ++ lit "[" ++ l ++ lit "](" ++ u ++ lit ")").
  assert (EU : bs ++ lit "[" ++ l ++ lit "](" ++ u ++ lit ")" ++ post = U ++ post)
    by (unfold U; now rewrite <- !app_assoc).
  assert (E0 : pre ++ (if bang then lit "!" else []) ++ lit "[" ++ l ++ lit "](" ++ u
               ++ lit ")" ++ post = pre ++ U ++ post).
  { f_equal. exact EU. }
  rewrite E0.
  assert (LU : length U = b + 1 + length l + 2 + length u + 1).
  { unfold U. rewrite !length_app, Hb. simpl. lia. }
  rewrite (sub_one_match p_link _ pre U post
             (Match (length pre) (length pre + b + 1 + length l + 2 + length u + 1)
                [(2, (length pre + b + 1 + length l + 2,
                      length pre + b + 1 + length l + 2 + length u));
                 (1, (length pre + b + 1, length pre + b + 1 + length l))])).
  - f_equal. unfold T. cbn [expand flat_map lookup Nat.eqb m_caps].
    assert (S1 : slice (pre ++ U ++ post) (length pre + b + 1)
                   (length pre + b + 1 + length l) = l).
    { unfold U. rewrite <- !app_assoc.
      replace (pre ++ bs ++ lit "[" ++ l ++ lit "](" ++ u ++ lit ")" ++ post)
        with ((pre ++ bs ++ lit "[") ++ l ++ (lit "](" ++ u ++ lit ")" ++ post))
        by (now rewrite <- !app_assoc).
      apply slice_inner; rewrite !length_app, Hb; simpl; lia. }
    assert (S2 : slice (pre ++ U ++ post) (length pre + b + 1 + length l + 2)
                   (length pre + b + 1 + length l + 2 + length u) = u).
    { unfold U. rewrite <- !app_assoc.
      replace (pre ++ bs ++ lit "[" ++ l ++ lit "](" ++ u ++ lit ")" ++ post)
        with ((pre ++ bs ++ lit "[" ++ l ++ lit "](") ++ u ++ (lit ")" ++ post))
        by (now rewrite <- !app_assoc).
      apply slice_inner; rewrite !length_app, Hb; simpl; lia. }
    rewrite S1, S2. now rewrite app_nil_r, <- !app_assoc.
  - reflexivity.
  - now apply first_p_link_none.
  - now apply first_p_link_none.
  - unfold U, bs. destruct bang; discriminate.
  - rewrite <- EU. etransitivity.
    + exact (match_at_p_link bang _ (length pre) l u post Hl1 Hl2 Hu1 Hu2).
    + fold b. repeat first [reflexivity | lia | progress f_equal].
  - cbn [m_end]. lia.
Qed.

Lemma link_saved_literals : is_literal (times (eqc "^") 3 3) (lit "^^^").
Proof. exact (is_literal_times (N_of_ascii "^") 3). Qed.

Lemma match_at_p_link_saved pv i (l u post : str) :
  ~ In NL l -> ~ In AT l -> ~ In NL u -> ~ In CARET u ->
  match_at p_link_saved
    (Cursor pv i (lit "@@@" ++ l ++ lit "@@@^^^" ++ u ++ lit "^^^" ++ post))
  = Some (Match i (i + 3 + length l + 6 + length u + 3)
            [(2, (i + 3 + length l + 6, i + 3 + length l + 6 + length u));
             (1, (i + 3, i + 3 + length l))]).
Proof.
  intros Hl1 Hl2 Hu1 Hu2. unfold match_at, p_link_saved.
  rewrite (run_literal_cat _ (lit "@@@") _ pv i _ [] is_literal_AT3).
  destruct (run_lazy_group 1 dot 0
              (AT3 >> times (eqc "^") 3 3 >> Grp 2 (lazy_star dot) >> times (eqc "^") 3 3)%re
              AT l (lit "@@@^^^" ++ u ++ lit "^^^" ++ post)
              (prev_after pv (lit "@@@")) (i + length (lit "@@@")) []
              (dot_of_no_newline l Hl1) (Nat.le_0_l _) Hl2) as [tail1 Ht1].
  { intros pv' i' c s cs' Hc.
    now apply (run_literal_miss _ AT [AT; AT]); [exact is_literal_AT3|]. }
  unfold lazy_star at 1. rewrite Ht1.
  change (lit "@@@^^^" ++ u ++ lit "^^^" ++ post)
    with (lit "@@@" ++ lit "^^^" ++ u ++ lit "^^^" ++ post).
  rewrite (run_literal_cat _ (lit "@@@") _ _ _ _ _ is_literal_AT3).
  rewrite (run_literal_cat _ (lit "^^^") _ _ _ _ _ link_saved_literals).
  match goal with
  | |- context [run _ (Cursor ?pv2 ?i2 (u ++ lit "^^^" ++ post)) ?cs2] =>
      destruct (run_lazy_group 2 dot 0 (times (eqc "^") 3 3) CARET u
                  (lit "^^^" ++ post) pv2 i2 cs2
                  (dot_of_no_newline u Hu1) (Nat.le_0_l _) Hu2) as [tail2 Ht2]
  end.
  { intros pv' i' c s cs' Hc.
    now apply (run_literal_miss_end _ CARET [CARET; CARET]);
      [exact link_saved_literals|]. }
  unfold lazy_star. rewrite Ht2.
  rewrite (run_literal_end _ (lit "^^^") _ _ post _ link_saved_literals).
  change (length (lit "@@@")) with 3. change (length (lit "^^^")) with 3.
  cbn [app pos]. repeat first [reflexivity | lia | progress f_equal].
Qed.

Lemma sub_p_link_saved (pre l u post : str) :
  ~ In AT pre -> ~ In AT post ->
  ~ In NL l -> ~ In AT l -> ~ In NL u -> ~ In CARET u ->
  sub p_link_saved [T "["; TRef 1; T "]("; TRef 2; T ")"]
      (pre ++ lit "@@@" ++ l ++ lit "@@@^^^" ++ u ++ lit "^^^" ++ post)
  = pre ++ lit "[" ++ l ++ lit "](" ++ u ++ lit ")" ++ post.
Proof.
  intros Hp Hq Hl1 Hl2 Hu1 Hu2.
  set (U := lit "@@@" ++ l ++ lit "@@@^^^" ++ u ++ lit "^^^").
  assert (EU : lit "@@@" ++ l ++ lit "@@@^^^" ++ u ++ lit "^^^" ++ post = U ++ post)
    by (unfold U; now rewrite <- !app_assoc).
  rewrite EU.
  assert (LU : length U = 3 + length l + 6 + length u + 3).
  { unfold U. rewrite !length_app. simpl. lia. }
  rewrite (sub_one_match p_link_saved _ pre U post
             (Match (length pre) (length pre + 3 + length l + 6 + length u + 3)
                [(2, (length pre + 3 + length l + 6,
                      length pre + 3 + length l + 6 + length u));
                 (1, (length pre + 3, length pre + 3 + length l))])).
  - f_equal. unfold T. cbn [expand flat_map lookup Nat.eqb m_caps].
    assert (S1 : slice (pre ++ U ++ post) (length pre + 3)
                   (length pre + 3 + length l) = l).
    { unfold U. rewrite <- !app_assoc.
      replace (pre ++ lit "@@@" ++ l ++ lit "@@@^^^" ++ u ++ lit "^^^" ++ post)
        with ((pre ++ lit "@@@") ++ l ++ (lit "@@@^^^" ++ u ++ lit "^^^" ++ post))
        by (now rewrite <- !app_assoc).
      apply slice_inner; rewrite !length_app; simpl; lia. }
    assert (S2 : slice (pre ++ U ++ post) (length pre + 3 + length l + 6)
                   (length pre + 3 + length l + 6 + length u) = u).
    { unfold U. rewrite <- !app_assoc.
      replace (pre ++ lit "@@@" ++ l ++ lit "@@@^^^" ++ u ++ lit "^^^" ++ post)
        with ((pre ++ lit "@@@" ++ l ++ lit "@@@^^^") ++ u ++ (lit "^^^" ++ post))
        by (now rewrite <- !app_assoc).
      apply slice_inner; rewrite !length_app; simpl; lia. }
    rewrite S1, S2. now rewrite app_nil_r, <- !app_assoc.
  - reflexivity.
  - now apply (first_only p_link_saved AT pre first_p_link_saved).
  - now apply (first_only p_link_saved AT post first_p_link_saved).
  - unfold U. discriminate.
  - rewrite <- EU. now apply match_at_p_link_saved.
  - cbn [m_end]. lia.
Qed.

(** X11. Links: for a link [[label](target)], or an image [![label](target)],
    between two stretches of text, all on one line and with no reserved
    character other than [= | { } .], [escape] keeps the link syntax
    unescaped, drops the [!] of an image, and puts a backslash before every
    [= | { } .] of the line, those of the target included. *)
Theorem escape_link :
  forall (bang : bool) (pre label target post : str) (flag : bool),
    avoids (lit "\_*[]()~><#+-!@^`" ++ [NL]) pre ->
    avoids (lit "\_*[]()~><#+-!@^`" ++ [NL]) label ->
    avoids (lit "\_*[]()~><#+-!@^`" ++ [NL]) target ->
    avoids (lit "\_*[]()~><#+-!@^`" ++ [NL]) post ->
    escape (pre ++ (if bang then lit "!" else []) ++ lit "[" ++ label ++ lit "]("
            ++ target ++ lit ")" ++ post) flag
    = Ok (backslash_escape (lit "=|{}.!")
            (pre ++ lit "[" ++ label ++ lit "](" ++ target ++ lit ")" ++ post)).
Proof.
  intros bang pre l u post flag Hpre Hl Hu Hpost.
  assert (notin : forall x, existsb (N.eqb x) (lit "\_*[]()~><#+-!@^`" ++ [NL]) = true ->
                            ~ In x pre /\ ~ In x l /\ ~ In x u /\ ~ In x post).
  { intros x Hx. repeat split; eapply avoids_notin; eauto. }
  rewrite escape_eq. f_equal. unfold escape_stages.
  set (text0 := pre ++ (if bang then lit "!" else []) ++ lit "[" ++ l ++ lit "]("
                ++ u ++ lit ")" ++ post).
  set (text1 := pre ++ lit "@@@" ++ l ++ lit "@@@^^^" ++ u ++ lit "^^^" ++ post).
  set (text2 := pre ++ lit "[" ++ l ++ lit "](" ++ u ++ lit ")" ++ post).
  assert (A0 : avoids (lit "\_*~><#+-@^`" ++ [NL]) text0).
  { unfold text0. destruct bang; solve_avoids. }
  assert (A1 : avoids (lit "\_*[]()~><#+-!`" ++ [NL]) text1).
  { unfold text1. solve_avoids. }
  assert (A2 : avoids (lit "\_*~><#+-!@^`" ++ [NL]) text2).
  { unfold text2. solve_avoids. }
  assert (E : stage_inline flag text0 = text2).
  { unfold stage_inline. cbv zeta.
    do 4 by_needs A0 text0 (N_of_ascii "\").
    assert (E5 : sub p_two_backslashes [T "@@@"] text0 = text0).
    { by_needs A0 text0 (N_of_ascii "\"). reflexivity. }
    replace (if flag then sub p_two_backslashes [T "@@@"] text0 else text0) with text0
      by (destruct flag; [now rewrite E5|reflexivity]).
    do 2 by_needs A0 text0 (N_of_ascii "\").
    assert (E8 : sub AT3 [T "\\"] text0 = text0).
    { by_first A0 text0 first_AT3 AT. reflexivity. }
    replace (if flag then sub AT3 [T "\\"] text0 else text0) with text0
      by (destruct flag; [now rewrite E8|reflexivity]).
    by_needs A0 text0 (N_of_ascii "_").
    by_first A0 text0 first_p_bold (N_of_ascii "*").
    do 2 by_needs A0 text0 (N_of_ascii "*").
    by_first A0 text0 first_p_bold_saved AT.
    replace (sub p_link [T "@@@"; TRef 1; T "@@@^^^"; TRef 2; T "^^^"] text0) with text1
      by (symmetry; apply sub_p_link; apply notin; reflexivity).
    by_needs A1 text1 (N_of_ascii "[").
    by_needs A1 text1 (N_of_ascii "]").
    by_needs A1 text1 (N_of_ascii "(").
    by_needs A1 text1 (N_of_ascii ")").
    by_needs A1 text1 (N_of_ascii "-").
    by_needs A1 text1 (N_of_ascii "<").
    by_needs A1 text1 (N_of_ascii "-").
    by_needs A1 text1 (N_of_ascii "<").
    replace (sub p_link_saved [T "["; TRef 1; T "]("; TRef 2; T ")"] text1) with text2
      by (symmetry; apply sub_p_link_saved; apply notin; reflexivity).
    by_needs A2 text2 (N_of_ascii "~").
    by_needs A2 text2 (N_of_ascii ">").
    reflexivity. }
  rewrite E.
  rewrite stage_blocks_numbered by (revert A2; apply avoids_weaken; reflexivity).
  rewrite (sub_id_first_only p_numbered _ NL text2 eq_refl first_p_numbered)
    by (apply (avoids_notin _ _ NL A2); reflexivity).
  rewrite stage_code_id by (revert A2; apply avoids_weaken; reflexivity).
  rewrite stage_punctuation_flat.
  apply stage_parity_id.
  apply (avoids_notin (lit "`")); [|reflexivity].
  apply avoids_backslash_escape; [reflexivity|].
  revert A2. apply avoids_weaken. reflexivity.
Qed.

Lemma escape_link_witness :
  (avoids (lit "\_*[]()~><#+-!@^`" ++ [NL]) (lit "see ")
   /\ avoids (lit "\_*[]()~><#+-!@^`" ++ [NL]) (lit "OpenAI")
   /\ avoids (lit "\_*[]()~><#+-!@^`" ++ [NL]) (lit "https://openai.com/?a=b")
   /\ avoids (lit "\_*[]()~><#+-!@^`" ++ [NL]) (lit "."))
  /\ escape (lit "see " ++ lit "!" ++ lit "[" ++ lit "OpenAI" ++ lit "]("
             ++ lit "https://openai.com/?a=b" ++ lit ")" ++ lit ".") false
     = Ok (lit "see [OpenAI](https://openai\.com/?a\=b)\.").
Proof.
  split; [repeat split; repeat constructor|].
  apply (escape_link true (lit "see ") (lit "OpenAI") (lit "https://openai.com/?a=b")
           (lit ".") false); repeat constructor.
Defined.

(* ================================================================== *)
(** ** Bullet lists *)

Lemma match_at_p_dash_item pv i (s : str) :
  match_at p_dash_item (Cursor pv i (NL :: N_of_ascii "-" :: N_of_ascii " " :: s))
  = Some (Match i (S (S (S i))) [(1, (S i, S i))]).
Proof. reflexivity. Qed.

Lemma match_at_p_star_item pv i (s : str) :
  match_at p_star_item (Cursor pv i (NL :: N_of_ascii "*" :: N_of_ascii " " :: s))
  = Some (Match i (S (S (S i))) []).
Proof. reflexivity. Qed.

Lemma first_p_star_item : forall c, first p_star_item c = true -> c = NL.
Proof.
  intros c H. cbv [p_star_item times] in H. cbn [first nullable Nat.eqb andb] in H.
  rewrite orb_false_r in H. apply N.eqb_eq in H. now symmetry.
Qed.

(** A pass that rewrites the marker of every item of a list. *)
Lemma sub_rel_items r t marker (out : str) :
  nullable r = false -> (forall c, first r c = true -> c = NL) ->
  (forall pv i s m,
      match_at r (Cursor pv i (NL :: marker :: N_of_ascii " " :: s)) = Some m ->
      m_end m = S (S (S i))) ->
  (forall pv i s, exists m,
      match_at r (Cursor pv i (NL :: marker :: N_of_ascii " " :: s)) = Some m
      /\ forall text, expand text m t = out) ->
  forall (items : list str) pv (pre : str),
    Forall (fun item => ~ In NL item) items ->
    sub_rel r t pv pre (marked_list marker items)
    = flat_map (fun item => out ++ item) items.
Proof.
  intros Hn Hf He Hm. induction items as [|item items IH]; intros pv pre H.
  - cbn [marked_list flat_map]. apply sub_rel_nil.
    apply match_at_none_first; [assumption|exact I].
  - inversion H as [|? ? Hi Hs]; subst.
    change (marked_list marker (item :: items))
      with ([NL; marker; N_of_ascii " "] ++ item ++ marked_list marker items).
    destruct (Hm pv (length pre) (item ++ marked_list marker items)) as (m & Em & Ex).
    rewrite (sub_rel_match r t pv pre [NL; marker; N_of_ascii " "] _ m Em).
    + rewrite Ex. cbn [flat_map]. rewrite <- app_assoc. f_equal.
      rewrite (sub_rel_skip_all r t Hn item).
      * f_equal. now apply IH.
      * now apply (first_only r NL).
    + rewrite (He _ _ _ _ Em). simpl. lia.
    + discriminate.
Qed.

Lemma sub_p_dash_items (intro : str) (items : list str) :
  ~ In NL intro -> Forall (fun item => ~ In NL item) items ->
  sub p_dash_item [TLit [NL; NL]; TRef 1; TLit ([BULLET] ++ lit " ")]
      (intro ++ marked_list (N_of_ascii "-") items)
  = intro ++ bullet_list items.
Proof.
  intros Hi Hs. rewrite sub_rel_start.
  rewrite (sub_rel_skip_all p_dash_item _ eq_refl intro)
    by now apply (first_only p_dash_item NL intro first_p_dash_item).
  f_equal. cbn [app].
  apply (sub_rel_items p_dash_item _ (N_of_ascii "-") ([NL; NL; BULLET] ++ lit " ")
           eq_refl first_p_dash_item).
  - intros pv i s m E. rewrite match_at_p_dash_item in E. now inversion E.
  - intros pv i s. eexists. split; [apply match_at_p_dash_item|].
    intros text. cbn [expand flat_map lookup Nat.eqb m_caps].
    rewrite slice_empty by lia. reflexivity.
  - assumption.
Qed.

Lemma sub_p_star_items (intro : str) (items : list str) :
  ~ In NL intro -> Forall (fun item => ~ In NL item) items ->
  sub p_star_item [TLit ([NL; NL; BULLET] ++ lit " ")]
      (intro ++ marked_list (N_of_ascii "*") items)
  = intro ++ bullet_list items.
Proof.
  intros Hi Hs. rewrite sub_rel_start.
  rewrite (sub_rel_skip_all p_star_item _ eq_refl intro)
    by now apply (first_only p_star_item NL intro first_p_star_item).
  f_equal. cbn [app].
  apply (sub_rel_items p_star_item _ (N_of_ascii "*") ([NL; NL; BULLET] ++ lit " ")
           eq_refl first_p_star_item).
  - intros pv i s m E. rewrite match_at_p_star_item in E. now inversion E.
  - intros pv i s. eexists. split; [apply match_at_p_star_item|].
    intros text. cbn [expand flat_map]. now rewrite app_nil_r.
  - assumption.
Qed.

Lemma avoids_flat_map X (f : str -> str) (items : list str) :
  (forall item, avoids X item -> avoids X (f item)) ->
  Forall (avoids X) items -> avoids X (flat_map f items).
Proof.
  intros Hf H. induction H as [|item items Hi Hs IH]; [constructor|].
  cbn [flat_map]. apply avoids_app. split; auto.
Qed.

(** A pass whose pattern starts at the marker but does not match a marker
    that a space follows leaves the list alone. *)
Lemma sub_rel_items_id r t marker :
  nullable r = false -> (forall c, first r c = true -> c = marker) ->
  marker <> NL -> marker <> N_of_ascii " " ->
  (forall pv i s, match_at r (Cursor pv i (marker :: N_of_ascii " " :: s)) = None) ->
  forall (items : list str) pv (pre : str),
    Forall (fun item => ~ In marker item) items ->
    sub_rel r t pv pre (marked_list marker items) = marked_list marker items.
Proof.
  intros Hn Hf Hnl Hsp Hm.
  assert (Hfirst : forall c, c <> marker -> first r c = false).
  { intros c Hc. destruct (first r c) eqn:E; [|reflexivity]. apply Hf in E. congruence. }
  induction items as [|item items IH]; intros pv pre H.
  - cbn [marked_list flat_map]. apply sub_rel_nil.
    apply match_at_none_first; [assumption|exact I].
  - inversion H as [|? ? Hi Hs]; subst.
    change (marked_list marker (item :: items))
      with (NL :: marker :: (N_of_ascii " " :: item) ++ marked_list marker items).
    rewrite sub_rel_skip
      by (apply match_at_none_first; [assumption|apply Hfirst; congruence]).
    f_equal. rewrite sub_rel_skip by apply Hm. f_equal.
    rewrite (sub_rel_skip_all r t Hn (N_of_ascii " " :: item)).
    + f_equal. now apply IH.
    + constructor; [apply Hfirst; congruence|].
      apply Forall_forall. intros c Hc. apply Hfirst. intros ->. contradiction.
Qed.

Lemma match_at_p_bold_at_marker pv i (s : str) :
  match_at p_bold (Cursor pv i (N_of_ascii "*" :: N_of_ascii " " :: s)) = None.
Proof. reflexivity. Qed.

Lemma sub_p_bold_star_items (intro : str) (items : list str) t :
  ~ In (N_of_ascii "*") intro ->
  Forall (fun item => ~ In (N_of_ascii "*") item) items ->
  sub p_bold t (intro ++ marked_list (N_of_ascii "*") items)
  = intro ++ marked_list (N_of_ascii "*") items.
Proof.
  intros Hi Hs. rewrite sub_rel_start.
  rewrite (sub_rel_skip_all p_bold _ eq_refl intro)
    by now apply (first_only p_bold (N_of_ascii "*") intro first_p_bold).
  f_equal. cbn [app].
  apply (sub_rel_items_id p_bold t (N_of_ascii "*") eq_refl first_p_bold);
    try discriminate; try assumption.
  apply match_at_p_bold_at_marker.
Qed.

Lemma avoids_marked_list X marker (items : list str) :
  existsb (N.eqb NL) X = false -> existsb (N.eqb marker) X = false ->
  existsb (N.eqb (N_of_ascii " ")) X = false ->
  Forall (avoids X) items -> avoids X (marked_list marker items).
Proof.
  intros H1 H2 H3 H. unfold marked_list. apply avoids_flat_map; [|exact H].
  intros item Hi. repeat (apply avoids_app; split); try assumption;
    repeat constructor; cbn [existsb]; assumption.
Qed.

Lemma avoids_bullet_list X (items : list str) :
  existsb (N.eqb NL) X = false -> existsb (N.eqb BULLET) X = false ->
  existsb (N.eqb (N_of_ascii " ")) X = false ->
  Forall (avoids X) items -> avoids X (bullet_list items).
Proof.
  intros H1 H2 H3 H. unfold bullet_list. apply avoids_flat_map; [|exact H].
  intros item Hi. repeat (apply avoids_app; split); try assumption;
    repeat constructor; cbn [existsb]; assumption.
Qed.

Lemma Forall_avoids_weaken X X' (items : list str) :
  forallb (fun x => existsb (N.eqb x) X) X' = true ->
  Forall (avoids X) items -> Forall (avoids X') items.
Proof.
  intros HX. apply Forall_impl. intros item. now apply avoids_weaken.
Qed.

Lemma Forall_avoids_notin X x (items : list str) :
  existsb (N.eqb x) X = true ->
  Forall (avoids X) items -> Forall (fun item => ~ In x item) items.
Proof.
  intros HX. apply Forall_impl. intros item Hi. now apply (avoids_notin X).
Qed.

(** X12. Bullet lists: for an introduction of one line and any number of
    items, each plain and of one line, written one per line after a dash and
    a space, or after an asterisk and a space, [escape] rewrites every item
    to a blank line, a bullet and a space before the item's text, and
    changes nothing else. *)
Theorem escape_bullet_list :
  forall (intro : str) (items : list str) (flag : bool),
    avoids reserved intro -> Forall (avoids reserved) items ->
    escape (intro ++ marked_list (N_of_ascii "-") items) flag
    = Ok (intro ++ bullet_list items)
    /\ escape (intro ++ marked_list (N_of_ascii "*") items) flag
       = Ok (intro ++ bullet_list items).
Proof.
  intros intro items flag Hi Hs.
  set (text1 := intro ++ bullet_list items).
  assert (A1 : avoids reserved_marks text1).
  { unfold text1. apply avoids_app. split.
    - revert Hi. apply avoids_weaken. reflexivity.
    - apply avoids_bullet_list; try reflexivity.
      revert Hs. apply Forall_avoids_weaken. reflexivity. }
  assert (Tail : stage_parity (stage_punctuation (stage_code text1)) = text1).
  { rewrite stage_code_id by (revert A1; apply avoids_weaken; reflexivity).
    rewrite stage_punctuation_id by (revert A1; apply avoids_weaken; reflexivity).
    apply stage_parity_id. apply (avoids_notin _ _ BQ A1). reflexivity. }
  assert (Inl : ~ In NL intro) by (apply (avoids_notin _ _ NL Hi); reflexivity).
  assert (Snl : Forall (fun item => ~ In NL item) items)
    by (revert Hs; apply Forall_avoids_notin; reflexivity).
  split; rewrite escape_eq; f_equal; unfold escape_stages.
  - set (text0 := intro ++ marked_list (N_of_ascii "-") items).
    assert (A0 : avoids (lit "\_*[]()~><#+=|{}.!@^`") text0).
    { unfold text0. apply avoids_app. split.
      - revert Hi. apply avoids_weaken. reflexivity.
      - apply avoids_marked_list; try reflexivity.
        revert Hs. apply Forall_avoids_weaken. reflexivity. }
    rewrite stage_inline_id by (revert A0; apply avoids_weaken; reflexivity).
    assert (E : stage_blocks text0 = text1).
    { unfold stage_blocks. cbv zeta.
      rewrite (span_transform_id_gfirst p_header escapeshape (N_of_ascii "#") text0 eq_refl
                 gfirst_p_header (avoids_notin _ text0 (N_of_ascii "#") A0 eq_refl)).
      by_needs A0 text0 (N_of_ascii "#").
      by_gneeds A0 text0 (N_of_ascii "+").
      by_needs A0 text0 (N_of_ascii ".").
      rewrite minus_markers_round_trip
        by (apply (avoids_notin _ _ _ A0); reflexivity).
      replace (sub p_dash_item [TLit [NL; NL]; TRef 1; TLit ([BULLET] ++ lit " ")] text0)
        with text1 by (symmetry; now apply sub_p_dash_items).
      by_needs A1 text1 AT.
      by_gneeds A1 text1 (N_of_ascii "-").
      reflexivity. }
    rewrite E. exact Tail.
  - set (text0 := intro ++ marked_list (N_of_ascii "*") items).
    assert (A0 : avoids (lit "\_[]()~><#+-=|{}.!@^`") text0).
    { unfold text0. apply avoids_app. split.
      - revert Hi. apply avoids_weaken. reflexivity.
      - apply avoids_marked_list; try reflexivity.
        revert Hs. apply Forall_avoids_weaken. reflexivity. }
    assert (E : stage_inline flag text0 = text1).
    { unfold stage_inline. cbv zeta.
      do 4 by_needs A0 text0 (N_of_ascii "\").
      assert (E5 : sub p_two_backslashes [T "@@@"] text0 = text0).
      { by_needs A0 text0 (N_of_ascii "\"). reflexivity. }
      replace (if flag then sub p_two_backslashes [T "@@@"] text0 else text0) with text0
        by (destruct flag; [now rewrite E5|reflexivity]).
      do 2 by_needs A0 text0 (N_of_ascii "\").
      assert (E8 : sub AT3 [T "\\"] text0 = text0).
      { by_first A0 text0 first_AT3 AT. reflexivity. }
      replace (if flag then sub AT3 [T "\\"] text0 else text0) with text0
        by (destruct flag; [now rewrite E8|reflexivity]).
      by_needs A0 text0 (N_of_ascii "_").
      replace (sub p_bold [T "@@@"; TRef 1; T "@@@"] text0) with text0
        by (symmetry; apply sub_p_bold_star_items;
            [apply (avoids_notin _ _ _ Hi); reflexivity
            |revert Hs; apply Forall_avoids_notin; reflexivity]).
      replace (sub p_star_item [TLit ([NL; NL; BULLET] ++ lit " ")] text0)
        with text1 by (symmetry; now apply sub_p_star_items).
      by_needs A1 text1 (N_of_ascii "*").
      by_first A1 text1 first_p_bold_saved AT.
      do 2 by_needs A1 text1 (N_of_ascii "[").
      by_needs A1 text1 (N_of_ascii "]").
      by_needs A1 text1 (N_of_ascii "(").
      by_needs A1 text1 (N_of_ascii ")").
      do 4 by_needs A1 text1 AT.
      by_first A1 text1 first_p_link_saved AT.
      by_needs A1 text1 (N_of_ascii "~").
      by_needs A1 text1 (N_of_ascii ">").
      reflexivity. }
    rewrite E.
    rewrite stage_blocks_id by (revert A1; apply avoids_weaken; reflexivity).
    exact Tail.
Qed.

Lemma escape_bullet_list_witness :
  (avoids reserved (lit "Intro") /\ Forall (avoids reserved) [lit "item1"; lit "item2"])
  /\ escape (lit "Intro" ++ marked_list (N_of_ascii "-") [lit "item1"; lit "item2"]) false
     = Ok (lit "Intro" ++ bullet_list [lit "item1"; lit "item2"])
  /\ escape (lit "Intro" ++ marked_list (N_of_ascii "*") [lit "item1"; lit "item2"]) false
     = Ok (lit "Intro" ++ bullet_list [lit "item1"; lit "item2"]).
Proof.
  split; [split; repeat constructor|].
  apply (escape_bullet_list (lit "Intro") [lit "item1"; lit "item2"] false);
    repeat constructor.
Defined.

(* ================================================================== *)
(** ** Headers *)

(** A greedy repetition takes the whole run first. *)
Lemma rep_greedy_head p (u after : str) :
  forall lo pv i,
    Forall (fun c => p c = true) u -> lo <= length u ->
    match after with c :: _ => p c = false | [] => True end ->
    exists tail,
      rep p lo None false pv i (u ++ after)
      = Cursor (prev_after pv u) (i + length u) after :: tail.
Proof.
  induction u as [|c u IH]; intros lo pv i Hp Hlo Ha.
  - simpl in Hlo. assert (lo = 0) by lia. subst lo. exists [].
    cbn [app length prev_after fold_left]. rewrite Nat.add_0_r.
    destruct after as [|a after]; [reflexivity|].
    cbn [rep]. rewrite Ha. reflexivity.
  - inversion Hp as [|? ? Hc Hu]; subst. cbn [length] in Hlo.
    destruct (IH (Nat.pred lo) (Some c) (S i) Hu) as [tail Ht]; [lia|exact Ha|].
    cbn [app rep room]. rewrite Hc. cbn [andb option_map]. rewrite Ht.
    eexists. cbn [app length]. unfold prev_after. cbn [fold_left].
    rewrite Nat.add_succ_r. reflexivity.
Qed.

Lemma run_cls_cons p pv i c (s : str) cs :
  p c = true -> run (Cls p) (Cursor pv i (c :: s)) cs = [(Cursor (Some c) (S i) s, cs)].
Proof.
  intros H. cbn [run step1 rest pos]. now rewrite H.
Qed.

Lemma run_newlines_miss pv i c (s : str) cs :
  c <> NL -> run (plus (N.eqb NL)) (Cursor pv i (c :: s)) cs = [].
Proof.
  intros H. unfold plus. rewrite run_rep. cbn [prev pos rest rep].
  apply N.eqb_neq in H. rewrite N.eqb_sym in H. rewrite H. reflexivity.
Qed.

Lemma run_header_line pv i n sp (title post : str) k cs :
  match pv with Some c => c = NL | None => True end ->
  1 <= n -> isspace sp = true -> title <> [] -> ~ In NL title -> 1 <= k ->
  match post with c :: _ => c <> NL | [] => True end ->
  match run header_line
          (Cursor pv i (repeat (N_of_ascii "#") n ++ sp :: title ++ repeat NL k ++ post))
          cs with
  | (c', cs') :: _ => pos c' = i + n + 1 + length title + k /\ cs' = cs
  | [] => False
  end.
Proof.
  intros Hpv Hn Hsp Ht Hnl Hk Hpost. unfold header_line.
  rewrite run_cat.
  assert (Eb : forall s, run Bol (Cursor pv i s) cs = [(Cursor pv i s, cs)]).
  { intros s. cbn [run]. unfold at_bol. cbn [prev].
    destruct pv as [c|]; [subst c|]; reflexivity. }
  rewrite Eb. cbn [flat_map fst snd]. rewrite app_nil_r.
  (* the hashes *)
  rewrite run_cat. change (plus (eqc "#")) with (Rep (eqc "#") 1 None false).
  rewrite (run_rep (eqc "#") 1 None false). cbn [prev pos rest].
  destruct (rep_greedy_head (eqc "#") (repeat (N_of_ascii "#") n)
              (sp :: title ++ repeat NL k ++ post) 1 pv i) as [tail1 E1].
  { apply Forall_forall. intros c Hc. apply repeat_spec in Hc. subst c. reflexivity. }
  { now rewrite repeat_length. }
  { unfold eqc. apply N.eqb_neq. intros <-. discriminate. }
  unfold char, str in *. rewrite E1. cbn [map flat_map fst snd]. rewrite repeat_length.
  (* the whitespace *)
  rewrite run_cat, (run_cls_cons isspace _ _ sp _ _ Hsp). cbn [flat_map fst snd].
  rewrite app_nil_r.
  (* the title, lazily *)
  rewrite run_cat. unfold lazy_plus. rewrite (run_rep dot 1 None true), flat_map_map.
  cbn [fst snd prev pos rest].
  match goal with
  | |- context [flat_map ?kk (rep dot 1 None true ?pv2 ?i2 (title ++ ?rest2))] =>
      destruct (flat_map_lazy_rep dot kk rest2 title pv2 i2 1) as [tail2 E2]
  end.
  { now apply dot_of_no_newline. }
  { intros u1 c u2 E _. apply run_newlines_miss.
    intros ->. apply Hnl. rewrite E. apply in_or_app. right. now left. }
  { destruct title; [exfalso; now apply Ht|simpl; lia]. }
  unfold char, str in *. rewrite E2.
  (* the newlines *)
  unfold plus. rewrite (run_rep (N.eqb NL) 1 None false). cbn [prev pos rest].
  match goal with
  | |- context [rep (N.eqb NL) 1 None false ?pv3 ?i3 (repeat NL k ++ post)] =>
      destruct (rep_greedy_head (N.eqb NL) (repeat NL k) post 1 pv3 i3) as [tail3 E3]
  end.
  { apply Forall_forall. intros c Hc. apply repeat_spec in Hc. subst c. reflexivity. }
  { now rewrite repeat_length. }
  { destruct post as [|c post]; [exact I|]. apply N.eqb_neq. congruence. }
  unfold char, str in *. rewrite E3. cbn [map app pos]. rewrite repeat_length.
  split; [lia|reflexivity].
Qed.

Lemma match_at_p_header pv i n sp (title post : str) k :
  match pv with Some c => c = NL | None => True end ->
  1 <= n -> isspace sp = true -> title <> [] -> ~ In NL title -> 1 <= k ->
  match post with c :: _ => c <> NL | [] => True end ->
  match_at p_header
    (Cursor pv i (repeat (N_of_ascii "#") n ++ sp :: title ++ repeat NL k ++ post))
  = Some (Match i (i + n + 1 + length title + k)
            [(1, (i, i + n + 1 + length title + k))]).
Proof.
  intros Hpv Hn Hsp Ht Hnl Hk Hpost.
  change p_header with (Alt (Grp 1 header_line) fence_arm).
  rewrite match_at_alt, match_at_grp.
  pose proof (run_header_line pv i n sp title post k [] Hpv Hn Hsp Ht Hnl Hk Hpost) as H.
  unfold match_at at 1.
  destruct (run header_line _ []) as [|[c' cs'] tail]; [contradiction|].
  destruct H as [-> ->]. reflexivity.
Qed.

Lemma weave_rel_skip_all r f :
  nullable r = false ->
  forall u pv pre s,
    Forall (fun c => first r c = false) u ->
    weave_rel r f pv pre (u ++ s) = u ++ weave_rel r f (prev_after pv u) (pre ++ u) s.
Proof.
  intros Hn. induction u as [|c u IH]; intros pv pre s H.
  - simpl. now rewrite app_nil_r.
  - inversion H as [|? ? Hc Hu]; subst.
    simpl app. rewrite weave_rel_skip.
    + rewrite (IH _ _ _ Hu). rewrite <- app_assoc. reflexivity.
    + now apply match_at_none_first.
Qed.

Lemma weave_rel_tail r f pv pre u :
  nullable r = false -> Forall (fun c => first r c = false) u ->
  weave_rel r f pv pre u = u.
Proof.
  intros Hn H. rewrite <- (app_nil_r u) at 1.
  rewrite (weave_rel_skip_all r f Hn u pv pre [] H).
  rewrite weave_rel_nil; [apply app_nil_r|].
  now apply match_at_none_first.
Qed.

(** One transformed region between two stretches of text that cannot start
    a match. *)
Lemma weave_one_target r f (pre u post : str) m :
  nullable r = false ->
  Forall (fun c => first r c = false) pre -> Forall (fun c => first r c = false) post ->
  u <> [] ->
  match_at r (Cursor (prev_after None pre) (length pre) (u ++ post)) = Some m ->
  m_end m = length pre + length u ->
  lookup 1 (m_caps m) = Some (length pre, length pre + length u) ->
  span_transform (pre ++ u ++ post) r f = pre ++ f u ++ post.
Proof.
  intros Hn Fpre Fpost Hu Hm He Hg.
  rewrite weave_rel_start.
  rewrite (weave_rel_skip_all r f Hn pre None [] _ Fpre). f_equal. cbn [app].
  rewrite (weave_rel_target r f _ pre u post m Hm He Hu Hg).
  now rewrite (weave_rel_tail r f _ _ post Hn Fpost).
Qed.

Lemma first_p_header c : first p_header c = true -> c = N_of_ascii "#" \/ c = BQ.
Proof.
  intros H. cbv [p_header fence_arm plus lazy_plus eqc C] in H.
  cbn [first nullable Nat.eqb andb orb] in H.
  repeat rewrite orb_false_r in H.
  apply orb_true_iff in H. destruct H as [H|H]; apply N.eqb_eq in H; auto.
Qed.

Lemma first_p_header_none (s : str) :
  ~ In (N_of_ascii "#") s -> ~ In BQ s -> Forall (fun c => first p_header c = false) s.
Proof.
  intros H1 H2. apply Forall_forall. intros c Hc.
  destruct (first p_header c) eqn:E; [|reflexivity].
  apply first_p_header in E. destruct E as [-> | ->]; contradiction.
Qed.

Lemma split_ws_word (w : str) :
  forall acc sp (s : str),
    Forall (fun c => isspace c = false) w -> isspace sp = true ->
    acc <> [] \/ w <> [] ->
    split_ws acc (w ++ sp :: s) = (rev acc ++ w) :: split_ws [] s.
Proof.
  induction w as [|c w IH]; intros acc sp s Hw Hsp Hne.
  - cbn [app split_ws]. rewrite Hsp. destruct acc as [|a acc].
    + destruct Hne; congruence.
    + now rewrite app_nil_r.
  - inversion Hw as [|? ? Hc Hw']; subst. cbn [app split_ws]. rewrite Hc.
    rewrite IH by (auto; left; discriminate). cbn [rev]. now rewrite <- app_assoc.
Qed.

Lemma split_ws_spaces (ws : str) :
  forall acc, forallb isspace ws = true -> split_ws acc ws = split_ws acc [].
Proof.
  induction ws as [|c ws IH]; intros acc H; [reflexivity|].
  cbn [forallb] in H. apply andb_true_iff in H. destruct H as [Hc Hws].
  cbn [split_ws]. rewrite Hc. rewrite (IH [] Hws). destruct acc; reflexivity.
Qed.

Lemma split_ws_trailing (s ws : str) :
  forall acc, forallb isspace ws = true -> split_ws acc (s ++ ws) = split_ws acc s.
Proof.
  induction s as [|c s IH]; intros acc H.
  - cbn [app]. now apply split_ws_spaces.
  - cbn [app split_ws]. destruct (isspace c).
    + rewrite IH by assumption. reflexivity.
    + now apply IH.
Qed.

Lemma forallb_repeat_newline k : forallb isspace (repeat NL k) = true.
Proof.
  induction k as [|k IH]; [reflexivity|]. cbn [repeat forallb]. now rewrite IH.
Qed.

(** What [escapeshape] makes of a header line. *)
Lemma escapeshape_header_line n sp (title : str) k :
  1 <= n -> isspace sp = true ->
  escapeshape (repeat (N_of_ascii "#") n ++ sp :: title ++ repeat NL k)
  = [HEADING] ++ lit "*" ++ join (lit " ") (split_ws [] title) ++ lit "*" ++ [NL; NL].
Proof.
  intros Hn Hsp. destruct n as [|n]; [lia|].
  unfold escapeshape.
  destruct (strip (repeat (N_of_ascii "#") (S n) ++ sp :: title ++ repeat NL k))
    as [|c0 st] eqn:Es.
  { exfalso. revert Es. cbn [repeat app]. now apply strip_nonempty. }
  rewrite (split_ws_word (repeat (N_of_ascii "#") (S n)) [] sp).
  - rewrite split_ws_trailing by apply forallb_repeat_newline.
    cbn [rev app repeat startswith]. reflexivity.
  - apply Forall_forall. intros c Hc. apply repeat_spec in Hc. now subst c.
  - assumption.
  - right. discriminate.
Qed.

Lemma span_transform_p_header (pre : str) n sp (title post : str) k :
  ~ In (N_of_ascii "#") pre -> ~ In BQ pre ->
  ~ In (N_of_ascii "#") post -> ~ In BQ post ->
  last pre NL = NL ->
  1 <= n -> isspace sp = true -> title <> [] -> ~ In NL title -> 1 <= k ->
  match post with c :: _ => c <> NL | [] => True end ->
  span_transform (pre ++ repeat (N_of_ascii "#") n ++ [sp] ++ title ++ repeat NL k ++ post)
                 p_header escapeshape
  = pre ++ [HEADING] ++ lit "*" ++ join (lit " ") (split_ws [] title) ++ lit "*"
    ++ [NL; NL] ++ post.
Proof.
  intros Hp1 Hp2 Hq1 Hq2 Hlast Hn Hsp Ht Hnl Hk Hpost.
  set (U := repeat (N_of_ascii "#") n ++ sp :: title ++ repeat NL k).
  assert (LU : length U = n + 1 + length title + k).
  { unfold U. rewrite length_app, repeat_length. cbn [length].
    rewrite length_app, repeat_length. lia. }
  replace (pre ++ repeat (N_of_ascii "#") n ++ [sp] ++ title ++ repeat NL k ++ post)
    with (pre ++ U ++ post)
    by (unfold U; rewrite <- !app_assoc; cbn [app]; now rewrite <- !app_assoc).
  transitivity (pre ++ escapeshape U ++ post).
  2:{ unfold U. rewrite escapeshape_header_line by assumption.
      now rewrite <- !app_assoc. }
  apply (weave_one_target p_header escapeshape pre U post
           (Match (length pre) (length pre + n + 1 + length title + k)
              [(1, (length pre, length pre + n + 1 + length title + k))])).
  - reflexivity.
  - now apply first_p_header_none.
  - now apply first_p_header_none.
  - intros E. apply (f_equal (@length N)) in E. rewrite LU in E. simpl in E. lia.
  - unfold U. rewrite <- app_assoc. cbn [app]. rewrite <- app_assoc.
    apply match_at_p_header; try assumption.
    unfold prev_after. destruct pre as [|c pre] using rev_ind; [exact I|].
    rewrite fold_left_app. cbn [fold_left]. now rewrite last_last in Hlast.
  - cbn [m_end]. unfold char, str in *. rewrite LU. lia.
  - cbn [m_caps lookup Nat.eqb]. unfold char, str in *. rewrite LU. do 2 f_equal. lia.
Qed.

Lemma isspace_avoids X sp :
  forallb (fun x => negb (isspace x)) X = true -> isspace sp = true -> avoids X [sp].
Proof.
  intros HX Hsp. constructor; [|constructor].
  destruct (existsb (N.eqb sp) X) eqn:E; [|reflexivity].
  apply existsb_exists in E. destruct E as (x & Hx & Ex). apply N.eqb_eq in Ex. subst x.
  rewrite forallb_forall in HX. specialize (HX sp Hx). now rewrite Hsp in HX.
Qed.

Lemma avoids_repeat X x n : existsb (N.eqb x) X = false -> avoids X (repeat x n).
Proof.
  intros H. induction n; constructor; assumption.
Qed.

(** X13. Headers: a line that starts with one or more [#] and a whitespace,
    has a plain title after them and ends with one or more newlines, at the
    start of the text or of a line and between plain text, is rewritten by
    [escape] to the heading glyph, the words of the title in bold joined by
    single spaces, and exactly two newlines; the hashes are dropped and the
    rest of the text is unchanged. *)
Theorem escape_header_line :
  forall (pre : str) (n : nat) (sp : char) (title : str) (k : nat) (post : str)
         (flag : bool),
    avoids reserved_marks pre -> last pre NL = NL ->
    1 <= n -> isspace sp = true ->
    title <> [] -> avoids reserved title ->
    1 <= k ->
    avoids reserved_marks post -> hd 0%N post <> NL ->
    escape (pre ++ repeat (N_of_ascii "#") n ++ [sp] ++ title ++ repeat NL k ++ post) flag
    = Ok (pre ++ [HEADING] ++ lit "*" ++ join (lit " ") (split_ws [] title) ++ lit "*"
          ++ [NL; NL] ++ post).
Proof.
  intros pre n sp title k post flag Hpre Hlast Hn Hsp Ht Htitle Hk Hpost Hhd.
  assert (Htitle' : avoids reserved_marks title)
    by (revert Htitle; apply avoids_weaken; reflexivity).
  rewrite escape_eq. f_equal. unfold escape_stages.
  set (text0 := pre ++ repeat (N_of_ascii "#") n ++ [sp] ++ title ++ repeat NL k ++ post).
  set (text1 := pre ++ [HEADING] ++ lit "*" ++ join (lit " ") (split_ws [] title)
                ++ lit "*" ++ [NL; NL] ++ post).
  assert (A0 : avoids (lit "\_*[]()~><+-=|{}.!@^`") text0).
  { unfold text0. repeat (apply avoids_app; split).
    - revert Hpre. apply avoids_weaken. reflexivity.
    - apply avoids_repeat. reflexivity.
    - apply isspace_avoids; [reflexivity|assumption].
    - revert Htitle'. apply avoids_weaken. reflexivity.
    - apply avoids_repeat. reflexivity.
    - revert Hpost. apply avoids_weaken. reflexivity. }
  assert (A1 : avoids (lit "\_[]()~><#+-=|{}.!@^`") text1).
  { unfold text1. repeat (apply avoids_app; split); try (repeat constructor; fail).
    - revert Hpre. apply avoids_weaken. reflexivity.
    - apply join_Forall; [repeat constructor|].
      apply split_ws_Forall; [constructor|].
      revert Htitle'. apply avoids_weaken. reflexivity.
    - revert Hpost. apply avoids_weaken. reflexivity. }
  rewrite stage_inline_id by (revert A0; apply avoids_weaken; reflexivity).
  assert (E : stage_blocks text0 = text1).
  { unfold stage_blocks. cbv zeta.
    replace (span_transform text0 p_header escapeshape) with text1.
    2:{ symmetry. unfold text0, text1. apply span_transform_p_header; try assumption;
          try (eapply avoids_notin; [eassumption|reflexivity]).
        - apply (avoids_notin _ _ NL Htitle). reflexivity.
        - destruct post as [|c post]; [exact I|exact Hhd]. }
    by_needs A1 text1 (N_of_ascii "#").
    by_gneeds A1 text1 (N_of_ascii "+").
    by_needs A1 text1 (N_of_ascii ".").
    by_gneeds A1 text1 (N_of_ascii "-").
    by_needs A1 text1 (N_of_ascii "-").
    by_needs A1 text1 AT.
    by_needs A1 text1 (N_of_ascii "-").
    by_needs A1 text1 AT.
    by_gneeds A1 text1 (N_of_ascii "-").
    reflexivity. }
  rewrite E.
  rewrite stage_code_id by (revert A1; apply avoids_weaken; reflexivity).
  rewrite stage_punctuation_id by (revert A1; apply avoids_weaken; reflexivity).
  apply stage_parity_id. apply (avoids_notin _ _ BQ A1). reflexivity.
Qed.

Lemma escape_header_line_witness :
  (avoids reserved_marks (lit "intro" ++ [NL]) /\ last (lit "intro" ++ [NL]) NL = NL
   /\ 1 <= 2 /\ isspace 32%N = true
   /\ lit "My  Title" <> [] /\ avoids reserved (lit "My  Title")
   /\ 1 <= 1 /\ avoids reserved_marks (lit "body") /\ hd 0%N (lit "body") <> NL)
  /\ escape ((lit "intro" ++ [NL]) ++ repeat (N_of_ascii "#") 2 ++ [32%N]
             ++ lit "My  Title" ++ repeat NL 1 ++ lit "body") false
     = Ok ((lit "intro" ++ [NL]) ++ [HEADING] ++ lit "*My Title*" ++ [NL; NL]
           ++ lit "body").
Proof.
  split; [repeat split; try discriminate; try lia; repeat constructor|].
  apply (escape_header_line (lit "intro" ++ [NL]) 2 32%N (lit "My  Title") 1
           (lit "body") false);
    try discriminate; try lia; try reflexivity; repeat constructor.
Defined.

(* ================================================================== *)
(** ** Backslashes and the flag *)

Lemma stage_inline_after_backslashes (text : str) :
  avoids (lit "@_*[]()~>") text ->
  (let text := sub (C "_") [T "\_"] text in
   let text := sub p_bold [T "@@@"; TRef 1; T "@@@"] text in
   let text := sub p_star_item [TLit ([NL; NL; BULLET] ++ lit " ")] text in
   let text := sub (C "*") [T "\*"] text in
   let text := sub p_bold_saved [T "*"; TRef 1; T "*"] text in
   let text := sub p_link [T "@@@"; TRef 1; T "@@@^^^"; TRef 2; T "^^^"] text in
   let text := sub (C "[") [T "\["] text in
   let text := sub (C "]") [T "\]"] text in
   let text := sub (C "(") [T "\("] text in
   let text := sub (C ")") [T "\)"] text in
   let text := sub s_lbracket [T "\["] text in
   let text := sub s_rbracket [T "\]"] text in
   let text := sub s_lparen [T "\("] text in
   let text := sub s_rparen [T "\)"] text in
   let text := sub p_link_saved [T "["; TRef 1; T "]("; TRef 2; T ")"] text in
   let text := sub (C "~") [T "\~"] text in
   sub (C ">") [T "\>"] text) = text.
Proof.
  intros H. cbv zeta.
  by_needs H text (N_of_ascii "_").
  by_first H text first_p_bold (N_of_ascii "*").
  do 2 by_needs H text (N_of_ascii "*").
  by_first H text first_p_bold_saved AT.
  do 2 by_needs H text (N_of_ascii "[").
  by_needs H text (N_of_ascii "]").
  by_needs H text (N_of_ascii "(").
  by_needs H text (N_of_ascii ")").
  do 4 by_needs H text AT.
  by_first H text first_p_link_saved AT.
  by_needs H text (N_of_ascii "~").
  by_needs H text (N_of_ascii ">").
  reflexivity.
Qed.

Lemma avoids_double_backslashes X (text : str) :
  existsb (N.eqb BSL) X = false -> avoids X text -> avoids X (double_backslashes text).
Proof.
  intros HB H. unfold double_backslashes, avoids. apply Forall_flat_map.
  eapply Forall_impl; [|exact H]. intros c Hc. cbv beta in *.
  destruct (N.eqb BSL c); repeat constructor; assumption.
Qed.

(** The rest of the pipeline on a text whose only reserved character is the
    backslash. *)
Lemma escape_tail_backslashes (text : str) :
  avoids (lit "_*[]()~><#+-=|{}.!@^`") text ->
  stage_parity (stage_punctuation (stage_code (stage_blocks text))) = text.
Proof.
  intros H.
  rewrite stage_blocks_id by (revert H; apply avoids_weaken; reflexivity).
  rewrite stage_code_id by (revert H; apply avoids_weaken; reflexivity).
  rewrite stage_punctuation_id by (revert H; apply avoids_weaken; reflexivity).
  apply stage_parity_id. apply (avoids_notin _ _ BQ H). reflexivity.
Qed.

Lemma first_p_two_backslashes : forall c, first p_two_backslashes c = true -> c = BSL.
Proof.
  intros c H. cbv [p_two_backslashes C] in H. cbn [first nullable andb] in H.
  rewrite orb_false_r in H. apply N.eqb_eq in H. now symmetry.
Qed.

Lemma match_at_two_backslashes pv i (s : str) :
  match_at p_two_backslashes (Cursor pv i s)
  = if startswith s [BSL; BSL] then Some (Match i (i + 2) []) else None.
Proof.
  change p_two_backslashes with (chars BSL [BSL]). apply match_at_chars.
Qed.

(** The pass that saves pairs of backslashes, on a run of them: it takes
    them two by two and leaves an odd last one. *)
Lemma sub_rel_backslash_pairs (post : str) :
  ~ In BSL post ->
  forall k r pv (pre : str),
    r <= 1 ->
    sub_rel p_two_backslashes [T "@@@"] pv pre (repeat BSL (2 * k + r) ++ post)
    = concat (repeat (lit "@@@") k) ++ repeat BSL r ++ post.
Proof.
  intros Hpost.
  assert (Fpost : Forall (fun c => first p_two_backslashes c = false) post).
  { now apply (first_only p_two_backslashes BSL post first_p_two_backslashes). }
  induction k as [|k IH]; intros r pv pre Hr.
  - cbn [Nat.mul Nat.add repeat concat app].
    destruct r as [|[|r]]; [| |lia].
    + cbn [repeat app]. now apply sub_rel_tail.
    + cbn [repeat app]. rewrite sub_rel_skip.
      * f_equal. now apply sub_rel_tail.
      * rewrite match_at_two_backslashes. cbn [startswith]. rewrite N.eqb_refl.
        destruct post as [|c post]; [reflexivity|].
        cbn [andb]. destruct (N.eqb_spec BSL c) as [<-|]; [|reflexivity].
        exfalso. apply Hpost. now left.
  - replace (2 * S k + r) with (S (S (2 * k + r))) by lia.
    change (repeat BSL (S (S (2 * k + r))) ++ post)
      with ([BSL; BSL] ++ repeat BSL (2 * k + r) ++ post).
    rewrite (sub_rel_match p_two_backslashes _ pv pre [BSL; BSL] _
               (Match (length pre) (length pre + 2) [])).
    + cbn [repeat concat]. unfold T at 1. cbn [expand flat_map].
      rewrite app_nil_r, <- app_assoc. f_equal. now apply IH.
    + now rewrite match_at_two_backslashes.
    + reflexivity.
    + discriminate.
Qed.

Lemma match_at_AT3 pv i (s : str) :
  match_at AT3 (Cursor pv i s)
  = if startswith s [AT; AT; AT] then Some (Match i (i + 3) []) else None.
Proof.
  unfold match_at. rewrite is_literal_AT3. destruct (startswith s [AT; AT; AT]); reflexivity.
Qed.

(** The pass that restores the saved pairs. *)
Lemma sub_rel_backslash_restore (rest' : str) :
  ~ In AT rest' ->
  forall k pv (pre : str),
    sub_rel AT3 [T "\\"] pv pre (concat (repeat (lit "@@@") k) ++ rest')
    = repeat BSL (2 * k) ++ rest'.
Proof.
  intros Hrest.
  assert (Frest : Forall (fun c => first AT3 c = false) rest')
    by now apply (first_only AT3 AT rest' first_AT3).
  induction k as [|k IH]; intros pv pre.
  - cbn [repeat concat app Nat.mul]. now apply sub_rel_tail.
  - cbn [repeat concat]. rewrite <- app_assoc.
    rewrite (sub_rel_match AT3 _ pv pre (lit "@@@") _
               (Match (length pre) (length pre + 3) [])).
    + unfold T at 1. cbn [expand flat_map]. rewrite app_nil_r.
      replace (2 * S k) with (S (S (2 * k))) by lia.
      change (repeat BSL (S (S (2 * k))) ++ rest')
        with (lit "\\" ++ repeat BSL (2 * k) ++ rest').
      f_equal. apply IH.
    + rewrite match_at_AT3. now rewrite startswith_refl_app.
    + reflexivity.
    + discriminate.
Qed.

Lemma double_backslashes_app (a b : str) :
  double_backslashes (a ++ b) = double_backslashes a ++ double_backslashes b.
Proof. unfold double_backslashes. apply flat_map_app. Qed.

Lemma double_backslashes_plain (s : str) : ~ In BSL s -> double_backslashes s = s.
Proof. apply flat_map_id_notin. Qed.

Lemma double_backslashes_repeat n : double_backslashes (repeat BSL n) = repeat BSL (2 * n).
Proof.
  induction n as [|n IH]; [reflexivity|].
  replace (2 * S n) with (S (S (2 * n))) by lia.
  cbn [repeat]. change (BSL :: repeat BSL n) with ([BSL] ++ repeat BSL n).
  rewrite double_backslashes_app, IH. reflexivity.
Qed.

Lemma repeat_app_add {A} (x : A) a b : repeat x a ++ repeat x b = repeat x (a + b).
Proof. symmetry. apply repeat_app. Qed.

(** X14. Backslashes and the flag.  On a text whose only reserved character
    is the backslash, [escape] without the flag doubles every backslash.
    With the flag, a run of backslashes between plain text is only padded to
    an even length: a run of even length is returned as it is, and a run of
    odd length gets one more backslash. *)
Theorem escape_backslashes :
  (forall text : str,
      avoids (lit "_*[]()~><#+-=|{}.!@^`") text ->
      escape text false = Ok (double_backslashes text))
  /\ (forall (pre post : str) (n : nat),
         avoids reserved_marks pre -> avoids reserved_marks post ->
         escape (pre ++ repeat BSL n ++ post) true
         = Ok (pre ++ repeat BSL (n + n mod 2) ++ post)).
Proof.
  split.
  - intros text H. rewrite escape_eq. f_equal. unfold escape_stages.
    assert (H1 : avoids (lit "_*[]()~><#+-=|{}.!@^`") (double_backslashes text))
      by (apply avoids_double_backslashes; [reflexivity|exact H]).
    assert (E : stage_inline false text = double_backslashes text).
    { unfold stage_inline.
      cbv beta iota zeta.
      by_needs H text (N_of_ascii "[").
      by_needs H text (N_of_ascii "]").
      by_needs H text (N_of_ascii "(").
      by_needs H text (N_of_ascii ")").
      by_needs H text BQ.
      change (sub (C "\") [T "\\"] text) with (sub (Chr BSL) [TLit [BSL; BSL]] text).
      rewrite (sub_chr BSL [BSL; BSL] text).
      fold (double_backslashes text).
      apply stage_inline_after_backslashes.
      revert H1. apply avoids_weaken. reflexivity. }
    rewrite E. now apply escape_tail_backslashes.
  - intros pre post n Hpre Hpost. rewrite escape_eq. f_equal. unfold escape_stages.
    set (k := n / 2). set (r := n mod 2).
    assert (En : n = 2 * k + r) by (unfold k, r; apply Nat.div_mod_eq).
    assert (Hr : r <= 1) by (unfold r; pose proof (Nat.mod_upper_bound n 2); lia).
    assert (notin : forall x, existsb (N.eqb x) reserved_marks = true ->
                              ~ In x pre /\ ~ In x post).
    { intros x Hx. split; eapply avoids_notin; eauto. }
    set (text0 := pre ++ repeat BSL n ++ post).
    set (text1 := pre ++ concat (repeat (lit "@@@") k) ++ repeat BSL r ++ post).
    set (text2 := pre ++ concat (repeat (lit "@@@") k) ++ repeat BSL (2 * r) ++ post).
    set (text3 := pre ++ repeat BSL (n + r) ++ post).
    assert (A0 : avoids (lit "_*[]()~><#+-=|{}.!@^`") text0).
    { unfold text0. repeat (apply avoids_app; split).
      - revert Hpre. apply avoids_weaken. reflexivity.
      - apply avoids_repeat. reflexivity.
      - revert Hpost. apply avoids_weaken. reflexivity. }
    assert (A1 : avoids (lit "_*[]()~><#+-=|{}.!^`") text1).
    { unfold text1. repeat (apply avoids_app; split).
      - revert Hpre. apply avoids_weaken. reflexivity.
      - clear. induction k; [constructor|]. cbn [repeat concat].
        apply avoids_app. split; [repeat constructor|assumption].
      - apply avoids_repeat. reflexivity.
      - revert Hpost. apply avoids_weaken. reflexivity. }
    assert (A3 : avoids (lit "_*[]()~><#+-=|{}.!@^`") text3).
    { unfold text3. repeat (apply avoids_app; split).
      - revert Hpre. apply avoids_weaken. reflexivity.
      - apply avoids_repeat. reflexivity.
      - revert Hpost. apply avoids_weaken. reflexivity. }
    assert (E : stage_inline true text0 = text3).
    { unfold stage_inline.
      cbv beta iota zeta.
      by_needs A0 text0 (N_of_ascii "[").
      by_needs A0 text0 (N_of_ascii "]").
      by_needs A0 text0 (N_of_ascii "(").
      by_needs A0 text0 (N_of_ascii ")").
      replace (sub p_two_backslashes [T "@@@"] text0) with text1.
      2:{ symmetry. unfold text0, text1. rewrite sub_rel_start.
          rewrite (sub_rel_skip_all p_two_backslashes _ eq_refl pre).
          - f_equal. cbn [app]. rewrite En at 1.
            apply sub_rel_backslash_pairs; [apply notin; reflexivity|assumption].
          - apply (first_only p_two_backslashes BSL pre first_p_two_backslashes).
            apply notin. reflexivity. }
      by_needs A1 text1 BQ.
      replace (sub (C "\") [T "\\"] text1) with text2.
      2:{ symmetry.
          change (sub (C "\") [T "\\"] text1) with (sub (Chr BSL) [TLit [BSL; BSL]] text1).
          rewrite (sub_chr BSL [BSL; BSL] text1).
          fold (double_backslashes text1). unfold text1, text2.
          rewrite !double_backslashes_app, double_backslashes_repeat.
          rewrite (double_backslashes_plain pre) by (apply notin; reflexivity).
          rewrite (double_backslashes_plain post) by (apply notin; reflexivity).
          rewrite double_backslashes_plain; [reflexivity|].
          clear. induction k; [intros []|]. cbn [repeat concat].
          apply notin_app; [apply notin_mem; reflexivity|assumption]. }
      replace (sub AT3 [T "\\"] text2) with text3.
      2:{ symmetry. unfold text2, text3. rewrite sub_rel_start.
          rewrite (sub_rel_skip_all AT3 _ eq_refl pre)
            by (apply (first_only AT3 AT pre first_AT3); apply notin; reflexivity).
          f_equal. cbn [app].
          rewrite sub_rel_backslash_restore.
          - rewrite app_assoc, repeat_app_add. do 2 f_equal. lia.
          - apply notin_app; [|apply notin; reflexivity].
            intros X. apply repeat_spec in X. discriminate. }
      apply stage_inline_after_backslashes.
      revert A3. apply avoids_weaken. reflexivity. }
    rewrite E. fold r. now apply escape_tail_backslashes.
Qed.

Lemma escape_backslashes_witness :
  (avoids (lit "_*[]()~><#+-=|{}.!@^`") (lit "a\b")
   /\ avoids reserved_marks (lit "a") /\ avoids reserved_marks (lit "b"))
  /\ escape (lit "a\b") false = Ok (lit "a\\b")
  /\ escape (lit "a" ++ repeat BSL 3 ++ lit "b") true = Ok (lit "a\\\\b")
  /\ escape (lit "a" ++ repeat BSL 2 ++ lit "b") true = Ok (lit "a\\b").
Proof.
  split; [repeat split; repeat constructor|].
  split; [apply (proj1 escape_backslashes (lit "a\b")); repeat constructor|].
  split.
  - apply (proj2 escape_backslashes (lit "a") (lit "b") 3); repeat constructor.
  - apply (proj2 escape_backslashes (lit "a") (lit "b") 2); repeat constructor.
Defined.

(* ================================================================== *)
(** ** Inside a fenced block *)

(** A lazy repetition outside a group, like [run_lazy_group]. *)
Lemma run_lazy_plain p lo K y (w after : str) pv i cs :
  Forall (fun c => p c = true) w -> lo <= length w -> ~ In y w ->
  (forall pv' i' c s cs', c <> y -> run K (Cursor pv' i' (c :: s)) cs' = []) ->
  exists tail,
    run (Cat (Rep p lo None true) K) (Cursor pv i (w ++ after)) cs
    = run K (Cursor (prev_after pv w) (i + length w) after) cs ++ tail.
Proof.
  intros Hp Hlo Hy HK.
  rewrite run_cat, (run_rep p lo None true), !flat_map_map. cbn [fst snd prev pos].
  match goal with
  | |- context [flat_map ?k (rep p lo None true pv i _)] =>
      destruct (flat_map_lazy_rep p k after w pv i lo Hp) as [tail Ht]
  end.
  - intros u1 a u2 E _. apply HK.
    intros ->. apply Hy. rewrite E. apply in_or_app. right. now left.
  - exact Hlo.
  - exists tail. unfold char, str in *. cbn [rest]. rewrite Ht. reflexivity.
Qed.

Lemma match_at_fence_arm pv i (w s : str) :
  w <> [] -> ~ In BQ w ->
  match_at fence_arm (Cursor pv i (lit "```" ++ w ++ lit "```" ++ s))
  = Some (Match i (i + 3 + length w + 3) []).
Proof.
  intros Hw Hq. unfold match_at, fence_arm, C.
  change (lit "```" ++ w ++ lit "```" ++ s)
    with ([BQ] ++ [BQ] ++ [BQ] ++ w ++ lit "```" ++ s).
  change (N_of_ascii "`") with BQ.
  rewrite !(run_literal_cat (Chr BQ) [BQ] _ _ _ _ _ (is_literal_chr BQ)).
  destruct (run_lazy_plain any_char 1 (Cat (Chr BQ) (Cat (Chr BQ) (Chr BQ))) BQ w
              (lit "```" ++ s)
              (prev_after (prev_after (prev_after pv [BQ]) [BQ]) [BQ])
              (i + length [BQ] + length [BQ] + length [BQ]) []) as [tail Ht].
  - apply Forall_forall. intros c _. apply any_char_all.
  - destruct w; [congruence|simpl; lia].
  - assumption.
  - intros pv' i' c s' cs' Hc.
    now apply (run_literal_miss (Chr BQ) BQ [] _ _ _ _ _ _ (is_literal_chr BQ)).
  - unfold lazy_plus. unfold char, str in *. rewrite Ht.
    change (Cat (Chr BQ) (Cat (Chr BQ) (Chr BQ))) with (chars BQ [BQ; BQ]).
    rewrite (run_literal_end _ (lit "```") _ _ s _ (is_literal_chars BQ [BQ; BQ])).
    change (length (lit "```")) with 3. cbn [app pos length]. do 2 f_equal. lia.
Qed.

(** A transform pass that reads a fenced block as one opaque match, between
    two stretches of text where it finds nothing. *)
Lemma weave_fence_opaque r f (pre w post : str) :
  nullable r = false ->
  Forall (fun c => first r c = false) pre -> Forall (fun c => first r c = false) post ->
  (forall pv i (s : str),
      match_at r (Cursor pv i (lit "```" ++ w ++ lit "```" ++ s))
      = Some (Match i (i + 3 + length w + 3) [])) ->
  span_transform (pre ++ lit "```" ++ w ++ lit "```" ++ post) r f
  = pre ++ lit "```" ++ w ++ lit "```" ++ post.
Proof.
  intros Hn Fpre Fpost Hm.
  rewrite weave_rel_start.
  rewrite (weave_rel_skip_all r f Hn pre None [] _ Fpre). f_equal. cbn [app].
  set (U := lit "```" ++ w ++ lit "```").
  assert (EU : lit "```" ++ w ++ lit "```" ++ post = U ++ post)
    by (unfold U; now rewrite <- !app_assoc).
  unfold char, str in *. rewrite EU.
  rewrite (weave_rel_opaque r f _ pre U post (Match (length pre) (length pre + 3 + length w + 3) [])).
  - rewrite (weave_rel_tail r f _ _ post Hn Fpost). reflexivity.
  - unfold U. rewrite <- !app_assoc. apply Hm.
  - cbn [m_end]. unfold U. rewrite !length_app.
    change (length (lit "```")) with 3. unfold char, str in *. lia.
  - unfold U. discriminate.
  - reflexivity.
Qed.

Lemma Forall_first_of_avoids r X (s : str) :
  (forall c, first r c = true -> existsb (N.eqb c) X = true) ->
  avoids X s -> Forall (fun c => first r c = false) s.
Proof.
  intros Hf H. eapply Forall_impl; [|exact H]. intros c Hc. cbv beta in Hc.
  destruct (first r c) eqn:E; [|reflexivity]. apply Hf in E. congruence.
Qed.

Ltac first_in :=
  let c := fresh "c" in
  let H := fresh "H" in
  intros c H;
  cbv [p_header p_plus p_minus p_minus_outside header_line dash_item_arm fence_arm
       inline_arm plus star lazy_plus lazy_star eqc C] in H;
  cbn [first nullable Nat.eqb andb orb] in H;
  repeat rewrite orb_false_r in H;
  repeat (apply orb_true_iff in H; destruct H as [H|H]);
  apply N.eqb_eq in H; subst c; reflexivity.

Lemma first_in_p_header : forall c, first p_header c = true -> existsb (N.eqb c) (lit "#`") = true.
Proof. first_in. Qed.

Lemma first_in_p_plus :
  forall c, first p_plus c = true -> existsb (N.eqb c) (lit "+`" ++ [NL]) = true.
Proof. first_in. Qed.

Lemma first_in_p_minus_outside :
  forall c, first p_minus_outside c = true -> existsb (N.eqb c) (lit "-`") = true.
Proof. first_in. Qed.

Lemma first_in_p_minus :
  forall c, first p_minus c = true -> existsb (N.eqb c) (lit "-`" ++ [NL]) = true.
Proof. first_in. Qed.

Lemma match_at_grp_chr_miss g x pv i c (s : str) :
  c <> x -> match_at (Grp g (Chr x)) (Cursor pv i (c :: s)) = None.
Proof.
  intros Hc. rewrite match_at_grp, match_at_chr.
  apply N.eqb_neq in Hc. rewrite N.eqb_sym in Hc. now rewrite Hc.
Qed.

Lemma match_at_fence_in_header pv i (w s : str) :
  w <> [] -> ~ In BQ w ->
  match_at p_header (Cursor pv i (lit "```" ++ w ++ lit "```" ++ s))
  = Some (Match i (i + 3 + length w + 3) []).
Proof.
  intros Hw Hq. change p_header with (Alt (Grp 1 header_line) fence_arm).
  rewrite match_at_alt, match_at_grp.
  rewrite (match_at_none_first header_line) by reflexivity.
  now apply match_at_fence_arm.
Qed.

Lemma match_at_fence_in_one_char_arms x pv i (w s : str) :
  x <> BQ -> w <> [] -> ~ In BQ w ->
  match_at (Alt (Grp 1 (Chr x)) (Alt dash_item_arm (Alt fence_arm inline_arm)))
           (Cursor pv i (lit "```" ++ w ++ lit "```" ++ s))
  = Some (Match i (i + 3 + length w + 3) []).
Proof.
  intros Hx Hw Hq. rewrite match_at_alt.
  change (lit "```" ++ w ++ lit "```" ++ s) with (BQ :: lit "``" ++ w ++ lit "```" ++ s).
  rewrite match_at_grp_chr_miss by congruence.
  rewrite match_at_alt, (match_at_none_first dash_item_arm) by reflexivity.
  rewrite match_at_alt.
  change (BQ :: lit "``" ++ w ++ lit "```" ++ s) with (lit "```" ++ w ++ lit "```" ++ s).
  now rewrite match_at_fence_arm.
Qed.

Lemma match_at_fence_in_minus_outside pv i (w s : str) :
  w <> [] -> ~ In BQ w ->
  match_at p_minus_outside (Cursor pv i (lit "```" ++ w ++ lit "```" ++ s))
  = Some (Match i (i + 3 + length w + 3) []).
Proof.
  intros Hw Hq. unfold p_minus_outside. rewrite match_at_alt.
  now rewrite match_at_fence_arm.
Qed.

(** Taking the markers of one character out, each for a replacement. *)
Lemma sub_rel_marker_replace (x : char) (m t : str) :
  forall (s : str) pv pre,
    ~ In AT s ->
    sub_rel (chars AT m) [TLit t] pv pre
      (flat_map (fun c => if N.eqb x c then AT :: m else [c]) s)
    = flat_map (fun c => if N.eqb x c then t else [c]) s.
Proof.
  induction s as [|c s IH]; intros pv pre H.
  - apply sub_rel_nil. now rewrite match_at_chars.
  - assert (Hc : c <> AT) by (intros ->; apply H; now left).
    assert (Hs : ~ In AT s) by (intros X; apply H; now right).
    cbn [flat_map]. destruct (N.eqb_spec x c) as [E|E].
    + subst c. etransitivity.
      * apply (sub_rel_match _ _ pv pre (AT :: m) _
                 (Match (length pre) (length pre + S (length m)) [])).
        -- rewrite match_at_chars. now rewrite startswith_refl_app.
        -- reflexivity.
        -- discriminate.
      * cbn [expand flat_map]. rewrite app_nil_r. f_equal. now apply IH.
    + etransitivity.
      * apply sub_rel_skip. rewrite match_at_chars. cbn [app startswith].
        apply N.eqb_neq in Hc. rewrite N.eqb_sym, Hc. reflexivity.
      * cbn [app]. f_equal. now apply IH.
Qed.

(** The minus passes on a text where no minus is marked as standing
    outside a block: every minus gets its backslash by way of a marker. *)
Lemma fenced_minus_escaped (text : str) :
  ~ In AT text -> ~ In (N_of_ascii ">") text -> ~ In NL text ->
  sub s_fenced_minus [T "\-"]
    (sub p_dash_item [TLit [NL; NL]; TRef 1; TLit ([BULLET] ++ lit " ")]
       (sub s_minus [T "-"] (sub (C "-") [T "@<+@"] text)))
  = backslash_escape [N_of_ascii "-"] text.
Proof.
  intros Hat Hgt Hnl.
  change (sub (C "-") [T "@<+@"] text)
    with (sub (Chr (N_of_ascii "-")) [TLit (lit "@<+@")] text).
  rewrite (sub_chr (N_of_ascii "-") (lit "@<+@") text).
  set (marked := flat_map (fun c => if N.eqb (N_of_ascii "-") c then lit "@<+@" else [c])
                          text).
  assert (Hm : forall x, ~ In x text -> existsb (N.eqb x) (lit "@<+@") = false ->
                         ~ In x marked).
  { intros x Hx Hx' X. unfold marked in X. apply in_flat_map in X.
    destruct X as (c & Hin & Hc).
    destruct (N.eqb (N_of_ascii "-") c).
    - revert Hc. now apply notin_mem.
    - destruct Hc as [Hc|[]]. subst. contradiction. }
  rewrite (sub_id_needs s_minus _ (N_of_ascii ">") marked eq_refl (Hm _ Hgt eq_refl)).
  rewrite (sub_id_first_only p_dash_item _ NL marked eq_refl first_p_dash_item
             (Hm _ Hnl eq_refl)).
  rewrite sub_rel_start.
  change s_fenced_minus with (chars AT (lit "<+@")).
  change (T "\-") with (TLit [BSL; N_of_ascii "-"]).
  unfold marked. change (lit "@<+@") with (AT :: lit "<+@").
  rewrite (sub_rel_marker_replace (N_of_ascii "-") (lit "<+@")) by assumption.
  unfold backslash_escape. apply flat_map_ext. intros c.
  cbn [existsb]. rewrite orb_false_r, (N.eqb_sym c).
  destruct (N.eqb_spec (N_of_ascii "-") c) as [->|]; reflexivity.
Qed.

Lemma backslash_escape_id X (s : str) : avoids X s -> backslash_escape X s = s.
Proof.
  intros H. unfold backslash_escape. induction H as [|c s Hc Hs IH]; [reflexivity|].
  cbn [flat_map]. rewrite Hc, IH. reflexivity.
Qed.

Lemma backslash_escape_app X (a b : str) :
  backslash_escape X (a ++ b) = backslash_escape X a ++ backslash_escape X b.
Proof. unfold backslash_escape. apply flat_map_app. Qed.

Lemma backslash_escape_block X (pre w post : str) :
  avoids X pre -> avoids X post -> existsb (N.eqb BQ) X = false ->
  backslash_escape X (pre ++ lit "```" ++ w ++ lit "```" ++ post)
  = pre ++ lit "```" ++ backslash_escape X w ++ lit "```" ++ post.
Proof.
  intros Hpre Hpost HQ.
  assert (HF : avoids X (lit "```")) by (repeat constructor; assumption).
  rewrite !backslash_escape_app.
  now rewrite (backslash_escape_id X pre), (backslash_escape_id X post),
    (backslash_escape_id X (lit "```")).
Qed.

Lemma backslash_escape_nonempty X (w : str) : w <> [] -> backslash_escape X w <> [].
Proof.
  destruct w as [|c w]; [congruence|]. intros _. unfold backslash_escape.
  cbn [flat_map]. destruct (existsb (N.eqb c) X); discriminate.
Qed.

Lemma remove_escaped_cons2 c d (s : str) :
  remove_escaped (c :: d :: s)
  = if N.eqb c BSL && N.eqb d BQ then remove_escaped s else c :: remove_escaped (d :: s).
Proof. reflexivity. Qed.

Lemma remove_escaped_app (a : str) :
  forall b : str,
    last a 0%N <> BSL -> remove_escaped (a ++ b) = remove_escaped a ++ remove_escaped b.
Proof.
  induction a as [| c | c d a IH1 IH2] using str_ind2; intros b Hl.
  - reflexivity.
  - cbn [last] in Hl. cbn [app]. destruct b as [|e b]; [reflexivity|].
    rewrite remove_escaped_cons2. apply N.eqb_neq in Hl. rewrite Hl. reflexivity.
  - change ((c :: d :: a) ++ b) with (c :: d :: a ++ b).
    rewrite !remove_escaped_cons2.
    destruct (N.eqb c BSL && N.eqb d BQ) eqn:E.
    + apply IH1. destruct a as [|e a]; [discriminate|exact Hl].
    + change (d :: a ++ b) with ((d :: a) ++ b). rewrite IH2 by exact Hl.
      reflexivity.
Qed.

Lemma last_backslash_escape X (w : str) :
  ~ In BSL w -> last (backslash_escape X w) 0%N <> BSL.
Proof.
  intros H. destruct w as [|c w] using rev_ind; [discriminate|].
  rewrite backslash_escape_app. unfold backslash_escape at 2. cbn [flat_map].
  rewrite app_nil_r.
  assert (Hc : c <> BSL) by (intros ->; apply H; apply in_or_app; right; now left).
  destruct (existsb (N.eqb c) X).
  - change [BSL; c] with ([BSL] ++ [c]). rewrite app_assoc, last_last. exact Hc.
  - rewrite last_last. exact Hc.
Qed.

Lemma last_notin (x d : char) (s : str) : ~ In x s -> x <> d -> last s d <> x.
Proof.
  intros H Hd. destruct s as [|c s] using rev_ind; [cbn; congruence|].
  rewrite last_last. intros ->. apply H. apply in_or_app. right. now left.
Qed.

Lemma last_app_nonempty (a b : str) d : b <> [] -> last (a ++ b) d = last b d.
Proof.
  intros Hb. destruct b as [|c b] using rev_ind; [congruence|].
  now rewrite app_assoc, !last_last.
Qed.

(** A line with one fenced block whose interior has its backslashes only
    before other characters: its six backticks all count. *)
Lemma uneven_fenced_line (pre w post : str) :
  ~ In BSL pre -> ~ In BQ pre -> ~ In BSL post -> ~ In BQ post ->
  w <> [] -> ~ In BQ w -> last w 0%N <> BSL ->
  uneven (pre ++ lit "```" ++ w ++ lit "```" ++ post) = false.
Proof.
  intros Bpre Qpre Bpost Qpost Hw Qw Lw.
  rewrite uneven_odd. unfold unescaped_backticks.
  rewrite (remove_escaped_app pre) by (apply last_notin; [assumption|discriminate]).
  replace (lit "```" ++ w ++ lit "```" ++ post)
    with ((lit "```" ++ w) ++ (lit "```" ++ post)) by (now rewrite <- app_assoc).
  rewrite (remove_escaped_app (lit "```" ++ w))
    by (rewrite last_app_nonempty by assumption; assumption).
  rewrite (remove_escaped_app (lit "```") w) by discriminate.
  rewrite (remove_escaped_app (lit "```") post) by discriminate.
  rewrite (remove_escaped_no_backslash pre), (remove_escaped_no_backslash post)
    by assumption.
  rewrite !count_app.
  rewrite (count_notin BQ pre Qpre), (count_notin BQ post Qpost).
  rewrite (count_notin BQ (remove_escaped w))
    by (intros X; apply Qw; now apply In_remove_escaped).
  reflexivity.
Qed.

(** X15. Inside a fenced block.  For a fenced block of one line between
    plain text, with an interior that has no backslash, [@], asterisk,
    opening bracket, backtick, [<], [>] or newline, [escape] returns the
    text around and the fences as they are and, inside the block, puts a
    backslash before every [_ ] ( ) ~ # - = | { } . !], as it does outside
    of blocks; of the characters it escapes outside, only the plus sign is
    left alone inside. *)
Theorem escape_fenced_interior :
  forall (pre w post : str) (flag : bool),
    avoids reserved pre -> avoids reserved post ->
    w <> [] -> avoids (lit "\@*[`<>" ++ [NL]) w ->
    escape (pre ++ lit "```" ++ w ++ lit "```" ++ post) flag
    = Ok (pre ++ lit "```" ++ backslash_escape (lit "_]()~>#-=|{}.!") w ++ lit "```"
          ++ post).
Proof.
  intros pre w post flag Hpre Hpost Hne Hw.
  assert (Pre : forall X, forallb (fun x => existsb (N.eqb x) reserved) X = true ->
                          avoids X pre)
    by (intros X HX; revert Hpre; now apply avoids_weaken).
  assert (Post : forall X, forallb (fun x => existsb (N.eqb x) reserved) X = true ->
                           avoids X post)
    by (intros X HX; revert Hpost; now apply avoids_weaken).
  rewrite escape_eq. f_equal. unfold escape_stages.
  set (F := lit "```").
  set (w1 := backslash_escape (lit "_]()~>") w).
  set (w2 := backslash_escape [N_of_ascii "#"] w1).
  set (w3 := backslash_escape [N_of_ascii "-"] w2).
  set (w4 := backslash_escape (lit "=|{}.!") w3).
  assert (W1 : avoids (lit "@*[`<>" ++ [NL]) w1).
  { apply avoids_backslash_escape; [reflexivity|].
    revert Hw. apply avoids_weaken. reflexivity. }
  assert (W2 : avoids (lit "@*[`<>" ++ [NL]) w2)
    by (apply avoids_backslash_escape; [reflexivity|exact W1]).
  assert (W3 : avoids (lit "@*[`<>" ++ [NL]) w3)
    by (apply avoids_backslash_escape; [reflexivity|exact W2]).
  assert (W4 : avoids (lit "@*[`<>" ++ [NL]) w4)
    by (apply avoids_backslash_escape; [reflexivity|exact W3]).
  assert (N1 : w1 <> []) by now apply backslash_escape_nonempty.
  assert (N2 : w2 <> []) by now apply backslash_escape_nonempty.
  assert (N3 : w3 <> []) by now apply backslash_escape_nonempty.
  assert (N4 : w4 <> []) by now apply backslash_escape_nonempty.
  assert (whole : forall v : str,
             avoids (lit "@*[`<>" ++ [NL]) v ->
             avoids (lit "@*[<>" ++ [NL]) (pre ++ F ++ v ++ F ++ post)).
  { intros v Hv. unfold F. repeat (apply avoids_app; split).
    - apply Pre. reflexivity.
    - repeat constructor.
    - revert Hv. apply avoids_weaken. reflexivity.
    - repeat constructor.
    - apply Post. reflexivity. }
  assert (notBQ : forall v : str, avoids (lit "@*[`<>" ++ [NL]) v -> ~ In BQ v)
    by (intros v Hv; apply (avoids_notin _ _ BQ Hv); reflexivity).
  assert (opaque : forall r f (v : str),
             nullable r = false ->
             (forall c, first r c = true ->
                        existsb (N.eqb c) (lit "#+-`" ++ [NL]) = true) ->
             (forall pv i (s : str),
                 match_at r (Cursor pv i (lit "```" ++ v ++ lit "```" ++ s))
                 = Some (Match i (i + 3 + length v + 3) [])) ->
             span_transform (pre ++ F ++ v ++ F ++ post) r f
             = pre ++ F ++ v ++ F ++ post).
  { intros r f v Hn Hf Hm. apply weave_fence_opaque; try assumption.
    - apply (Forall_first_of_avoids r (lit "#+-`" ++ [NL])); [exact Hf|].
      apply Pre. reflexivity.
    - apply (Forall_first_of_avoids r (lit "#+-`" ++ [NL])); [exact Hf|].
      apply Post. reflexivity. }
  (* the first stage *)
  rewrite stage_inline_flat.
  2:{ unfold F. repeat (apply avoids_app; split).
      - apply Pre. reflexivity.
      - repeat constructor.
      - revert Hw. apply avoids_weaken. reflexivity.
      - repeat constructor.
      - apply Post. reflexivity. }
  rewrite backslash_escape_block by (try reflexivity; (apply Pre || apply Post); reflexivity).
  fold w1 F.
  (* headers, hashes, plus signs, numbered lists and minus signs *)
  assert (E : stage_blocks (pre ++ F ++ w1 ++ F ++ post) = pre ++ F ++ w3 ++ F ++ post).
  { unfold stage_blocks. cbv zeta.
    rewrite (opaque p_header escapeshape w1 eq_refl).
    2:{ intros c Hc. apply first_in_p_header in Hc. revert Hc.
        cbn [existsb lit list_ascii_of_string map app].
        intros Hc. repeat (apply orb_true_iff in Hc; destruct Hc as [Hc|Hc]);
          try discriminate; rewrite Hc; repeat rewrite orb_true_r; reflexivity. }
    2:{ intros pv i s. apply match_at_fence_in_header; auto. }
    set (ta := pre ++ F ++ w1 ++ F ++ post).
    esc_pass "#"%char ta. unfold ta, F.
    rewrite backslash_escape_block
      by (try reflexivity; (apply Pre || apply Post); reflexivity).
    fold w2 F.
    change p_plus
      with (Alt (Grp 1 (Chr (N_of_ascii "+"))) (Alt dash_item_arm (Alt fence_arm inline_arm))).
    rewrite (opaque (Alt (Grp 1 (Chr (N_of_ascii "+")))
                         (Alt dash_item_arm (Alt fence_arm inline_arm)))
                    escape_special_char w2 eq_refl).
    2:{ intros c Hc. apply first_in_p_plus in Hc. revert Hc.
        cbn [existsb lit list_ascii_of_string map app].
        intros Hc. repeat (apply orb_true_iff in Hc; destruct Hc as [Hc|Hc]);
          try discriminate; rewrite Hc; repeat rewrite orb_true_r; reflexivity. }
    2:{ intros pv i s. apply match_at_fence_in_one_char_arms; auto. discriminate. }
    set (tb := pre ++ F ++ w2 ++ F ++ post).
    assert (Ab : avoids (lit "@*[<>" ++ [NL]) tb) by (apply whole; exact W2).
    rewrite (sub_id_first_only p_numbered _ NL tb eq_refl first_p_numbered)
      by (apply (avoids_notin _ _ NL Ab); reflexivity).
    unfold tb at 1.
    rewrite (opaque p_minus_outside escape_temp_minus w2 eq_refl).
    2:{ intros c Hc. apply first_in_p_minus_outside in Hc. revert Hc.
        cbn [existsb lit list_ascii_of_string map app].
        intros Hc. repeat (apply orb_true_iff in Hc; destruct Hc as [Hc|Hc]);
          try discriminate; rewrite Hc; repeat rewrite orb_true_r; reflexivity. }
    2:{ intros pv i s. apply match_at_fence_in_minus_outside; auto. }
    fold tb.
    rewrite fenced_minus_escaped by (apply (avoids_notin _ _ _ Ab); reflexivity).
    unfold tb, F.
    rewrite backslash_escape_block
      by (try reflexivity; (apply Pre || apply Post); reflexivity).
    fold w3 F.
    change p_minus
      with (Alt (Grp 1 (Chr (N_of_ascii "-"))) (Alt dash_item_arm (Alt fence_arm inline_arm))).
    apply (opaque (Alt (Grp 1 (Chr (N_of_ascii "-")))
                       (Alt dash_item_arm (Alt fence_arm inline_arm)))
                  escape_minus w3 eq_refl).
    - intros c Hc. apply first_in_p_minus in Hc. revert Hc.
      cbn [existsb lit list_ascii_of_string map app].
      intros Hc. repeat (apply orb_true_iff in Hc; destruct Hc as [Hc|Hc]);
        try discriminate; rewrite Hc; repeat rewrite orb_true_r; reflexivity.
    - intros pv i s. apply match_at_fence_in_one_char_arms; auto. discriminate. }
  rewrite E.
  (* code blocks and backticks *)
  assert (E2 : stage_code (pre ++ F ++ w3 ++ F ++ post) = pre ++ F ++ w3 ++ F ++ post).
  { unfold stage_code. cbv zeta. unfold F.
    rewrite sub_p_fence by (auto; (apply (avoids_notin reserved); [assumption|reflexivity])).
    set (td := pre ++ lit "@@@" ++ w3 ++ lit "@@@" ++ post).
    assert (Ad : avoids (lit "`<>") td).
    { unfold td. repeat (apply avoids_app; split).
      - apply Pre. reflexivity.
      - repeat constructor.
      - revert W3. apply avoids_weaken. reflexivity.
      - repeat constructor.
      - apply Post. reflexivity. }
    by_gneeds Ad td BQ.
    by_needs Ad td BQ.
    by_needs Ad td (N_of_ascii "<").
    by_needs Ad td (N_of_ascii ">").
    by_gneeds Ad td BQ.
    apply sub_p_fence_saved; auto;
      try (apply (avoids_notin reserved); [assumption|reflexivity]).
    apply (avoids_notin _ _ AT W3). reflexivity. }
  rewrite E2.
  (* the final punctuation *)
  rewrite stage_punctuation_flat. unfold F.
  rewrite backslash_escape_block
    by (try reflexivity; (apply Pre || apply Post); reflexivity).
  fold w4 F.
  (* the parity fixer *)
  assert (E3 : stage_parity (pre ++ F ++ w4 ++ F ++ post) = pre ++ F ++ w4 ++ F ++ post).
  { unfold stage_parity, split_lines.
    rewrite split_on_no_sep
      by (apply (avoids_notin _ _ NL (whole w4 W4)); reflexivity).
    cbn [rev app fixed_lines negb andb]. unfold F.
    rewrite uneven_fenced_line; auto;
      try (apply (avoids_notin reserved); [assumption|reflexivity]).
    - destruct (is_fence_line _); reflexivity.
    - unfold w4, w3, w2, w1. rewrite !backslash_escape_app_sets by reflexivity.
      apply last_backslash_escape. apply (avoids_notin _ _ BSL Hw). reflexivity. }
  rewrite E3. unfold w4, w3, w2, w1.
  rewrite !backslash_escape_app_sets by reflexivity. reflexivity.
Qed.

Lemma escape_fenced_interior_witness :
  (avoids reserved (lit "run ") /\ avoids reserved (lit " now")
   /\ lit "a_b = f(x) - 1.5 + c" <> []
   /\ avoids (lit "\@*[`<>" ++ [NL]) (lit "a_b = f(x) - 1.5 + c"))
  /\ escape (lit "run " ++ lit "```" ++ lit "a_b = f(x) - 1.5 + c" ++ lit "```"
             ++ lit " now") false
     = Ok (lit "run ```a\_b \= f\(x\) \- 1\.5 + c``` now").
Proof.
  split; [repeat split; try discriminate; repeat constructor|].
  apply (escape_fenced_interior (lit "run ") (lit "a_b = f(x) - 1.5 + c") (lit " now")
           false); try discriminate; repeat constructor.
Defined.

(* ================================================================== *)
(** ** Passes over a text written token by token *)

Lemma str_eqb_eq (a : str) : forall b, str_eqb a b = true -> a = b.
Proof.
  induction a as [|x a IH]; intros [|y b] H; try discriminate; [reflexivity|].
  cbn [str_eqb] in H. apply andb_true_iff in H. destruct H as [H1 H2].
  apply N.eqb_eq in H1. subst. f_equal. now apply IH.
Qed.

Lemma prefix_status_false (D : str) :
  forall (u after : str),
    prefix_status D u = Some false -> startswith (u ++ after) D = false.
Proof.
  induction D as [|d D IH]; intros u after H; [discriminate|].
  destruct u as [|c u]; [discriminate|]. cbn [prefix_status] in H.
  cbn [app startswith]. destruct (N.eqb d c); [|reflexivity].
  cbn [andb]. now apply IH.
Qed.

Lemma prefix_status_none (D : str) :
  forall (u after : str),
    prefix_status D u = None ->
    startswith (u ++ after) D = startswith after (skipn (length u) D)
    /\ skipn (length u) D <> [].
Proof.
  induction D as [|d D IH]; intros u after H; [discriminate|].
  destruct u as [|c u].
  - cbn [app length skipn]. split; [reflexivity|discriminate].
  - cbn [prefix_status] in H. destruct (N.eqb d c) eqn:E; [|discriminate].
    cbn [app startswith length skipn]. rewrite E. cbn [andb]. now apply IH.
Qed.

Lemma render_cons table c (s : str) :
  flat_map (render table) (c :: s) = render table c ++ flat_map (render table) s.
Proof. reflexivity. Qed.

Lemma assoc_In c table m : assoc c table = Some m -> In (c, m) table.
Proof.
  induction table as [|[k m'] table IH]; [discriminate|].
  cbn [assoc]. destruct (N.eqb_spec c k) as [->|].
  - intros H. inversion H. now left.
  - intros H. right. now apply IH.
Qed.

Lemma cannot_start_sound D table (u : str) :
  cannot_start D table u = true ->
  forall s : str,
    Forall (writable table) s ->
    startswith (u ++ flat_map (render table) s) D = false.
Proof.
  unfold cannot_start. intros H s Hs.
  destruct (prefix_status D u) as [[|]|] eqn:E; [discriminate| |].
  - now apply prefix_status_false.
  - destruct (prefix_status_none D u (flat_map (render table) s) E) as [E1 E2].
    rewrite E1. destruct (skipn (length u) D) as [|d D'] eqn:ED; [congruence|].
    apply andb_true_iff in H. destruct H as [Hd Ht].
    destruct s as [|c s]; [reflexivity|].
    inversion Hs as [|? ? Hc Hs']; subst. rewrite render_cons.
    unfold render, writable in *. destruct (assoc c table) as [m|] eqn:Ea.
    + rewrite forallb_forall in Ht. specialize (Ht (c, m) (assoc_In _ _ _ Ea)).
      cbn [snd] in Ht.
      destruct (prefix_status (d :: D') m) as [[|]|] eqn:Em; try discriminate.
      now apply prefix_status_false.
    + cbn [app startswith]. destruct (N.eqb_spec d c) as [->|]; [|reflexivity].
      congruence.
Qed.

Lemma In_nonempty_tails (u1 u2 : str) : u2 <> [] -> In u2 (nonempty_tails (u1 ++ u2)).
Proof.
  intros H. induction u1 as [|c u1 IH].
  - destruct u2; [congruence|]. now left.
  - cbn [app nonempty_tails]. right. exact IH.
Qed.

(** Stepping over a token in which the pattern can start nowhere. *)
Lemma sub_rel_skip_token r t (after : str) :
  forall (m : str) pv (pre : str),
    (forall u1 u2 pv' i', m = u1 ++ u2 -> u2 <> [] ->
        match_at r (Cursor pv' i' (u2 ++ after)) = None) ->
    sub_rel r t pv pre (m ++ after)
    = m ++ sub_rel r t (prev_after pv m) (pre ++ m) after.
Proof.
  induction m as [|c m IH]; intros pv pre H.
  - cbn [app]. now rewrite app_nil_r.
  - cbn [app]. rewrite sub_rel_skip.
    + f_equal. rewrite IH.
      * now rewrite <- app_assoc.
      * intros u1 u2 pv' i' E Hu. apply (H (c :: u1) u2); [now rewrite E|assumption].
    + apply (H [] (c :: m)); [reflexivity|discriminate].
Qed.

Lemma weave_rel_skip_token r f (after : str) :
  forall (m : str) pv (pre : str),
    (forall u1 u2 pv' i', m = u1 ++ u2 -> u2 <> [] ->
        match_at r (Cursor pv' i' (u2 ++ after)) = None) ->
    weave_rel r f pv pre (m ++ after)
    = m ++ weave_rel r f (prev_after pv m) (pre ++ m) after.
Proof.
  induction m as [|c m IH]; intros pv pre H.
  - cbn [app]. now rewrite app_nil_r.
  - cbn [app]. rewrite weave_rel_skip.
    + f_equal. rewrite IH.
      * now rewrite <- app_assoc.
      * intros u1 u2 pv' i' E Hu. apply (H (c :: u1) u2); [now rewrite E|assumption].
    + apply (H [] (c :: m)); [reflexivity|discriminate].
Qed.

Lemma clean_token r D table (m : str) (s : str) :
  anchored r D -> clean D table m = true -> Forall (writable table) s ->
  forall u1 u2 pv' i', m = u1 ++ u2 -> u2 <> [] ->
    match_at r (Cursor pv' i' (u2 ++ flat_map (render table) s)) = None.
Proof.
  intros Ha Hc Hs u1 u2 pv' i' E Hu. apply Ha.
  apply cannot_start_sound; [|assumption].
  unfold clean in Hc. rewrite forallb_forall in Hc. apply Hc.
  rewrite E. now apply In_nonempty_tails.
Qed.

Lemma clean_plain D table c :
  starts_reserved D = true -> existsb (N.eqb c) reserved_marks = false ->
  clean D table [c] = true.
Proof.
  intros HD Hc. unfold clean. cbn [nonempty_tails forallb]. rewrite andb_true_r.
  unfold cannot_start. destruct D as [|d D]; [discriminate|].
  cbn [prefix_status]. destruct (N.eqb_spec d c) as [->|]; [|reflexivity].
  cbn [starts_reserved] in HD. congruence.
Qed.

Lemma clean_render D table c :
  all_clean D table = true -> writable table c -> clean D table (render table c) = true.
Proof.
  unfold all_clean. intros H Hc. apply andb_true_iff in H. destruct H as [HD Ht].
  unfold render, writable in *. destruct (assoc c table) as [m|] eqn:E.
  - rewrite forallb_forall in Ht. apply (Ht (c, m)). now apply assoc_In.
  - now apply clean_plain.
Qed.

(** A pass whose pattern can start in no token finds nothing. *)
Lemma sub_rel_render_id r t D table :
  anchored r D -> nullable r = false -> all_clean D table = true ->
  forall (s : str) pv pre,
    Forall (writable table) s ->
    sub_rel r t pv pre (flat_map (render table) s) = flat_map (render table) s.
Proof.
  intros Ha Hn Hc. induction s as [|c s IH]; intros pv pre Hs.
  - apply sub_rel_nil. apply match_at_none_first; [assumption|exact I].
  - inversion Hs as [|? ? Hc1 Hs']; subst. rewrite render_cons.
    rewrite sub_rel_skip_token.
    + f_equal. now apply IH.
    + apply (clean_token r D table); auto. now apply clean_render.
Qed.

Lemma weave_rel_render_id r f D table :
  anchored r D -> nullable r = false -> all_clean D table = true ->
  forall (s : str) pv pre,
    Forall (writable table) s ->
    weave_rel r f pv pre (flat_map (render table) s) = flat_map (render table) s.
Proof.
  intros Ha Hn Hc. induction s as [|c s IH]; intros pv pre Hs.
  - apply weave_rel_nil. apply match_at_none_first; [assumption|exact I].
  - inversion Hs as [|? ? Hc1 Hs']; subst. rewrite render_cons.
    rewrite weave_rel_skip_token.
    + f_equal. now apply IH.
    + apply (clean_token r D table); auto. now apply clean_render.
Qed.

Lemma assoc_replaced D t c table :
  assoc c (replaced D t table)
  = option_map (fun m => if str_eqb m D then t else m) (assoc c table).
Proof.
  induction table as [|[k m] table IH]; [reflexivity|].
  cbn [replaced map assoc fst snd]. destruct (N.eqb c k); [reflexivity|exact IH].
Qed.

Lemma writable_replaced D t table c : writable (replaced D t table) c <-> writable table c.
Proof.
  unfold writable. rewrite assoc_replaced. destruct (assoc c table); cbn; tauto.
Qed.

Lemma Forall_writable_replaced D t table (s : str) :
  Forall (writable table) s -> Forall (writable (replaced D t table)) s.
Proof.
  apply Forall_impl. intros c. apply writable_replaced.
Qed.

(** A pass with a literal pattern and a literal replacement rewrites the
    tokens that are the literal and leaves the others. *)
Lemma sub_rel_render_replace r D t table :
  (forall pv i (s : str),
      match_at r (Cursor pv i s)
      = if startswith s D then Some (Match i (i + length D) []) else None) ->
  nullable r = false -> clean_or_whole D table = true ->
  forall (s : str) pv pre,
    Forall (writable table) s ->
    sub_rel r [TLit t] pv pre (flat_map (render table) s)
    = flat_map (render (replaced D t table)) s.
Proof.
  intros Hm Hn Hc.
  assert (Ha : anchored r D) by (intros pv i s E; now rewrite Hm, E).
  unfold clean_or_whole in Hc. apply andb_true_iff in Hc. destruct Hc as [HD Ht].
  induction s as [|c s IH]; intros pv pre Hs.
  - apply sub_rel_nil. apply match_at_none_first; [assumption|exact I].
  - inversion Hs as [|? ? Hc1 Hs']; subst. rewrite !render_cons.
    unfold render at 1 3. rewrite assoc_replaced.
    unfold writable in Hc1. destruct (assoc c table) as [m|] eqn:E; cbn [option_map].
    + rewrite forallb_forall in Ht. specialize (Ht (c, m) (assoc_In _ _ _ E)).
      cbn [snd] in Ht. destruct (str_eqb m D) eqn:Em.
      * apply str_eqb_eq in Em. subst m.
        assert (HDne : D <> []) by (destruct D; [discriminate|discriminate]).
        rewrite (sub_rel_match r _ pv pre D _ (Match (length pre) (length pre + length D) [])).
        -- cbn [expand flat_map]. rewrite app_nil_r. f_equal. now apply IH.
        -- now rewrite Hm, startswith_refl_app.
        -- reflexivity.
        -- assumption.
      * cbn [orb] in Ht. rewrite sub_rel_skip_token.
        -- f_equal. now apply IH.
        -- now apply (clean_token r D table).
    + rewrite sub_rel_skip_token.
      * f_equal. now apply IH.
      * apply (clean_token r D table); auto. now apply clean_plain.
Qed.

Lemma sub_render_id r t D table (s : str) :
  anchored r D -> nullable r = false -> all_clean D table = true ->
  Forall (writable table) s ->
  sub r t (flat_map (render table) s) = flat_map (render table) s.
Proof.
  intros. rewrite sub_rel_start. now apply (sub_rel_render_id r t D).
Qed.

Lemma span_transform_render_id r f D table (s : str) :
  anchored r D -> nullable r = false -> all_clean D table = true ->
  Forall (writable table) s ->
  span_transform (flat_map (render table) s) r f = flat_map (render table) s.
Proof.
  intros. rewrite weave_rel_start. now apply (weave_rel_render_id r f D).
Qed.

Lemma sub_render_replace r D t table (s : str) :
  (forall pv i (s : str),
      match_at r (Cursor pv i s)
      = if startswith s D then Some (Match i (i + length D) []) else None) ->
  nullable r = false -> clean_or_whole D table = true ->
  Forall (writable table) s ->
  sub r [TLit t] (flat_map (render table) s) = flat_map (render (replaced D t table)) s.
Proof.
  intros. rewrite sub_rel_start. now apply sub_rel_render_replace.
Qed.

Lemma avoids_render X table (s : str) :
  forallb (fun x => existsb (N.eqb x) reserved_marks) X = true ->
  forallb (fun km => forallb (fun c => negb (existsb (N.eqb c) X)) (snd km)) table = true ->
  Forall (writable table) s -> avoids X (flat_map (render table) s).
Proof.
  intros HX Ht Hs. unfold avoids. apply Forall_flat_map.
  eapply Forall_impl; [|exact Hs]. intros c Hc. cbv beta.
  unfold render, writable in *. destruct (assoc c table) as [m|] eqn:E.
  - rewrite forallb_forall in Ht. specialize (Ht (c, m) (assoc_In _ _ _ E)).
    cbn [snd] in Ht. rewrite forallb_forall in Ht.
    apply Forall_forall. intros x Hx. specialize (Ht x Hx).
    now apply negb_true_iff in Ht.
  - constructor; [|constructor].
    destruct (existsb (N.eqb c) X) eqn:Ec; [|reflexivity].
    apply existsb_exists in Ec. destruct Ec as (x & Hx & Ecx).
    apply N.eqb_eq in Ecx. subst x.
    rewrite forallb_forall in HX. specialize (HX c Hx). congruence.
Qed.

Lemma match_at_literal c l pv i (s : str) :
  match_at (chars c l) (Cursor pv i s)
  = if startswith s (c :: l) then Some (Match i (i + length (c :: l)) []) else None.
Proof. apply match_at_chars. Qed.

Lemma anchored_literal c l : anchored (chars c l) (c :: l).
Proof.
  intros pv i s E. now rewrite match_at_chars, E.
Qed.

Lemma anchored_cat r1 r2 D : is_literal r1 D -> anchored (Cat r1 r2) D.
Proof.
  intros H pv i s E. unfold match_at. now rewrite run_cat, H, E.
Qed.

Lemma anchored_is_literal r D : is_literal r D -> anchored r D.
Proof.
  intros H pv i s E. unfold match_at. now rewrite H, E.
Qed.

Lemma anchored_grp g r D : anchored r D -> anchored (Grp g r) D.
Proof.
  intros H pv i s E. rewrite match_at_grp. now rewrite H.
Qed.

(* ------------------------------------------------------------------ *)
(** Escaped input: brackets, parentheses and backticks after a backslash *)

Lemma render_escape_table X c :
  render (escape_table X) c = if existsb (N.eqb c) X then [BSL; c] else [c].
Proof.
  unfold render, escape_table.
  induction X as [|k X IH]; [reflexivity|].
  cbn [map assoc existsb]. destruct (N.eqb_spec c k) as [->|Hk]; [reflexivity|].
  cbn [orb]. exact IH.
Qed.

Lemma backslash_escape_render X (s : str) :
  backslash_escape X s = flat_map (render (escape_table X)) s.
Proof.
  unfold backslash_escape. apply flat_map_ext. intros c.
  symmetry. apply render_escape_table.
Qed.

Lemma assoc_escape_table_none X c :
  assoc c (escape_table X) = None -> existsb (N.eqb c) X = false.
Proof.
  unfold escape_table. induction X as [|k X IH]; [reflexivity|].
  cbn [map assoc existsb]. destruct (N.eqb c k); [discriminate|exact IH].
Qed.

Lemma writable_escape_table X Y (s : str) :
  forallb (fun x => existsb (N.eqb x) X || existsb (N.eqb x) Y) reserved_marks = true ->
  avoids Y s -> Forall (writable (escape_table X)) s.
Proof.
  intros HXY. apply Forall_impl. intros c Hc. unfold writable.
  destruct (assoc c (escape_table X)) eqn:E; [exact I|].
  apply assoc_escape_table_none in E.
  destruct (existsb (N.eqb c) reserved_marks) eqn:R; [|reflexivity].
  apply existsb_exists in R. destruct R as [x [Hx Hcx]].
  apply N.eqb_eq in Hcx. subst x.
  rewrite forallb_forall in HXY. specialize (HXY c Hx).
  rewrite E, Hc in HXY. discriminate.
Qed.

Lemma if_same {A} (b : bool) (x : A) : (if b then x else x) = x.
Proof. now destruct b. Qed.

(** One pass over a text written token by token: the pass replaces a token,
    or it finds nothing to match. *)
Ltac tok_replace c l t :=
  match goal with
  | HW : Forall (writable ?table) ?s
    |- context [sub ?r ?tt (flat_map (render ?table) ?s)] =>
      change (sub r tt (flat_map (render table) s))
        with (sub (chars c l) [TLit t] (flat_map (render table) s));
      rewrite (sub_render_replace (chars c l) (c :: l) t table s
                 (match_at_literal c l) eq_refl eq_refl HW);
      apply (Forall_writable_replaced (c :: l) t table s) in HW;
      let tb := eval vm_compute in (replaced (c :: l) t table) in
      change (replaced (c :: l) t table) with tb in *
  end.

Tactic Notation "tok_anchored" uconstr(A) constr(D) :=
  match goal with
  | HW : Forall (writable ?table) ?s
    |- context [sub ?r ?t (flat_map (render ?table) ?s)] =>
      rewrite (sub_render_id r t D table s A eq_refl eq_refl HW)
  end.

Ltac tok_needs x :=
  match goal with
  | HW : Forall (writable ?table) ?s
    |- context [sub ?r ?t (flat_map (render ?table) ?s)] =>
      rewrite (sub_id_needs r t x (flat_map (render table) s) eq_refl
                 (avoids_notin [x] _ x (avoids_render [x] table s eq_refl eq_refl HW)
                    eq_refl))
  end.

Ltac tok_first F x :=
  match goal with
  | HW : Forall (writable ?table) ?s
    |- context [sub ?r ?t (flat_map (render ?table) ?s)] =>
      rewrite (sub_id_first_only r t x (flat_map (render table) s) eq_refl F
                 (avoids_notin [x] _ x (avoids_render [x] table s eq_refl eq_refl HW)
                    eq_refl))
  end.

Ltac tok_gneeds x :=
  match goal with
  | HW : Forall (writable ?table) ?s
    |- context [span_transform (flat_map (render ?table) ?s) ?r ?f] =>
      rewrite (span_transform_id_gneeds r f x (flat_map (render table) s) eq_refl
                 (avoids_notin [x] _ x (avoids_render [x] table s eq_refl eq_refl HW)
                    eq_refl))
  end.

(** The escaped brackets, parentheses and backticks on their way through
    the inline stage: four of them come back, the backtick stays a marker. *)
Lemma stage_inline_escaped flag (s : str) :
  Forall (writable (escape_table (lit "[]()`"))) s ->
  stage_inline flag (flat_map (render (escape_table (lit "[]()`"))) s)
  = flat_map (render (replaced (lit "\`") (lit "@<@") (escape_table (lit "[]()`")))) s.
Proof.
  intros HW. unfold stage_inline. cbv zeta.
  tok_replace BSL [N_of_ascii "["] (lit "@->@").
  tok_replace BSL [N_of_ascii "]"] (lit "@<-@").
  tok_replace BSL [N_of_ascii "("] (lit "@-->@").
  tok_replace BSL [N_of_ascii ")"] (lit "@<--@").
  tok_anchored (anchored_literal BSL [BSL]) [BSL; BSL]. rewrite if_same.
  tok_replace BSL [BQ] (lit "@<@").
  tok_needs BSL.
  tok_anchored (anchored_is_literal AT3 _ is_literal_AT3) [AT; AT; AT]. rewrite if_same.
  tok_needs (N_of_ascii "_").
  tok_first first_p_bold (N_of_ascii "*").
  do 2 tok_needs (N_of_ascii "*").
  tok_anchored (anchored_cat AT3 _ _ is_literal_AT3) [AT; AT; AT].
  do 2 tok_needs (N_of_ascii "[").
  tok_needs (N_of_ascii "]").
  tok_needs (N_of_ascii "(").
  tok_needs (N_of_ascii ")").
  tok_replace AT (lit "->@") (lit "\[").
  tok_replace AT (lit "<-@") (lit "\]").
  tok_replace AT (lit "-->@") (lit "\(").
  tok_replace AT (lit "<--@") (lit "\)").
  tok_anchored (anchored_cat AT3 _ _ is_literal_AT3) [AT; AT; AT].
  tok_needs (N_of_ascii "~").
  tok_needs (N_of_ascii ">").
  reflexivity.
Qed.

Ltac tok_gfirst F x :=
  match goal with
  | HW : Forall (writable ?table) ?s
    |- context [span_transform (flat_map (render ?table) ?s) ?r ?f] =>
      rewrite (span_transform_id_gfirst r f x (flat_map (render table) s) eq_refl F
                 (avoids_notin [x] _ x (avoids_render [x] table s eq_refl eq_refl HW)
                    eq_refl))
  end.

Tactic Notation "tok_span_anchored" uconstr(A) constr(D) :=
  match goal with
  | HW : Forall (writable ?table) ?s
    |- context [span_transform (flat_map (render ?table) ?s) ?r ?f] =>
      rewrite (span_transform_render_id r f D table s A eq_refl eq_refl HW)
  end.

(** The block stage finds nothing in such a text. *)
Lemma stage_blocks_escaped (s : str) :
  Forall (writable (escape_table (lit "[]()`"))) s ->
  stage_blocks
    (flat_map (render (replaced (lit "\`") (lit "@<@") (escape_table (lit "[]()`")))) s)
  = flat_map (render (replaced (lit "\`") (lit "@<@") (escape_table (lit "[]()`")))) s.
Proof.
  intros HW.
  apply (Forall_writable_replaced (lit "\`") (lit "@<@")) in HW.
  unfold stage_blocks. cbv zeta.
  tok_gfirst gfirst_p_header (N_of_ascii "#").
  tok_needs (N_of_ascii "#").
  tok_gneeds (N_of_ascii "+").
  tok_needs (N_of_ascii ".").
  tok_gneeds (N_of_ascii "-").
  tok_needs (N_of_ascii "-").
  tok_needs (N_of_ascii "+").
  tok_needs (N_of_ascii "-").
  tok_needs (N_of_ascii "+").
  tok_gneeds (N_of_ascii "-").
  reflexivity.
Qed.

(** The code stage brings the escaped backticks back. *)
Lemma stage_code_escaped (s : str) :
  Forall (writable (escape_table (lit "[]()`"))) s ->
  stage_code
    (flat_map (render (replaced (lit "\`") (lit "@<@") (escape_table (lit "[]()`")))) s)
  = flat_map (render (escape_table (lit "[]()`"))) s.
Proof.
  intros HW.
  apply (Forall_writable_replaced (lit "\`") (lit "@<@")) in HW.
  unfold stage_code. cbv zeta.
  tok_needs BQ.
  tok_gneeds BQ.
  tok_needs BQ.
  tok_replace AT (lit "<@") (lit "\`").
  tok_needs (N_of_ascii "-").
  tok_span_anchored (anchored_grp 1 _ _ (anchored_literal BQ [BQ])) [BQ; BQ].
  tok_first first_p_fence_saved AT.
  reflexivity.
Qed.

Lemma escaped_from_in (s : str) :
  forall pv, escaped_from pv s = escaped_in [BQ] pv s.
Proof.
  induction s as [|c s IH]; intros pv; [reflexivity|].
  cbn [escaped_from escaped_in existsb]. rewrite orb_false_r, IH. reflexivity.
Qed.

(** A text whose backticks are all escaped is left alone by the parity
    stage. *)
Lemma stage_parity_escaped_id (text : str) :
  escaped_in [BQ] None text = true -> stage_parity text = text.
Proof.
  intros H. unfold stage_parity.
  rewrite <- (join_split_lines text) in H.
  rewrite escaped_in_join in H by reflexivity.
  assert (E : forall b, fixed_lines (split_lines text) b = split_lines text).
  { revert H. generalize (split_lines text). intros lines.
    induction lines as [|l lines IH]; intros H b; [reflexivity|].
    cbn [forallb] in H. apply andb_true_iff in H. destruct H as [Hl H].
    assert (U : uneven l = false).
    { unfold uneven. rewrite sub_remove_escaped, escaped_no_raw; [reflexivity|].
      now rewrite escaped_from_in. }
    cbn [fixed_lines]. rewrite U, andb_false_r.
    destruct (is_fence_line l); now rewrite IH. }
  rewrite E. apply join_split_lines.
Qed.

Lemma escaped_in_backslash_escape X Y (s : str) :
  existsb (N.eqb BSL) X = false ->
  forallb (fun x => existsb (N.eqb x) Y) X = true ->
  forall pv, escaped_in X pv (backslash_escape Y s) = true.
Proof.
  intros HB HXY. unfold backslash_escape.
  induction s as [|c s IH]; intros pv; [reflexivity|].
  cbn [flat_map]. destruct (existsb (N.eqb c) Y) eqn:E.
  - cbn [app escaped_in]. rewrite HB, N.eqb_refl. cbn [andb].
    rewrite IH. now destruct (existsb (N.eqb c) X).
  - cbn [app escaped_in].
    destruct (existsb (N.eqb c) X) eqn:EX; [|apply IH].
    apply existsb_exists in EX. destruct EX as [x [Hx Hcx]].
    apply N.eqb_eq in Hcx. subst x.
    rewrite forallb_forall in HXY. rewrite (HXY c Hx) in E. discriminate.
Qed.

(* ================================================================== *)
(** ** Escaped brackets, parentheses and backticks *)

(** X16. What is already escaped.  In a text with no other reserved
    character, the brackets, parentheses and backticks that come with a
    backslash before them are kept as they are: [escape], with or without
    the flag, returns the text unchanged, on one line or on several. *)
Theorem escape_keeps_escaped_marks :
  forall (s : str) (flag : bool),
    avoids (lit "\_*~><#+-=|{}.!@^") s ->
    escape (backslash_escape (lit "[]()`") s) flag
    = Ok (backslash_escape (lit "[]()`") s).
Proof.
  intros s flag H.
  assert (HW : Forall (writable (escape_table (lit "[]()`"))) s)
    by (revert H; apply writable_escape_table; reflexivity).
  rewrite escape_eq. f_equal. unfold escape_stages.
  rewrite (backslash_escape_render (lit "[]()`") s).
  rewrite (stage_inline_escaped flag s HW).
  rewrite (stage_blocks_escaped s HW).
  rewrite (stage_code_escaped s HW).
  rewrite stage_punctuation_id
    by (apply (avoids_render (lit "=|{}.!") _ s); [reflexivity|reflexivity|exact HW]).
  apply stage_parity_escaped_id.
  rewrite <- (backslash_escape_render (lit "[]()`") s).
  apply escaped_in_backslash_escape; reflexivity.
Qed.

Lemma escape_keeps_escaped_marks_witness :
  avoids (lit "\_*~><#+-=|{}.!@^") (lit "f(x) [1] `y`" ++ [NL] ++ lit "(end)")
  /\ escape (lit "f\(x\) \[1\] \`y\`" ++ [NL] ++ lit "\(end\)") true
     = Ok (lit "f\(x\) \[1\] \`y\`" ++ [NL] ++ lit "\(end\)").
Proof.
  split; [repeat constructor|].
  apply (escape_keeps_escaped_marks (lit "f(x) [1] `y`" ++ [NL] ++ lit "(end)") true).
  repeat constructor.
Defined.

(* ================================================================== *)
(** ** The view-count formatter *)

Section BeautifyViews.
Local Open Scope Z_scope.

Lemma filter_twice {A} (p : A -> bool) (l : list A) : filter p (filter p l) = filter p l.
Proof.
  induction l as [|x l IH]; [reflexivity|].
  cbn [filter]. destruct (p x) eqn:E; [|exact IH].
  cbn [filter]. now rewrite E, IH.
Qed.

(** X17. The formatter reads the digits of its argument and nothing else:
    every other character (separators, signs, words) is dropped before the
    count is read, so a text and its digits alone give the same result. *)
Theorem beautify_views_reads_digits_only :
  forall text : str, beautify_views text = beautify_views (filter str_isdigit text).
Proof.
  intros text. unfold beautify_views at 2. rewrite filter_twice.
  unfold beautify_views.
  destruct text as [|c text]; [reflexivity|].
  destruct (filter str_isdigit (c :: text)) as [|d ds]; reflexivity.
Qed.

(* ------------------------------------------------------------------ *)
(** Reading and writing decimal digits *)

Lemma digit_value_ascii (r : Z) :
  0 <= r < 10 -> digit_value (Z.to_N (48 + r)) = Some r.
Proof.
  intros H.
  assert (C : r = 0 \/ r = 1 \/ r = 2 \/ r = 3 \/ r = 4 \/ r = 5 \/ r = 6 \/ r = 7
              \/ r = 8 \/ r = 9) by lia.
  repeat (destruct C as [->|C]; [reflexivity|]). subst. reflexivity.
Qed.

Lemma ascii_digit_of (r : Z) : 0 <= r < 10 -> ascii_digit (Z.to_N (48 + r)) = true.
Proof.
  intros H. unfold ascii_digit. apply andb_true_iff.
  split; [apply N.leb_le|apply N.leb_le]; lia.
Qed.

Lemma str_isdigit_ascii c : ascii_digit c = true -> str_isdigit c = true.
Proof. intros H. unfold str_isdigit. now rewrite (ascii_digit_isdigit c H). Qed.

Lemma digits_of_S (fuel : nat) (n : Z) (acc : str) :
  digits_of (S fuel) n acc
  = if n <? 10 then Z.to_N (48 + n mod 10) :: acc
    else digits_of fuel (n / 10) (Z.to_N (48 + n mod 10) :: acc).
Proof. reflexivity. Qed.

(** The digits written for [n]: ASCII digits, at least one, that read back
    as [n]. *)
Lemma digits_of_spec (f : nat) :
  forall (n : Z) (acc : str),
    0 <= n < 2 ^ Z.of_nat (S f) ->
    exists ds : str,
      digits_of (S f) n acc = ds ++ acc
      /\ ds <> []
      /\ (length ds <= S f)%nat
      /\ Forall (fun c => ascii_digit c = true) ds
      /\ (forall a after, int_digits a (ds ++ after)
                          = int_digits (a * 10 ^ Z.of_nat (length ds) + n) after).
Proof.
  assert (Small : forall n acc, 0 <= n < 10 ->
            exists ds : str,
              Z.to_N (48 + n mod 10) :: acc = ds ++ acc
              /\ ds <> [] /\ (length ds <= 1)%nat
              /\ Forall (fun c => ascii_digit c = true) ds
              /\ (forall a after, int_digits a (ds ++ after)
                                  = int_digits (a * 10 ^ Z.of_nat (length ds) + n) after)).
  { intros n acc Hs. exists [Z.to_N (48 + n mod 10)].
    rewrite Z.mod_small by lia.
    split; [reflexivity|]. split; [discriminate|]. split; [cbn [length]; lia|].
    split; [constructor; [now apply ascii_digit_of|constructor]|].
    intros a after. cbn [app int_digits]. rewrite (digit_value_ascii n Hs).
    f_equal. change (Z.of_nat (length [Z.to_N (48 + n)])) with 1.
    rewrite Z.pow_1_r. lia. }
  induction f as [|f IH]; intros n acc Hn.
  - rewrite digits_of_S. change (2 ^ Z.of_nat 1) with 2 in Hn.
    destruct (Z.ltb_spec n 10) as [Hs|Hs]; [|lia].
    destruct (Small n acc ltac:(lia)) as [ds [E [H1 [H2 [H3 H4]]]]].
    exists ds. repeat split; auto.
  - rewrite digits_of_S.
    assert (Hr : 0 <= n mod 10 < 10) by (apply Z.mod_pos_bound; lia).
    destruct (Z.ltb_spec n 10) as [Hs|Hs].
    + destruct (Small n acc ltac:(lia)) as [ds [E [H1 [H2 [H3 H4]]]]].
      exists ds. repeat split; auto. lia.
    + assert (Hq : 0 <= n / 10 < 2 ^ Z.of_nat (S f)).
      { split; [apply Z.div_pos; lia|].
        apply Z.div_lt_upper_bound; [lia|].
        replace (Z.of_nat (S (S f))) with (Z.succ (Z.of_nat (S f))) in Hn by lia.
        rewrite Z.pow_succ_r in Hn by lia. lia. }
      destruct (IH (n / 10) (Z.to_N (48 + n mod 10) :: acc) Hq)
        as [ds [E [Hne [Hlen [Hd Hint]]]]].
      exists (ds ++ [Z.to_N (48 + n mod 10)]).
      split; [rewrite E, <- app_assoc; reflexivity|].
      split; [now destruct ds|].
      split; [rewrite length_app; cbn [length]; lia|].
      split; [apply Forall_app; split; [exact Hd|];
              constructor; [now apply ascii_digit_of|constructor]|].
      intros a after. rewrite <- app_assoc. rewrite Hint.
      cbn [app int_digits]. rewrite (digit_value_ascii _ Hr). f_equal.
      rewrite length_app. cbn [length].
      replace (Z.of_nat (length ds + 1)) with (Z.succ (Z.of_nat (length ds))) by lia.
      rewrite Z.pow_succ_r by lia.
      pose proof (Z.div_mod n 10 ltac:(lia)) as Hdm. lia.
Qed.

Lemma str_of_int_spec (n : Z) :
  0 <= n ->
  str_of_int n <> []
  /\ (length (str_of_int n) <= S (Z.to_nat (Z.log2 n)))%nat
  /\ Forall (fun c => ascii_digit c = true) (str_of_int n)
  /\ int_digits 0 (str_of_int n) = Some n.
Proof.
  intros Hn. unfold str_of_int.
  destruct (Z.ltb_spec n 0) as [?|_]; [lia|].
  assert (B : 0 <= n < 2 ^ Z.of_nat (S (Z.to_nat (Z.log2 n)))).
  { split; [exact Hn|].
    destruct (Z.eq_dec n 0) as [->|Hz]; [reflexivity|].
    replace (Z.of_nat (S (Z.to_nat (Z.log2 n)))) with (Z.succ (Z.log2 n))
      by (pose proof (Z.log2_nonneg n); lia).
    apply Z.log2_spec. lia. }
  destruct (digits_of_spec _ n [] B) as [ds [E [Hne [Hlen [Hd Hint]]]]].
  rewrite E, app_nil_r.
  split; [exact Hne|]. split; [exact Hlen|]. split; [exact Hd|].
  specialize (Hint 0 []). rewrite app_nil_r in Hint. rewrite Hint.
  cbn [int_digits]. f_equal; lia.
Qed.

Lemma filter_all {A} (p : A -> bool) (l : list A) :
  Forall (fun x => p x = true) l -> filter p l = l.
Proof.
  induction 1 as [|x l Hx _ IH]; [reflexivity|].
  cbn [filter]. now rewrite Hx, IH.
Qed.

Lemma filter_str_of_int (n : Z) : 0 <= n -> filter str_isdigit (str_of_int n) = str_of_int n.
Proof.
  intros Hn. apply filter_all.
  destruct (str_of_int_spec n Hn) as [_ [_ [Hd _]]].
  revert Hd. apply Forall_impl. intros c. apply str_isdigit_ascii.
Qed.

(** Reading back what [str] writes, within the limit on digits. *)
Lemma int_str_of_int (n : Z) :
  0 <= n < 2 ^ 4299 -> int (str_of_int n) = Returns n.
Proof.
  intros [Hn Hb].
  destruct (str_of_int_spec n Hn) as [Hne [Hlen [_ Hint]]].
  unfold int. destruct (str_of_int n) as [|d ds] eqn:E; [congruence|].
  assert (L : Z.log2 n < 4299).
  { destruct (Z.eq_dec n 0) as [->|Hz]; [reflexivity|].
    apply Z.log2_lt_pow2; lia. }
  pose proof (Z.log2_nonneg n).
  destruct (Nat.ltb_spec 4300 (length (d :: ds))) as [Hl|_]; [lia|].
  now rewrite Hint.
Qed.

(** The branches of the formatter once the digits are read. *)
Lemma beautify_views_of_int (text : str) (v : Z) :
  int (filter str_isdigit text) = Returns v ->
  beautify_views text
  = if v <? 1000 then Returns (str_of_int v)
    else if v <? 1000000 then shown v 1000 (lit " <b>k</b>")
    else if v <? 1000000000 then shown v 1000000 (lit " <b>m</b>")
    else shown v 1000000000 (lit " <b>b</b>").
Proof.
  intros H. unfold beautify_views.
  destruct text as [|c text]; [discriminate|].
  destruct (filter str_isdigit (c :: text)) as [|d ds]; [discriminate|].
  now rewrite H.
Qed.

(** X18. Counts below a thousand come back as they are: the decimal text of
    such a count is returned unchanged. *)
Theorem beautify_views_below_thousand :
  forall v : Z,
    0 <= v < 1000 -> beautify_views (str_of_int v) = Returns (str_of_int v).
Proof.
  intros v Hv.
  rewrite (beautify_views_of_int (str_of_int v) v).
  - destruct (Z.ltb_spec v 1000); [reflexivity|lia].
  - rewrite filter_str_of_int by lia. apply int_str_of_int.
    split; [lia|]. apply Z.lt_trans with (2 ^ 10); [lia|].
    apply Z.pow_lt_mono_r; lia.
Qed.

Lemma beautify_views_below_thousand_witness :
  0 <= 42 < 1000 /\ beautify_views (lit "42") = Returns (lit "42").
Proof.
  split; [lia|]. apply (beautify_views_below_thousand 42). lia.
Defined.

(* ------------------------------------------------------------------ *)
(** Rounding *)

Lemma round_half_even_near (n d : Z) :
  0 < d -> - d <= 2 * (round_half_even n d * d - n) <= d.
Proof.
  intros Hd. unfold round_half_even.
  pose proof (Z.div_mod n d ltac:(lia)) as E.
  pose proof (Z.mod_pos_bound n d Hd) as B.
  destruct (Z.compare_spec (2 * (n mod d)) d) as [C|C|C]; [|nia|nia].
  destruct (Z.even (n / d)); nia.
Qed.

(** The double of a quotient between 1 and 2 ^ 17: its exponent. *)
Lemma true_divide_in_band (a b : Z) :
  0 < b -> b <= a < 2 ^ 17 * b ->
  exists e : Z,
    -53 <= e <= -35
    /\ true_divide a b = Returns (round_half_even (a * 2 ^ (- e)) b, e).
Proof.
  intros Hb [Hlo Hhi].
  assert (L1 : Z.log2 b <= Z.log2 a) by (apply Z.log2_le_mono; lia).
  assert (L2 : Z.log2 a <= Z.log2 b + 17).
  { assert (a < 2 ^ (Z.log2 b + 18)).
    { pose proof (Z.log2_spec b Hb) as [_ Hs].
      replace (Z.log2 b + 18) with (17 + Z.succ (Z.log2 b)) by lia.
      pose proof (Z.log2_nonneg b).
      rewrite Z.pow_add_r by lia. nia. }
    apply Z.log2_lt_pow2 in H; lia. }
  unfold true_divide.
  set (e0 := Z.log2 a - Z.log2 b - 53).
  set (e1 := if 2 ^ 53 <=? fst (scaled a b e0) / snd (scaled a b e0) then e0 + 1 else e0).
  assert (B1 : -53 <= e1 <= -35) by (unfold e1; destruct (_ <=? _); lia).
  exists e1. split; [exact B1|].
  rewrite Z.max_l by lia.
  unfold scaled. destruct (Z.leb_spec 0 e1) as [?|_]; [lia|].
  cbn [andb fst snd]. reflexivity.
Qed.

(** The tenths shown for a quotient between 1 and 2 ^ 17 are the nearest to
    the exact quotient. *)
Lemma tenths_near (a b : Z) :
  0 < b -> b <= a < 2 ^ 17 * b -> 10 * b < 2 ^ 35 ->
  exists x : Z * Z,
    true_divide a b = Returns x
    /\ - b <= 2 * (tenths x * b - 10 * a) <= b.
Proof.
  intros Hb Ha Hs.
  destruct (true_divide_in_band a b Hb Ha) as [e [He E]].
  eexists. split; [exact E|].
  unfold tenths. destruct (Z.leb_spec 0 e) as [?|_]; [lia|].
  set (P := 2 ^ (- e)).
  assert (HP : 2 ^ 35 <= P) by (apply Z.pow_le_mono_r; lia).
  set (m := round_half_even (a * P) b).
  set (t := round_half_even (10 * m) P).
  pose proof (round_half_even_near (a * P) b Hb) as Hm. fold m in Hm.
  pose proof (round_half_even_near (10 * m) P ltac:(lia)) as Ht. fold t in Ht.
  assert (K : - (b * P + 10 * b) <= 2 * (t * b - 10 * a) * P <= b * P + 10 * b) by nia.
  split; nia.
Qed.

Lemma view_unit_cases (v : Z) :
  1000 <= v < 10 ^ 14 ->
  0 < view_unit v /\ view_unit v <= v < 2 ^ 17 * view_unit v
  /\ 10 * view_unit v < 2 ^ 35.
Proof.
  intros H. unfold view_unit.
  destruct (Z.ltb_spec v 1000000); [lia|].
  destruct (Z.ltb_spec v 1000000000); lia.
Qed.

(** X19. Thousands, millions and billions.  For a text whose digits spell a
    count from a thousand up (below 10 ^ 14), the formatter returns the
    count in its unit (thousands below a million, millions below a billion,
    billions from there on) with one decimal, followed by the mark of the
    unit; the number shown is a nearest one with one decimal to the exact
    quotient: it is off by at most 0.05. *)
Theorem beautify_views_rounds_to_tenths :
  forall (text : str) (v : Z),
    int (filter str_isdigit text) = Returns v ->
    1000 <= v < 10 ^ 14 ->
    exists t : Z,
      beautify_views text
      = Returns (str_of_int (t / 10) ++ lit "." ++ str_of_int (t mod 10) ++ view_mark v)
      /\ - view_unit v <= 2 * (t * view_unit v - 10 * v) <= view_unit v.
Proof.
  intros text v Hint Hv.
  destruct (view_unit_cases v Hv) as [U1 [U2 U3]].
  destruct (tenths_near v (view_unit v) U1 U2 U3) as [x [E Hx]].
  exists (tenths x). split; [|exact Hx].
  rewrite (beautify_views_of_int text v Hint).
  destruct (Z.ltb_spec v 1000) as [?|_]; [lia|].
  revert E. unfold view_unit, view_mark, shown, format_1f.
  destruct (v <? 1000000).
  - intros ->. now rewrite <- !app_assoc.
  - destruct (v <? 1000000000); intros ->; now rewrite <- !app_assoc.
Qed.

Lemma beautify_views_rounds_to_tenths_witness :
  (int (filter str_isdigit (lit "1,250,000 views")) = Returns 1250000
   /\ 1000 <= 1250000 < 10 ^ 14)
  /\ exists t : Z,
       beautify_views (lit "1,250,000 views")
       = Returns (str_of_int (t / 10) ++ lit "." ++ str_of_int (t mod 10)
                  ++ view_mark 1250000)
       /\ - view_unit 1250000 <= 2 * (t * view_unit 1250000 - 10 * 1250000)
          <= view_unit 1250000.
Proof.
  split; [split; [reflexivity|lia]|].
  apply (beautify_views_rounds_to_tenths (lit "1,250,000 views") 1250000);
    [reflexivity|lia].
Defined.

(* ------------------------------------------------------------------ *)
(** What makes the formatter raise *)

Lemma digit_value_none c : digit_value c = None <-> isdigit c = false.
Proof.
  unfold digit_value, isdigit.
  induction decimal_zeros as [|z zs IH]; [now split|].
  cbn [find existsb].
  destruct ((z <=? c)%N && (c <? z + 10)%N); [now split|exact IH].
Qed.

Lemma int_digits_none (s : str) :
  forall a, int_digits a s = None <-> exists c, In c s /\ digit_value c = None.
Proof.
  induction s as [|c s IH]; intros a.
  - split; [discriminate|]. now intros [c [[] _]].
  - cbn [int_digits]. destruct (digit_value c) as [d|] eqn:E.
    + rewrite IH. split.
      * intros [x [Hx Hn]]. exists x. split; [now right|exact Hn].
      * intros [x [[<-|Hx] Hn]]; [congruence|]. now exists x.
    + split; [|reflexivity]. intros _. exists c. split; [now left|exact E].
Qed.

Lemma true_divide_no_value_error (a b : Z) : true_divide a b <> Raises ValueError.
Proof. unfold true_divide. now destruct (_ && _). Qed.

Lemma shown_no_value_error (v u : Z) (mark : str) : shown v u mark <> Raises ValueError.
Proof.
  unfold shown. pose proof (true_divide_no_value_error v u).
  destruct (true_divide v u) as [x|e]; [discriminate|congruence].
Qed.

(** X20. [ValueError].  The formatter raises [ValueError] exactly when the
    text holds a character that [str.isdigit] accepts and that is no decimal
    digit (a superscript or circled digit), or more than 4300 digit
    characters. *)
Theorem beautify_views_value_error :
  forall text : str,
    beautify_views text = Raises ValueError
    <-> (exists c, In c text /\ str_isdigit c = true /\ isdigit c = false)
        \/ (4300 < length (filter str_isdigit text))%nat.
Proof.
  intros text. unfold beautify_views.
  destruct text as [|c0 text].
  { split; [discriminate|]. intros [[c [[] _]]|H]; cbn in H; lia. }
  set (s := c0 :: text).
  assert (F : forall c, In c (filter str_isdigit s) <-> In c s /\ str_isdigit c = true)
    by (intros c; apply filter_In).
  destruct (filter str_isdigit s) as [|d ds] eqn:E.
  { split; [discriminate|]. intros [[c [Hc [Hd _]]]|H]; [|cbn in H; lia].
    destruct (proj2 (F c) (conj Hc Hd)). }
  unfold int. destruct (Nat.ltb_spec 4300 (length (d :: ds))) as [Hl|Hl].
  { split; [intros _; now right|reflexivity]. }
  destruct (int_digits 0 (d :: ds)) as [n|] eqn:En.
  - split.
    + intros H. exfalso. revert H.
      repeat (destruct (_ <? _)); try discriminate; apply shown_no_value_error.
    + intros [[c [Hc [Hd Hn]]]|H]; [|lia].
      assert (N : int_digits 0 (d :: ds) = None).
      { apply int_digits_none. exists c. split; [now apply F|].
        now apply digit_value_none. }
      congruence.
  - split; [|reflexivity]. intros _. left.
    apply int_digits_none in En. destruct En as [c [Hc Hn]].
    apply F in Hc. destruct Hc as [Hc Hd].
    exists c. split; [exact Hc|]. split; [exact Hd|]. now apply digit_value_none.
Qed.

Lemma beautify_views_value_error_witness :
  beautify_views (lit "10" ++ [178%N]) = Raises ValueError.
Proof.
  apply (proj2 (beautify_views_value_error (lit "10" ++ [178%N]))).
  left. exists 178%N. repeat split. right. right. now left.
Defined.

(* ------------------------------------------------------------------ *)
(** The exponent of a quotient *)

Lemma div_ge_iff (a d k : Z) : 0 < d -> (k <= a / d <-> k * d <= a).
Proof.
  intros Hd. split; intros H.
  - pose proof (Z.mul_div_le a d Hd). nia.
  - apply Z.div_le_lower_bound; lia.
Qed.

(** The exponent chosen for a quotient of at least 1 leaves a significand
    of 53 bits. *)
Lemma exponent_normal (a b : Z) :
  0 < b -> b <= a ->
  let e0 := Z.log2 a - Z.log2 b - 53 in
  let e1 := if 2 ^ 53 <=? fst (scaled a b e0) / snd (scaled a b e0) then e0 + 1 else e0 in
  -53 <= e1
  /\ (e1 < 0 -> a < 2 ^ 53 * b)
  /\ (0 <= e1 -> 2 ^ 52 * (b * 2 ^ e1) <= a < 2 ^ 53 * (b * 2 ^ e1)).
Proof.
  intros Hb Hab e0 e1.
  assert (Ha : 0 < a) by lia.
  pose proof (Z.log2_spec a Ha) as [A1 A2].
  pose proof (Z.log2_spec b Hb) as [B1 B2].
  pose proof (Z.log2_nonneg a) as La. pose proof (Z.log2_nonneg b) as Lb.
  assert (L1 : Z.log2 b <= Z.log2 a) by (apply Z.log2_le_mono; lia).
  rewrite Z.pow_succ_r in A2, B2 by lia.
  set (A := 2 ^ Z.log2 a) in *. set (B := 2 ^ Z.log2 b) in *.
  assert (E0 : -53 <= e0) by (unfold e0; lia).
  destruct (Z.ltb_spec e0 0) as [Hneg|Hpos].
  - (* the quotient is below 2 ^ 53 *)
    assert (EA : A * 2 ^ (- e0) = B * 2 ^ 53).
    { unfold A, B. rewrite <- !Z.pow_add_r by lia. f_equal. unfold e0. lia. }
    assert (P0 : 0 < 2 ^ (- e0)) by (apply Z.pow_pos_nonneg; lia).
    assert (S0 : scaled a b e0 = (a * 2 ^ (- e0), b)).
    { unfold scaled. destruct (Z.leb_spec 0 e0); [lia|reflexivity]. }
    subst e1. rewrite S0. cbn [fst snd].
    assert (P1 : 2 <= 2 ^ (- e0)).
    { change 2 with (2 ^ 1) at 1. apply Z.pow_le_mono_r; lia. }
    assert (Up : a < 2 ^ 53 * b) by nia.
    destruct (Z.leb_spec (2 ^ 53) (a * 2 ^ (- e0) / b)) as [Q|Q].
    + apply div_ge_iff in Q; [|lia].
      split; [lia|]. split; [intros _; exact Up|]. intros E1.
      assert (e0 = -1) by lia.
      replace (e0 + 1) with 0 by lia.
      replace (- e0) with 1 in * by lia.
      change (2 ^ 0) with 1. change (2 ^ 1) with 2 in *. lia.
    + split; [lia|]. split; [intros _; exact Up|lia].
  - (* the quotient is 2 ^ 53 or more *)
    assert (EA : A = B * 2 ^ 53 * 2 ^ e0).
    { unfold A, B. rewrite <- !Z.pow_add_r by lia. f_equal. unfold e0. lia. }
    assert (P0 : 0 < 2 ^ e0) by (apply Z.pow_pos_nonneg; lia).
    assert (S0 : scaled a b e0 = (a, b * 2 ^ e0)).
    { unfold scaled. destruct (Z.leb_spec 0 e0); [reflexivity|lia]. }
    subst e1. rewrite S0. cbn [fst snd].
    set (P := 2 ^ e0) in *.
    assert (Lo : 2 ^ 52 * (b * P) < a) by nia.
    assert (Hi : a < 2 ^ 54 * (b * P)) by nia.
    destruct (Z.leb_spec (2 ^ 53) (a / (b * P))) as [Q|Q].
    + apply div_ge_iff in Q; [|nia].
      split; [lia|]. split; [lia|]. intros _.
      rewrite Z.pow_add_r by lia. change (2 ^ 1) with 2. fold P. nia.
    + split; [lia|]. split; [lia|]. intros _. fold P.
      split; [lia|].
      assert (Q' : ~ 2 ^ 53 * (b * P) <= a).
      { intros C. apply (div_ge_iff _ (b * P) (2 ^ 53)) in C; nia. }
      lia.
Qed.

Lemma round_half_even_bounds (n d : Z) :
  0 < d -> n / d <= round_half_even n d <= n / d + 1.
Proof.
  intros Hd. unfold round_half_even.
  destruct (2 * (n mod d) ?= d); [destruct (Z.even (n / d))| |]; lia.
Qed.

(** A quotient of at least 1 is out of the range of a double exactly from
    [2 ^ 1024 - 2 ^ 970] on: the middle between the largest double and
    [2 ^ 1024]. *)
Lemma true_divide_overflow (a b : Z) :
  0 < b -> b <= a ->
  (true_divide a b = Raises OverflowError <-> (2 ^ 1024 - 2 ^ 970) * b <= a)
  /\ (true_divide a b <> Raises OverflowError -> exists x, true_divide a b = Returns x).
Proof.
  intros Hb Hab.
  pose proof (exponent_normal a b Hb Hab) as N. cbv zeta in N.
  unfold true_divide.
  set (e0 := Z.log2 a - Z.log2 b - 53) in *.
  set (e1 := if 2 ^ 53 <=? fst (scaled a b e0) / snd (scaled a b e0) then e0 + 1 else e0)
    in *.
  destruct N as [N0 [N1 N2]]. clearbody e1. clear e0.
  rewrite Z.max_l by lia.
  assert (K1 : 2 ^ 1024 = 2 ^ 54 * 2 ^ 970) by reflexivity.
  rewrite K1.
  assert (K0 : 0 < 2 ^ 970) by (apply Z.pow_pos_nonneg; lia).
  destruct (Z.leb_spec 0 e1) as [Hpos|Hneg]; cbn [andb].
  2:{ specialize (N1 Hneg). split; [|intros _; eexists; reflexivity].
      split; [discriminate|]. intros C. exfalso.
      set (K := 2 ^ 970) in *. nia. }
  specialize (N2 Hpos). clear N1.
  unfold scaled. destruct (Z.leb_spec 0 e1) as [_|?]; [|lia]. cbn [fst snd].
  assert (P0 : 0 < 2 ^ e1) by (apply Z.pow_pos_nonneg; lia).
  assert (D0 : 0 < b * 2 ^ e1) by nia.
  pose proof (round_half_even_bounds a (b * 2 ^ e1) D0) as R.
  assert (Q1 : 2 ^ 52 <= a / (b * 2 ^ e1)) by (apply div_ge_iff; lia).
  assert (Q2 : a / (b * 2 ^ e1) < 2 ^ 53)
    by (apply Z.div_lt_upper_bound; lia).
  destruct (Z.compare_spec e1 971) as [E|E|E].
  - (* the last binade *)
    subst e1. replace (2 ^ 971) with (2 * 2 ^ 970) in * by reflexivity.
    set (K := 2 ^ 970) in *.
    unfold round_half_even in *.
    pose proof (Z.div_mod a (b * (2 * K)) ltac:(lia)) as DM.
    pose proof (Z.mod_pos_bound a (b * (2 * K)) D0) as MB.
    set (q := a / (b * (2 * K))) in *. set (r := a mod (b * (2 * K))) in *.
    destruct (Z.eq_dec q (2 ^ 53 - 1)) as [Eq|Nq].
    + assert (Ev : Z.even q = false) by (rewrite Eq; reflexivity).
      rewrite Ev.
      destruct (Z.compare_spec (2 * r) (b * (2 * K))) as [C|C|C].
      * destruct (Z.leb_spec (2 ^ 54 * K) ((q + 1) * (2 * K))) as [O|O]; [|nia].
        split; [|congruence]. split; [intros _; nia|reflexivity].
      * destruct (Z.leb_spec (2 ^ 54 * K) (q * (2 * K))) as [O|O]; [nia|].
        split; [|intros _; eexists; reflexivity].
        split; [discriminate|]. intros X. exfalso. nia.
      * destruct (Z.leb_spec (2 ^ 54 * K) ((q + 1) * (2 * K))) as [O|O]; [|nia].
        split; [|congruence]. split; [intros _; nia|reflexivity].
    + assert (Lq : q <= 2 ^ 53 - 2) by lia.
      match goal with
      | |- context [if ?c then _ else _] => destruct c eqn:O
      end.
      * exfalso. apply Z.leb_le in O. nia.
      * split; [|intros _; eexists; reflexivity].
        split; [discriminate|]. intros X. exfalso. nia.
  - (* below: the double is at most 2 ^ 1023 *)
    assert (P1 : 2 ^ e1 <= 2 ^ 970) by (apply Z.pow_le_mono_r; lia).
    set (K := 2 ^ 970) in *. set (P := 2 ^ e1) in *.
    set (m := round_half_even a (b * P)) in *.
    destruct (Z.leb_spec (2 ^ 54 * K) (m * P)) as [O|O]; [exfalso; nia|].
    split; [|intros _; eexists; reflexivity].
    split; [discriminate|]. intros X. exfalso. nia.
  - (* above: the double is at least 2 ^ 1024 *)
    assert (P1 : 2 ^ 972 <= 2 ^ e1) by (apply Z.pow_le_mono_r; lia).
    replace (2 ^ 972) with (4 * 2 ^ 970) in P1 by reflexivity.
    set (K := 2 ^ 970) in *. set (P := 2 ^ e1) in *.
    set (m := round_half_even a (b * P)) in *.
    destruct (Z.leb_spec (2 ^ 54 * K) (m * P)) as [O|O]; [|exfalso; nia].
    split; [|congruence]. split; [intros _; nia|reflexivity].
Qed.

Lemma shown_overflow (v u : Z) (mark : str) :
  0 < u -> u <= v ->
  (shown v u mark = Raises OverflowError <-> (2 ^ 1024 - 2 ^ 970) * u <= v)
  /\ (shown v u mark <> Raises OverflowError -> exists out, shown v u mark = Returns out).
Proof.
  intros Hu Huv. destruct (true_divide_overflow v u Hu Huv) as [O R].
  unfold shown. destruct (true_divide v u) as [x|e] eqn:E.
  - split; [|intros _; eexists; reflexivity].
    rewrite <- O. split; discriminate.
  - split.
    + rewrite <- O. split; congruence.
    + intros X. destruct R as [x Hx]; congruence.
Qed.

(** X21. [OverflowError].  Once the digits of the text are read as a count,
    the formatter raises [OverflowError] exactly when the count is at least
    [(2 ^ 1024 - 2 ^ 970) * 10 ^ 9], where the count in billions no longer
    fits a double (a count of 318 digits or more, and some of 317); below
    that it returns a text. *)
Theorem beautify_views_overflow :
  forall (text : str) (v : Z),
    int (filter str_isdigit text) = Returns v ->
    (beautify_views text = Raises OverflowError
     <-> (2 ^ 1024 - 2 ^ 970) * 10 ^ 9 <= v)
    /\ (v < (2 ^ 1024 - 2 ^ 970) * 10 ^ 9 -> exists out, beautify_views text = Returns out).
Proof.
  intros text v H. rewrite (beautify_views_of_int text v H).
  assert (K : 2 ^ 54 <= 2 ^ 1024 - 2 ^ 970) by (vm_compute; discriminate).
  set (M := 2 ^ 1024 - 2 ^ 970) in *.
  change (10 ^ 9) with 1000000000.
  destruct (Z.ltb_spec v 1000) as [B0|B0].
  { split; [|intros _; eexists; reflexivity]. split; [discriminate|lia]. }
  destruct (Z.ltb_spec v 1000000) as [B1|B1].
  { destruct (shown_overflow v 1000 (lit " <b>k</b>") ltac:(lia) ltac:(lia)) as [O R].
    split; [rewrite O; lia|]. intros _. apply R. rewrite O. lia. }
  destruct (Z.ltb_spec v 1000000000) as [B2|B2].
  { destruct (shown_overflow v 1000000 (lit " <b>m</b>") ltac:(lia) ltac:(lia)) as [O R].
    split; [rewrite O; lia|]. intros _. apply R. rewrite O. lia. }
  destruct (shown_overflow v 1000000000 (lit " <b>b</b>") ltac:(lia) ltac:(lia)) as [O R].
  split; [exact O|]. intros X. apply R. rewrite O. lia.
Qed.

Lemma beautify_views_overflow_witness :
  int (filter str_isdigit (lit "2" ++ repeat 48%N 317)) = Returns (2 * 10 ^ 317)
  /\ (2 ^ 1024 - 2 ^ 970) * 10 ^ 9 <= 2 * 10 ^ 317
  /\ beautify_views (lit "2" ++ repeat 48%N 317) = Raises OverflowError.
Proof.
  assert (H : int (filter str_isdigit (lit "2" ++ repeat 48%N 317)) = Returns (2 * 10 ^ 317))
    by (vm_compute; reflexivity).
  assert (B : (2 ^ 1024 - 2 ^ 970) * 10 ^ 9 <= 2 * 10 ^ 317) by (vm_compute; discriminate).
  split; [exact H|]. split; [exact B|].
  apply (proj1 (beautify_views_overflow (lit "2" ++ repeat 48%N 317) (2 * 10 ^ 317) H)).
  exact B.
Defined.

(* ------------------------------------------------------------------ *)
(** Just below a unit *)

Lemma shown_thousand (v u : Z) (mark : str) :
  0 < u -> 10 * u < 2 ^ 35 ->
  2 * (10 * v) > 2 * 9999 * u + u -> v < 1000 * u ->
  shown v u mark = Returns (lit "1000.0" ++ mark).
Proof.
  intros Hu Hs Hlo Hhi.
  destruct (tenths_near v u Hu ltac:(lia) Hs) as [x [E Hx]].
  assert (T : tenths x = 10000) by nia.
  unfold shown, format_1f. rewrite E, T. reflexivity.
Qed.

(** X22. Just below a unit.  A count within 50 of a million is shown as
    1000.0 thousands and a count within 50 000 of a billion as 1000.0
    millions: the unit is chosen before the number is rounded. *)
Theorem beautify_views_just_below_a_unit :
  forall (text : str) (v : Z),
    int (filter str_isdigit text) = Returns v ->
    (999950 <= v < 1000000 -> beautify_views text = Returns (lit "1000.0 <b>k</b>"))
    /\ (999950000 <= v < 1000000000
        -> beautify_views text = Returns (lit "1000.0 <b>m</b>")).
Proof.
  intros text v H. rewrite (beautify_views_of_int text v H).
  split; intros B.
  - destruct (Z.ltb_spec v 1000) as [?|_]; [lia|].
    destruct (Z.ltb_spec v 1000000) as [_|?]; [|lia].
    destruct (Z.eq_dec v 999950) as [->|Hne]; [vm_compute; reflexivity|].
    apply (shown_thousand v 1000 (lit " <b>k</b>")); lia.
  - destruct (Z.ltb_spec v 1000) as [?|_]; [lia|].
    destruct (Z.ltb_spec v 1000000) as [?|_]; [lia|].
    destruct (Z.ltb_spec v 1000000000) as [_|?]; [|lia].
    destruct (Z.eq_dec v 999950000) as [->|Hne]; [vm_compute; reflexivity|].
    apply (shown_thousand v 1000000 (lit " <b>m</b>")); lia.
Qed.

Lemma beautify_views_just_below_a_unit_witness :
  (int (filter str_isdigit (lit "999,987")) = Returns 999987 /\ 999950 <= 999987 < 1000000)
  /\ beautify_views (lit "999,987") = Returns (lit "1000.0 <b>k</b>")
  /\ beautify_views (lit "999,950,000") = Returns (lit "1000.0 <b>m</b>").
Proof.
  split; [split; [reflexivity|lia]|]. split.
  - apply (proj1 (beautify_views_just_below_a_unit (lit "999,987") 999987 eq_refl)). lia.
  - apply (proj2 (beautify_views_just_below_a_unit (lit "999,950,000") 999950000 eq_refl)).
    lia.
Defined.

End BeautifyViews.

(* ================================================================== *)
(** ** Numbered-list spacing *)

Lemma sub_rel_numbered_items :
  forall (items : list numbered) pv (pre : str),
    Forall well_numbered items ->
    sub_rel p_numbered [TLit [NL; NL]; TRef 1] pv pre (flat_map numbered_item items)
    = flat_map (fun it => [NL; NL] ++ n_digits it ++ [DOT] ++ [n_space it] ++ n_text it)
               items.
Proof.
  induction items as [|it items IH]; intros pv pre H.
  - cbn [flat_map]. apply sub_rel_nil.
    apply match_at_none_first; [reflexivity|exact I].
  - inversion H as [|? ? Hit Hs]; subst.
    destruct Hit as (Hk & Hd & Hlen & Hsp & _ & Ht).
    destruct it as [k d sp body]. cbn [n_newlines n_digits n_space n_text] in *.
    cbn [flat_map]. unfold numbered_item at 1.
    cbn [n_newlines n_digits n_space n_text].
    set (after := flat_map numbered_item items).
    set (u := repeat NL k ++ d ++ [DOT; sp]).
    replace ((repeat NL k ++ d ++ [DOT] ++ [sp] ++ body) ++ after)
      with (u ++ body ++ after)
      by (unfold u; now rewrite <- !app_assoc).
    assert (Hu : length u = k + length d + 2).
    { unfold u. rewrite !length_app, repeat_length. simpl. lia. }
    rewrite (sub_rel_match p_numbered _ pv pre u (body ++ after)
               (Match (length pre) (k + length d + 2 + length pre)
                      [(1, (k + length pre, k + length d + 2 + length pre))])).
    + assert (Fb : Forall (fun c => first p_numbered c = false) body).
      { apply (first_only p_numbered NL); [exact first_p_numbered|].
        apply (avoids_notin _ _ NL Ht). reflexivity. }
      rewrite (sub_rel_skip_all p_numbered _ eq_refl body _ _ _ Fb).
      unfold after. rewrite (IH _ _ Hs).
      cbn [expand flat_map lookup Nat.eqb m_caps].
      replace (k + length pre) with (length pre + k) by lia.
      replace (k + length d + 2 + length pre) with (length pre + (k + length d + 2)) by lia.
      rewrite slice_shift.
      assert (Hsl : slice (u ++ body ++ flat_map numbered_item items) k (k + length d + 2)
                    = d ++ [DOT; sp]).
      { unfold u. rewrite <- app_assoc.
        generalize (repeat_length NL k). generalize (repeat NL k). intros nls Hn.
        rewrite <- Hn.
        replace (length nls + length d + 2) with (length nls + length (d ++ [DOT; sp]))
          by (rewrite length_app; simpl; lia).
        apply slice_mid. }
      rewrite Hsl. rewrite app_nil_r, <- !app_assoc. reflexivity.
    + unfold u. rewrite <- !app_assoc. cbn [app]. now apply numbered_match.
    + cbn [m_end]. lia.
    + unfold u. destruct Hk as [-> | ->]; discriminate.
Qed.

Lemma avoids_numbered_items X (f : numbered -> str) (items : list numbered) :
  (forall it, well_numbered it -> avoids X (f it)) ->
  Forall well_numbered items -> avoids X (flat_map f items).
Proof.
  intros Hf H. induction H as [|it items Hi Hs IH]; [constructor|].
  cbn [flat_map]. apply avoids_app. split; auto.
Qed.

Lemma avoids_numbered_parts (it : numbered) (nls : nat) :
  well_numbered it ->
  avoids marks_but_period
         (repeat NL nls ++ n_digits it ++ [DOT] ++ [n_space it] ++ n_text it).
Proof.
  intros (Hk & Hd & Hlen & Hsp & _ & Ht).
  repeat (apply avoids_app; split).
  - apply avoids_repeat. reflexivity.
  - apply ascii_digit_avoids; [reflexivity|exact Hd].
  - repeat constructor.
  - apply isspace_avoids; [reflexivity|exact Hsp].
  - revert Ht. apply avoids_weaken. reflexivity.
Qed.

Lemma backslash_escape_numbered (it : numbered) :
  well_numbered it ->
  backslash_escape [DOT]
    ([NL; NL] ++ n_digits it ++ [DOT] ++ [n_space it] ++ n_text it)
  = spaced_item it.
Proof.
  intros (Hk & Hd & Hlen & Hsp & _ & Ht). unfold spaced_item.
  rewrite !backslash_escape_app.
  rewrite (backslash_escape_id [DOT] [NL; NL]) by repeat constructor.
  rewrite (backslash_escape_id [DOT] (n_digits it))
    by (apply ascii_digit_avoids; [reflexivity|exact Hd]).
  rewrite (backslash_escape_id [DOT] [n_space it])
    by (apply isspace_avoids; [reflexivity|exact Hsp]).
  reflexivity.
Qed.

(** C8, as the code has it. A numbered list after a text of one line: every
    item that is written after one newline gets a second one (a blank line),
    every item written after two keeps its two, so that exactly two newlines
    stand before every item; every period is escaped, and nothing else
    changes. *)
Theorem numbered_list_spacing :
  forall (pre : str) (items : list numbered) (flag : bool),
    avoids (marks_but_period ++ [NL]) pre ->
    Forall well_numbered items ->
    escape (pre ++ flat_map numbered_item items) flag
    = Ok (backslash_escape [DOT] pre ++ flat_map spaced_item items).
Proof.
  intros pre items flag Hpre Hitems.
  rewrite escape_eq. f_equal. unfold escape_stages.
  set (text0 := pre ++ flat_map numbered_item items).
  set (text1 := pre ++ flat_map (fun it => [NL; NL] ++ n_digits it ++ [DOT]
                                           ++ [n_space it] ++ n_text it) items).
  assert (Ppre : avoids marks_but_period pre)
    by (revert Hpre; apply avoids_weaken; reflexivity).
  assert (A0 : avoids marks_but_period text0).
  { unfold text0. apply avoids_app. split; [exact Ppre|].
    apply avoids_numbered_items; [|exact Hitems].
    intros it Hit. apply (avoids_numbered_parts it (n_newlines it) Hit). }
  assert (A1 : avoids marks_but_period text1).
  { unfold text1. apply avoids_app. split; [exact Ppre|].
    apply avoids_numbered_items; [|exact Hitems].
    intros it Hit. apply (avoids_numbered_parts it 2 Hit). }
  rewrite stage_inline_id by (revert A0; apply avoids_weaken; reflexivity).
  rewrite stage_blocks_numbered by (revert A0; apply avoids_weaken; reflexivity).
  assert (E1 : sub p_numbered [TLit [NL; NL]; TRef 1] text0 = text1).
  { unfold text0, text1. rewrite sub_rel_start.
    assert (Fpre : Forall (fun c => first p_numbered c = false) pre).
    { apply (first_only p_numbered NL); [exact first_p_numbered|].
      apply (avoids_notin _ _ NL Hpre). reflexivity. }
    rewrite (sub_rel_skip_all p_numbered _ eq_refl pre None [] _ Fpre).
    f_equal. now apply sub_rel_numbered_items. }
  rewrite E1.
  rewrite stage_code_id by (revert A1; apply avoids_weaken; reflexivity).
  rewrite stage_punctuation_flat.
  rewrite <- (backslash_escape_app_sets (lit "=|{}") (lit ".!")) by reflexivity.
  rewrite (backslash_escape_id (lit "=|{}") text1)
    by (revert A1; apply avoids_weaken; reflexivity).
  rewrite <- (backslash_escape_app_sets [DOT] (lit "!")) by reflexivity.
  set (text2 := backslash_escape [DOT] text1).
  assert (A2 : avoids (lit "!`") text2).
  { apply avoids_backslash_escape; [reflexivity|].
    revert A1. apply avoids_weaken. reflexivity. }
  rewrite (backslash_escape_id (lit "!") text2)
    by (revert A2; apply avoids_weaken; reflexivity).
  rewrite stage_parity_id by (apply (avoids_notin _ _ BQ A2); reflexivity).
  unfold text2, text1. rewrite backslash_escape_app. f_equal.
  clear - Hitems. induction Hitems as [|it items Hit Hs IH]; [reflexivity|].
  cbn [flat_map]. rewrite backslash_escape_app, IH. f_equal.
  now apply backslash_escape_numbered.
Qed.

Lemma numbered_list_spacing_witness :
  (avoids (marks_but_period ++ [NL]) (lit "Steps.")
   /\ Forall well_numbered
        [Numbered 1 (lit "1") 32%N (lit "mix"); Numbered 2 (lit "12") 32%N (lit "bake.")])
  /\ escape (lit "Steps." ++ [NL] ++ lit "1. mix" ++ [NL; NL] ++ lit "12. bake.") false
     = Ok (lit "Steps\." ++ [NL; NL] ++ lit "1\. mix" ++ [NL; NL] ++ lit "12\. bake\.").
Proof.
  assert (H1 : avoids (marks_but_period ++ [NL]) (lit "Steps.")) by repeat constructor.
  assert (H2 : Forall well_numbered
                 [Numbered 1 (lit "1") 32%N (lit "mix");
                  Numbered 2 (lit "12") 32%N (lit "bake.")]).
  { repeat constructor; cbn; auto; discriminate. }
  split; [split; assumption|].
  apply (numbered_list_spacing (lit "Steps.") _ false H1 H2).
Defined.

(** Outside such lists the two newlines are not promised: when only
    whitespace stands between an earlier newline and the number, the match
    begins at that newline, and the blank line is put there. *)
Example numbered_after_whitespace_line :
  escape (lit "a" ++ [NL] ++ lit " " ++ [NL] ++ lit "1. x") false
  = Ok (lit "a" ++ [NL; NL] ++ lit " " ++ [NL] ++ lit "1\. x").
Proof. vm_compute. reflexivity. Qed.
